(** * tetsuo/mp4: box codec, sample-table reconstruction and fragment emission

    A shallow embedding of the parts of the [bmff] box codec (scanner and
    box writer) and of the [remux] package (sample-table reconstruction, seek
    helpers, fragment selection, [moof] serialisation and the stream writer)
    that the properties below are about, followed by the properties
    themselves.

    Conventions.
    - Fixed-width Go integers are values of [Z]; every conversion and every
      operation on file-derived values ([int64], [uint32], [int32], [uint8])
      writes its wrap-around out with [u8], [u32], [i32], [i64], [u64].
    - Go's [int] is used only for slice lengths and indices derived from them.
      A slice never holds 2^59 elements, so this arithmetic is exact and is
      written without wrap-around.
    - A slice is a [list]; an index expression [s[i]] is [index s i], which
      panics out of range like the Go runtime does.
    - A function that can return an [error] or abort with a run-time panic
      returns a [result]. *)

From Stdlib Require Import ZArith List Bool String Lia.
Import ListNotations.
Open Scope Z_scope.

(** ** Machine integers *)

Definition u8 (z : Z) : Z := z mod 2 ^ 8.
Definition u16 (z : Z) : Z := z mod 2 ^ 16.
Definition u32 (z : Z) : Z := z mod 2 ^ 32.
Definition u64 (z : Z) : Z := z mod 2 ^ 64.
Definition i32 (z : Z) : Z := (z + 2 ^ 31) mod 2 ^ 32 - 2 ^ 31.
Definition i64 (z : Z) : Z := (z + 2 ^ 63) mod 2 ^ 64 - 2 ^ 63.

Definition uint32Max : Z := 2 ^ 32 - 1.

(** ** Results: a value, a returned [error], or a run-time panic *)

(** Go [error] values: the two sentinels of package [io] that the code
    compares against, and every other error by its message. *)
Inductive error : Type :=
| EOF
| ErrUnexpectedEOF
| Errorf (msg : string).

Inductive result (A : Type) : Type :=
| Ok (a : A)
| Err (e : error)
| Panic.
Arguments Ok {A} a.
Arguments Err {A} e.
Arguments Panic {A}.

Definition bind {A B} (r : result A) (k : A -> result B) : result B :=
  match r with
  | Ok a => k a
  | Err e => Err e
  | Panic => Panic
  end.

Notation "x <- r ;; k" := (bind r (fun x => k))
  (at level 61, r at next level, right associativity).

Definition len {A} (l : list A) : Z := Z.of_nat (List.length l).

(** [s[i]] on a slice: a run-time panic when [i] is out of range. *)
Definition index {A} (l : list A) (i : Z) : result A :=
  if i <? 0 then Panic
  else match nth_error l (Z.to_nat i) with
       | Some a => Ok a
       | None => Panic
       end.

(** ** Bytes, [encoding/binary] big-endian and four-character codes *)

(** [binary.BigEndian.PutUint16/32/64]: the bytes stored for [v]. *)
Definition PutUint16 (v : Z) : list Z :=
  [u8 (Z.shiftr v 8); u8 v].

Definition PutUint32 (v : Z) : list Z :=
  [u8 (Z.shiftr v 24); u8 (Z.shiftr v 16); u8 (Z.shiftr v 8); u8 v].

Definition PutUint64 (v : Z) : list Z :=
  [u8 (Z.shiftr v 56); u8 (Z.shiftr v 48); u8 (Z.shiftr v 40);
   u8 (Z.shiftr v 32); u8 (Z.shiftr v 24); u8 (Z.shiftr v 16);
   u8 (Z.shiftr v 8); u8 v].

(** [binary.BigEndian.Uint32/64] of the first bytes of [b]. *)
Definition byteAt (b : list Z) (i : nat) : Z := nth i b 0.

Definition Uint32 (b : list Z) : Z :=
  Z.lor (Z.lor (Z.lor (byteAt b 3) (Z.shiftl (byteAt b 2) 8))
               (Z.shiftl (byteAt b 1) 16))
        (Z.shiftl (byteAt b 0) 24).

Definition Uint64 (b : list Z) : Z :=
  Z.lor (Z.lor (Z.lor (Z.lor (Z.lor (Z.lor (Z.lor
    (byteAt b 7) (Z.shiftl (byteAt b 6) 8)) (Z.shiftl (byteAt b 5) 16))
    (Z.shiftl (byteAt b 4) 24)) (Z.shiftl (byteAt b 3) 32))
    (Z.shiftl (byteAt b 2) 40)) (Z.shiftl (byteAt b 1) 48))
    (Z.shiftl (byteAt b 0) 56).

(** [b[lo:hi]] for in-range bounds. *)
Definition slice {A} (b : list A) (lo hi : Z) : list A :=
  firstn (Z.to_nat (hi - lo)) (skipn (Z.to_nat lo) b).

(** [copy(b[off:], p)] for [p] that fits: [b] with [p] stored at [off]. *)
Definition store {A} (b : list A) (off : Z) (p : list A) : list A :=
  firstn (Z.to_nat off) b ++ p ++ skipn (Z.to_nat off + List.length p) b.

(** The bytes of a string literal such as ["moof"]. *)
Definition bytesOfString (s : string) : list Z :=
  map (fun a => Z.of_N (Ascii.N_of_ascii a)) (list_ascii_of_string s).

(** ** Package io: the byte-source and sink interfaces *)

Module io.

Inductive whence := SeekStart | SeekCurrent | SeekEnd.

(** [io.ReadSeeker].  [Read r n] is [r.Read(buf)] on a buffer of [n] bytes:
    the bytes stored at the front of [buf] and the error.  [ReadFull r n] is
    the standard library's [io.ReadFull(r, buf)] on such a buffer, with its
    documented result: [EOF] when no byte was read, [ErrUnexpectedEOF] when
    the source ended after some but not all bytes.  [Seek] returns the new
    absolute position.  [Read_progress] is the interface's requirement that a
    read into a non-empty buffer returns a byte or an error; [Read_fits]
    that it returns no more than the buffer holds. *)
Class ReadSeeker (R : Type) := {
  Read : R -> Z -> R * list Z * option error;
  ReadFull : R -> Z -> R * list Z * option error;
  Seek : R -> Z -> whence -> R * Z * option error;
  Read_fits : forall r n, 0 <= n ->
    len (snd (fst (Read r n))) <= n;
  Read_progress : forall r n, 0 < n ->
    snd (fst (Read r n)) <> [] \/ snd (Read r n) <> None
}.

(** [io.ReaderAt].  [ReadAt r n off] is [r.ReadAt(buf, off)] on a buffer
    of [n] bytes; it does not move a position in the source.
    [ReadAt_progress] is the interface's requirement that fewer bytes than
    asked for come with an error. *)
Class ReaderAt (R : Type) := {
  ReadAt : R -> Z -> Z -> list Z * option error;
  ReadAt_fits : forall r n off, 0 <= n -> len (fst (ReadAt r n off)) <= n;
  ReadAt_progress : forall r n off, 0 < n ->
    fst (ReadAt r n off) <> [] \/ snd (ReadAt r n off) <> None
}.

(** [io.Writer]: [Write w p] hands [p] to the sink. *)
Class Writer (W : Type) := {
  Write : W -> list Z -> W * option error
}.

(** An in-memory source in the manner of [bytes.Reader]: the data and the
    current position.  [Seek] refuses negative positions, so a reader never
    holds one; [Read] treats such a state as exhausted. *)
Record MemReader := { data : list Z; off : Z }.

Definition memRead (r : MemReader) (n : Z) : MemReader * list Z * option error :=
  if (off r <? 0) || (off r >=? len (data r)) then (r, [], Some EOF)
  else
    let got := firstn (Z.to_nat n) (skipn (Z.to_nat (off r)) (data r)) in
    ({| data := data r; off := off r + len got |}, got, None).

Definition memReadFull (r : MemReader) (n : Z)
  : MemReader * list Z * option error :=
  if n <=? 0 then (r, [], None)
  else
    let got := firstn (Z.to_nat n) (skipn (Z.to_nat (off r)) (data r)) in
    let r' := {| data := data r; off := off r + len got |} in
    if len got >=? n then (r', got, None)
    else if len got =? 0 then (r', got, Some EOF)
    else (r', got, Some ErrUnexpectedEOF).

Definition memSeek (r : MemReader) (offset : Z) (w : whence)
  : MemReader * Z * option error :=
  let abs := match w with
             | SeekStart => offset
             | SeekCurrent => off r + offset
             | SeekEnd => len (data r) + offset
             end in
  if abs <? 0 then (r, 0, Some (Errorf "bytes.Reader.Seek: negative position"))
  else ({| data := data r; off := abs |}, abs, None).

Definition memReadAt (r : MemReader) (n : Z) (offset : Z)
  : list Z * option error :=
  if offset <? 0
  then ([], Some (Errorf "bytes.Reader.ReadAt: negative offset"))
  else if offset >=? len (data r) then ([], Some EOF)
  else
    let got := firstn (Z.to_nat n) (skipn (Z.to_nat offset) (data r)) in
    (got, if len got <? n then Some EOF else None).

(** An in-memory sink in the manner of [bytes.Buffer]: it never fails. *)
Record MemWriter := { contents : list Z }.

Definition memWrite (w : MemWriter) (p : list Z) : MemWriter * option error :=
  ({| contents := contents w ++ p |}, None).

End io.

(** * Package bmff: scanner and box writer *)

Module bmff.

Definition BoxType := list Z.

Definition TypeMvhd : BoxType := bytesOfString "mvhd".
Definition TypeTkhd : BoxType := bytesOfString "tkhd".
Definition TypeMdhd : BoxType := bytesOfString "mdhd".
Definition TypeElst : BoxType := bytesOfString "elst".
Definition TypeMehd : BoxType := bytesOfString "mehd".
Definition TypeTfdt : BoxType := bytesOfString "tfdt".

(** maxDepth limits the reader/writer nesting stack. *)
Definition maxDepth : Z := 16.

(** ** Scanner *)

Record ScanEntry := {
  Type_ : BoxType;
  Size : Z;        (* int64: total box size including header *)
  Offset : Z;      (* int64 *)
  HeaderSize : Z   (* 8 or 16 *)
}.

Definition DataSize (e : ScanEntry) : Z := i64 (Size e - HeaderSize e).

Section Scanner.
Context {R : Type} `{io.ReadSeeker R}.

Record Scanner := {
  rs : R;
  hdr : list Z;          (* [16]byte *)
  entry : ScanEntry;
  err : option error;
  pos : Z                (* int64 *)
}.

Definition NewScanner (r : R) : Scanner :=
  {| rs := r; hdr := repeat 0 16;
     entry := {| Type_ := repeat 0 4; Size := 0; Offset := 0;
                 HeaderSize := 0 |};
     err := None; pos := 0 |}.

Definition setRs (s : Scanner) (r : R) : Scanner :=
  {| rs := r; hdr := hdr s; entry := entry s; err := err s; pos := pos s |}.

Definition setHdr (s : Scanner) (h : list Z) : Scanner :=
  {| rs := rs s; hdr := h; entry := entry s; err := err s; pos := pos s |}.

Definition setErr (s : Scanner) (e : error) : Scanner :=
  {| rs := rs s; hdr := hdr s; entry := entry s; err := Some e;
     pos := pos s |}.

(** The tail of [Next] from "s.entry = ScanEntry{...}" on
    (lines 100-117). *)
Definition finishNext (s : Scanner) (t : BoxType) (boxStart size headerSize : Z)
  : Scanner * bool :=
  let s := {| rs := rs s; hdr := hdr s;
              entry := {| Type_ := t; Size := size; Offset := boxStart;
                          HeaderSize := headerSize |};
              err := err s; pos := pos s |} in
  let dataSize := i64 (size - headerSize) in
  let skipped :=
    if dataSize >? 0 then
      let '(r, _, e) := io.Seek (rs s) dataSize io.SeekCurrent in
      (setRs s r, e)
    else (s, None) in
  match snd skipped with
  | Some e => (setErr (fst skipped) e, false)
  | None =>
      let s := fst skipped in
      ({| rs := rs s; hdr := hdr s; entry := entry s; err := err s;
          pos := i64 (boxStart + size) |}, true)
  end.

(** The "size == 0" step of [Next] (lines 81-98), then the tail. *)
Definition resolveSize (s : Scanner) (t : BoxType) (boxStart size headerSize : Z)
  : Scanner * bool :=
  if size =? 0 then
    let '(r, cur, e) := io.Seek (rs s) 0 io.SeekCurrent in
    let s := setRs s r in
    match e with
    | Some e => (setErr s e, false)
    | None =>
        let '(r, end_, e) := io.Seek (rs s) 0 io.SeekEnd in
        let s := setRs s r in
        match e with
        | Some e => (setErr s e, false)
        | None =>
            let size := i64 (end_ - boxStart) in
            let '(r, _, e) := io.Seek (rs s) cur io.SeekStart in
            let s := setRs s r in
            match e with
            | Some e => (setErr s e, false)
            | None => finishNext s t boxStart size headerSize
            end
        end
    end
  else finishNext s t boxStart size headerSize.

(** Next advances to the next top-level box. Returns false when there
    are no more boxes or an error occurs. *)
Definition Next (s : Scanner) : Scanner * bool :=
  let '(r, got, e) := io.ReadFull (rs s) 8 in
  let s := setHdr (setRs s r) (store (hdr s) 0 got) in
  match e with
  | Some e =>
      match e with
      | EOF | ErrUnexpectedEOF => (s, false)
      | _ => (setErr s e, false)
      end
  | None =>
      let boxStart := pos s in
      let size := Uint32 (slice (hdr s) 0 4) in
      let t := slice (hdr s) 4 8 in
      if size =? 1 then
        let '(r, got, e) := io.ReadFull (rs s) 8 in
        let s := setHdr (setRs s r) (store (hdr s) 8 got) in
        match e with
        | Some e => (setErr s e, false)
        | None =>
            resolveSize s t boxStart (i64 (Uint64 (slice (hdr s) 8 16))) 16
        end
      else resolveSize s t boxStart size 8
  end.

(** Entry returns the current box entry. Only valid after Next returns
    true. *)
Definition Entry (s : Scanner) : ScanEntry := entry s.

(** Err returns the first non-EOF error encountered by the Scanner. *)
Definition Err_ (s : Scanner) : option error := err s.
End Scanner.

Arguments Scanner R : clear implicits.

(** ** Writer

    The writer stores into a caller-supplied buffer; a store outside the
    buffer or outside the nesting stack is a run-time panic.  The record
    field for [pos] is [wpos], as [pos] names the scanner's field. *)

Record Writer := {
  buf : list Z;
  wpos : Z;
  stack : list Z;     (* [maxDepth]writerFrame, each frame its offset *)
  depth : Z
}.

(** A writer method. *)
Definition method := Writer -> result Writer.

(** Statements in sequence. *)
Definition seq (body : list method) : method :=
  fun w => fold_left (fun r m => bind r m) body (Ok w).

(** NewWriter creates a Writer that writes into buf. *)
Definition NewWriter (b : list Z) : Writer :=
  {| buf := b; wpos := 0; stack := repeat 0 (Z.to_nat maxDepth); depth := 0 |}.

(** Bytes returns the written data. *)
Definition Bytes (w : Writer) : list Z := slice (buf w) 0 (wpos w).

(** [copy(b[off:], p)] where all of [p] must fit, as in
    [be.PutUint32(w.buf[off:], v)]. *)
Definition storeAt (w : Writer) (off : Z) (p : list Z) : result (list Z) :=
  if (0 <=? off) && (off + len p <=? len (buf w))
  then Ok (store (buf w) off p)
  else Panic.

Definition put (p : list Z) : method := fun w =>
  b <- storeAt w (wpos w) p ;;
  Ok {| buf := b; wpos := wpos w + len p; stack := stack w; depth := depth w |}.

Definition putUint8 (v : Z) : method := put [v].
Definition putUint16 (v : Z) : method := put (PutUint16 v).
Definition putUint32 (v : Z) : method := put (PutUint32 v).
Definition putUint64 (v : Z) : method := put (PutUint64 v).
Definition putInt32 (v : Z) : method := putUint32 (u32 v).

(** putZeros appends n zero bytes. *)
Definition putZeros (n : Z) : method := fun w =>
  if n <? 0 then Panic else put (repeat 0 (Z.to_nat n)) w.

(** putBytes appends raw bytes: [copy] stores what fits, [pos] moves by
    [len(p)]. *)
Definition putBytes (p : list Z) : method := fun w =>
  if (0 <=? wpos w) && (wpos w <=? len (buf w)) then
    let fits := firstn (Z.to_nat (len (buf w) - wpos w)) p in
    Ok {| buf := store (buf w) (wpos w) fits; wpos := wpos w + len p;
          stack := stack w; depth := depth w |}
  else Panic.

(** StartBox begins a new box. Write content, then call EndBox. *)
Definition StartBox (t : BoxType) : method := fun w =>
  if (0 <=? depth w) && (depth w <? maxDepth) then
    seq [putUint32 0; putBytes t]
        {| buf := buf w; wpos := wpos w;
           stack := store (stack w) (depth w) [wpos w];
           depth := depth w + 1 |}
  else Panic.

(** StartFullBox begins a new full box with version and flags. *)
Definition StartFullBox (t : BoxType) (version flags : Z) : method :=
  seq [StartBox t;
       putUint32 (Z.lor (u32 (Z.shiftl version 24))
                        (Z.land flags 16777215))].

(** EndBox finishes the current box by backpatching its size. *)
Definition EndBox : method := fun w =>
  let d := depth w - 1 in
  offset <- index (stack w) d ;;
  b <- storeAt w offset (PutUint32 (u32 (wpos w - offset))) ;;
  Ok {| buf := b; wpos := wpos w; stack := stack w; depth := d |}.

Definition identityMatrix : list method :=
  [putUint32 65536; putZeros 4; putZeros 4; putZeros 4;
   putUint32 65536; putZeros 4; putZeros 4; putZeros 4;
   putUint32 1073741824].

(** WriteMvhd writes a complete mvhd box. *)
Definition WriteMvhd (timescale duration nextTrackId : Z) : method :=
  seq ((if duration >? uint32Max
        then [StartFullBox TypeMvhd 1 0;
              putUint64 0; putUint64 0; putUint32 timescale;
              putUint64 duration]
        else [StartFullBox TypeMvhd 0 0;
              putUint32 0; putUint32 0; putUint32 timescale;
              putUint32 (u32 duration)])
       ++ [putUint32 65536; putUint16 256; putZeros 10]
       ++ identityMatrix
       ++ [putZeros 24; putUint32 nextTrackId; EndBox]).

(** WriteTkhd writes a complete tkhd box. *)
Definition WriteTkhd (flags trackId duration width height : Z) : method :=
  seq ((if duration >? uint32Max
        then [StartFullBox TypeTkhd 1 flags;
              putUint64 0; putUint64 0; putUint32 trackId; putUint32 0;
              putUint64 duration]
        else [StartFullBox TypeTkhd 0 flags;
              putUint32 0; putUint32 0; putUint32 trackId; putUint32 0;
              putUint32 (u32 duration)])
       ++ [putZeros 8; putUint16 0; putUint16 0; putUint16 0; putUint16 0]
       ++ identityMatrix
       ++ [putUint32 width; putUint32 height; EndBox]).

(** WriteMdhd writes a complete mdhd box. *)
Definition WriteMdhd (timescale duration language : Z) : method :=
  seq ((if duration >? uint32Max
        then [StartFullBox TypeMdhd 1 0;
              putUint64 0; putUint64 0; putUint32 timescale;
              putUint64 duration]
        else [StartFullBox TypeMdhd 0 0;
              putUint32 0; putUint32 0; putUint32 timescale;
              putUint32 (u32 duration)])
       ++ [putUint16 language; putUint16 0; EndBox]).

Record ElstEntry := {
  SegmentDuration : Z;   (* uint64 *)
  MediaTime : Z;         (* int64 *)
  MediaRateInt : Z;      (* int16 *)
  MediaRateFrac : Z      (* int16 *)
}.

(** "Determine if v1 is needed" (lines 878-885). *)
Definition elstNeedsV1 (entries : list ElstEntry) : bool :=
  existsb (fun e => (SegmentDuration e >? uint32Max)
                    || (MediaTime e >? i32 (MediaTime e))) entries.

(** WriteElst writes a complete elst box. *)
Definition WriteElst (entries : list ElstEntry) : method :=
  let v1 := elstNeedsV1 entries in
  seq ([if v1 then StartFullBox TypeElst 1 0 else StartFullBox TypeElst 0 0;
        putUint32 (u32 (len entries))]
       ++ map (fun e =>
                 seq ((if v1
                       then [putUint64 (SegmentDuration e);
                             putUint64 (u64 (MediaTime e))]
                       else [putUint32 (u32 (SegmentDuration e));
                             putUint32 (u32 (MediaTime e))])
                      ++ [putUint16 (u16 (MediaRateInt e));
                          putUint16 (u16 (MediaRateFrac e))])) entries
       ++ [EndBox]).

(** WriteMehd writes a complete mehd box. *)
Definition WriteMehd (fragmentDuration : Z) : method :=
  seq ((if fragmentDuration >? uint32Max
        then [StartFullBox TypeMehd 1 0; putUint64 fragmentDuration]
        else [StartFullBox TypeMehd 0 0; putUint32 (u32 fragmentDuration)])
       ++ [EndBox]).

(** WriteTfdt writes a complete tfdt box. *)
Definition WriteTfdt (baseMediaDecodeTime : Z) : method :=
  seq ((if baseMediaDecodeTime >? uint32Max
        then [StartFullBox TypeTfdt 1 0; putUint64 baseMediaDecodeTime]
        else [StartFullBox TypeTfdt 0 0;
              putUint32 (u32 baseMediaDecodeTime)])
       ++ [EndBox]).

(** ** Box types *)

Definition TypeFtyp : BoxType := bytesOfString "ftyp".
Definition TypeStyp : BoxType := bytesOfString "styp".
Definition TypeMoov : BoxType := bytesOfString "moov".
Definition TypeTrak : BoxType := bytesOfString "trak".
Definition TypeTref : BoxType := bytesOfString "tref".
Definition TypeTrgr : BoxType := bytesOfString "trgr".
Definition TypeEdts : BoxType := bytesOfString "edts".
Definition TypeMdia : BoxType := bytesOfString "mdia".
Definition TypeHdlr : BoxType := bytesOfString "hdlr".
Definition TypeMinf : BoxType := bytesOfString "minf".
Definition TypeVmhd : BoxType := bytesOfString "vmhd".
Definition TypeSmhd : BoxType := bytesOfString "smhd".
Definition TypeDinf : BoxType := bytesOfString "dinf".
Definition TypeDref : BoxType := bytesOfString "dref".
Definition TypeStbl : BoxType := bytesOfString "stbl".
Definition TypeStsd : BoxType := bytesOfString "stsd".
Definition TypeStts : BoxType := bytesOfString "stts".
Definition TypeCtts : BoxType := bytesOfString "ctts".
Definition TypeCslg : BoxType := bytesOfString "cslg".
Definition TypeStsc : BoxType := bytesOfString "stsc".
Definition TypeStsz : BoxType := bytesOfString "stsz".
Definition TypeStco : BoxType := bytesOfString "stco".
Definition TypeCo64 : BoxType := bytesOfString "co64".
Definition TypeStss : BoxType := bytesOfString "stss".
Definition TypeSdtp : BoxType := bytesOfString "sdtp".
Definition TypeSbgp : BoxType := bytesOfString "sbgp".
Definition TypeSgpd : BoxType := bytesOfString "sgpd".
Definition TypeSaiz : BoxType := bytesOfString "saiz".
Definition TypeSaio : BoxType := bytesOfString "saio".
Definition TypeMvex : BoxType := bytesOfString "mvex".
Definition TypeTrex : BoxType := bytesOfString "trex".
Definition TypeMoof : BoxType := bytesOfString "moof".
Definition TypeMfhd : BoxType := bytesOfString "mfhd".
Definition TypeTraf : BoxType := bytesOfString "traf".
Definition TypeTfhd : BoxType := bytesOfString "tfhd".
Definition TypeTrun : BoxType := bytesOfString "trun".
Definition TypeSidx : BoxType := bytesOfString "sidx".
Definition TypeEmsg : BoxType := bytesOfString "emsg".
Definition TypeMeta : BoxType := bytesOfString "meta".
Definition TypeEsds : BoxType := bytesOfString "esds".
Definition TypeUdta : BoxType := bytesOfString "udta".

(** [==] on two [[4]byte] arrays. *)
Fixpoint eqBytes (a b : list Z) : bool :=
  match a, b with
  | [], [] => true
  | x :: a', y :: b' => (x =? y) && eqBytes a' b'
  | _, _ => false
  end.

(** IsFullBox returns true if the box type has version and flags
    fields. *)
Definition IsFullBox (t : BoxType) : bool :=
  existsb (eqBytes t)
    [TypeMvhd; TypeTkhd; TypeMdhd; TypeHdlr;
     TypeVmhd; TypeSmhd; TypeDref; TypeStsd;
     TypeStts; TypeCtts; TypeStsc; TypeStsz;
     TypeStco; TypeCo64; TypeStss; TypeElst;
     TypeMeta; TypeEsds; TypeMehd; TypeTrex;
     TypeMfhd; TypeTfhd; TypeTfdt; TypeTrun;
     TypeSbgp; TypeSgpd; TypeSaiz; TypeSaio;
     TypeCslg; TypeSdtp; TypeSidx; TypeEmsg].

(** IsContainerBox returns true if the box type is a container that holds
    child boxes. *)
Definition IsContainerBox (t : BoxType) : bool :=
  existsb (eqBytes t)
    [TypeMoov; TypeTrak; TypeEdts; TypeMdia;
     TypeMinf; TypeDinf; TypeStbl; TypeUdta;
     TypeMeta; TypeMvex; TypeMoof; TypeTraf;
     TypeTref; TypeTrgr].

(** ** Writer: the other typed writers *)

(** WriteFtyp writes a complete ftyp box. *)
Definition WriteFtyp (brand : list Z) (brandVersion : Z)
    (compat : list (list Z)) : method :=
  seq ([StartBox TypeFtyp; putBytes brand; putUint32 brandVersion]
       ++ map putBytes compat
       ++ [EndBox]).

(** WriteHdlr writes a complete hdlr box. *)
Definition WriteHdlr (handlerType name : list Z) : method :=
  seq [StartFullBox TypeHdlr 0 0; putUint32 0; putBytes handlerType;
       putZeros 12; putBytes name; putUint8 0; EndBox].

(** WriteVmhd writes a complete vmhd box. *)
Definition WriteVmhd : method :=
  seq [StartFullBox TypeVmhd 0 1; putUint16 0; putZeros 6; EndBox].

(** WriteSmhd writes a complete smhd box. *)
Definition WriteSmhd : method :=
  seq [StartFullBox TypeSmhd 0 0; putUint16 0; putUint16 0; EndBox].

(** WriteDref writes a dref box with a single self-referencing url
    entry. *)
Definition WriteDref : method :=
  seq [StartFullBox TypeDref 0 0; putUint32 1;
       StartFullBox (bytesOfString "url ") 0 1; EndBox; EndBox].

(** WriteStsz writes a complete stsz box from raw entries. *)
Definition WriteStsz (sampleSize : Z) (entries : list Z) : method :=
  seq ([StartFullBox TypeStsz 0 0; putUint32 sampleSize;
        putUint32 (u32 (len entries))]
       ++ (if sampleSize =? 0 then map putUint32 entries else [])
       ++ [EndBox]).

(** WriteStco writes a complete stco box. *)
Definition WriteStco (entries : list Z) : method :=
  seq ([StartFullBox TypeStco 0 0; putUint32 (u32 (len entries))]
       ++ map putUint32 entries
       ++ [EndBox]).

(** WriteCo64 writes a complete co64 box. *)
Definition WriteCo64 (entries : list Z) : method :=
  seq ([StartFullBox TypeCo64 0 0; putUint32 (u32 (len entries))]
       ++ map putUint64 entries
       ++ [EndBox]).

(** WriteStss writes a complete stss box. *)
Definition WriteStss (entries : list Z) : method :=
  seq ([StartFullBox TypeStss 0 0; putUint32 (u32 (len entries))]
       ++ map putUint32 entries
       ++ [EndBox]).

(** SttsEntry is a time-to-sample entry. *)
Module SttsEntry.
Record t := { Count : Z; Duration : Z }.   (* uint32, uint32 *)
End SttsEntry.

(** CttsEntry is a composition offset entry. *)
Module CttsEntry.
Record t := { Count : Z; Offset : Z }.     (* uint32, int32 *)
End CttsEntry.

(** StscEntry is a sample-to-chunk entry. *)
Module StscEntry.
Record t := {
  FirstChunk : Z; SamplesPerChunk : Z; SampleDescriptionId : Z }.
End StscEntry.

(** TrunEntry is a track run sample entry. *)
Module TrunEntry.
Record t := {
  Duration : Z;               (* uint32 *)
  Size : Z;                   (* uint32 *)
  Flags : Z;                  (* uint32 *)
  CompositionTimeOffset : Z   (* int32 *)
}.
End TrunEntry.

(** Trun flags. *)
Definition TrunDataOffsetPresent : Z := 1.
Definition TrunFirstSampleFlagsPresent : Z := 4.
Definition TrunSampleDurationPresent : Z := 256.
Definition TrunSampleSizePresent : Z := 512.
Definition TrunSampleFlagsPresent : Z := 1024.
Definition TrunSampleCompositionTimeOffsetPresent : Z := 2048.

(** [flags&bit != 0] *)
Definition has (flags bit : Z) : bool := negb (Z.land flags bit =? 0).

(** WriteStts writes a complete stts box. *)
Definition WriteStts (entries : list SttsEntry.t) : method :=
  seq ([StartFullBox TypeStts 0 0; putUint32 (u32 (len entries))]
       ++ map (fun e => seq [putUint32 (SttsEntry.Count e);
                             putUint32 (SttsEntry.Duration e)]) entries
       ++ [EndBox]).

(** WriteCtts writes a complete ctts box. *)
Definition WriteCtts (entries : list CttsEntry.t) : method :=
  seq ([StartFullBox TypeCtts 0 0; putUint32 (u32 (len entries))]
       ++ map (fun e => seq [putUint32 (CttsEntry.Count e);
                             putUint32 (u32 (CttsEntry.Offset e))]) entries
       ++ [EndBox]).

(** WriteStsc writes a complete stsc box. *)
Definition WriteStsc (entries : list StscEntry.t) : method :=
  seq ([StartFullBox TypeStsc 0 0; putUint32 (u32 (len entries))]
       ++ map (fun e => seq [putUint32 (StscEntry.FirstChunk e);
                             putUint32 (StscEntry.SamplesPerChunk e);
                             putUint32 (StscEntry.SampleDescriptionId e)])
              entries
       ++ [EndBox]).

(** WriteTrex writes a complete trex box. *)
Definition WriteTrex (trackId descIdx defDuration defSize defFlags : Z)
  : method :=
  seq [StartFullBox TypeTrex 0 0; putUint32 trackId; putUint32 descIdx;
       putUint32 defDuration; putUint32 defSize; putUint32 defFlags;
       EndBox].

(** WriteMfhd writes a complete mfhd box. *)
Definition WriteMfhd (sequenceNumber : Z) : method :=
  seq [StartFullBox TypeMfhd 0 0; putUint32 sequenceNumber; EndBox].

(** WriteTfhd writes a complete tfhd box. *)
Definition WriteTfhd (flags trackId : Z) : method :=
  seq [StartFullBox TypeTfhd 0 flags; putUint32 trackId; EndBox].

(** WriteTrun writes a complete trun box. *)
Definition WriteTrun (flags dataOffset : Z) (entries : list TrunEntry.t)
  : method :=
  seq ([StartFullBox TypeTrun 0 flags; putUint32 (u32 (len entries))]
       ++ (if has flags TrunDataOffsetPresent then [putInt32 dataOffset]
           else [])
       ++ map (fun e =>
                 seq ((if has flags TrunSampleDurationPresent
                       then [putUint32 (TrunEntry.Duration e)] else [])
                      ++ (if has flags TrunSampleSizePresent
                          then [putUint32 (TrunEntry.Size e)] else [])
                      ++ (if has flags TrunSampleFlagsPresent
                          then [putUint32 (TrunEntry.Flags e)] else [])
                      ++ (if has flags TrunSampleCompositionTimeOffsetPresent
                          then [putInt32 (TrunEntry.CompositionTimeOffset e)]
                          else []))) entries
       ++ [EndBox]).

(** WriteStyp writes a segment type box (same format as ftyp). *)
Definition WriteStyp (brand : list Z) (brandVersion : Z)
    (compat : list (list Z)) : method :=
  seq ([StartBox TypeStyp; putBytes brand; putUint32 brandVersion]
       ++ map putBytes compat
       ++ [EndBox]).

(** ** Reading from a buffer *)

(** [b[lo:]] and [b[lo:hi]] with their bounds checks.  The capacity of a
    buffer is taken to be its length. *)
Definition from (b : list Z) (lo : Z) : result (list Z) :=
  if (0 <=? lo) && (lo <=? len b) then Ok (skipn (Z.to_nat lo) b)
  else Panic.

Definition sub (b : list Z) (lo hi : Z) : result (list Z) :=
  if (0 <=? lo) && (lo <=? hi) && (hi <=? len b) then Ok (slice b lo hi)
  else Panic.

Definition Uint16 (b : list Z) : Z :=
  Z.lor (byteAt b 1) (Z.shiftl (byteAt b 0) 8).

(** [be.Uint16], [be.Uint32], [be.Uint64]: a panic on a short slice. *)
Definition beUint16 (b : list Z) : result Z :=
  if len b <? 2 then Panic else Ok (Uint16 b).

Definition beUint32 (b : list Z) : result Z :=
  if len b <? 4 then Panic else Ok (Uint32 b).

Definition beUint64 (b : list Z) : result Z :=
  if len b <? 8 then Panic else Ok (Uint64 b).

(** [be.Uint32(b[lo:])] and the like. *)
Definition uint16From (b : list Z) (lo : Z) : result Z :=
  tail <- from b lo ;; beUint16 tail.

Definition uint32From (b : list Z) (lo : Z) : result Z :=
  tail <- from b lo ;; beUint32 tail.

Definition uint64From (b : list Z) (lo : Z) : result Z :=
  tail <- from b lo ;; beUint64 tail.

(** [be.Uint32(b[lo:hi])] and the like. *)
Definition uint16In (b : list Z) (lo hi : Z) : result Z :=
  s <- sub b lo hi ;; beUint16 s.

Definition uint32In (b : list Z) (lo hi : Z) : result Z :=
  s <- sub b lo hi ;; beUint32 s.

Definition uint64In (b : list Z) (lo hi : Z) : result Z :=
  s <- sub b lo hi ;; beUint64 s.

(** ** Reader *)

Module reader.

(** readerFrame stores parent state when entering a container box: the
    fields [end] and [boxEnd]. *)
Record readerFrame := { frameEnd : Z; frameBoxEnd : Z }.

(** Reader provides streaming parsing of ISOBMFF boxes.  The position
    fields are [int]; [boxSize] is [uint64], [version] is [uint8], [flags]
    is [uint32].  The field [end] is [end_]. *)
Record Reader := {
  buf : list Z;
  pos : Z;
  end_ : Z;
  boxType : BoxType;
  boxSize : Z;
  boxStart : Z;
  boxEnd : Z;
  dataStart : Z;
  version : Z;
  flags : Z;
  stack : list readerFrame;
  depth : Z
}.

(** NewReader creates a Reader for the given buffer. *)
Definition NewReader (b : list Z) : Reader :=
  {| buf := b; pos := 0; end_ := len b;
     boxType := repeat 0 4; boxSize := 0; boxStart := 0; boxEnd := 0;
     dataStart := 0; version := 0; flags := 0;
     stack := repeat {| frameEnd := 0; frameBoxEnd := 0 |}
                     (Z.to_nat maxDepth);
     depth := 0 |}.

Definition withPos (r : Reader) (v : Z) : Reader :=
  {| buf := buf r; pos := v; end_ := end_ r; boxType := boxType r;
     boxSize := boxSize r; boxStart := boxStart r; boxEnd := boxEnd r;
     dataStart := dataStart r; version := version r; flags := flags r;
     stack := stack r; depth := depth r |}.

Definition withBoxStart (r : Reader) (v : Z) : Reader :=
  {| buf := buf r; pos := pos r; end_ := end_ r; boxType := boxType r;
     boxSize := boxSize r; boxStart := v; boxEnd := boxEnd r;
     dataStart := dataStart r; version := version r; flags := flags r;
     stack := stack r; depth := depth r |}.

Definition withBoxType (r : Reader) (t : BoxType) : Reader :=
  {| buf := buf r; pos := pos r; end_ := end_ r; boxType := t;
     boxSize := boxSize r; boxStart := boxStart r; boxEnd := boxEnd r;
     dataStart := dataStart r; version := version r; flags := flags r;
     stack := stack r; depth := depth r |}.

Definition withBox (r : Reader) (size boxEnd' : Z) : Reader :=
  {| buf := buf r; pos := pos r; end_ := end_ r; boxType := boxType r;
     boxSize := size; boxStart := boxStart r; boxEnd := boxEnd';
     dataStart := dataStart r; version := version r; flags := flags r;
     stack := stack r; depth := depth r |}.

Definition withData (r : Reader) (version' flags' dataStart' : Z) : Reader :=
  {| buf := buf r; pos := pos r; end_ := end_ r; boxType := boxType r;
     boxSize := boxSize r; boxStart := boxStart r; boxEnd := boxEnd r;
     dataStart := dataStart'; version := version'; flags := flags';
     stack := stack r; depth := depth r |}.

(** Next advances to the next sibling box. Returns false if no more
    boxes. *)
Definition Next (r : Reader) : result (Reader * bool) :=
  (* Skip past current box *)
  let r := if boxEnd r >? pos r then withPos r (boxEnd r) else r in
  if i64 (end_ r - pos r) <? 8 then Ok (r, false)
  else
    let r := withBoxStart r (pos r) in
    size32 <- uint32From (buf r) (pos r) ;;
    t <- sub (buf r) (i64 (pos r + 4)) (i64 (pos r + 8)) ;;
    let r := withBoxType r t in
    let ptr := i64 (pos r + 8) in
    (* Extended size *)
    ext <- (if size32 =? 1 then
              if i64 (end_ r - pos r) <? 16 then Ok None
              else size <- uint64From (buf r) ptr ;;
                   Ok (Some (size, i64 (ptr + 8)))
            else Ok (Some (size32, ptr))) ;;
    match ext with
    | None => Ok (r, false)
    | Some (size, ptr) =>
        (* Size 0 means box extends to end of data *)
        let size := if size =? 0 then u64 (i64 (end_ r - pos r))
                    else size in
        let r := withBox r size (i64 (boxStart r + i64 size)) in
        if boxEnd r >? end_ r then Ok (r, false)
        else if IsFullBox (boxType r) then
          (* Parse full box header *)
          if i64 (boxEnd r - ptr) <? 4 then Ok (r, false)
          else
            vf <- uint32From (buf r) ptr ;;
            Ok (withData r (u8 (Z.shiftr vf 24)) (Z.land vf 16777215)
                  (i64 (ptr + 4)), true)
        else Ok (withData r 0 0 ptr, true)
    end.

(** Type returns the current box's type. *)
Definition Type_ (r : Reader) : BoxType := boxType r.

(** Size returns the current box's total size including header. *)
Definition Size (r : Reader) : Z := boxSize r.

(** Version returns the version field for full boxes. *)
Definition Version (r : Reader) : Z := version r.

(** Flags returns the flags field for full boxes. *)
Definition Flags (r : Reader) : Z := flags r.

(** Offset returns the byte offset of the current box's start in the
    buffer. *)
Definition Offset (r : Reader) : Z := boxStart r.

(** DataOffset returns the byte offset where the current box's data
    begins. *)
Definition DataOffset (r : Reader) : Z := dataStart r.

(** HeaderSize returns the size of the current box's header in bytes. *)
Definition HeaderSize (r : Reader) : Z := i64 (dataStart r - boxStart r).

(** Data returns the current box's data (after all headers). *)
Definition Data (r : Reader) : result (list Z) :=
  sub (buf r) (dataStart r) (boxEnd r).

(** RawBox returns the entire current box including headers. *)
Definition RawBox (r : Reader) : result (list Z) :=
  sub (buf r) (boxStart r) (boxEnd r).

(** Depth returns the current nesting depth (0 at top level). *)
Definition Depth (r : Reader) : Z := depth r.

(** Enter descends into the current container box to iterate its
    children. *)
Definition Enter (r : Reader) : result Reader :=
  if (0 <=? depth r) && (depth r <? maxDepth) then
    Ok {| buf := buf r; pos := dataStart r; end_ := boxEnd r;
          boxType := boxType r; boxSize := boxSize r;
          boxStart := boxStart r;
          boxEnd := dataStart r;   (* prevent Next from skipping *)
          dataStart := dataStart r; version := version r; flags := flags r;
          stack := store (stack r) (depth r)
                     [{| frameEnd := end_ r; frameBoxEnd := boxEnd r |}];
          depth := i64 (depth r + 1) |}
  else Panic.

(** Exit returns to the parent container level. *)
Definition Exit (r : Reader) : result Reader :=
  let d := i64 (depth r - 1) in
  f <- index (stack r) d ;;
  Ok {| buf := buf r; pos := frameBoxEnd f; end_ := frameEnd f;
        boxType := boxType r; boxSize := boxSize r; boxStart := boxStart r;
        boxEnd := frameBoxEnd f;
        dataStart := dataStart r; version := version r; flags := flags r;
        stack := stack r; depth := d |}.

(** Skip advances the data position by n bytes within the current
    container. *)
Definition Skip (r : Reader) (n : Z) : Reader :=
  let p := i64 (pos r + n) in
  {| buf := buf r; pos := p; end_ := end_ r; boxType := boxType r;
     boxSize := boxSize r; boxStart := boxStart r; boxEnd := p;
     dataStart := dataStart r; version := version r; flags := flags r;
     stack := stack r; depth := depth r |}.

(** EntryCount reads the uint32 entry count at the start of box data. *)
Definition EntryCount (r : Reader) : result Z :=
  data <- Data r ;; uint32In data 0 4.

(** ReadMvhd extracts key fields from an mvhd box.  Returns timescale,
    duration, and nextTrackId. *)
Definition ReadMvhd (r : Reader) : result (Z * Z * Z) :=
  data <- Data r ;;
  if Version r =? 1 then
    timescale <- uint32In data 16 20 ;;
    duration <- uint64In data 20 28 ;;
    nextTrackId <- uint32In data 104 108 ;;
    Ok (timescale, duration, nextTrackId)
  else
    timescale <- uint32In data 8 12 ;;
    duration <- uint32In data 12 16 ;;
    nextTrackId <- uint32In data 92 96 ;;
    Ok (timescale, duration, nextTrackId).

(** ReadTkhd extracts key fields from a tkhd box.  Returns trackId,
    duration, width, height. *)
Definition ReadTkhd (r : Reader) : result (Z * Z * Z * Z) :=
  data <- Data r ;;
  if Version r =? 1 then
    trackId <- uint32In data 16 20 ;;
    duration <- uint64In data 24 32 ;;
    width <- uint32In data 84 88 ;;
    height <- uint32In data 88 92 ;;
    Ok (trackId, duration, width, height)
  else
    trackId <- uint32In data 8 12 ;;
    duration <- uint32In data 16 20 ;;
    width <- uint32In data 72 76 ;;
    height <- uint32In data 76 80 ;;
    Ok (trackId, duration, width, height).

(** ReadMdhd extracts key fields from an mdhd box.  Returns timescale,
    duration, and language code. *)
Definition ReadMdhd (r : Reader) : result (Z * Z * Z) :=
  data <- Data r ;;
  if Version r =? 1 then
    timescale <- uint32In data 16 20 ;;
    duration <- uint64In data 20 28 ;;
    language <- uint16In data 28 30 ;;
    Ok (timescale, duration, language)
  else
    timescale <- uint32In data 8 12 ;;
    duration <- uint32In data 12 16 ;;
    language <- uint16In data 16 18 ;;
    Ok (timescale, duration, language).

(** ReadHdlr extracts the handler type from an hdlr box. *)
Definition ReadHdlr (r : Reader) : result (list Z) :=
  data <- Data r ;; sub data 4 8.

(** [for end < len(data) && data[end] != 0 { end++ }] on the bytes from
    [end] on. *)
Fixpoint untilZero (rest : list Z) : list Z :=
  match rest with
  | [] => []
  | b :: rest' => if b =? 0 then [] else b :: untilZero rest'
  end.

(** ReadHdlrName extracts the handler name from an hdlr box. *)
Definition ReadHdlrName (r : Reader) : result (list Z) :=
  data <- Data r ;;
  if len data <=? 20 then Ok []
  else Ok (untilZero (skipn 20 data)).

(** ReadMehd extracts the fragment duration from an mehd box. *)
Definition ReadMehd (r : Reader) : result Z :=
  data <- Data r ;;
  if Version r =? 1 then uint64In data 0 8 else uint32In data 0 4.

(** ReadTrex extracts fields from a trex box. *)
Definition ReadTrex (r : Reader) : result (Z * Z * Z * Z * Z) :=
  data <- Data r ;;
  trackId <- uint32In data 0 4 ;;
  defSampleDescIdx <- uint32In data 4 8 ;;
  defSampleDuration <- uint32In data 8 12 ;;
  defSampleSize <- uint32In data 12 16 ;;
  defSampleFlags <- uint32In data 16 20 ;;
  Ok (trackId, defSampleDescIdx, defSampleDuration, defSampleSize,
      defSampleFlags).

(** ReadMfhd extracts the sequence number from an mfhd box. *)
Definition ReadMfhd (r : Reader) : result Z :=
  data <- Data r ;; uint32In data 0 4.

(** ReadTfhd extracts the track ID from a tfhd box. *)
Definition ReadTfhd (r : Reader) : result Z :=
  data <- Data r ;; uint32In data 0 4.

(** ReadTfdt extracts the base media decode time from a tfdt box. *)
Definition ReadTfdt (r : Reader) : result Z :=
  data <- Data r ;;
  if Version r =? 1 then uint64In data 0 8 else uint32In data 0 4.

End reader.

(** ** Table iterators

    An iterator's [Next] returns the entry and whether there was one.
    [index] and [count] are [uint32]; the offsets are [int] values below
    2^36, computed without wrap-around. *)

(** StszIter iterates over sample sizes in an stsz box. *)
Module StszIter.

Record t := { buf : list Z; sampleSize : Z; count : Z; index : Z }.

Definition zero : t := {| buf := []; sampleSize := 0; count := 0; index := 0 |}.

(** NewStszIter creates an iterator from stsz box data. *)
Definition NewStszIter (data : list Z) : result t :=
  if len data <? 8 then Ok zero
  else
    sampleSize <- uint32In data 0 4 ;;
    count <- uint32In data 4 8 ;;
    Ok {| buf := data; sampleSize := sampleSize; count := count;
          index := 0 |}.

(** Count returns the total number of samples. *)
Definition Count (it : t) : Z := count it.

(** Next returns the next sample size. Returns (0, false) when done. *)
Definition Next (it : t) : result (t * (Z * bool)) :=
  if index it >=? count it then Ok (it, (0, false))
  else
    size <- (if negb (sampleSize it =? 0) then Ok (Some (sampleSize it))
             else
               let offset := 8 + index it * 4 in
               if offset + 4 >? len (buf it) then Ok None
               else v <- uint32From (buf it) offset ;; Ok (Some v)) ;;
    match size with
    | None => Ok (it, (0, false))
    | Some size =>
        Ok ({| buf := buf it; sampleSize := sampleSize it;
               count := count it; index := u32 (index it + 1) |},
            (size, true))
    end.

End StszIter.

(** Co64Iter iterates over uint64 chunk offsets in a co64 box. *)
Module Co64Iter.

Record t := { buf : list Z; count : Z; index : Z }.

Definition zero : t := {| buf := []; count := 0; index := 0 |}.

(** NewCo64Iter creates an iterator from co64 box data. *)
Definition NewCo64Iter (data : list Z) : result t :=
  if len data <? 4 then Ok zero
  else
    count <- uint32In data 0 4 ;;
    Ok {| buf := data; count := count; index := 0 |}.

(** Count returns the total number of entries. *)
Definition Count (it : t) : Z := count it.

(** Next returns the next chunk offset. Returns (0, false) when done. *)
Definition Next (it : t) : result (t * (Z * bool)) :=
  if index it >=? count it then Ok (it, (0, false))
  else
    let offset := 4 + index it * 8 in
    if offset + 8 >? len (buf it) then Ok (it, (0, false))
    else
      v <- uint64From (buf it) offset ;;
      Ok ({| buf := buf it; count := count it;
             index := u32 (index it + 1) |}, (v, true)).

End Co64Iter.

(** SttsIter iterates over stts entries. *)
Module SttsIter.

Record t := { buf : list Z; count : Z; index : Z }.

Definition zero : t := {| buf := []; count := 0; index := 0 |}.

Definition noEntry : SttsEntry.t :=
  {| SttsEntry.Count := 0; SttsEntry.Duration := 0 |}.

(** NewSttsIter creates an iterator from stts box data. *)
Definition NewSttsIter (data : list Z) : result t :=
  if len data <? 4 then Ok zero
  else
    count <- uint32In data 0 4 ;;
    Ok {| buf := data; count := count; index := 0 |}.

(** Count returns the total number of entries. *)
Definition Count (it : t) : Z := count it.

(** Next returns the next entry. Returns false when done. *)
Definition Next (it : t) : result (t * (SttsEntry.t * bool)) :=
  if index it >=? count it then Ok (it, (noEntry, false))
  else
    let offset := 4 + index it * 8 in
    if offset + 8 >? len (buf it) then Ok (it, (noEntry, false))
    else
      c <- uint32From (buf it) offset ;;
      d <- uint32From (buf it) (offset + 4) ;;
      Ok ({| buf := buf it; count := count it;
             index := u32 (index it + 1) |},
          ({| SttsEntry.Count := c; SttsEntry.Duration := d |}, true)).

End SttsIter.

(** CttsIter iterates over ctts entries. *)
Module CttsIter.

Record t := { buf : list Z; count : Z; index : Z; version : Z }.

Definition zero : t :=
  {| buf := []; count := 0; index := 0; version := 0 |}.

Definition noEntry : CttsEntry.t :=
  {| CttsEntry.Count := 0; CttsEntry.Offset := 0 |}.

(** NewCttsIter creates an iterator from ctts box data. *)
Definition NewCttsIter (data : list Z) (version : Z) : result t :=
  if len data <? 4 then Ok zero
  else
    count <- uint32In data 0 4 ;;
    Ok {| buf := data; count := count; index := 0; version := version |}.

(** Count returns the total number of entries. *)
Definition Count (it : t) : Z := count it.

(** Next returns the next entry. Returns false when done. *)
Definition Next (it : t) : result (t * (CttsEntry.t * bool)) :=
  if index it >=? count it then Ok (it, (noEntry, false))
  else
    let offset := 4 + index it * 8 in
    if offset + 8 >? len (buf it) then Ok (it, (noEntry, false))
    else
      c <- uint32From (buf it) offset ;;
      o <- (if version it =? 0
            then v <- uint32From (buf it) (offset + 4) ;; Ok (i32 v)
            else v <- uint32From (buf it) (offset + 4) ;; Ok (i32 v)) ;;
      Ok ({| buf := buf it; count := count it;
             index := u32 (index it + 1); version := version it |},
          ({| CttsEntry.Count := c; CttsEntry.Offset := o |}, true)).

End CttsIter.

(** StscIter iterates over stsc entries. *)
Module StscIter.

Record t := { buf : list Z; count : Z; index : Z }.

Definition zero : t := {| buf := []; count := 0; index := 0 |}.

Definition noEntry : StscEntry.t :=
  {| StscEntry.FirstChunk := 0; StscEntry.SamplesPerChunk := 0;
     StscEntry.SampleDescriptionId := 0 |}.

(** NewStscIter creates an iterator from stsc box data. *)
Definition NewStscIter (data : list Z) : result t :=
  if len data <? 4 then Ok zero
  else
    count <- uint32In data 0 4 ;;
    Ok {| buf := data; count := count; index := 0 |}.

(** Count returns the total number of entries. *)
Definition Count (it : t) : Z := count it.

(** Next returns the next entry. Returns false when done. *)
Definition Next (it : t) : result (t * (StscEntry.t * bool)) :=
  if index it >=? count it then Ok (it, (noEntry, false))
  else
    let offset := 4 + index it * 12 in
    if offset + 12 >? len (buf it) then Ok (it, (noEntry, false))
    else
      fc <- uint32From (buf it) offset ;;
      spc <- uint32From (buf it) (offset + 4) ;;
      sdi <- uint32From (buf it) (offset + 8) ;;
      Ok ({| buf := buf it; count := count it;
             index := u32 (index it + 1) |},
          ({| StscEntry.FirstChunk := fc; StscEntry.SamplesPerChunk := spc;
              StscEntry.SampleDescriptionId := sdi |}, true)).

End StscIter.

(** ElstIter iterates over elst entries. *)
Module ElstIter.

Record t := { buf : list Z; count : Z; index : Z; version : Z }.

Definition zero : t :=
  {| buf := []; count := 0; index := 0; version := 0 |}.

Definition noEntry : ElstEntry :=
  {| SegmentDuration := 0; MediaTime := 0; MediaRateInt := 0;
     MediaRateFrac := 0 |}.

(** [int16(v)] *)
Definition i16 (z : Z) : Z := (z + 2 ^ 15) mod 2 ^ 16 - 2 ^ 15.


(** Count returns the total number of entries. *)
Definition Count (it : t) : Z := count it.

(** Next returns the next entry. Returns false when done. *)
Definition Next (it : t) : result (t * (ElstEntry * bool)) :=
  if index it >=? count it then Ok (it, (noEntry, false))
  else
    e <- (if version it =? 1 then
            let stride := 20 in
            let offset := 4 + index it * stride in
            if offset + stride >? len (buf it) then Ok None
            else
              sd <- uint64From (buf it) offset ;;
              mt <- uint64From (buf it) (offset + 8) ;;
              ri <- uint16From (buf it) (offset + 16) ;;
              rf <- uint16From (buf it) (offset + 18) ;;
              Ok (Some {| SegmentDuration := sd; MediaTime := i64 mt;
                          MediaRateInt := i16 ri; MediaRateFrac := i16 rf |})
          else
            let stride := 12 in
            let offset := 4 + index it * stride in
            if offset + stride >? len (buf it) then Ok None
            else
              sd <- uint32From (buf it) offset ;;
              mt <- uint32From (buf it) (offset + 4) ;;
              ri <- uint16From (buf it) (offset + 8) ;;
              rf <- uint16From (buf it) (offset + 10) ;;
              Ok (Some {| SegmentDuration := sd; MediaTime := i32 mt;
                          MediaRateInt := i16 ri;
                          MediaRateFrac := i16 rf |})) ;;
    match e with
    | None => Ok (it, (noEntry, false))
    | Some e =>
        Ok ({| buf := buf it; count := count it;
               index := u32 (index it + 1); version := version it |},
            (e, true))
    end.

End ElstIter.

(** TrunIter iterates over trun entries. *)
Module TrunIter.

Record t := {
  buf : list Z;
  flags : Z;
  count : Z;
  index : Z;
  dataOffset : Z;         (* int32 *)
  firstSampleFlags : Z;
  stride : Z;
  entriesStart : Z
}.

Definition zero : t :=
  {| buf := []; flags := 0; count := 0; index := 0; dataOffset := 0;
     firstSampleFlags := 0; stride := 0; entriesStart := 0 |}.

Definition noEntry : TrunEntry.t :=
  {| TrunEntry.Duration := 0; TrunEntry.Size := 0; TrunEntry.Flags := 0;
     TrunEntry.CompositionTimeOffset := 0 |}.

(** NewTrunIter creates an iterator from trun box data with the given
    flags. *)
Definition NewTrunIter (data : list Z) (flags : Z) : result t :=
  if len data <? 4 then Ok zero
  else
    count <- uint32In data 0 4 ;;
    let ptr := 4 in
    r1 <- (if has flags TrunDataOffsetPresent then
             if ptr + 4 >? len data then Ok None
             else v <- uint32From data ptr ;; Ok (Some (i32 v, ptr + 4))
           else Ok (Some (0, ptr))) ;;
    match r1 with
    | None => Ok zero
    | Some (dataOffset, ptr) =>
        r2 <- (if has flags TrunFirstSampleFlagsPresent then
                 if ptr + 4 >? len data then Ok None
                 else v <- uint32From data ptr ;; Ok (Some (v, ptr + 4))
               else Ok (Some (0, ptr))) ;;
        match r2 with
        | None => Ok zero
        | Some (firstSampleFlags, ptr) =>
            let stride := 0 in
            let stride := if has flags TrunSampleDurationPresent
                          then stride + 4 else stride in
            let stride := if has flags TrunSampleSizePresent
                          then stride + 4 else stride in
            let stride := if has flags TrunSampleFlagsPresent
                          then stride + 4 else stride in
            let stride := if has flags TrunSampleCompositionTimeOffsetPresent
                          then stride + 4 else stride in
            Ok {| buf := data; flags := flags; count := count; index := 0;
                  dataOffset := dataOffset;
                  firstSampleFlags := firstSampleFlags;
                  stride := stride; entriesStart := ptr |}
        end
    end.

(** Count returns the total number of samples. *)
Definition Count (it : t) : Z := count it.

(** DataOffset returns the trun data offset. *)
Definition DataOffset (it : t) : Z := dataOffset it.

(** FirstSampleFlags returns the first sample flags, if present. *)
Definition FirstSampleFlags (it : t) : Z := firstSampleFlags it.

(** Next returns the next sample entry. Returns false when done. *)
Definition Next (it : t) : result (t * (TrunEntry.t * bool)) :=
  if index it >=? count it then Ok (it, (noEntry, false))
  else
    let offset := entriesStart it + index it * stride it in
    if offset + stride it >? len (buf it) then Ok (it, (noEntry, false))
    else
      let p := offset in
      r1 <- (if has (flags it) TrunSampleDurationPresent
             then v <- uint32From (buf it) p ;; Ok (v, p + 4)
             else Ok (0, p)) ;;
      let '(duration, p) := r1 in
      r2 <- (if has (flags it) TrunSampleSizePresent
             then v <- uint32From (buf it) p ;; Ok (v, p + 4)
             else Ok (0, p)) ;;
      let '(size, p) := r2 in
      r3 <- (if has (flags it) TrunSampleFlagsPresent
             then v <- uint32From (buf it) p ;; Ok (v, p + 4)
             else Ok (0, p)) ;;
      let '(sampleFlags, p) := r3 in
      cto <- (if has (flags it) TrunSampleCompositionTimeOffsetPresent
              then v <- uint32From (buf it) p ;; Ok (i32 v)
              else Ok 0) ;;
      Ok ({| buf := buf it; flags := flags it; count := count it;
             index := u32 (index it + 1); dataOffset := dataOffset it;
             firstSampleFlags := firstSampleFlags it;
             stride := stride it; entriesStart := entriesStart it |},
          ({| TrunEntry.Duration := duration; TrunEntry.Size := size;
              TrunEntry.Flags := sampleFlags;
              TrunEntry.CompositionTimeOffset := cto |}, true)).

End TrunIter.

(** Uint32Iter iterates over uint32 entries (stco, stss). *)
Module Uint32Iter.

Record t := { buf : list Z; count : Z; index : Z }.

Definition zero : t := {| buf := []; count := 0; index := 0 |}.

(** NewUint32Iter creates an iterator from box data containing a count +
    uint32 entries. *)
Definition NewUint32Iter (data : list Z) : result t :=
  if len data <? 4 then Ok zero
  else
    count <- uint32In data 0 4 ;;
    Ok {| buf := data; count := count; index := 0 |}.

(** Count returns the total number of entries. *)
Definition Count (it : t) : Z := count it.

(** Next returns the next entry. Returns (0, false) when done. *)
Definition Next (it : t) : result (t * (Z * bool)) :=
  if index it >=? count it then Ok (it, (0, false))
  else
    let offset := 4 + index it * 4 in
    if offset + 4 >? len (buf it) then Ok (it, (0, false))
    else
      v <- uint32From (buf it) offset ;;
      Ok ({| buf := buf it; count := count it;
             index := u32 (index it + 1) |}, (v, true)).

End Uint32Iter.

End bmff.
(** * Package remux *)

Module remux.

(** ** Samples and tracks *)

Record Sample := {
  Offset : Z;               (* int64 *)
  Size : Z;                 (* uint32 *)
  Duration : Z;             (* uint32 *)
  DTS : Z;                  (* int64 *)
  PresentationOffset : Z;   (* int32 *)
  Sync : bool
}.

Record Track := {
  TrackID : Z;              (* uint32 *)
  TimeScale : Z;            (* uint32 *)
  Samples : list Sample;
  initBuf : list Z;
  defaultSampleDescriptionIndex : Z
}.

(** minFragmentDuration is the minimum fragment duration in seconds. *)
Definition minFragmentDuration : Z := 1.

(** ** Sample-table reconstruction *)

(** The entries of the time-to-sample, composition-offset and
    sample-to-chunk tables, with the fields the code reads: [Count] and
    [Duration] ([SttsCount], [SttsDuration]), [Count] and
    [CompositionOffset] ([CttsCount], [CompositionOffset]), and
    [FirstChunk], [SamplesPerChunk], [SampleDescriptionId].  All fields
    are [uint32] but [CompositionOffset], which is [int32]. *)
Record STTSEntry := { SttsCount : Z; SttsDuration : Z }.
Record CTTSEntry := { CttsCount : Z; CompositionOffset : Z }.
Record STSCEntry := {
  FirstChunk : Z; SamplesPerChunk : Z; SampleDescriptionId : Z }.

(** Modelled from the spec: the decoded box tree ([mp4.Box], [Box.Child] and
    the typed bodies [Stsz], [Stts], [Stsc], [Co64], [Stco], [Ctts]) is
    declared outside the sources at hand.  [buildSampleTable] only looks at
    the entry slices of seven children of [stbl], so the box is the record
    of those slices.  For the four required tables [None] stands for
    "child or typed body missing".  For [ctts] and [stss] the code tests the
    entry slice against [nil]; there [None] stands for a nil slice (child
    missing, body missing, or a body whose [Entries] is nil). *)
Record StblBox := {
  stsz : option (list Z);
  stts : option (list STTSEntry);
  stsc : option (list STSCEntry);
  co64 : option (list Z);
  stco : option (list Z);
  ctts : option (list CTTSEntry);
  stss : option (list Z)
}.

(** The loop-carried variables of [buildSampleTable]. *)
Record cursors := {
  sampleInChunk : Z;
  chunk : Z;
  offsetInChunk : Z;
  sampleToChunkIndex : Z;
  dts : Z;
  decodingIdx : Z;
  decodingOff : Z;
  cttsIdx : Z;
  cttsOff : Z;
  syncIdx : Z
}.

Definition cursors0 : cursors :=
  {| sampleInChunk := 0; chunk := 0; offsetInChunk := 0;
     sampleToChunkIndex := 0; dts := 0; decodingIdx := 0; decodingOff := 0;
     cttsIdx := 0; cttsOff := 0; syncIdx := 0 |}.

Section SampleLoop.
Variable stscEntries : list STSCEntry.
Variable sttsEntries : list STTSEntry.
Variable chunkOffsets : list Z.
Variable cttsEntries : option (list CTTSEntry).
Variable syncEntries : option (list Z).

(** [presentationOffset] of the current sample (lines 321-324). *)
Definition presentationOffsetAt (c : cursors) : Z :=
  match cttsEntries with
  | Some es =>
      if cttsIdx c <? len es
      then match nth_error es (Z.to_nat (cttsIdx c)) with
           | Some e => CompositionOffset e
           | None => 0
           end
      else 0
  | None => 0
  end.

(** [sync] of sample [i] (lines 326-329). *)
Definition syncAt (c : cursors) (i : Z) : bool :=
  match syncEntries with
  | Some es =>
      (syncIdx c <? len es) &&
      match nth_error es (Z.to_nat (syncIdx c)) with
      | Some v => v =? u32 (i + 1)
      | None => false
      end
  | None => true
  end.

(** "Advance chunk position" (lines 345-358). *)
Definition advanceChunk (c : cursors) (currChunkEntry : STSCEntry) (size : Z)
  : Z * Z * Z * Z :=
  let sic := sampleInChunk c + 1 in
  let oic := i64 (offsetInChunk c + size) in
  if sic >=? SamplesPerChunk currChunkEntry then
    let ch := chunk c + 1 in
    let stci :=
      if sampleToChunkIndex c + 1 <? len stscEntries then
        match nth_error stscEntries (Z.to_nat (sampleToChunkIndex c + 1)) with
        | Some nextEntry =>
            if u32 (ch + 1) >=? FirstChunk nextEntry
            then sampleToChunkIndex c + 1
            else sampleToChunkIndex c
        | None => sampleToChunkIndex c
        end
      else sampleToChunkIndex c in
    (0, ch, 0, stci)
  else (sic, chunk c, oic, sampleToChunkIndex c).

(** "Advance time" (lines 360-366). *)
Definition advanceTime (c : cursors) (e : STTSEntry) : Z * Z * Z :=
  let d := i64 (dts c + SttsDuration e) in
  let off := decodingOff c + 1 in
  if off >=? SttsCount e then (d, decodingIdx c + 1, 0)
  else (d, decodingIdx c, off).

(** "Advance composition offset" (lines 368-375). *)
Definition advanceCtts (c : cursors) : Z * Z :=
  match cttsEntries with
  | Some es =>
      let off := cttsOff c + 1 in
      if cttsIdx c <? len es then
        match nth_error es (Z.to_nat (cttsIdx c)) with
        | Some e =>
            if off >=? CttsCount e then (cttsIdx c + 1, 0)
            else (cttsIdx c, off)
        | None => (cttsIdx c, off)
        end
      else (cttsIdx c, off)
  | None => (cttsIdx c, cttsOff c)
  end.

Definition advance (c : cursors) (currChunkEntry : STSCEntry)
    (e : STTSEntry) (size : Z) (sync : bool) : cursors :=
  let '(sic, ch, oic, stci) := advanceChunk c currChunkEntry size in
  let '(d, di, dof) := advanceTime c e in
  let '(ci, cof) := advanceCtts c in
  {| sampleInChunk := sic; chunk := ch; offsetInChunk := oic;
     sampleToChunkIndex := stci; dts := d; decodingIdx := di;
     decodingOff := dof; cttsIdx := ci; cttsOff := cof;
     syncIdx := if sync then syncIdx c + 1 else syncIdx c |}.

(** The [for i := range numSamples] loop (lines 314-381), run on the stsz
    entries from index [i] on.  The result is the filled part of [samples]
    and the last value of [defaultSdi]. *)
Fixpoint sampleLoop (i : Z) (sizes : list Z) (c : cursors) (sdi : Z)
  : result (list Sample * Z) :=
  match sizes with
  | [] => Ok ([], sdi)
  | size :: rest =>
      currChunkEntry <- index stscEntries (sampleToChunkIndex c) ;;
      e <- index sttsEntries (decodingIdx c) ;;
      let sync := syncAt c i in
      co <- index chunkOffsets (chunk c) ;;
      let s := {| Offset := i64 (offsetInChunk c + co);
                  Size := size;
                  Duration := SttsDuration e;
                  DTS := dts c;
                  PresentationOffset := presentationOffsetAt c;
                  Sync := sync |} in
      match rest with
      | [] => Ok ([s], SampleDescriptionId currChunkEntry)
      | _ :: _ =>
          r <- sampleLoop (i + 1) rest
                 (advance c currChunkEntry e size sync)
                 (SampleDescriptionId currChunkEntry) ;;
          Ok (s :: fst r, snd r)
      end
  end.
End SampleLoop.

(** The chunk offset table: [co64] when present, else [stco]
    (lines 265-279). *)
Definition chunkOffsetsOf (stbl : StblBox) : option (list Z) :=
  match co64 stbl with
  | Some es => Some (map i64 es)
  | None =>
      match stco stbl with
      | Some es => Some es
      | None => None
      end
  end.

Definition buildSampleTable (stbl : StblBox) : result (list Sample * Z) :=
  match stsz stbl with
  | None => Err (Errorf "missing stsz")
  | Some sizes =>
      match stts stbl with
      | None => Err (Errorf "missing stts")
      | Some sttsEntries =>
          match stsc stbl with
          | None => Err (Errorf "missing stsc")
          | Some stscEntries =>
              match chunkOffsetsOf stbl with
              | None => Err (Errorf "missing stco/co64")
              | Some chunkOffsets =>
                  sampleLoop stscEntries sttsEntries chunkOffsets
                    (ctts stbl) (stss stbl) 0 sizes cursors0 0
              end
          end
      end
  end.

(** ** Seek helpers *)

(** The standard library's [sort.Search(n, f)]: binary search on [0, n).
    [i, j := 0, n; for i < j { h := int(uint(i+j) >> 1);
    if !f(h) { i = h + 1 } else { j = h } }; return i].
    The interval shrinks on every iteration, so [j - i] iterations are
    enough; [searchLoop] counts them down. *)
Fixpoint searchLoop (fuel : nat) (f : Z -> bool) (i j : Z) : Z :=
  match fuel with
  | O => i
  | S fuel' =>
      if i <? j then
        let h := Z.shiftr (i + j) 1 in
        if negb (f h) then searchLoop fuel' f (h + 1) j
        else searchLoop fuel' f i h
      else i
  end.

Definition Search (n : Z) (f : Z -> bool) : Z :=
  searchLoop (Z.to_nat n) f 0 n.

(** [pts := s.DTS + int64(s.PresentationOffset)]. *)
Definition pts (s : Sample) : Z := i64 (DTS s + PresentationOffset s).

(** [t.Samples[i]] inside the predicates handed to [sort.Search], which
    calls them on indices of [0, len(t.Samples)) only. *)
Definition ptsAt (samples : list Sample) (i : Z) : option Z :=
  option_map pts (nth_error samples (Z.to_nat i)).

(** [for idx < len(t.Samples) && !t.Samples[idx].Sync { idx++ }], run on
    the samples from [idx] on. *)
Fixpoint walkForward (rest : list Sample) (idx : Z) : Z :=
  match rest with
  | [] => idx
  | s :: rest' => if negb (Sync s) then walkForward rest' (idx + 1) else idx
  end.

(** The forward walk on a track, started at index [idx]. *)
Definition walkOn (samples : list Sample) (idx : Z) : Z :=
  walkForward (skipn (Z.to_nat idx) samples) idx.

(** [for idx > 0 && !t.Samples[idx].Sync { idx-- }], for [idx] an index of
    [samples] (or 0). *)
Fixpoint walkBackward (samples : list Sample) (idx : nat) : nat :=
  match idx with
  | O => O
  | S idx' =>
      match nth_error samples idx with
      | Some s => if negb (Sync s) then walkBackward samples idx' else idx
      | None => idx
      end
  end.

(** FindSampleBefore finds the sync sample at or before the given time.
    The argument is [scaledTime], the value of
    [int64(timeSeconds * float64(t.TimeScale))] (line 550); the
    floating-point product is outside this embedding. *)
Definition FindSampleBefore (t : Track) (scaledTime : Z) : Z :=
  let n := len (Samples t) in
  let idx := Z.max (Search n (fun i =>
                 match ptsAt (Samples t) i with
                 | Some p => p >? scaledTime
                 | None => false
                 end) - 1) 0 in
  Z.of_nat (walkBackward (Samples t) (Z.to_nat idx)).

(** FindSampleAfter finds the first sync sample at or after the given time.
    The argument is [scaledTime] as for [FindSampleBefore] (line 569). *)
Definition FindSampleAfter (t : Track) (scaledTime : Z) : Z :=
  let n := len (Samples t) in
  let idx := Search n (fun i =>
                 match ptsAt (Samples t) i with
                 | Some p => p >=? scaledTime
                 | None => false
                 end) in
  if idx >=? n then n - 1
  else
    let idx := walkOn (Samples t) idx in
    if idx >=? n then n - 1 else idx.

(** ** Fragment selection *)

(** Modelled from the spec: [mp4.TrunEntry] is declared outside the sources
    at hand; its four fields are the ones [generateFragment] and
    [writeMoof] use. *)
Record TrunEntry := {
  SampleDuration : Z;               (* uint32 *)
  SampleSize : Z;                   (* uint32 *)
  SampleFlags : Z;                  (* uint32 *)
  SampleCompositionTimeOffset : Z   (* int32 *)
}.

(** byteRange represents a contiguous range of bytes in the source file. *)
Record byteRange := { Start : Z; End_ : Z }.

Section FragmentEnd.
Variable firstSample : Z.
Variable endTimeScaled : Z.
Variable startDts : Z.
Variable threshold : Z.

(** The two [break] conditions of the boundary loop for the sample [s]
    at index [lastSample] (lines 616-631). *)
Definition hardStop (s : Sample) : bool :=
  (endTimeScaled >? 0) && (pts s >=? endTimeScaled).

Definition boundaryStop (s : Sample) (lastSample : Z) : bool :=
  (endTimeScaled =? 0) && (lastSample >? firstSample) && Sync s
  && (i64 (DTS s - startDts) >=? threshold).

(** "Find the end of this fragment" (lines 613-634), run on the samples
    from [lastSample] on. *)
Fixpoint fragmentEnd (rest : list Sample) (lastSample : Z) : Z :=
  match rest with
  | [] => lastSample
  | s :: rest' =>
      if hardStop s then lastSample
      else if boundaryStop s lastSample then lastSample
      else fragmentEnd rest' (lastSample + 1)
  end.
End FragmentEnd.

Definition trunEntryOf (s : Sample) : TrunEntry :=
  {| SampleDuration := Duration s;
     SampleSize := Size s;
     SampleFlags := if negb (Sync s) then 16842752 else 33554432;
     SampleCompositionTimeOffset := PresentationOffset s |}.

(** One iteration of "Build contiguous byte ranges" (lines 671-680). *)
Definition addRange (ranges : list byteRange) (s : Sample) : list byteRange :=
  let sStart := Offset s in
  let sEnd := i64 (Offset s + Size s) in
  match rev ranges with
  | last :: before =>
      if End_ last =? sStart
      then rev before ++ [{| Start := Start last; End_ := sEnd |}]
      else ranges ++ [{| Start := sStart; End_ := sEnd |}]
  | [] => [{| Start := sStart; End_ := sEnd |}]
  end.

(** What [generateFragment] returns: the trun entries, the byte ranges, the
    mdat payload size, the next sample index and the trun version. *)
Record fragment := {
  trunEntries : list TrunEntry;
  ranges : list byteRange;
  totalLen : Z;
  nextSample : Z;
  trunVersion : Z
}.

Definition emptyFragment (next : Z) : fragment :=
  {| trunEntries := []; ranges := []; totalLen := 0; nextSample := next;
     trunVersion := 0 |}.

(** generateFragment builds fragment metadata for samples starting at
    firstSample.  The caller's slices are reused for the result only; they
    do not influence it and are left out. *)
Definition generateFragment (track : Track) (firstSample endTimeScaled : Z)
  : result fragment :=
  let samples := Samples track in
  if firstSample >=? len samples then Ok (emptyFragment firstSample)
  else
    first <- index samples firstSample ;;
    let startDts := DTS first in
    let threshold := i64 (TimeScale track * minFragmentDuration) in
    let lastSample :=
      fragmentEnd firstSample endTimeScaled startDts threshold
        (skipn (Z.to_nat firstSample) samples) firstSample in
    let n := lastSample - firstSample in
    if n =? 0 then Ok (emptyFragment lastSample)
    else
      let selected := slice samples firstSample lastSample in
      Ok {| trunEntries := map trunEntryOf selected;
            ranges := fold_left addRange selected [];
            totalLen :=
              fold_left (fun acc s => i64 (acc + Size s)) selected 0;
            nextSample := lastSample;
            trunVersion :=
              if existsb (fun s => PresentationOffset s <? 0) selected
              then 1 else 0 |}.

(** ** The moof box *)

(** The bytes [writeMoof] stores into [buf[:moofSize]] and hands to
    [w.Write]. *)
Definition moofBytes (seqNum trackID baseMediaDecodeTime : Z)
    (entries : list TrunEntry) (trunVersion : Z) : list Z :=
  let n := len entries in
  let trunSize := 20 + n * 16 in
  let trafSize := 8 + 16 + 16 + trunSize in
  let moofSize := 8 + 16 + trafSize in
  let dataOffset := moofSize + 8 in
  (* moof box header *)
  PutUint32 (u32 moofSize) ++ bytesOfString "moof"
  (* mfhd *)
  ++ PutUint32 16 ++ bytesOfString "mfhd" ++ [0; 0; 0; 0]
  ++ PutUint32 seqNum
  (* traf box header *)
  ++ PutUint32 (u32 trafSize) ++ bytesOfString "traf"
  (* tfhd *)
  ++ PutUint32 16 ++ bytesOfString "tfhd" ++ [0; 2; 0; 0]
  ++ PutUint32 trackID
  (* tfdt *)
  ++ PutUint32 16 ++ bytesOfString "tfdt" ++ [0; 0; 0; 0]
  ++ PutUint32 baseMediaDecodeTime
  (* trun *)
  ++ PutUint32 (u32 trunSize) ++ bytesOfString "trun"
  ++ [trunVersion; 0; 15; 1]
  ++ PutUint32 (u32 n) ++ PutUint32 (u32 dataOffset)
  (* trun entries *)
  ++ flat_map (fun e =>
       PutUint32 (SampleDuration e) ++ PutUint32 (SampleSize e)
       ++ PutUint32 (SampleFlags e)
       ++ PutUint32 (u32 (SampleCompositionTimeOffset e))) entries.

(** writeMoof writes a complete moof box directly as binary to w.  It
    returns the bytes (the caller keeps them as its [moofBuf]) and the
    sink's error. *)
Definition writeMoof {W} `{io.Writer W} (w : W)
    (seqNum trackID baseMediaDecodeTime : Z) (entries : list TrunEntry)
    (trunVersion : Z) : W * list Z * option error :=
  let b := moofBytes seqNum trackID baseMediaDecodeTime entries trunVersion in
  let '(w, e) := io.Write w b in
  (w, b, e).

(** ** The stream writer *)

(** InitSegment returns the pre-built init segment (ftyp+moov) for the
    given track. *)
Definition InitSegment (t : Track) : list Z := initBuf t.

(** [Writer.resolveRange].  The floating-point arguments enter through the
    values the code derives from them: [startScaled] is the [scaledTime] of
    the two seek helpers for [startTime], and [endTime] is [None] when
    [endTime > 0] is false and [Some endScaled] with
    [endScaled = int64(endTime * float64(track.TimeScale))] when it is
    true. *)
Definition resolveRange (track : Track) (startScaled : Z) (endTime : option Z)
  : result (Z * Z * Z) :=
  let samples := Samples track in
  let firstSample := FindSampleAfter track startScaled in
  firstSample <-
    match endTime with
    | Some endScaled =>
        if firstSample <? len samples then
          s <- index samples firstSample ;;
          if pts s >=? endScaled
          then Ok (FindSampleBefore track startScaled)
          else Ok firstSample
        else Ok firstSample
    | None => Ok firstSample
    end ;;
  s <- index samples firstSample ;;
  Ok (firstSample, DTS s,
      match endTime with Some endScaled => endScaled | None => 0 end).

(** The length of the writer's [copyBuf]. *)
Definition copyBufLen : Z := 32768.

(** The [w.Write] call sites of [Writer.WriteTo]. *)
Inductive part := Init | Moof | MdatHdr | Payload.

Section Stream.
Context {W R : Type} `{io.Writer W} `{io.ReadSeeker R}.

(** The sink, the source, and the record of what was handed to the sink:
    every [w.Write] call in order, with its call site.  The record is
    bookkeeping of the embedding; the sink receives the bytes only. *)
Record stream := {
  sink : W;
  source : R;
  emitted : list (part * list Z)
}.

(** A step of [WriteTo]: it changes the stream and either goes on with a
    value, makes [WriteTo] return an error, or panics. *)
Definition action (A : Type) : Type := stream -> stream * result A.

Definition ret {A} (a : A) : action A := fun st => (st, Ok a).

Definition andThen {A B} (m : action A) (k : A -> action B) : action B :=
  fun st =>
    let '(st', r) := m st in
    match r with
    | Ok a => k a st'
    | Err e => (st', Err e)
    | Panic => (st', Panic)
    end.

Definition lift {A} (r : result A) : action A := fun st => (st, r).

(** [if _, err := w.Write(b); err != nil { return err }] *)
Definition write (p : part) (b : list Z) : action unit := fun st =>
  let '(w, e) := io.Write (sink st) b in
  ({| sink := w; source := source st; emitted := emitted st ++ [(p, b)] |},
   match e with Some e => Err e | None => Ok tt end).

(** [wr.moofBuf, err = writeMoof(w, ...); if err != nil { return err }] *)
Definition callWriteMoof (seqNum trackID baseMediaDecodeTime : Z)
    (entries : list TrunEntry) (trunVersion : Z) : action unit := fun st =>
  let '(w, b, e) :=
    writeMoof (sink st) seqNum trackID baseMediaDecodeTime entries
      trunVersion in
  ({| sink := w; source := source st;
      emitted := emitted st ++ [(Moof, b)] |},
   match e with Some e => Err e | None => Ok tt end).

(** [if _, err := rs.Seek(pos, io.SeekStart); err != nil { return err }] *)
Definition seekStart (pos : Z) : action unit := fun st =>
  let '(r, _, e) := io.Seek (source st) pos io.SeekStart in
  ({| sink := sink st; source := r; emitted := emitted st |},
   match e with Some e => Err e | None => Ok tt end).

(** [nr, err := rs.Read(wr.copyBuf[:n])] *)
Definition read (n : Z) : action (list Z * option error) := fun st =>
  let '(r, got, e) := io.Read (source st) n in
  ({| sink := sink st; source := r; emitted := emitted st |}, Ok (got, e)).
End Stream.

Arguments stream W R : clear implicits.

Notation "x <~ m ;; k" := (andThen m (fun x => k))
  (at level 61, m at next level, right associativity).

Section CopySequential.
Context {W R : Type} `{io.Writer W} `{io.ReadSeeker R}.

(** [for remaining > 0 { ... }] of [WriteTo] (writer.go lines 76-91).
    Every iteration that goes on has read at least one byte, so
    [remaining] iterations are enough; [fuel] counts them down. *)
Fixpoint copyLoop (fuel : nat) (remaining : Z) : action (W:=W) (R:=R) unit :=
  if remaining >? 0 then
    match fuel with
    | O => lift Panic
    | S fuel' =>
        let n := Z.min copyBufLen remaining in
        r <~ read n ;;
        let '(got, err) := r in
        let nr := len got in
        _ <~ (if nr >? 0 then write Payload got else ret tt) ;;
        let remaining := if nr >? 0 then i64 (remaining - nr)
                         else remaining in
        match err with
        | Some e =>
            match e with
            | EOF => if remaining =? 0 then ret tt else lift (Err e)
            | _ => lift (Err e)
            end
        | None => copyLoop fuel' remaining
        end
    end
  else ret tt.

(** [for _, r := range wr.ranges { ... }] of [WriteTo] (lines 71-92). *)
Fixpoint copyRanges (rs : list byteRange) : action (W:=W) (R:=R) unit :=
  match rs with
  | [] => ret tt
  | r :: rs' =>
      _ <~ seekStart (Start r) ;;
      let remaining := i64 (End_ r - Start r) in
      _ <~ copyLoop (Z.to_nat remaining) remaining ;;
      copyRanges rs'
  end.
End CopySequential.

Section CopyPositional.
Context {W R : Type} `{io.Writer W} `{io.ReaderAt R}.

(** [nr, err := ra.ReadAt(wr.copyBuf[:n], off)] *)
Definition readAt (n offset : Z)
  : action (W:=W) (R:=R) (list Z * option error) :=
  fun st => (st, Ok (io.ReadAt (source st) n offset)).

(** [for remaining > 0 { ... }] of [WriteToFrom] (lines 140-157). *)
Fixpoint copyLoopAt (fuel : nat) (offset remaining : Z)
  : action (W:=W) (R:=R) unit :=
  if remaining >? 0 then
    match fuel with
    | O => lift Panic
    | S fuel' =>
        let n := Z.min copyBufLen remaining in
        r <~ readAt n offset ;;
        let '(got, err) := r in
        let nr := len got in
        _ <~ (if nr >? 0 then write Payload got else ret tt) ;;
        let offset := if nr >? 0 then i64 (offset + nr) else offset in
        let remaining := if nr >? 0 then i64 (remaining - nr)
                         else remaining in
        match err with
        | Some e =>
            match e with
            | EOF => if remaining =? 0 then ret tt else lift (Err e)
            | _ => lift (Err e)
            end
        | None => copyLoopAt fuel' offset remaining
        end
    end
  else ret tt.

(** [for _, r := range wr.ranges { ... }] of [WriteToFrom]
    (lines 137-158). *)
Fixpoint copyRangesAt (rs : list byteRange) : action (W:=W) (R:=R) unit :=
  match rs with
  | [] => ret tt
  | r :: rs' =>
      let remaining := i64 (End_ r - Start r) in
      _ <~ copyLoopAt (Z.to_nat remaining) (Start r) remaining ;;
      copyRangesAt rs'
  end.
End CopyPositional.

Section FragmentLoop.
Context {W R : Type} `{io.Writer W}.

(** The payload copy: [copyRanges] in [WriteTo], [copyRangesAt] in
    [WriteToFrom]. *)
Variable copy : list byteRange -> action (W:=W) (R:=R) unit.

(** [for sample < len(track.Samples) { ... }] (writer.go lines 44-96 in
    [WriteTo] and, the same but for the payload copy, lines 113-162 in
    [WriteToFrom]).  [sample] grows on every iteration that goes on, so
    the number of samples left bounds the iterations; [fuel] counts them
    down. *)
Fixpoint fragmentLoop (fuel : nat) (track : Track)
    (endTimeScaled dtsOffset seqNum sample : Z)
  : action (W:=W) (R:=R) unit :=
  let samples := Samples track in
  if sample <? len samples then
    match fuel with
    | O => lift Panic
    | S fuel' =>
        past <~ lift (if endTimeScaled >? 0
                      then s <- index samples sample ;;
                           Ok (pts s >=? endTimeScaled)
                      else Ok false) ;;
        if past : bool then ret tt
        else
          frag <~ lift (generateFragment track sample endTimeScaled) ;;
          if len (trunEntries frag) =? 0 then ret tt
          else
            s <~ lift (index samples sample) ;;
            let baseMediaDecodeTime := u32 (i64 (DTS s - dtsOffset)) in
            _ <~ callWriteMoof seqNum (TrackID track) baseMediaDecodeTime
                   (trunEntries frag) (trunVersion frag) ;;
            _ <~ write MdatHdr
                   (PutUint32 (u32 (i64 (8 + totalLen frag)))
                    ++ bytesOfString "mdat") ;;
            _ <~ copy (ranges frag) ;;
            fragmentLoop fuel' track endTimeScaled dtsOffset
              (u32 (seqNum + 1)) (nextSample frag)
    end
  else ret tt.

(** The body shared by [WriteTo] and [WriteToFrom]. *)
Definition writeStream (track : Track) (startScaled : Z)
    (endTime : option Z) : action (W:=W) (R:=R) unit :=
  range <~ lift (resolveRange track startScaled endTime) ;;
  let '(firstSample, dtsOffset, endTimeScaled) := range in
  _ <~ write Init (InitSegment track) ;;
  fragmentLoop (List.length (Samples track)) track endTimeScaled dtsOffset
    1 firstSample.
End FragmentLoop.

(** WriteTo writes a complete fragmented MP4 stream for a single track to
    w.  [startScaled] and [endTime] are as for [resolveRange]. *)
Definition WriteTo {W R : Type} `{io.Writer W} `{io.ReadSeeker R}
    (track : Track) (startScaled : Z) (endTime : option Z)
  : action (W:=W) (R:=R) unit :=
  writeStream copyRanges track startScaled endTime.

(** WriteToFrom writes a complete fragmented MP4 stream using an
    io.ReaderAt. *)
Definition WriteToFrom {W R : Type} `{io.Writer W} `{io.ReaderAt R}
    (track : Track) (startScaled : Z) (endTime : option Z)
  : action (W:=W) (R:=R) unit :=
  writeStream copyRangesAt track startScaled endTime.

End remux.

Import remux.

(** * In-memory byte sources and sinks *)

#[export] Instance memReadSeeker : io.ReadSeeker io.MemReader.
Proof.
  refine {| io.Read := io.memRead; io.ReadFull := io.memReadFull;
            io.Seek := io.memSeek |}.
  - intros r n Hn. unfold io.memRead.
    destruct ((io.off r <? 0) || (io.off r >=? len (io.data r)));
      simpl; [unfold len; simpl; lia|].
    unfold len. rewrite length_firstn. lia.
  - intros r n Hn. unfold io.memRead.
    destruct ((io.off r <? 0) || (io.off r >=? len (io.data r))) eqn:E;
      simpl.
    + right. discriminate.
    + left. apply orb_false_iff in E. destruct E as [E0 E].
      apply Z.ltb_ge in E0.
      rewrite Z.geb_leb, Z.leb_gt in E. unfold len in E.
      intros C. apply (f_equal (@List.length Z)) in C.
      rewrite length_firstn, length_skipn in C. simpl in C. lia.
Defined.

#[export] Instance memReaderAt : io.ReaderAt io.MemReader.
Proof.
  refine {| io.ReadAt := io.memReadAt |}.
  - intros r n offset Hn. unfold io.memReadAt.
    destruct (offset <? 0); [unfold len; simpl; lia|].
    destruct (offset >=? len (io.data r)); [unfold len; simpl; lia|].
    cbn [fst]. unfold len. rewrite length_firstn. lia.
  - intros r n offset Hn. unfold io.memReadAt.
    destruct (offset <? 0) eqn:E0; [right; discriminate|].
    destruct (offset >=? len (io.data r)) eqn:E; [right; discriminate|].
    cbn [fst snd]. left. apply Z.ltb_ge in E0.
    rewrite Z.geb_leb, Z.leb_gt in E. unfold len in E.
    intros C. apply (f_equal (@List.length Z)) in C.
    rewrite length_firstn, length_skipn in C. simpl in C. lia.
Defined.

#[export] Instance memWriter : io.Writer io.MemWriter :=
  {| io.Write := io.memWrite |}.

(** * Sample inputs *)

(** A four-sample track: two chunks of two samples, B-frame style
    composition offsets, sync samples 1 and 3. *)
Definition demoStbl : StblBox :=
  {| stsz := Some [10; 20; 30; 40];
     stts := Some [{| SttsCount := 2; SttsDuration := 10 |};
                   {| SttsCount := 2; SttsDuration := 20 |}];
     stsc := Some [{| FirstChunk := 1; SamplesPerChunk := 2;
                      SampleDescriptionId := 1 |}];
     co64 := None;
     stco := Some [100; 500];
     ctts := Some [{| CttsCount := 1; CompositionOffset := 5 |};
                   {| CttsCount := 3; CompositionOffset := -3 |}];
     stss := Some [1; 3] |}.

Definition demoSamples : list Sample :=
  [{| Offset := 100; Size := 10; Duration := 10; DTS := 0;
      PresentationOffset := 5; Sync := true |};
   {| Offset := 110; Size := 20; Duration := 10; DTS := 10;
      PresentationOffset := -3; Sync := false |};
   {| Offset := 500; Size := 30; Duration := 20; DTS := 20;
      PresentationOffset := -3; Sync := true |};
   {| Offset := 530; Size := 40; Duration := 20; DTS := 40;
      PresentationOffset := -3; Sync := false |}].

Definition demoTrack : Track :=
  {| TrackID := 1; TimeScale := 10; Samples := demoSamples;
     initBuf := [0; 0; 0; 8] ++ bytesOfString "ftyp";
     defaultSampleDescriptionIndex := 1 |}.

(** A two-sample track whose sync table names sample 2 only. *)
Definition lateSyncStbl : StblBox :=
  {| stsz := Some [10; 20];
     stts := Some [{| SttsCount := 2; SttsDuration := 10 |}];
     stsc := Some [{| FirstChunk := 1; SamplesPerChunk := 2;
                      SampleDescriptionId := 1 |}];
     co64 := None;
     stco := Some [100];
     ctts := None;
     stss := Some [2] |}.

(** Two-sample tracks whose composition-offset table, respectively
    time-to-sample table, covers the first sample only. *)
Definition shortCttsStbl : StblBox :=
  {| stsz := Some [10; 20];
     stts := Some [{| SttsCount := 2; SttsDuration := 10 |}];
     stsc := Some [{| FirstChunk := 1; SamplesPerChunk := 2;
                      SampleDescriptionId := 1 |}];
     co64 := None;
     stco := Some [100];
     ctts := Some [{| CttsCount := 1; CompositionOffset := 5 |}];
     stss := None |}.

Definition shortSttsStbl : StblBox :=
  {| stsz := Some [10; 20];
     stts := Some [{| SttsCount := 1; SttsDuration := 10 |}];
     stsc := Some [{| FirstChunk := 1; SamplesPerChunk := 2;
                      SampleDescriptionId := 1 |}];
     co64 := None;
     stco := Some [100];
     ctts := None;
     stss := None |}.

(** * Predicates used in the statements *)

(** Consecutive samples carry chained decode timestamps, with the [int64]
    addition of line 361. *)
Definition dts_chained (samples : list Sample) : Prop :=
  forall k s s',
    nth_error samples k = Some s ->
    nth_error samples (S k) = Some s' ->
    DTS s' = i64 (DTS s + Duration s).

(** The stop condition of fragment boundary selection, for the sample [s]
    at index [j] of a fragment that starts with the sample [first] at index
    [firstSample]: the hard stop at the end time, or the boundary at a sync
    sample once the minimum fragment duration has elapsed.  [pts], the
    elapsed time and the threshold are the [int64] values the code
    computes. *)
Definition stopsAt (track : Track) (firstSample endTimeScaled : Z)
    (first s : Sample) (j : Z) : Prop :=
  (endTimeScaled > 0 /\ pts s >= endTimeScaled) \/
  (endTimeScaled = 0 /\ j > firstSample /\ Sync s = true /\
   i64 (DTS s - DTS first) >= i64 (TimeScale track * minFragmentDuration)).

(** A track without samples. *)
Definition emptyTrack : Track :=
  {| TrackID := 1; TimeScale := 10; Samples := [];
     initBuf := []; defaultSampleDescriptionIndex := 0 |}.

(** The fields of a serialised moof box, by their byte positions: moof
    header at 0, mfhd at 8, traf header at 24, tfhd at 32, tfdt at 48
    (version at 56, flags at 57, base_media_decode_time at 60), trun at 64
    (version at 72, flags at 73, sample_count at 76, data_offset at 80,
    entries from 84 on). *)
Definition tfdtVersion (b : list Z) : Z := byteAt b 56.
Definition tfdtFlags (b : list Z) : list Z := slice b 57 60.
Definition tfdtBaseMediaDecodeTime (b : list Z) : Z := Uint32 (slice b 60 64).
Definition trunVersionByte (b : list Z) : Z := byteAt b 72.
Definition trunFlags (b : list Z) : Z := Uint32 (0 :: slice b 73 76).
Definition trunSampleCount (b : list Z) : Z := Uint32 (slice b 76 80).
Definition trunDataOffset (b : list Z) : Z := Uint32 (slice b 80 84).

(** [adds m P]: whatever the step [m] hands to the sink satisfies [P]. *)
Definition adds {W R A : Type} (m : action (W:=W) (R:=R) A)
    (P : part -> list Z -> Prop) : Prop :=
  forall st st' r, m st = (st', r) ->
  forall p b, In (p, b) (emitted st') -> In (p, b) (emitted st) \/ P p b.

(** The moof that [WriteTo] builds for the fragment starting at [sample]. *)
Definition moofOf (track : Track) (endTimeScaled dtsOffset : Z)
    (b : list Z) : Prop :=
  exists seqNum sample s frag,
    index (Samples track) sample = Ok s /\
    generateFragment track sample endTimeScaled = Ok frag /\
    trunEntries frag <> [] /\
    b = moofBytes seqNum (TrackID track) (u32 (i64 (DTS s - dtsOffset)))
          (trunEntries frag) (trunVersion frag).

(** A stream over in-memory source and sink, and the second moof that
    [WriteTo] builds for the four-sample track from time 0 to its end. *)
Definition demoStream : stream io.MemWriter io.MemReader :=
  {| sink := {| io.contents := [] |};
     source := {| io.data := repeat 7 600; io.off := 0 |};
     emitted := [] |}.

Definition demoMoof : list Z :=
  moofBytes 2 1 20 (map trunEntryOf (skipn 2 demoSamples)) 1.

(** The cursors with which the loop body of [buildSampleTable] runs for
    the samples from index [i] on: a replay of the cursor movements alone,
    for as long as the sample-to-chunk and time-to-sample entries that the
    movement reads exist.  A cursor "would read past the end of its table"
    at sample [k] when its index in the [k]-th element is not an index of
    the table. *)
Fixpoint cursorTrace (stscEntries : list STSCEntry)
    (sttsEntries : list STTSEntry) (cttsEntries : option (list CTTSEntry))
    (syncEntries : option (list Z)) (i : Z) (sizes : list Z) (c : cursors)
  : list cursors :=
  match sizes with
  | [] => []
  | size :: rest =>
      c :: match index stscEntries (sampleToChunkIndex c),
                 index sttsEntries (decodingIdx c) with
           | Ok e, Ok t =>
               cursorTrace stscEntries sttsEntries cttsEntries syncEntries
                 (i + 1) rest
                 (advance stscEntries cttsEntries c e t size
                    (syncAt syncEntries c i))
           | _, _ => []
           end
  end.

Definition isOk {A} (r : result A) : bool :=
  match r with Ok _ => true | _ => false end.

(** [stbl] with another composition-offset table. *)
Definition withCtts (stbl : StblBox) (x : option (list CTTSEntry)) : StblBox :=
  {| stsz := stsz stbl; stts := stts stbl; stsc := stsc stbl;
     co64 := co64 stbl; stco := stco stbl; ctts := x; stss := stss stbl |}.

(** Two cursor states that differ in the composition-offset cursor only. *)
Definition sameButCtts (c c' : cursors) : Prop :=
  sampleInChunk c = sampleInChunk c' /\ chunk c = chunk c' /\
  offsetInChunk c = offsetInChunk c' /\
  sampleToChunkIndex c = sampleToChunkIndex c' /\
  dts c = dts c' /\ decodingIdx c = decodingIdx c' /\
  decodingOff c = decodingOff c' /\ syncIdx c = syncIdx c'.

(** A stream that ends right after a box header announcing an extended
    size ([size == 1]), and one that ends three bytes into the extended
    size. *)
Definition truncatedExtended : io.MemReader :=
  {| io.data := [0; 0; 0; 1] ++ bytesOfString "mdat"; io.off := 0 |}.

Definition truncatedExtended3 : io.MemReader :=
  {| io.data := [0; 0; 0; 1] ++ bytesOfString "mdat" ++ [0; 0; 0];
     io.off := 0 |}.

(** An edit whose media time, -2^31 - 1, does not fit the 32-bit field. *)
Definition negativeEdit : bmff.ElstEntry :=
  {| bmff.SegmentDuration := 0; bmff.MediaTime := -2147483649;
     bmff.MediaRateInt := 1; bmff.MediaRateFrac := 0 |}.

(** The version byte of the box a writer method writes into a zeroed
    buffer of 256 bytes: byte 8 of the written data. *)
Definition versionWritten (m : bmff.method) : option Z :=
  match m (bmff.NewWriter (repeat 0 256)) with
  | Ok w => Some (byteAt (bmff.Bytes w) 8)
  | _ => None
  end.

(** [safe m]: the step [m] never panics. *)
Definition safe {W R A : Type} (m : action (W:=W) (R:=R) A) : Prop :=
  forall st, snd (m st) <> Panic.

(** The sum of the durations of a run of samples. *)
Definition totalDuration (l : list Sample) : Z :=
  fold_right (fun s acc => Duration s + acc) 0 l.

(** The number of samples a time-to-sample table covers: the decode-time
    cursor stays [max 1 count] samples on an entry. *)
Definition sttsCapacity (entries : list STTSEntry) : Z :=
  fold_right (fun e acc => Z.max 1 (SttsCount e) + acc) 0 entries.

(** The decode-time cursor is at a position of the table it can hold:
    inside an entry, or right behind the table. *)
Definition sttsCursorOk (sttsEntries : list STTSEntry) (c : cursors) : Prop :=
  0 <= decodingIdx c /\ 0 <= decodingOff c /\
  match nth_error sttsEntries (Z.to_nat (decodingIdx c)) with
  | Some e => decodingOff c < Z.max 1 (SttsCount e)
  | None => decodingOff c = 0
  end.

(** * Further predicates and sample inputs *)

(** The durations a time-to-sample table assigns, sample by sample: the
    decode-time cursor stays [max 1 count] samples on an entry. *)
Definition sttsRuns (entries : list STTSEntry) : list Z :=
  flat_map (fun e => repeat (SttsDuration e)
                            (Z.to_nat (Z.max 1 (SttsCount e)))) entries.

(** The offsets a composition-offset table assigns, sample by sample. *)
Definition cttsRuns (entries : list CTTSEntry) : list Z :=
  flat_map (fun e => repeat (CompositionOffset e)
                            (Z.to_nat (Z.max 1 (CttsCount e)))) entries.

(** The composition-offset cursor is at a position it can hold: inside an
    entry, or behind the table. *)
Definition cttsCursorOk (entries : list CTTSEntry) (c : cursors) : Prop :=
  0 <= cttsIdx c /\ 0 <= cttsOff c /\
  match nth_error entries (Z.to_nat (cttsIdx c)) with
  | Some e => cttsOff c < Z.max 1 (CttsCount e)
  | None => True
  end.

(** Strictly increasing entries, as the sync sample table is required to
    hold them. *)
Definition increasing (l : list Z) : Prop :=
  forall a b x y, (a < b)%nat ->
    nth_error l a = Some x -> nth_error l b = Some y -> x < y.

(** The file positions [a], [a + 1], ..., [b - 1]. *)
Definition span (a b : Z) : list Z :=
  map (fun k => a + Z.of_nat k) (seq 0 (Z.to_nat (b - a))).

(** The positions a byte range covers, and the positions of a sample's
    data. *)
Definition rangeSpan (r : byteRange) : list Z := span (Start r) (End_ r).
Definition sampleSpan (s : Sample) : list Z :=
  span (Offset s) (Offset s + Size s).

(** Samples in presentation order: presentation timestamps never
    decrease along the track. *)
Definition ptsSorted (samples : list Sample) : Prop :=
  forall i j s s', (i <= j)%nat ->
    nth_error samples i = Some s -> nth_error samples j = Some s' ->
    pts s <= pts s'.

(** ** The order of the stream *)

(** [emits m Q]: the step [m] appends a run [l] of writes to the record of
    the stream, and [Q] relates the run to the outcome of the step. *)
Definition emits {W R A : Type} (m : action (W:=W) (R:=R) A)
    (Q : result A -> list (part * list Z) -> Prop) : Prop :=
  forall st st' r, m st = (st', r) ->
    exists l, emitted st' = emitted st ++ l /\ Q r l.

Definition isPayload (pb : part * list Z) : Prop := fst pb = Payload.

(** The number of bytes in a run of writes. *)
Definition payloadLen (l : list (part * list Z)) : Z :=
  len (List.concat (map snd l)).

(** The number of bytes the copy loop asks for on a byte range: its
    [remaining], when positive. *)
Definition rangeLen (r : byteRange) : Z := Z.max 0 (i64 (End_ r - Start r)).

Definition rangesLen (rs : list byteRange) : Z :=
  fold_right (fun r acc => rangeLen r + acc) 0 rs.

(** What a payload copy appends: payload writes only, and when it succeeds
    as many bytes as the ranges hold. *)
Definition copies (rs : list byteRange) (r : result unit)
    (l : list (part * list Z)) : Prop :=
  Forall isPayload l /\ (r = Ok tt -> payloadLen l = rangesLen rs).

(** The mdat header and the moof written for a fragment
    (writer.go lines 56-69). *)
Definition mdatHeader (frag : fragment) : list Z :=
  PutUint32 (u32 (i64 (8 + totalLen frag))) ++ bytesOfString "mdat".

Definition moofFor (track : Track) (dtsOffset seqNum : Z) (s : Sample)
    (frag : fragment) : list Z :=
  moofBytes seqNum (TrackID track) (u32 (i64 (DTS s - dtsOffset)))
    (trunEntries frag) (trunVersion frag).

(** The runs of writes of the fragment loop started with sequence number
    [seqNum] at the sample [sample]: nothing; or a fragment that broke off
    with an error after its moof, after its mdat header or inside its
    payload; or a whole fragment, followed by the run of the loop for the
    next sequence number and sample. *)
Inductive fragmentRun (track : Track) (endTimeScaled dtsOffset : Z)
  : Z -> Z -> result unit -> list (part * list Z) -> Prop :=
| run_stop seqNum sample r :
    fragmentRun track endTimeScaled dtsOffset seqNum sample r []
| run_broken seqNum sample s frag r payload tail :
    index (Samples track) sample = Ok s ->
    generateFragment track sample endTimeScaled = Ok frag ->
    r <> Ok tt ->
    Forall isPayload payload ->
    tail = [] \/ tail = (MdatHdr, mdatHeader frag) :: payload ->
    fragmentRun track endTimeScaled dtsOffset seqNum sample r
      ((Moof, moofFor track dtsOffset seqNum s frag) :: tail)
| run_next seqNum sample s frag r payload rest :
    index (Samples track) sample = Ok s ->
    generateFragment track sample endTimeScaled = Ok frag ->
    trunEntries frag <> [] ->
    Forall isPayload payload ->
    payloadLen payload = rangesLen (ranges frag) ->
    fragmentRun track endTimeScaled dtsOffset (u32 (seqNum + 1))
      (nextSample frag) r rest ->
    fragmentRun track endTimeScaled dtsOffset seqNum sample r
      ((Moof, moofFor track dtsOffset seqNum s frag)
       :: (MdatHdr, mdatHeader frag) :: payload ++ rest).

(** A reader of the emitted stream: where it stands, the sequence number
    it expects next, and inside an mdat box the size its header announced
    and the bytes seen of it, header included. *)
Inductive phase :=
| AtStart
| AfterInit (seqNum : Z)
| AfterMoof (seqNum : Z)
| InMdat (seqNum announced seen : Z).

(** The sequence number of a moof, in its mfhd box, and the size field of
    a box header. *)
Definition moofSequenceNumber (b : list Z) : Z := Uint32 (slice b 20 24).
Definition boxSizeField (b : list Z) : Z := Uint32 (slice b 0 4).

(** One write seen by the reader of the stream.  A moof is accepted at a
    fragment boundary when it carries the expected sequence number; payload
    only inside an mdat box.  The [strict] reader also checks at the end of
    an mdat box that it holds as many bytes as its header announced. *)
Definition mdatWhole (strict : bool) (announced seen : Z) : bool :=
  negb strict || (announced =? seen).

Definition accept (strict : bool) (ph : phase) (pb : part * list Z)
  : option phase :=
  let '(p, b) := pb in
  match ph, p with
  | AtStart, Init => Some (AfterInit 1)
  | AfterInit n, Moof =>
      if moofSequenceNumber b =? n then Some (AfterMoof (u32 (n + 1)))
      else None
  | InMdat n a seen, Moof =>
      if (moofSequenceNumber b =? n) && mdatWhole strict a seen
      then Some (AfterMoof (u32 (n + 1)))
      else None
  | AfterMoof n, MdatHdr => Some (InMdat n (boxSizeField b) (len b))
  | InMdat n a seen, Payload => Some (InMdat n a (seen + len b))
  | _, _ => None
  end.

Fixpoint acceptAll (strict : bool) (ph : phase) (l : list (part * list Z))
  : option phase :=
  match l with
  | [] => Some ph
  | pb :: rest =>
      match accept strict ph pb with
      | Some ph' => acceptAll strict ph' rest
      | None => None
      end
  end.

(** The stream is whole: it ends after the init segment or after an mdat
    box (for the strict reader: one that holds what its header
    announced). *)
Definition atBoundary (strict : bool) (ph : phase) : bool :=
  match ph with
  | AfterInit _ => true
  | InMdat _ a seen => mdatWhole strict a seen
  | _ => false
  end.

(** The reader stands at a fragment boundary and expects the sequence
    number [n]. *)
Definition boundary (strict : bool) (ph : phase) (n : Z) : Prop :=
  ph = AfterInit n \/
  exists a seen, ph = InMdat n a seen /\ mdatWhole strict a seen = true.

(** The number of bytes of sample data in a run of samples. *)
Definition totalSize (l : list Sample) : Z :=
  fold_right (fun s acc => Size s + acc) 0 l.

(** ** The box writer *)

(** The writer can take [n] more bytes and open [k] more boxes. *)
Definition ready (w : bmff.Writer) (n k : Z) : Prop :=
  0 <= bmff.wpos w /\ bmff.wpos w + n <= len (bmff.buf w) /\
  0 <= bmff.depth w /\ bmff.depth w + k <= bmff.maxDepth /\
  len (bmff.stack w) = bmff.maxDepth.

(** [appends k m c]: wherever there is room for [c] and for [k] more open
    boxes, the method [m] stores the bytes [c] at the writer's position,
    moves the position behind them, and leaves the open boxes as they
    are. *)
Definition appends (k : Z) (m : bmff.method) (c : list Z) : Prop :=
  forall w, ready w (len c) k ->
    exists w', m w = Ok w' /\
      bmff.buf w' = store (bmff.buf w) (bmff.wpos w) c /\
      bmff.wpos w' = bmff.wpos w + len c /\
      bmff.depth w' = bmff.depth w /\
      len (bmff.stack w') = bmff.maxDepth /\
      firstn (Z.to_nat (bmff.depth w)) (bmff.stack w')
      = firstn (Z.to_nat (bmff.depth w)) (bmff.stack w).

(** The version and flags word of a full box. *)
Definition versionFlags (version flags : Z) : Z :=
  Z.lor (u32 (Z.shiftl version 24)) (Z.land flags 16777215).

(** A box and a full box as bytes: size, type, (version and flags,)
    content. *)
Definition boxBytes (t : bmff.BoxType) (content : list Z) : list Z :=
  PutUint32 (u32 (8 + len content)) ++ t ++ content.

Definition fullBoxBytes (t : bmff.BoxType) (version flags : Z)
    (content : list Z) : list Z :=
  boxBytes t (PutUint32 (versionFlags version flags) ++ content).

(** ** The box reader *)

(** The reader [r'] is [r] after it has read, at the position [p] of the
    buffer, a box with a header of [h] bytes, the type [t], the given
    version and flags, and the content [content]. *)
Definition readsBox (r r' : bmff.reader.Reader) (p h : Z)
    (t : bmff.BoxType) (version flags : Z) (content : list Z) : Prop :=
  bmff.reader.buf r' = bmff.reader.buf r /\
  bmff.reader.end_ r' = bmff.reader.end_ r /\
  bmff.reader.stack r' = bmff.reader.stack r /\
  bmff.reader.depth r' = bmff.reader.depth r /\
  bmff.reader.pos r' = p /\
  bmff.reader.Offset r' = p /\
  bmff.reader.DataOffset r' = p + h /\
  bmff.reader.boxEnd r' = p + h + len content /\
  bmff.reader.Type_ r' = t /\
  bmff.reader.Size r' = h + len content /\
  bmff.reader.Version r' = version /\
  bmff.reader.Flags r' = flags /\
  bmff.reader.Data r' = Ok content.

(** ** Table iterators *)

(** Calling [next] on and on yields the entries [es], in order, and then
    reports the end; no call panics. *)
Fixpoint yields {I E : Type} (next : I -> result (I * (E * bool)))
    (it : I) (es : list E) : Prop :=
  match es with
  | [] => exists it' z, next it = Ok (it', (z, false))
  | e :: es' =>
      exists it', next it = Ok (it', (e, true)) /\ yields next it' es'
  end.

(** The content of the table boxes, as the typed writers lay it out: the
    entry count and the entries. *)
Definition tableData {E : Type} (enc : E -> list Z) (entries : list E)
  : list Z :=
  PutUint32 (u32 (len entries)) ++ flat_map enc entries.

Definition encStts (e : bmff.SttsEntry.t) : list Z :=
  PutUint32 (bmff.SttsEntry.Count e) ++ PutUint32 (bmff.SttsEntry.Duration e).

Definition encCtts (e : bmff.CttsEntry.t) : list Z :=
  PutUint32 (bmff.CttsEntry.Count e)
  ++ PutUint32 (u32 (bmff.CttsEntry.Offset e)).

Definition encStsc (e : bmff.StscEntry.t) : list Z :=
  PutUint32 (bmff.StscEntry.FirstChunk e)
  ++ PutUint32 (bmff.StscEntry.SamplesPerChunk e)
  ++ PutUint32 (bmff.StscEntry.SampleDescriptionId e).

(** The values of the Go types. *)
Definition isUint8 (z : Z) : Prop := 0 <= z < 2 ^ 8.
Definition isUint16 (z : Z) : Prop := 0 <= z < 2 ^ 16.
Definition isUint32 (z : Z) : Prop := 0 <= z < 2 ^ 32.
Definition isUint64 (z : Z) : Prop := 0 <= z < 2 ^ 64.
Definition isInt32 (z : Z) : Prop := - 2 ^ 31 <= z < 2 ^ 31.

(** The content of an stsz box: the common sample size, the sample count
    and, when the common size is 0, the sizes. *)
Definition stszData (sampleSize : Z) (entries : list Z) : list Z :=
  PutUint32 sampleSize ++ PutUint32 (u32 (len entries))
  ++ (if sampleSize =? 0 then flat_map PutUint32 entries else []).



(** A field of a trun box that is there or not, the entries and the
    content of the box as [WriteTrun] lays them out, and an entry as the
    box holds it: fields that are not there read as 0. *)
Definition trunField (present : bool) (v : Z) : list Z :=
  if present then PutUint32 v else [].

Definition encTrun (flags : Z) (e : bmff.TrunEntry.t) : list Z :=
  trunField (bmff.has flags bmff.TrunSampleDurationPresent)
    (bmff.TrunEntry.Duration e)
  ++ trunField (bmff.has flags bmff.TrunSampleSizePresent)
       (bmff.TrunEntry.Size e)
  ++ trunField (bmff.has flags bmff.TrunSampleFlagsPresent)
       (bmff.TrunEntry.Flags e)
  ++ trunField (bmff.has flags bmff.TrunSampleCompositionTimeOffsetPresent)
       (u32 (bmff.TrunEntry.CompositionTimeOffset e)).

Definition trunData (flags dataOffset : Z) (entries : list bmff.TrunEntry.t)
  : list Z :=
  PutUint32 (u32 (len entries))
  ++ trunField (bmff.has flags bmff.TrunDataOffsetPresent) (u32 dataOffset)
  ++ flat_map (encTrun flags) entries.

Definition maskTrun (flags : Z) (e : bmff.TrunEntry.t) : bmff.TrunEntry.t :=
  {| bmff.TrunEntry.Duration :=
       if bmff.has flags bmff.TrunSampleDurationPresent
       then bmff.TrunEntry.Duration e else 0;
     bmff.TrunEntry.Size :=
       if bmff.has flags bmff.TrunSampleSizePresent
       then bmff.TrunEntry.Size e else 0;
     bmff.TrunEntry.Flags :=
       if bmff.has flags bmff.TrunSampleFlagsPresent
       then bmff.TrunEntry.Flags e else 0;
     bmff.TrunEntry.CompositionTimeOffset :=
       if bmff.has flags bmff.TrunSampleCompositionTimeOffsetPresent
       then bmff.TrunEntry.CompositionTimeOffset e else 0 |}.

Definition trunEntryOk (e : bmff.TrunEntry.t) : Prop :=
  isUint32 (bmff.TrunEntry.Duration e) /\ isUint32 (bmff.TrunEntry.Size e) /\
  isUint32 (bmff.TrunEntry.Flags e) /\
  isInt32 (bmff.TrunEntry.CompositionTimeOffset e).

Definition trunStride (flags : Z) : Z :=
  (if bmff.has flags bmff.TrunSampleDurationPresent then 4 else 0)
  + (if bmff.has flags bmff.TrunSampleSizePresent then 4 else 0)
  + (if bmff.has flags bmff.TrunSampleFlagsPresent then 4 else 0)
  + (if bmff.has flags bmff.TrunSampleCompositionTimeOffsetPresent
     then 4 else 0).

(** ** Header boxes *)

(** The method [m] writes, into the buffer [b], a box of type [t] that
    the reader finds and from which [read] gets [v]. *)
Definition writtenThenRead {A : Type} (m : bmff.method) (b : list Z)
    (t : bmff.BoxType) (read : bmff.reader.Reader -> result A) (v : A)
  : Prop :=
  exists w r,
    m (bmff.NewWriter b) = Ok w /\
    bmff.reader.Next (bmff.reader.NewReader (bmff.Bytes w)) = Ok (r, true) /\
    bmff.reader.Type_ r = t /\
    read r = Ok v.

(** * Properties *)

(** ** Machine integers and the result monad *)

Lemma i64_id z : - 2 ^ 63 <= z < 2 ^ 63 -> i64 z = z.
Proof. intros H. unfold i64. rewrite Z.mod_small; lia. Qed.

Lemma i64_range z : - 2 ^ 63 <= i64 z < 2 ^ 63.
Proof.
  unfold i64. pose proof (Z.mod_pos_bound (z + 2 ^ 63) (2 ^ 64)). lia.
Qed.

Lemma u32_range z : 0 <= u32 z < 2 ^ 32.
Proof. unfold u32. apply Z.mod_pos_bound. lia. Qed.

Lemma u32_id z : 0 <= z < 2 ^ 32 -> u32 z = z.
Proof. intros H. unfold u32. apply Z.mod_small. lia. Qed.

Lemma bind_Ok {A B} (r : result A) (k : A -> result B) b :
  bind r k = Ok b -> exists a, r = Ok a /\ k a = Ok b.
Proof. destruct r; simpl; intros H; try discriminate. eauto. Qed.

Lemma index_Ok {A} (l : list A) i a :
  index l i = Ok a -> 0 <= i < len l /\ nth_error l (Z.to_nat i) = Some a.
Proof.
  unfold index, len. destruct (i <? 0) eqn:Hi; [discriminate|].
  destruct (nth_error l (Z.to_nat i)) eqn:Hn; [|discriminate].
  intros [= ->]. apply Z.ltb_ge in Hi.
  assert (Z.to_nat i < List.length l)%nat
    by (apply nth_error_Some; congruence).
  split; [lia | reflexivity].
Qed.

Lemma index_in_range {A} (l : list A) i :
  0 <= i < len l -> exists a, index l i = Ok a.
Proof.
  unfold index, len. intros H.
  destruct (i <? 0) eqn:Hi; [apply Z.ltb_lt in Hi; lia|].
  destruct (nth_error l (Z.to_nat i)) eqn:Hn; [eauto|].
  apply nth_error_None in Hn. lia.
Qed.

(** Turns boolean comparisons among the hypotheses into propositions. *)
Ltac zbool :=
  repeat match goal with
         | H : (_ >=? _) = _ |- _ => rewrite Z.geb_leb in H
         | H : (_ >? _) = _ |- _ => rewrite Z.gtb_ltb in H
         | H : (_ <? _) = true |- _ => apply Z.ltb_lt in H
         | H : (_ <? _) = false |- _ => apply Z.ltb_ge in H
         | H : (_ <=? _) = true |- _ => apply Z.leb_le in H
         | H : (_ <=? _) = false |- _ => apply Z.leb_gt in H
         | H : (_ =? _) = true |- _ => apply Z.eqb_eq in H
         | H : (_ =? _) = false |- _ => apply Z.eqb_neq in H
         | H : (_ && _) = true |- _ => apply andb_true_iff in H; destruct H
         | H : (_ || _) = false |- _ => apply orb_false_iff in H; destruct H
         | H : negb _ = true |- _ => apply negb_true_iff in H
         | H : negb _ = false |- _ => apply negb_false_iff in H
         end.

(** Splits a hypothesis [x <- r ;; k = Ok v] into its two steps. *)
Ltac bind_inv H :=
  let a := fresh "a" in
  let Ha := fresh "Hstep" in
  apply bind_Ok in H; destruct H as (a & Ha & H).

(** ** Sample-table reconstruction: decode order and chained timestamps *)

Lemma dts_chained_cons s samples :
  (forall s', nth_error samples 0 = Some s' ->
              DTS s' = i64 (DTS s + Duration s)) ->
  dts_chained samples ->
  dts_chained (s :: samples).
Proof.
  intros Hhd Htl [|k] a b Ha Hb; simpl in *.
  - injection Ha as <-. auto.
  - eauto.
Qed.

Section SampleLoopFacts.
Variable stscEntries : list STSCEntry.
Variable sttsEntries : list STTSEntry.
Variable chunkOffsets : list Z.
Variable cttsEntries : option (list CTTSEntry).
Variable syncEntries : option (list Z).

Let run := sampleLoop stscEntries sttsEntries chunkOffsets cttsEntries
             syncEntries.
Let step := advance stscEntries cttsEntries.

Lemma advance_dts c e t size sync :
  dts (step c e t size sync) = i64 (dts c + SttsDuration t).
Proof.
  unfold step, advance, advanceTime.
  destruct (advanceChunk stscEntries c e size) as [[[? ?] ?] ?].
  destruct (advanceCtts cttsEntries c) as [? ?].
  destruct (decodingOff c + 1 >=? SttsCount t); reflexivity.
Qed.

(** One unfolding of the loop on a non-empty input, as an inversion
    principle: the reads that succeeded, the sample written at [i], and
    what the remaining iterations returned. *)
Lemma sampleLoop_cons_inv i size rest c sdi samples sdi' :
  run i (size :: rest) c sdi = Ok (samples, sdi') ->
  exists e t co tl,
    index stscEntries (sampleToChunkIndex c) = Ok e /\
    index sttsEntries (decodingIdx c) = Ok t /\
    index chunkOffsets (chunk c) = Ok co /\
    samples =
      {| Offset := i64 (offsetInChunk c + co); Size := size;
         Duration := SttsDuration t; DTS := dts c;
         PresentationOffset := presentationOffsetAt cttsEntries c;
         Sync := syncAt syncEntries c i |} :: tl /\
    match rest with
    | [] => tl = [] /\ sdi' = SampleDescriptionId e
    | _ :: _ =>
        run (i + 1) rest (step c e t size (syncAt syncEntries c i))
            (SampleDescriptionId e) = Ok (tl, sdi')
    end.
Proof.
  unfold run, step. simpl. intros H.
  bind_inv H. rename a into e. bind_inv H. rename a into t.
  bind_inv H. rename a into co.
  exists e, t, co.
  destruct rest as [|size' rest'].
  - injection H as <- <-. exists []. repeat split; auto.
  - bind_inv H. destruct a as [tl sdi'']. simpl in H.
    injection H as <- <-. exists tl. repeat split; auto.
Qed.

Lemma sampleLoop_chain sizes : forall i c sdi samples sdi',
  run i sizes c sdi = Ok (samples, sdi') ->
  (forall s, nth_error samples 0 = Some s -> DTS s = dts c) /\
  dts_chained samples /\
  map Size samples = sizes.
Proof.
  induction sizes as [|size rest IH]; intros i c sdi samples sdi' H.
  - unfold run in H. simpl in H. injection H as <- <-.
    split; [intros s Hs; discriminate|].
    split; [|reflexivity].
    intros [|k] s s' Hs; discriminate.
  - apply sampleLoop_cons_inv in H.
    destruct H as (e & t & co & tl & _ & _ & _ & -> & Hrest).
    destruct rest as [|size' rest'].
    + destruct Hrest as [-> _]. split; [|split].
      * intros s [= <-]. reflexivity.
      * intros [|[|k]] s s' Hs Hs'; discriminate.
      * reflexivity.
    + apply IH in Hrest. destruct Hrest as (Hhd & Hch & Hsz).
      split; [|split].
      * intros s [= <-]. reflexivity.
      * apply dts_chained_cons; [|exact Hch].
        intros s' Hs'. rewrite (Hhd _ Hs'). simpl.
        apply advance_dts.
      * simpl. now rewrite Hsz.
Qed.
End SampleLoopFacts.

Lemma totalDuration_app l1 l2 :
  totalDuration (l1 ++ l2) = totalDuration l1 + totalDuration l2.
Proof. induction l1 as [|s l1 IH]; simpl; [reflexivity | rewrite IH; lia]. Qed.

Lemma totalDuration_nonneg l :
  (forall s, In s l -> 0 <= Duration s) -> 0 <= totalDuration l.
Proof.
  induction l as [|s l IH]; intros Hl; simpl; [lia|].
  pose proof (Hl s (or_introl eq_refl)).
  pose proof (IH (fun x Hx => Hl x (or_intror Hx))). lia.
Qed.

Lemma firstn_snoc {A} (l : list A) : forall k p,
  nth_error l k = Some p -> firstn (S k) l = firstn k l ++ [p].
Proof.
  induction l as [|x l IH]; intros [|k] p Hp; try discriminate.
  - injection Hp as ->. reflexivity.
  - simpl in Hp. cbn [firstn app]. f_equal. now apply IH.
Qed.

(** Without [int64] overflow the decode timestamp of a sample is the sum
    of the durations before it. *)
Lemma dts_chained_prefix_sum samples :
  dts_chained samples ->
  (forall s, nth_error samples 0 = Some s -> DTS s = 0) ->
  (forall s, In s samples -> 0 <= Duration s) ->
  totalDuration samples < 2 ^ 63 ->
  forall k s, nth_error samples k = Some s ->
    DTS s = totalDuration (firstn k samples).
Proof.
  intros Hch H0 Hpos Hsum.
  induction k as [|k IH]; intros s Hs.
  - rewrite (H0 s Hs). reflexivity.
  - destruct (nth_error samples k) as [p|] eqn:Hp.
    + rewrite (Hch k p s Hp Hs), (IH p eq_refl).
      rewrite (firstn_snoc samples k p Hp), totalDuration_app.
      cbn [totalDuration fold_right]. fold (totalDuration []).
      pose proof (firstn_skipn (S k) samples) as Hsplit.
      rewrite (firstn_snoc samples k p Hp) in Hsplit.
      assert (totalDuration samples
              = totalDuration (firstn k samples) + Duration p
                + totalDuration (skipn (S k) samples)) as Htot.
      { rewrite <- Hsplit at 1. rewrite !totalDuration_app. simpl. lia. }
      assert (forall x, In x (firstn k samples) -> In x samples) as Hin1.
      { intros x Hx. rewrite <- Hsplit. apply in_or_app. left.
        apply in_or_app. now left. }
      assert (forall x, In x (skipn (S k) samples) -> In x samples) as Hin2.
      { intros x Hx. rewrite <- Hsplit. apply in_or_app. now right. }
      pose proof (totalDuration_nonneg _ (fun x Hx => Hpos x (Hin1 x Hx))).
      pose proof (totalDuration_nonneg _ (fun x Hx => Hpos x (Hin2 x Hx))).
      pose proof (Hpos p (nth_error_In _ _ Hp)).
      simpl. rewrite i64_id by lia. lia.
    + apply nth_error_None in Hp.
      assert (S k < List.length samples)%nat
        by (apply nth_error_Some; congruence).
      lia.
Qed.

Lemma buildSampleTable_Ok_inv stbl samples sdi :
  buildSampleTable stbl = Ok (samples, sdi) ->
  exists sizes sttsEntries stscEntries chunkOffsets,
    stsz stbl = Some sizes /\ stts stbl = Some sttsEntries /\
    stsc stbl = Some stscEntries /\
    chunkOffsetsOf stbl = Some chunkOffsets /\
    sampleLoop stscEntries sttsEntries chunkOffsets (ctts stbl) (stss stbl)
      0 sizes cursors0 0 = Ok (samples, sdi).
Proof.
  unfold buildSampleTable. intros H.
  destruct (stsz stbl) as [sizes|]; [|discriminate].
  destruct (stts stbl) as [tt|]; [|discriminate].
  destruct (stsc stbl) as [sc|]; [|discriminate].
  destruct (chunkOffsetsOf stbl) as [co|]; [|discriminate].
  exists sizes, tt, sc, co. auto.
Qed.

(** On a built track whose durations add up below 2^63, the decode
    timestamp of each sample is the sum of the durations before it. *)
Lemma buildSampleTable_dts_prefix_sum stbl samples sdi :
  buildSampleTable stbl = Ok (samples, sdi) ->
  (forall s, In s samples -> 0 <= Duration s) ->
  totalDuration samples < 2 ^ 63 ->
  forall k s, nth_error samples k = Some s ->
    DTS s = totalDuration (firstn k samples).
Proof.
  intros H. apply buildSampleTable_Ok_inv in H.
  destruct H as (sizes & tt & sc & co & _ & _ & _ & _ & Hrun).
  apply sampleLoop_chain in Hrun. destruct Hrun as (Hhd & Hch & _).
  now apply dts_chained_prefix_sum.
Qed.

(** C1. On every track that [buildSampleTable] builds, the dense sample
    array is in decode order (sample [i] carries the size of stsz entry [i]),
    the first sample has decode timestamp 0, and each next decode timestamp
    is the previous one plus the previous duration: as the [int64] sum the
    code computes, which is the exact sum whenever that fits in 63 bits. *)
Theorem buildSampleTable_dts_chained stbl samples sdi :
  buildSampleTable stbl = Ok (samples, sdi) ->
  stsz stbl = Some (map Size samples) /\
  (forall s, nth_error samples 0 = Some s -> DTS s = 0) /\
  (forall i s s',
      nth_error samples i = Some s ->
      nth_error samples (S i) = Some s' ->
      i64 (DTS s + Duration s) = DTS s' /\
      (- 2 ^ 63 <= DTS s + Duration s < 2 ^ 63 ->
       DTS s + Duration s = DTS s')).
Proof.
  intros H. apply buildSampleTable_Ok_inv in H.
  destruct H as (sizes & tt & sc & co & Hsz & _ & _ & _ & Hrun).
  apply sampleLoop_chain in Hrun. destruct Hrun as (Hhd & Hch & Hmap).
  split; [now rewrite Hmap|]. split; [exact Hhd|].
  intros i s s' Hs Hs'. pose proof (Hch i s s' Hs Hs') as E.
  split; [now symmetry|]. intros Hr. rewrite E. symmetry. now apply i64_id.
Qed.

Example buildSampleTable_demo :
  buildSampleTable demoStbl = Ok (demoSamples, 1).
Proof. vm_compute. reflexivity. Qed.

Lemma buildSampleTable_dts_chained_witness :
  stsz demoStbl = Some (map Size demoSamples) /\
  (forall s, nth_error demoSamples 0 = Some s -> DTS s = 0) /\
  (forall i s s',
      nth_error demoSamples i = Some s ->
      nth_error demoSamples (S i) = Some s' ->
      i64 (DTS s + Duration s) = DTS s' /\
      (- 2 ^ 63 <= DTS s + Duration s < 2 ^ 63 ->
       DTS s + Duration s = DTS s')).
Proof.
  apply (buildSampleTable_dts_chained demoStbl demoSamples 1).
  vm_compute. reflexivity.
Defined.

(** ** Seek helpers *)

Lemma shiftr1_mid i j : i < j -> i <= Z.shiftr (i + j) 1 < j.
Proof.
  intros H. rewrite Z.shiftr_div_pow2 by lia. change (2 ^ 1) with 2.
  split.
  - apply Z.div_le_lower_bound; lia.
  - apply Z.div_lt_upper_bound; lia.
Qed.

Lemma searchLoop_bounds fuel f : forall i j,
  i <= j -> i <= searchLoop fuel f i j <= j.
Proof.
  induction fuel as [|fuel IH]; intros i j Hij; simpl; [lia|].
  destruct (i <? j) eqn:E; [|lia]. zbool.
  pose proof (shiftr1_mid i j E) as Hh.
  destruct (negb (f (Z.shiftr (i + j) 1))).
  - specialize (IH (Z.shiftr (i + j) 1 + 1) j). lia.
  - specialize (IH i (Z.shiftr (i + j) 1)). lia.
Qed.

(** The search is monotone in its predicate: a predicate that holds at
    fewer indices is found no earlier.  No order on the samples is needed. *)
Lemma searchLoop_mono fuel f1 f2 :
  (forall x, f1 x = true -> f2 x = true) ->
  forall i j, i <= j -> searchLoop fuel f2 i j <= searchLoop fuel f1 i j.
Proof.
  intros Himp. induction fuel as [|fuel IH]; intros i j Hij; simpl; [lia|].
  destruct (i <? j) eqn:E; [|lia]. zbool.
  pose proof (shiftr1_mid i j E) as Hh.
  set (h := Z.shiftr (i + j) 1) in *.
  destruct (f1 h) eqn:E1; simpl.
  - rewrite (Himp _ E1). simpl. apply IH. lia.
  - destruct (f2 h) eqn:E2; simpl.
    + pose proof (searchLoop_bounds fuel f1 (h + 1) j ltac:(lia)).
      pose proof (searchLoop_bounds fuel f2 i h ltac:(lia)). lia.
    + apply IH. lia.
Qed.

(** With [j - i] iterations the loop has run to its end: the interval is
    empty, nothing false lies at or after the result inside [j], nothing
    true right before it. *)
Lemma searchLoop_spec fuel f : forall i j,
  i <= j -> j - i <= Z.of_nat fuel ->
  let r := searchLoop fuel f i j in
  (i < r -> f (r - 1) = false) /\ (r < j -> f r = true).
Proof.
  induction fuel as [|fuel IH]; intros i j Hij Hfuel; simpl.
  - split; intros; lia.
  - destruct (i <? j) eqn:E; zbool; [|split; intros; lia].
    pose proof (shiftr1_mid i j E) as Hh.
    set (h := Z.shiftr (i + j) 1) in *.
    destruct (f h) eqn:Eh; simpl.
    + specialize (IH i h ltac:(lia) ltac:(lia)). simpl in IH.
      destruct IH as [IH1 IH2]. split; [exact IH1|].
      intros Hr.
      pose proof (searchLoop_bounds fuel f i h ltac:(lia)) as Hb.
      destruct (Z.eq_dec (searchLoop fuel f i h) h) as [->|Hne];
        [exact Eh | apply IH2; lia].
    + specialize (IH (h + 1) j ltac:(lia) ltac:(lia)). simpl in IH.
      destruct IH as [IH1 IH2]. split; [|exact IH2].
      intros Hr.
      pose proof (searchLoop_bounds fuel f (h + 1) j ltac:(lia)) as Hb.
      destruct (Z.eq_dec (searchLoop fuel f (h + 1) j) (h + 1)) as [->|Hne].
      * replace (h + 1 - 1) with h by lia. exact Eh.
      * apply IH1. lia.
Qed.

Lemma Search_bounds n f : 0 <= n -> 0 <= Search n f <= n.
Proof. intros Hn. apply searchLoop_bounds. exact Hn. Qed.

Lemma Search_mono n f1 f2 :
  0 <= n -> (forall x, f1 x = true -> f2 x = true) ->
  (Search n f2 <= Search n f1).
Proof. intros Hn Himp. apply searchLoop_mono; assumption. Qed.

Lemma Search_spec n f :
  0 <= n ->
  (0 < Search n f -> f (Search n f - 1) = false) /\
  (Search n f < n -> f (Search n f) = true).
Proof. intros Hn. apply (searchLoop_spec (Z.to_nat n) f 0 n); lia. Qed.

(** On a predicate that stays true once it is true, as "pts >= t" does on
    samples in presentation order, the search finds the first index at
    which it holds. *)
Lemma Search_first n f :
  0 <= n ->
  (forall i j, 0 <= i <= j -> j < n -> f i = true -> f j = true) ->
  forall i, 0 <= i < Search n f -> f i = false.
Proof.
  intros Hn Hmono i Hi.
  destruct (Search_spec n f Hn) as [Hprev _].
  pose proof (Search_bounds n f Hn) as Hb.
  destruct (f i) eqn:Ei; [|reflexivity].
  rewrite <- (Hprev ltac:(lia)). symmetry.
  apply (Hmono i (Search n f - 1)); [lia | lia | exact Ei].
Qed.

Lemma len_nonneg {A} (l : list A) : 0 <= len l.
Proof. unfold len. lia. Qed.

Lemma len_nil_iff {A} (l : list A) : len l = 0 <-> l = [].
Proof.
  unfold len. destruct l; simpl; split; intros; try reflexivity;
    try discriminate; lia.
Qed.

(** The forward walk stops at the first sync sample at or after [idx], or
    at the end. *)
Lemma walkForward_spec rest : forall idx,
  let r := walkForward rest idx in
  idx <= r <= idx + len rest /\
  (forall k s, nth_error rest k = Some s -> idx + Z.of_nat k < r ->
               Sync s = false) /\
  (r < idx + len rest ->
   exists s, nth_error rest (Z.to_nat (r - idx)) = Some s /\ Sync s = true).
Proof.
  induction rest as [|s rest IH]; intros idx; simpl.
  - unfold len; simpl. split; [lia|]. split.
    + intros [|k] s Hs; discriminate.
    + intros; lia.
  - unfold len in *. simpl List.length. destruct (Sync s) eqn:Es; simpl.
    + split; [lia|]. split; [intros; lia|].
      intros _. exists s. replace (idx - idx) with 0 by lia. auto.
    + specialize (IH (idx + 1)). simpl in IH. destruct IH as (Hb & Hno & Hyes).
      split; [lia|]. split.
      * intros [|k] s' Hs' Hk; simpl in Hs'.
        -- now injection Hs' as <-.
        -- apply (Hno k s' Hs'). lia.
      * intros Hr. destruct (Hyes ltac:(lia)) as (s' & Hs' & Hsync).
        exists s'. split; [|exact Hsync].
        replace (Z.to_nat (walkForward rest (idx + 1) - idx))
          with (S (Z.to_nat (walkForward rest (idx + 1) - (idx + 1))))
          by lia.
        exact Hs'.
Qed.

Lemma len_skipn {A} (l : list A) k :
  0 <= k <= len l -> len (skipn (Z.to_nat k) l) = len l - k.
Proof. unfold len. intros H. rewrite length_skipn. lia. Qed.

Lemma walkOn_spec samples idx :
  0 <= idx <= len samples ->
  let r := walkOn samples idx in
  idx <= r <= len samples /\
  (forall k s, idx <= k < r -> nth_error samples (Z.to_nat k) = Some s ->
               Sync s = false) /\
  (r < len samples ->
   exists s, nth_error samples (Z.to_nat r) = Some s /\ Sync s = true).
Proof.
  intros Hidx. unfold walkOn.
  pose proof (walkForward_spec (skipn (Z.to_nat idx) samples) idx) as H.
  simpl in H. rewrite len_skipn in H by exact Hidx.
  destruct H as (Hb & Hno & Hyes).
  split; [lia|]. split.
  - intros k s Hk Hs.
    apply (Hno (Z.to_nat (k - idx)) s); [|lia].
    rewrite nth_error_skipn.
    replace (Z.to_nat idx + Z.to_nat (k - idx))%nat with (Z.to_nat k) by lia.
    exact Hs.
  - intros Hr. destruct (Hyes ltac:(lia)) as (s & Hs & Hsync).
    exists s. split; [|exact Hsync].
    rewrite nth_error_skipn in Hs.
    replace (Z.to_nat idx + Z.to_nat (walkForward (skipn (Z.to_nat idx) samples) idx - idx))%nat
      with (Z.to_nat (walkForward (skipn (Z.to_nat idx) samples) idx))
      in Hs by lia.
    exact Hs.
Qed.

Lemma walkOn_mono samples i1 i2 :
  0 <= i2 -> i2 <= i1 -> i1 <= len samples ->
  walkOn samples i2 <= walkOn samples i1.
Proof.
  intros H0 H21 H1.
  destruct (walkOn_spec samples i1 ltac:(lia)) as (Hb1 & Hno1 & Hyes1).
  destruct (walkOn_spec samples i2 ltac:(lia)) as (Hb2 & Hno2 & Hyes2).
  destruct (Z_le_gt_dec (walkOn samples i2) (walkOn samples i1)) as [|Hgt];
    [assumption|].
  destruct (Hyes1 ltac:(lia)) as (s & Hs & Hsync).
  rewrite (Hno2 (walkOn samples i1) s ltac:(lia) Hs) in Hsync.
  discriminate.
Qed.

Lemma walkBackward_spec samples : forall idx,
  (idx < List.length samples)%nat \/ idx = O ->
  let r := walkBackward samples idx in
  (r <= idx)%nat /\
  (r = O \/ exists s, nth_error samples r = Some s /\ Sync s = true).
Proof.
  induction idx as [|idx IH]; intros Hidx; cbn [walkBackward].
  - split; [lia | now left].
  - destruct Hidx as [Hidx|Hidx]; [|discriminate].
    destruct (nth_error samples (S idx)) as [s|] eqn:Hs.
    + destruct (Sync s) eqn:Es; cbn [negb].
      * split; [lia|]. right. exists s. rewrite Hs. auto.
      * destruct (IH ltac:(lia)) as [Hle Hr]. split; [lia | exact Hr].
    + apply nth_error_None in Hs. lia.
Qed.

Section SeekFacts.
Variable t : Track.
Let n := len (Samples t).

Let after (scaledTime : Z) : Z -> bool := fun i =>
  match ptsAt (Samples t) i with
  | Some p => p >=? scaledTime
  | None => false
  end.

Lemma after_antitone s1 s2 x :
  s2 <= s1 -> after s1 x = true -> after s2 x = true.
Proof.
  unfold after. intros Hs. destruct (ptsAt (Samples t) x); [|auto].
  intros H. zbool. apply Z.geb_le. lia.
Qed.

Lemma FindSampleAfter_upper scaledTime :
  FindSampleAfter t scaledTime <= n - 1.
Proof.
  unfold FindSampleAfter. fold n. fold (after scaledTime).
  destruct (Search n (after scaledTime) >=? n) eqn:E; [lia|].
  destruct (walkOn (Samples t) (Search n (after scaledTime)) >=? n) eqn:E';
    zbool; lia.
Qed.

Lemma FindSampleAfter_mono s1 s2 :
  s2 <= s1 -> FindSampleAfter t s2 <= FindSampleAfter t s1.
Proof.
  intros Hs. pose proof (len_nonneg (Samples t)) as Hn. fold n in Hn.
  pose proof (Search_mono n (after s1) (after s2) Hn
                (fun x => after_antitone s1 s2 x Hs)) as Hidx.
  pose proof (Search_bounds n (after s2) Hn) as Hb2.
  pose proof (FindSampleAfter_upper s2) as Hup.
  unfold FindSampleAfter in Hup |- *. fold n in Hup |- *.
  fold (after s1). fold (after s2) in Hup |- *.
  destruct (Search n (after s1) >=? n) eqn:E1; [lia|]. zbool.
  destruct (Search n (after s2) >=? n) eqn:E2; zbool; [lia|].
  pose proof (walkOn_mono (Samples t) _ _ (proj1 Hb2) Hidx
                ltac:(fold n; lia)) as Hw.
  destruct (walkOn (Samples t) (Search n (after s1)) >=? n) eqn:E3;
    destruct (walkOn (Samples t) (Search n (after s2)) >=? n) eqn:E4;
    zbool; lia.
Qed.

Lemma FindSampleAfter_empty scaledTime :
  Samples t = [] -> FindSampleAfter t scaledTime = -1.
Proof.
  intros He. unfold FindSampleAfter. rewrite He. reflexivity.
Qed.

(** On a track with samples the result is an index of the track, and the
    sample there is a sync sample unless the walk ran off the end. *)
Lemma FindSampleAfter_nonempty scaledTime :
  Samples t <> [] ->
  0 <= FindSampleAfter t scaledTime <= n - 1 /\
  exists s, nth_error (Samples t) (Z.to_nat (FindSampleAfter t scaledTime))
            = Some s /\
            (Sync s = true \/ FindSampleAfter t scaledTime = n - 1).
Proof.
  intros Hne. pose proof (len_nonneg (Samples t)) as Hn. fold n in Hn.
  assert (n <> 0) as Hn0 by (unfold n; now rewrite len_nil_iff).
  pose proof (Search_bounds n (after scaledTime) Hn) as Hb.
  assert (forall k, 0 <= k <= n - 1 ->
            exists s, nth_error (Samples t) (Z.to_nat k) = Some s) as Hget.
  { intros k Hk. destruct (nth_error (Samples t) (Z.to_nat k)) eqn:E;
      [eauto|]. apply nth_error_None in E. unfold n, len in Hk. lia. }
  unfold FindSampleAfter. fold n. fold (after scaledTime).
  destruct (Search n (after scaledTime) >=? n) eqn:E1; zbool.
  - split; [lia|]. destruct (Hget (n - 1) ltac:(lia)) as [s Hs].
    exists s. auto.
  - destruct (walkOn_spec (Samples t) (Search n (after scaledTime))
                ltac:(fold n; lia)) as (Hw & _ & Hyes).
    fold n in Hw, Hyes.
    destruct (walkOn (Samples t) (Search n (after scaledTime)) >=? n)
      eqn:E2; zbool.
    + split; [lia|]. destruct (Hget (n - 1) ltac:(lia)) as [s Hs].
      exists s. auto.
    + split; [lia|]. destruct (Hyes ltac:(lia)) as (s & Hs & Hsync).
      exists s. auto.
Qed.

(** [FindSampleBefore] on a track with samples: an index of the track,
    and the sample there is a sync sample unless the walk reached 0. *)
Lemma FindSampleBefore_nonempty scaledTime :
  Samples t <> [] ->
  0 <= FindSampleBefore t scaledTime <= n - 1 /\
  exists s, nth_error (Samples t) (Z.to_nat (FindSampleBefore t scaledTime))
            = Some s /\
            (Sync s = true \/ FindSampleBefore t scaledTime = 0).
Proof.
  intros Hne. pose proof (len_nonneg (Samples t)) as Hn. fold n in Hn.
  assert (n <> 0) as Hn0 by (unfold n; now rewrite len_nil_iff).
  unfold FindSampleBefore. fold n.
  set (f := fun i : Z => match ptsAt (Samples t) i with
                         | Some p => p >? scaledTime
                         | None => false
                         end).
  pose proof (Search_bounds n f Hn) as Hb.
  set (idx := Z.max (Search n f - 1) 0) in *.
  assert (0 <= idx <= n - 1) as Hidx by (unfold idx; lia).
  destruct (walkBackward_spec (Samples t) (Z.to_nat idx)) as [Hle Hr].
  { left. unfold n, len in Hidx. lia. }
  split; [lia|].
  destruct Hr as [Hr|(s & Hs & Hsync)].
  - rewrite Hr. change (Z.to_nat (Z.of_nat 0)) with 0%nat.
    destruct (nth_error (Samples t) 0) as [s|] eqn:E.
    + exists s. split; [reflexivity | now right].
    + apply nth_error_None in E. unfold n, len in Hn0. lia.
  - exists s. rewrite Nat2Z.id. auto.
Qed.
End SeekFacts.

(** C4 (as amended).  [FindSampleAfter] is monotone in the scaled time: a
    later time never yields an earlier sample.  The converse does not hold.
    On a track with samples, [FindSampleAfter] returns the index of a sync
    sample or else the last index, and [FindSampleBefore] returns the index
    of a sync sample or else index 0. *)
Theorem FindSample_monotone_sync (t : Track) :
  (forall s1 s2, s2 <= s1 ->
     FindSampleAfter t s2 <= FindSampleAfter t s1) /\
  (Samples t <> [] ->
   forall scaledTime,
     (exists s, index (Samples t) (FindSampleAfter t scaledTime) = Ok s /\
                (Sync s = true \/
                 FindSampleAfter t scaledTime = len (Samples t) - 1)) /\
     (exists s, index (Samples t) (FindSampleBefore t scaledTime) = Ok s /\
                (Sync s = true \/ FindSampleBefore t scaledTime = 0))).
Proof.
  split; [apply FindSampleAfter_mono|].
  intros Hne scaledTime. split.
  - destruct (FindSampleAfter_nonempty t scaledTime Hne) as (Hr & s & Hs & H).
    exists s. split; [|exact H]. unfold index.
    destruct (FindSampleAfter t scaledTime <? 0) eqn:E; zbool; [lia|].
    now rewrite Hs.
  - destruct (FindSampleBefore_nonempty t scaledTime Hne) as (Hr & s & Hs & H).
    exists s. split; [|exact H]. unfold index.
    destruct (FindSampleBefore t scaledTime <? 0) eqn:E; zbool; [lia|].
    now rewrite Hs.
Qed.

Lemma FindSample_monotone_sync_witness :
  FindSampleAfter demoTrack 5 <= FindSampleAfter demoTrack 30 /\
  exists s, index (Samples demoTrack) (FindSampleBefore demoTrack 30) = Ok s /\
            (Sync s = true \/ FindSampleBefore demoTrack 30 = 0).
Proof.
  destruct (FindSample_monotone_sync demoTrack) as [Hmono Hsync].
  split.
  - apply Hmono. lia.
  - apply Hsync. discriminate.
Defined.

(** C4 as stated fails.  On the four-sample track, times 0 s and 0.5 s
    (scaled 0 and 5 at timescale 10) both resolve to sample 0, so
    "after(t1) >= after(t2)" holds although t1 < t2; and time 3 s
    (scaled 30) resolves to the last sample, which is not a sync sample. *)
Lemma FindSample_iff_sync_counterexample :
  (FindSampleAfter demoTrack 0 >= FindSampleAfter demoTrack 5 /\ ~ 0 >= 5) /\
  FindSampleAfter demoTrack 30 = 3 /\
  option_map Sync (nth_error (Samples demoTrack) 3) = Some false.
Proof.
  split; [split|split].
  - vm_compute. discriminate.
  - lia.
  - vm_compute. reflexivity.
  - vm_compute. reflexivity.
Qed.

(** ** The starting sample of a stream *)

Lemma resolveRange_empty t startScaled endTime :
  Samples t = [] -> resolveRange t startScaled endTime = Panic.
Proof.
  intros He. unfold resolveRange.
  rewrite (FindSampleAfter_empty t startScaled He). rewrite He.
  destruct endTime; reflexivity.
Qed.

Lemma index_nth_error {A} (l : list A) i a :
  0 <= i -> nth_error l (Z.to_nat i) = Some a -> index l i = Ok a.
Proof.
  intros Hi Hn. unfold index.
  destruct (i <? 0) eqn:E; zbool; [lia|]. now rewrite Hn.
Qed.

Lemma resolveRange_nonempty t startScaled endTime :
  Samples t <> [] ->
  exists firstSample s,
    resolveRange t startScaled endTime =
      Ok (firstSample, DTS s,
          match endTime with Some e => e | None => 0 end) /\
    index (Samples t) firstSample = Ok s /\
    (firstSample = FindSampleAfter t startScaled \/
     firstSample = FindSampleBefore t startScaled).
Proof.
  intros Hne.
  destruct (FindSampleAfter_nonempty t startScaled Hne)
    as (Ha & sa & Hsa & _).
  destruct (FindSampleBefore_nonempty t startScaled Hne)
    as (Hb & sb & Hsb & _).
  apply index_nth_error in Hsa; [|lia].
  apply index_nth_error in Hsb; [|lia].
  unfold resolveRange.
  destruct endTime as [endScaled|]; simpl.
  - destruct (FindSampleAfter t startScaled <? len (Samples t)) eqn:E;
      zbool; [|lia].
    rewrite Hsa. simpl. destruct (pts sa >=? endScaled); simpl.
    + rewrite Hsb. simpl. exists (FindSampleBefore t startScaled), sb. auto.
    + rewrite Hsa. simpl. exists (FindSampleAfter t startScaled), sa. auto.
  - rewrite Hsa. simpl. exists (FindSampleAfter t startScaled), sa. auto.
Qed.

(** ** Fragment boundary selection *)

Section FragmentEndFacts.
Variable firstSample : Z.
Variable endTimeScaled : Z.
Variable startDts : Z.
Variable threshold : Z.

Let scan := fragmentEnd firstSample endTimeScaled startDts threshold.
Let hard := hardStop endTimeScaled.
Let boundary := boundaryStop firstSample endTimeScaled startDts threshold.

(** The boundary loop stops at the first sample that meets a stop
    condition, or at the end of the track. *)
Lemma fragmentEnd_spec rest : forall lastSample,
  let r := scan rest lastSample in
  lastSample <= r <= lastSample + len rest /\
  (forall k s, nth_error rest k = Some s -> lastSample + Z.of_nat k < r ->
     hard s = false /\ boundary s (lastSample + Z.of_nat k) = false) /\
  (r < lastSample + len rest ->
   exists s, nth_error rest (Z.to_nat (r - lastSample)) = Some s /\
             (hard s = true \/ boundary s r = true)).
Proof.
  induction rest as [|s rest IH]; intros lastSample; simpl.
  - unfold len; simpl. split; [lia|]. split.
    + intros [|k] s Hs; discriminate.
    + intros; lia.
  - unfold scan. cbn [fragmentEnd]. fold scan. fold hard. fold boundary.
    unfold len in *. cbn [List.length].
    destruct (hard s) eqn:Eh.
    { split; [lia|]. split; [intros; lia|]. intros _. exists s.
      replace (lastSample - lastSample) with 0 by lia. auto. }
    destruct (boundary s lastSample) eqn:Eb.
    { split; [lia|]. split; [intros; lia|]. intros _. exists s.
      replace (lastSample - lastSample) with 0 by lia. auto. }
    specialize (IH (lastSample + 1)). cbv zeta in IH.
    destruct IH as (Hb & Hno & Hyes).
    split; [lia|]. split.
    + intros [|k] s' Hs' Hk; simpl in Hs'.
      * injection Hs' as <-. replace (lastSample + Z.of_nat 0)
          with lastSample by lia. auto.
      * replace (lastSample + Z.of_nat (S k))
          with (lastSample + 1 + Z.of_nat k) by lia.
        apply (Hno k s' Hs'). lia.
    + intros Hr. destruct (Hyes ltac:(lia)) as (s' & Hs' & Hstop).
      exists s'. split; [|exact Hstop].
      replace (Z.to_nat (scan rest (lastSample + 1) - lastSample))
        with (S (Z.to_nat (scan rest (lastSample + 1) - (lastSample + 1))))
        by lia.
      exact Hs'.
Qed.
End FragmentEndFacts.

Lemma stopsAt_iff track firstSample endTimeScaled first s j :
  stopsAt track firstSample endTimeScaled first s j <->
  hardStop endTimeScaled s = true \/
  boundaryStop firstSample endTimeScaled (DTS first)
    (i64 (TimeScale track * minFragmentDuration)) s j = true.
Proof.
  unfold stopsAt, hardStop, boundaryStop.
  rewrite !andb_true_iff, !Z.gtb_ltb, !Z.geb_leb, !Z.ltb_lt, !Z.leb_le,
    Z.eqb_eq.
  split; (intros [H|H]; [left|right]); intuition lia.
Qed.

Lemma slice_empty {A} (l : list A) i : slice l i i = [].
Proof. unfold slice. now rewrite Z.sub_diag. Qed.

(** C2.  For a track and a starting index of it, [generateFragment] returns
    a fragment whose samples are exactly those from [firstSample] up to the
    stop point [nextSample]: no sample before the stop point meets a stop
    condition, and the sample at the stop point, when there is one, does.
    The stop conditions are: [endTimeScaled > 0] and
    [pts = dts + presentation_offset >= endTimeScaled]; or
    [endTimeScaled = 0], the sample is a sync sample strictly after
    [firstSample], and its dts minus the first sample's dts is at least
    timescale times the minimum fragment duration (1 second).  Past the end
    of the track the fragment is empty; a negative index panics. *)
Theorem generateFragment_boundary track firstSample endTimeScaled :
  (0 <= firstSample < len (Samples track) ->
   exists first frag,
     index (Samples track) firstSample = Ok first /\
     generateFragment track firstSample endTimeScaled = Ok frag /\
     firstSample <= nextSample frag <= len (Samples track) /\
     trunEntries frag =
       map trunEntryOf
         (slice (Samples track) firstSample (nextSample frag)) /\
     (forall j s, firstSample <= j < nextSample frag ->
        index (Samples track) j = Ok s ->
        ~ stopsAt track firstSample endTimeScaled first s j) /\
     (nextSample frag < len (Samples track) ->
      exists s, index (Samples track) (nextSample frag) = Ok s /\
                stopsAt track firstSample endTimeScaled first s
                  (nextSample frag))) /\
  (len (Samples track) <= firstSample ->
   generateFragment track firstSample endTimeScaled
   = Ok (emptyFragment firstSample)) /\
  (firstSample < 0 ->
   generateFragment track firstSample endTimeScaled = Panic).
Proof.
  split; [|split].
  2:{ intros Hpast. unfold generateFragment.
      destruct (firstSample >=? len (Samples track)) eqn:E; zbool;
        [reflexivity | lia]. }
  2:{ intros Hneg. unfold generateFragment.
      pose proof (len_nonneg (Samples track)).
      destruct (firstSample >=? len (Samples track)) eqn:E; zbool; [lia|].
      unfold index. destruct (firstSample <? 0) eqn:E0; zbool;
        [reflexivity | lia]. }
  intros Hrange.
  destruct (index_in_range (Samples track) firstSample Hrange)
    as [first Hfirst].
  pose proof (fragmentEnd_spec firstSample endTimeScaled (DTS first)
                (i64 (TimeScale track * minFragmentDuration))
                (skipn (Z.to_nat firstSample) (Samples track)) firstSample)
    as Hspec.
  cbv zeta in Hspec. rewrite len_skipn in Hspec by lia.
  set (last := fragmentEnd firstSample endTimeScaled (DTS first)
                 (i64 (TimeScale track * minFragmentDuration))
                 (skipn (Z.to_nat firstSample) (Samples track)) firstSample)
    in *.
  destruct Hspec as (Hb & Hno & Hyes).
  assert (exists frag,
            generateFragment track firstSample endTimeScaled = Ok frag /\
            nextSample frag = last /\
            trunEntries frag =
              map trunEntryOf (slice (Samples track) firstSample last))
    as (frag & Hgen & Hnext & Htrun).
  { unfold generateFragment.
    destruct (firstSample >=? len (Samples track)) eqn:E; zbool; [lia|].
    rewrite Hfirst. cbn [bind]. fold last.
    destruct (last - firstSample =? 0) eqn:En; zbool.
    - eexists. split; [reflexivity|]. split; [reflexivity|].
      replace last with firstSample by lia. now rewrite slice_empty.
    - eexists. split; [reflexivity|]. split; reflexivity. }
  exists first, frag. rewrite Hnext.
  split; [exact Hfirst|]. split; [exact Hgen|]. split; [lia|].
  split; [exact Htrun|]. split.
  - intros j s Hj Hs Hstop. apply index_Ok in Hs. destruct Hs as [_ Hs].
    apply stopsAt_iff in Hstop.
    destruct (Hno (Z.to_nat (j - firstSample)) s) as [Hh Hbd].
    + rewrite nth_error_skipn.
      replace (Z.to_nat firstSample + Z.to_nat (j - firstSample))%nat
        with (Z.to_nat j) by lia.
      exact Hs.
    + lia.
    + replace (firstSample + Z.of_nat (Z.to_nat (j - firstSample)))
        with j in Hbd by lia.
      destruct Hstop; congruence.
  - intros Hlt. destruct (Hyes ltac:(lia)) as (s & Hs & Hstop).
    rewrite nth_error_skipn in Hs.
    replace (Z.to_nat firstSample + Z.to_nat (last - firstSample))%nat
      with (Z.to_nat last) in Hs by lia.
    exists s. split; [apply index_nth_error; [lia | exact Hs]|].
    apply stopsAt_iff. exact Hstop.
Qed.

Lemma generateFragment_boundary_witness :
  exists first frag,
    index (Samples demoTrack) 0 = Ok first /\
    generateFragment demoTrack 0 0 = Ok frag /\
    0 <= nextSample frag <= len (Samples demoTrack) /\
    trunEntries frag =
      map trunEntryOf (slice (Samples demoTrack) 0 (nextSample frag)) /\
    (forall j s, 0 <= j < nextSample frag ->
       index (Samples demoTrack) j = Ok s ->
       ~ stopsAt demoTrack 0 0 first s j) /\
    (nextSample frag < len (Samples demoTrack) ->
     exists s, index (Samples demoTrack) (nextSample frag) = Ok s /\
               stopsAt demoTrack 0 0 first s (nextSample frag)).
Proof.
  apply (generateFragment_boundary demoTrack 0 0).
  unfold len. simpl. lia.
Defined.

Example generateFragment_demo_open_end :
  option_map nextSample
    (match generateFragment demoTrack 0 0 with
     | Ok f => Some f | _ => None end) = Some 2.
Proof. vm_compute. reflexivity. Qed.

Example generateFragment_demo_end_time :
  option_map nextSample
    (match generateFragment demoTrack 0 17 with
     | Ok f => Some f | _ => None end) = Some 2.
Proof. vm_compute. reflexivity. Qed.

Lemma pts_exact s :
  - 2 ^ 62 <= DTS s < 2 ^ 62 ->
  - 2 ^ 31 <= PresentationOffset s < 2 ^ 31 ->
  pts s = DTS s + PresentationOffset s.
Proof. intros H1 H2. unfold pts. apply i64_id. lia. Qed.

(** On values of the declared types that stay clear of the [int64] range,
    the stop condition is the one over exact integers. *)
Lemma stopsAt_exact track firstSample endTimeScaled first s j :
  0 <= TimeScale track < 2 ^ 32 ->
  - 2 ^ 62 <= DTS first < 2 ^ 62 ->
  - 2 ^ 62 <= DTS s < 2 ^ 62 ->
  - 2 ^ 31 <= PresentationOffset s < 2 ^ 31 ->
  stopsAt track firstSample endTimeScaled first s j <->
  (endTimeScaled > 0 /\ DTS s + PresentationOffset s >= endTimeScaled) \/
  (endTimeScaled = 0 /\ j > firstSample /\ Sync s = true /\
   DTS s - DTS first >= TimeScale track * 1).
Proof.
  intros Hts Hf Hs Hpo. unfold stopsAt, minFragmentDuration.
  rewrite (pts_exact s Hs Hpo).
  rewrite (i64_id (DTS s - DTS first)) by lia.
  rewrite (i64_id (TimeScale track * 1)) by lia.
  reflexivity.
Qed.

(** ** Big-endian words *)

(** Case analysis on every integer comparison in the goal. *)
Ltac zcases :=
  repeat match goal with
         | |- context [?a <? ?b] => destruct (Z.ltb_spec a b)
         | |- context [?a <=? ?b] => destruct (Z.leb_spec a b)
         end;
  cbn [andb orb negb]; try reflexivity; try lia.

Lemma shifted_byte_bit v k n :
  0 <= k -> 0 <= n ->
  Z.testbit (Z.shiftl (u8 (Z.shiftr v k)) k) n =
  (k <=? n) && (n <? k + 8) && Z.testbit v n.
Proof.
  intros Hk Hn. unfold u8. destruct (Z.leb_spec k n).
  - rewrite Z.shiftl_spec, Z.testbit_mod_pow2, Z.shiftr_spec by lia.
    replace (n - k + k) with n by lia.
    destruct (Z.testbit v n); rewrite ?andb_true_r, ?andb_false_r;
      [|reflexivity].
    zcases.
  - rewrite Z.shiftl_spec_low by lia. reflexivity.
Qed.

Lemma low_byte_bit v n :
  0 <= n -> Z.testbit (u8 v) n = (n <? 8) && Z.testbit v n.
Proof. intros Hn. unfold u8. now rewrite Z.testbit_mod_pow2 by lia. Qed.

Lemma Uint32_PutUint32 v : Uint32 (PutUint32 v) = u32 v.
Proof.
  unfold Uint32, PutUint32, byteAt. cbn [nth].
  apply Z.bits_inj'. intros n Hn.
  rewrite !Z.lor_spec, !shifted_byte_bit, low_byte_bit by lia.
  unfold u32. rewrite Z.testbit_mod_pow2 by lia.
  destruct (Z.testbit v n); rewrite ?andb_true_r, ?andb_false_r;
    [|reflexivity].
  zcases.
Qed.

Lemma len_PutUint32 v : len (PutUint32 v) = 4.
Proof. reflexivity. Qed.

(** ** The serialised moof *)

Lemma length_trun_entries (entries : list TrunEntry) :
  len (flat_map (fun e =>
         PutUint32 (SampleDuration e) ++ PutUint32 (SampleSize e)
         ++ PutUint32 (SampleFlags e)
         ++ PutUint32 (u32 (SampleCompositionTimeOffset e))) entries)
  = 16 * len entries.
Proof.
  unfold len. induction entries as [|e entries IH]; [reflexivity|].
  cbn [flat_map]. rewrite length_app.
  change (List.length (PutUint32 (SampleDuration e) ++ PutUint32 (SampleSize e)
            ++ PutUint32 (SampleFlags e)
            ++ PutUint32 (u32 (SampleCompositionTimeOffset e)))) with 16%nat.
  cbn [List.length]. lia.
Qed.

Lemma moofBytes_length seqNum trackID base entries version :
  len (moofBytes seqNum trackID base entries version)
  = 8 + 16 + (8 + 16 + 16 + (20 + 16 * len entries)).
Proof.
  pose proof (length_trun_entries entries) as Hl.
  unfold moofBytes, len in *.
  repeat (rewrite length_app; cbn [List.length PutUint32 bytesOfString
                                   list_ascii_of_string map]).
  lia.
Qed.

Lemma moofBytes_tfdt seqNum trackID base entries version :
  let b := moofBytes seqNum trackID base entries version in
  slice b 48 56 = PutUint32 16 ++ bytesOfString "tfdt" /\
  tfdtVersion b = 0 /\ tfdtFlags b = [0; 0; 0] /\
  slice b 60 64 = PutUint32 base /\
  tfdtBaseMediaDecodeTime b = u32 base.
Proof.
  cbv zeta. split; [reflexivity|]. split; [reflexivity|].
  split; [reflexivity|]. split; [reflexivity|].
  unfold tfdtBaseMediaDecodeTime.
  change (slice (moofBytes seqNum trackID base entries version) 60 64)
    with (PutUint32 base).
  apply Uint32_PutUint32.
Qed.

Lemma moofBytes_trun seqNum trackID base entries version :
  let b := moofBytes seqNum trackID base entries version in
  trunVersionByte b = version /\
  trunFlags b = 3841 /\
  trunSampleCount b = u32 (len entries) /\
  trunDataOffset b = u32 (len b + 8).
Proof.
  cbv zeta. split; [reflexivity|]. split; [reflexivity|].
  rewrite moofBytes_length. split.
  - unfold trunSampleCount.
    change (slice (moofBytes seqNum trackID base entries version) 76 80)
      with (PutUint32 (u32 (len entries))).
    rewrite Uint32_PutUint32. unfold u32. apply Z.mod_mod. lia.
  - unfold trunDataOffset.
    change (slice (moofBytes seqNum trackID base entries version) 80 84)
      with (PutUint32 (u32 (8 + 16 + (8 + 16 + 16 + (20 + len entries * 16))
                            + 8))).
    rewrite Uint32_PutUint32. unfold u32. rewrite Z.mod_mod by lia.
    f_equal. lia.
Qed.

(** ** What the stream writer hands to the sink *)

Section Emission.
Context {W R : Type} `{io.Writer W}.

Let act := action (W:=W) (R:=R).

Lemma adds_ret {A} (a : A) P : adds (ret a : act A) P.
Proof. intros st st' r [= <- _] p b Hin. now left. Qed.

Lemma adds_lift {A} (x : result A) P : adds (lift x : act A) P.
Proof. intros st st' r [= <- _] p b Hin. now left. Qed.

Lemma adds_andThen {A B} (m : act A) (k : A -> act B) P :
  adds m P -> (forall a, adds (k a) P) -> adds (andThen m k) P.
Proof.
  intros Hm Hk st st' r Hrun p b Hin. unfold andThen in Hrun.
  destruct (m st) as [st1 r1] eqn:Em.
  destruct r1 as [a| |].
  - destruct (Hk a st1 st' r Hrun p b Hin) as [Hin1|HP]; [|now right].
    exact (Hm st st1 _ Em p b Hin1).
  - injection Hrun as <- _. exact (Hm st st1 _ Em p b Hin).
  - injection Hrun as <- _. exact (Hm st st1 _ Em p b Hin).
Qed.

Lemma adds_lift_andThen {A B} (x : result A) (k : A -> act B) P :
  (forall a, x = Ok a -> adds (k a) P) -> adds (andThen (lift x) k) P.
Proof.
  intros Hk st st' r Hrun p b Hin. unfold andThen, lift in Hrun.
  destruct x as [a| |].
  - exact (Hk a eq_refl st st' r Hrun p b Hin).
  - injection Hrun as <- _. now left.
  - injection Hrun as <- _. now left.
Qed.

Lemma adds_write part0 bytes (P : part -> list Z -> Prop) :
  P part0 bytes -> adds (write part0 bytes : act unit) P.
Proof.
  intros HP st st' r Hrun p b Hin. unfold write in Hrun.
  destruct (io.Write (sink st) bytes) as [w e].
  injection Hrun as <- _. cbn [emitted] in Hin.
  apply in_app_or in Hin. destruct Hin as [Hin|[[= <- <-]|[]]]; auto.
Qed.

Lemma adds_callWriteMoof seqNum trackID base entries version
    (P : part -> list Z -> Prop) :
  P Moof (moofBytes seqNum trackID base entries version) ->
  adds (callWriteMoof seqNum trackID base entries version : act unit) P.
Proof.
  intros HP st st' r Hrun p b Hin. unfold callWriteMoof, writeMoof in Hrun.
  destruct (io.Write (sink st) _) as [w e].
  injection Hrun as <- _. cbn [emitted] in Hin.
  apply in_app_or in Hin. destruct Hin as [Hin|[[= <- <-]|[]]]; auto.
Qed.

(** What the fragment loop may hand to the sink: moofs built from a
    fragment of the track, mdat headers and payload. *)
Let loopPart (track : Track) (endTimeScaled dtsOffset : Z)
    (p : part) (b : list Z) : Prop :=
  match p with
  | Init => False
  | Moof => moofOf track endTimeScaled dtsOffset b
  | MdatHdr | Payload => True
  end.

Variable copy : list byteRange -> act unit.
Hypothesis copy_payload :
  forall (P : part -> list Z -> Prop) rs,
    (forall b, P Payload b) -> adds (copy rs) P.

Lemma adds_fragmentLoop track endTimeScaled dtsOffset fuel :
  forall seqNum sample,
    adds (fragmentLoop copy fuel track endTimeScaled dtsOffset seqNum sample)
         (loopPart track endTimeScaled dtsOffset).
Proof.
  induction fuel as [|fuel IH]; intros seqNum sample;
    cbn [fragmentLoop]; destruct (sample <? len (Samples track));
    try apply adds_ret; try apply adds_lift.
  apply adds_andThen; [apply adds_lift|]. intros past.
  destruct past; [apply adds_ret|].
  apply adds_lift_andThen. intros frag Hfrag.
  destruct (len (trunEntries frag) =? 0) eqn:En; [apply adds_ret|].
  apply adds_lift_andThen. intros s Hs.
  apply adds_andThen.
  { apply adds_callWriteMoof. cbn [loopPart].
    exists seqNum, sample, s, frag. repeat split; try assumption.
    intros He. rewrite He in En. discriminate. }
  intros _. apply adds_andThen; [now apply adds_write|].
  intros _. apply adds_andThen; [now apply copy_payload|].
  intros _. apply IH.
Qed.

(** Every moof in the stream was built from a fragment of the track,
    against the decode-time offset that [resolveRange] chose. *)
Lemma writeStream_moofs track startScaled endTime (st st' : stream W R) r b :
  writeStream copy track startScaled endTime st = (st', r) ->
  emitted st = [] ->
  In (Moof, b) (emitted st') ->
  exists firstSample dtsOffset endTimeScaled,
    resolveRange track startScaled endTime
      = Ok (firstSample, dtsOffset, endTimeScaled) /\
    moofOf track endTimeScaled dtsOffset b.
Proof.
  intros Hrun Hst Hin. unfold writeStream in Hrun.
  unfold andThen at 1 in Hrun. unfold lift in Hrun.
  destruct (resolveRange track startScaled endTime)
    as [[[firstSample dtsOffset] endTimeScaled]| |] eqn:Er;
    try (injection Hrun as <- _; rewrite Hst in Hin; contradiction).
  exists firstSample, dtsOffset, endTimeScaled. split; [reflexivity|].
  assert (adds (_ <~ write Init (InitSegment track) ;;
                fragmentLoop copy (List.length (Samples track)) track
                  endTimeScaled dtsOffset 1 firstSample : act unit)
            (fun p b => match p with
                        | Moof => moofOf track endTimeScaled dtsOffset b
                        | _ => True
                        end)) as Hadds.
  { apply adds_andThen; [now apply adds_write|]. intros _.
    intros s0 s1 r0 Hr0 p0 b0 Hin0.
    destruct (adds_fragmentLoop track endTimeScaled dtsOffset _ _ _
                s0 s1 r0 Hr0 p0 b0 Hin0) as [Hl|Hp]; [now left|].
    right. destruct p0; cbn [loopPart] in Hp; auto. }
  destruct (Hadds st st' r Hrun Moof b Hin) as [Hold|Hnew];
    [rewrite Hst in Hold; contradiction | exact Hnew].
Qed.
End Emission.

Section EmissionSequential.
Context {W R : Type} `{io.Writer W} `{io.ReadSeeker R}.

Let act := action (W:=W) (R:=R).

Lemma adds_seekStart pos P : adds (seekStart pos : act unit) P.
Proof.
  intros st st' r Hrun p b Hin. unfold seekStart in Hrun.
  destruct (io.Seek (source st) pos io.SeekStart) as [[r0 x] e].
  injection Hrun as <- _. now left.
Qed.

Lemma adds_read n P : adds (read n : act (list Z * option error)) P.
Proof.
  intros st st' r Hrun p b Hin. unfold read in Hrun.
  destruct (io.Read (source st) n) as [[r0 x] e].
  injection Hrun as <- _. now left.
Qed.

Lemma adds_copyLoop (P : part -> list Z -> Prop) fuel :
  (forall b, P Payload b) ->
  forall remaining, adds (copyLoop fuel remaining : act unit) P.
Proof.
  intros HP. induction fuel as [|fuel IH]; intros remaining;
    cbn [copyLoop]; destruct (remaining >? 0);
    try apply adds_ret; try apply adds_lift.
  apply adds_andThen; [apply adds_read|]. intros [got err].
  apply adds_andThen.
  - destruct (len got >? 0); [apply adds_write; apply HP | apply adds_ret].
  - intros _. destruct err as [[| |msg]|];
      try apply adds_lift; [|apply IH].
    destruct (_ =? 0); [apply adds_ret | apply adds_lift].
Qed.

Lemma adds_copyRanges (P : part -> list Z -> Prop) rs :
  (forall b, P Payload b) -> adds (copyRanges rs : act unit) P.
Proof.
  intros HP. induction rs as [|r rs IH]; cbn [copyRanges];
    [apply adds_ret|].
  apply adds_andThen; [apply adds_seekStart|]. intros _.
  apply adds_andThen; [now apply adds_copyLoop|]. intros _. exact IH.
Qed.
End EmissionSequential.

Section EmissionPositional.
Context {W R : Type} `{io.Writer W} `{io.ReaderAt R}.

Let act := action (W:=W) (R:=R).

Lemma adds_readAt n offset P :
  adds (readAt n offset : act (list Z * option error)) P.
Proof. intros st st' r [= <- _] p b Hin. now left. Qed.

Lemma adds_copyLoopAt (P : part -> list Z -> Prop) fuel :
  (forall b, P Payload b) ->
  forall offset remaining,
    adds (copyLoopAt fuel offset remaining : act unit) P.
Proof.
  intros HP. induction fuel as [|fuel IH]; intros offset remaining;
    cbn [copyLoopAt]; destruct (remaining >? 0);
    try apply adds_ret; try apply adds_lift.
  apply adds_andThen; [apply adds_readAt|]. intros [got err].
  apply adds_andThen.
  - destruct (len got >? 0); [apply adds_write; apply HP | apply adds_ret].
  - intros _. destruct err as [[| |msg]|];
      try apply adds_lift; [|apply IH].
    destruct (_ =? 0); [apply adds_ret | apply adds_lift].
Qed.

Lemma adds_copyRangesAt (P : part -> list Z -> Prop) rs :
  (forall b, P Payload b) -> adds (copyRangesAt rs : act unit) P.
Proof.
  intros HP. induction rs as [|r rs IH]; cbn [copyRangesAt];
    [apply adds_ret|].
  apply adds_andThen; [now apply adds_copyLoopAt|]. intros _. exact IH.
Qed.
End EmissionPositional.

(** Every moof of [WriteTo] and of [WriteToFrom]. *)
Lemma stream_moofs {W R : Type} `{io.Writer W}
    track startScaled endTime (st st' : stream W R) r b :
  (exists HR : io.ReadSeeker R,
      WriteTo track startScaled endTime st = (st', r)) \/
  (exists HA : io.ReaderAt R,
      WriteToFrom track startScaled endTime st = (st', r)) ->
  emitted st = [] ->
  In (Moof, b) (emitted st') ->
  exists firstSample dtsOffset endTimeScaled,
    resolveRange track startScaled endTime
      = Ok (firstSample, dtsOffset, endTimeScaled) /\
    moofOf track endTimeScaled dtsOffset b.
Proof.
  intros [[HR Hrun]|[HA Hrun]] Hst Hin.
  - eapply (writeStream_moofs copyRanges); try eassumption.
    intros P rs HP. now apply adds_copyRanges.
  - eapply (writeStream_moofs copyRangesAt); try eassumption.
    intros P rs HP. now apply adds_copyRangesAt.
Qed.

Lemma u32_i64 z : u32 (i64 z) = u32 z.
Proof.
  unfold u32, i64. rewrite (Z.mod_eq (z + 2 ^ 63) (2 ^ 64)) by lia.
  replace (z + 2 ^ 63 - 2 ^ 64 * ((z + 2 ^ 63) / 2 ^ 64) - 2 ^ 63)
    with (z + (- 2 ^ 32 * ((z + 2 ^ 63) / 2 ^ 64)) * 2 ^ 32) by lia.
  apply Z_mod_plus_full.
Qed.

Lemma u32_u32 z : u32 (u32 z) = u32 z.
Proof. unfold u32. apply Z.mod_mod. lia. Qed.

Lemma slice_head {A} (l : list A) i j a :
  0 <= i < j -> nth_error l (Z.to_nat i) = Some a ->
  hd_error (slice l i j) = Some a.
Proof.
  intros Hij Hn. unfold slice.
  destruct (Z.to_nat (j - i)) as [|k] eqn:Ek; [lia|].
  destruct (skipn (Z.to_nat i) l) as [|x tl] eqn:Es.
  - apply (f_equal (@List.length A)) in Es. rewrite length_skipn in Es.
    assert (Z.to_nat i < List.length l)%nat
      by (apply nth_error_Some; congruence).
    simpl in Es. lia.
  - cbn [firstn hd_error].
    pose proof (nth_error_skipn (Z.to_nat i) l 0) as Hk.
    rewrite Es, Nat.add_0_r, Hn in Hk. cbn [nth_error] in Hk.
    congruence.
Qed.

(** The samples a fragment selects, and what is derived from them. *)
Lemma generateFragment_selected track firstSample endTimeScaled frag :
  0 <= firstSample < len (Samples track) ->
  generateFragment track firstSample endTimeScaled = Ok frag ->
  let selected := slice (Samples track) firstSample (nextSample frag) in
  firstSample <= nextSample frag <= len (Samples track) /\
  trunEntries frag = map trunEntryOf selected /\
  trunVersion frag =
    (if existsb (fun s => PresentationOffset s <? 0) selected
     then 1 else 0).
Proof.
  intros Hrange Hgen.
  destruct (index_in_range (Samples track) firstSample Hrange)
    as [first Hfirst].
  pose proof (fragmentEnd_spec firstSample endTimeScaled (DTS first)
                (i64 (TimeScale track * minFragmentDuration))
                (skipn (Z.to_nat firstSample) (Samples track)) firstSample)
    as Hspec.
  cbv zeta in Hspec. rewrite len_skipn in Hspec by lia.
  destruct Hspec as (Hb & _ & _).
  unfold generateFragment in Hgen.
  destruct (firstSample >=? len (Samples track)) eqn:E; zbool; [lia|].
  rewrite Hfirst in Hgen. cbn [bind] in Hgen.
  set (last := fragmentEnd firstSample endTimeScaled (DTS first)
                 (i64 (TimeScale track * minFragmentDuration))
                 (skipn (Z.to_nat firstSample) (Samples track)) firstSample)
    in *.
  destruct (last - firstSample =? 0) eqn:En; zbool; injection Hgen as <-;
    cbn [nextSample trunEntries trunVersion emptyFragment].
  - split; [lia|]. replace last with firstSample by lia.
    now rewrite slice_empty.
  - split; [lia|]. split; reflexivity.
Qed.

(** C9.  Every moof that [WriteTo] or [WriteToFrom] hands to the sink
    carries a version 0 tfdt box whose 4-octet base_media_decode_time holds
    the decode timestamp of the fragment's first sample minus dts_offset,
    reduced modulo 2^32.  [dtsOffset] is the decode timestamp of the sample that
    [resolveRange] chose, and [s], at index [sample], is the sample of the
    fragment's first trun entry. *)
Theorem WriteTo_tfdt_v0_truncated {W R : Type} `{io.Writer W}
    track startScaled endTime (st st' : stream W R) r b :
  (exists HR : io.ReadSeeker R,
      WriteTo track startScaled endTime st = (st', r)) \/
  (exists HA : io.ReaderAt R,
      WriteToFrom track startScaled endTime st = (st', r)) ->
  emitted st = [] ->
  In (Moof, b) (emitted st') ->
  exists firstSample dtsOffset endTimeScaled sample s frag,
    resolveRange track startScaled endTime
      = Ok (firstSample, dtsOffset, endTimeScaled) /\
    option_map DTS (nth_error (Samples track) (Z.to_nat firstSample))
      = Some dtsOffset /\
    index (Samples track) sample = Ok s /\
    generateFragment track sample endTimeScaled = Ok frag /\
    hd_error (trunEntries frag) = Some (trunEntryOf s) /\
    slice b 48 56 = PutUint32 16 ++ bytesOfString "tfdt" /\
    tfdtVersion b = 0 /\
    tfdtFlags b = [0; 0; 0] /\
    tfdtBaseMediaDecodeTime b = (DTS s - dtsOffset) mod 2 ^ 32.
Proof.
  intros Hrun Hst Hin.
  destruct (stream_moofs track startScaled endTime st st' r b Hrun Hst Hin)
    as (firstSample & dtsOffset & endTimeScaled & Hres & Hmoof).
  destruct Hmoof as (seqNum & sample & s & frag & Hs & Hgen & Hne & ->).
  exists firstSample, dtsOffset, endTimeScaled, sample, s, frag.
  split; [exact Hres|]. split.
  { unfold resolveRange in Hres. bind_inv Hres. bind_inv Hres.
    injection Hres as -> <- _. apply index_Ok in Hstep0.
    destruct Hstep0 as [_ ->]. reflexivity. }
  split; [exact Hs|]. split; [exact Hgen|].
  pose proof (index_Ok _ _ _ Hs) as [Hrange Hnth].
  destruct (generateFragment_selected track sample endTimeScaled frag
              Hrange Hgen) as (Hnext & Htrun & _).
  split.
  { destruct (Z.eq_dec (nextSample frag) sample) as [Heq|Hneq].
    - rewrite Heq, slice_empty in Htrun. contradiction.
    - pose proof (slice_head (Samples track) sample (nextSample frag) s
                    ltac:(lia) Hnth) as Hh.
      rewrite Htrun.
      destruct (slice (Samples track) sample (nextSample frag));
        [discriminate|].
      injection Hh as ->. reflexivity. }
  destruct (moofBytes_tfdt seqNum (TrackID track)
              (u32 (i64 (DTS s - dtsOffset))) (trunEntries frag)
              (trunVersion frag)) as (Hbox & Hv & Hf & _ & Ht).
  split; [exact Hbox|]. split; [exact Hv|]. split; [exact Hf|].
  rewrite Ht, u32_u32, u32_i64. reflexivity.
Qed.

Lemma WriteTo_tfdt_v0_truncated_witness :
  exists firstSample dtsOffset endTimeScaled sample s frag,
    resolveRange demoTrack 0 None
      = Ok (firstSample, dtsOffset, endTimeScaled) /\
    option_map DTS (nth_error (Samples demoTrack) (Z.to_nat firstSample))
      = Some dtsOffset /\
    index (Samples demoTrack) sample = Ok s /\
    generateFragment demoTrack sample endTimeScaled = Ok frag /\
    hd_error (trunEntries frag) = Some (trunEntryOf s) /\
    slice demoMoof 48 56 = PutUint32 16 ++ bytesOfString "tfdt" /\
    tfdtVersion demoMoof = 0 /\
    tfdtFlags demoMoof = [0; 0; 0] /\
    tfdtBaseMediaDecodeTime demoMoof = (DTS s - dtsOffset) mod 2 ^ 32.
Proof.
  apply (WriteTo_tfdt_v0_truncated demoTrack 0 None demoStream
           (fst (WriteTo demoTrack 0 None demoStream))
           (snd (WriteTo demoTrack 0 None demoStream)) demoMoof).
  - left. exists memReadSeeker.
    destruct (WriteTo demoTrack 0 None demoStream). reflexivity.
  - reflexivity.
  - vm_compute. do 4 right. left. reflexivity.
Defined.

Example WriteTo_demo_parts :
  map fst (emitted (fst (WriteTo demoTrack 0 None demoStream)))
  = [Init; Moof; MdatHdr; Payload; Moof; MdatHdr; Payload]
  /\ snd (WriteTo demoTrack 0 None demoStream) = Ok tt.
Proof. vm_compute. split; reflexivity. Qed.

Example WriteToFrom_demo_same_stream :
  emitted (fst (WriteToFrom demoTrack 0 None demoStream))
  = emitted (fst (WriteTo demoTrack 0 None demoStream)).
Proof. vm_compute. reflexivity. Qed.

(** C3.  Every moof that [WriteTo] or [WriteToFrom] hands to the sink is
    built from the [N] samples its fragment selects: its size is
    8 + 16 + (8 + 16 + 16 + (20 + 16 N)) bytes, its trun flags are
    0x000f01, its trun data_offset field holds the moof size plus 8 as a
    32-bit word (the exact sum whenever that fits in 32 bits), and its trun
    version byte is 1 if some selected sample has a negative composition
    offset and 0 otherwise. *)
Theorem WriteTo_moof_layout {W R : Type} `{io.Writer W}
    track startScaled endTime (st st' : stream W R) r b :
  (exists HR : io.ReadSeeker R,
      WriteTo track startScaled endTime st = (st', r)) \/
  (exists HA : io.ReaderAt R,
      WriteToFrom track startScaled endTime st = (st', r)) ->
  emitted st = [] ->
  In (Moof, b) (emitted st') ->
  exists endTimeScaled sample frag,
    generateFragment track sample endTimeScaled = Ok frag /\
    let selected := slice (Samples track) sample (nextSample frag) in
    let N := len selected in
    trunEntries frag = map trunEntryOf selected /\
    len b = 8 + 16 + (8 + 16 + 16 + (20 + 16 * N)) /\
    trunSampleCount b = u32 N /\
    trunFlags b = 3841 /\
    trunDataOffset b = u32 (len b + 8) /\
    (len b + 8 < 2 ^ 32 -> trunDataOffset b = len b + 8) /\
    (trunVersionByte b = 1 <->
     exists s, In s selected /\ PresentationOffset s < 0) /\
    (trunVersionByte b = 0 <->
     ~ exists s, In s selected /\ PresentationOffset s < 0).
Proof.
  intros Hrun Hst Hin.
  destruct (stream_moofs track startScaled endTime st st' r b Hrun Hst Hin)
    as (firstSample & dtsOffset & endTimeScaled & _ & Hmoof).
  destruct Hmoof as (seqNum & sample & s & frag & Hs & Hgen & Hne & ->).
  exists endTimeScaled, sample, frag. split; [exact Hgen|]. cbv zeta.
  pose proof (index_Ok _ _ _ Hs) as [Hrange _].
  destruct (generateFragment_selected track sample endTimeScaled frag
              Hrange Hgen) as (_ & Htrun & Hver).
  set (selected := slice (Samples track) sample (nextSample frag)) in *.
  assert (len (trunEntries frag) = len selected) as Hlen
    by (rewrite Htrun; unfold len; now rewrite length_map).
  destruct (moofBytes_trun seqNum (TrackID track)
              (u32 (i64 (DTS s - dtsOffset))) (trunEntries frag)
              (trunVersion frag)) as (Hv & Hfl & Hcnt & Hoff).
  pose proof (moofBytes_length seqNum (TrackID track)
                (u32 (i64 (DTS s - dtsOffset))) (trunEntries frag)
                (trunVersion frag)) as Hsize.
  rewrite Hlen in Hsize, Hcnt.
  assert (existsb (fun s => PresentationOffset s <? 0) selected = true <->
          exists s, In s selected /\ PresentationOffset s < 0) as Hex.
  { rewrite existsb_exists. split; intros (x & Hx & Hneg); exists x;
      (split; [exact Hx|]); [now apply Z.ltb_lt | now apply Z.ltb_lt]. }
  split; [exact Htrun|]. split; [exact Hsize|]. split; [exact Hcnt|].
  split; [exact Hfl|]. split; [exact Hoff|]. split.
  { intros Hfit. rewrite Hoff. apply u32_id.
    pose proof (len_nonneg selected). lia. }
  rewrite Hv, Hver.
  destruct (existsb (fun s => PresentationOffset s <? 0) selected) eqn:E.
  - assert (exists s, In s selected /\ PresentationOffset s < 0) as Hyes
      by now apply Hex.
    split; split.
    + intros _. exact Hyes.
    + intros _. reflexivity.
    + intros Hx. discriminate.
    + intros Hx. exfalso. exact (Hx Hyes).
  - assert (~ exists s, In s selected /\ PresentationOffset s < 0) as Hno
      by (intros Hc; apply Hex in Hc; discriminate).
    split; split.
    + intros Hx. discriminate.
    + intros Hx. exfalso. exact (Hno Hx).
    + intros _. exact Hno.
    + intros _. reflexivity.
Qed.

Lemma WriteTo_moof_layout_witness :
  exists endTimeScaled sample frag,
    generateFragment demoTrack sample endTimeScaled = Ok frag /\
    let selected := slice (Samples demoTrack) sample (nextSample frag) in
    let N := len selected in
    trunEntries frag = map trunEntryOf selected /\
    len demoMoof = 8 + 16 + (8 + 16 + 16 + (20 + 16 * N)) /\
    trunSampleCount demoMoof = u32 N /\
    trunFlags demoMoof = 3841 /\
    trunDataOffset demoMoof = u32 (len demoMoof + 8) /\
    (len demoMoof + 8 < 2 ^ 32 -> trunDataOffset demoMoof = len demoMoof + 8)
    /\
    (trunVersionByte demoMoof = 1 <->
     exists s, In s selected /\ PresentationOffset s < 0) /\
    (trunVersionByte demoMoof = 0 <->
     ~ exists s, In s selected /\ PresentationOffset s < 0).
Proof.
  apply (WriteTo_moof_layout demoTrack 0 None demoStream
           (fst (WriteTo demoTrack 0 None demoStream))
           (snd (WriteTo demoTrack 0 None demoStream)) demoMoof).
  - left. exists memReadSeeker.
    destruct (WriteTo demoTrack 0 None demoStream). reflexivity.
  - reflexivity.
  - vm_compute. do 4 right. left. reflexivity.
Defined.

(** ** Sample-table reconstruction: sync marks *)

Lemma sampleLoop_all_sync stscEntries sttsEntries chunkOffsets cttsEntries
    sizes : forall i c sdi samples sdi',
  sampleLoop stscEntries sttsEntries chunkOffsets cttsEntries None
    i sizes c sdi = Ok (samples, sdi') ->
  Forall (fun s => Sync s = true) samples.
Proof.
  induction sizes as [|size rest IH]; intros i c sdi samples sdi' H.
  - simpl in H. injection H as <- _. constructor.
  - apply sampleLoop_cons_inv in H.
    destruct H as (e & t & co & tl & _ & _ & _ & -> & Hrest).
    constructor; [reflexivity|].
    destruct rest as [|size' rest'].
    + destruct Hrest as [-> _]. constructor.
    + eapply IH. exact Hrest.
Qed.

(** C5 (as amended).  On every track that [buildSampleTable] builds, sample
    0 is marked sync exactly when there is no sync table or the first entry
    of the sync table is 1; and when there is no sync table every sample
    is marked sync. *)
Theorem buildSampleTable_sync_marks stbl samples sdi :
  buildSampleTable stbl = Ok (samples, sdi) ->
  (forall s0, nth_error samples 0 = Some s0 ->
     Sync s0 = match stss stbl with
               | None => true
               | Some [] => false
               | Some (v :: _) => v =? 1
               end) /\
  (stss stbl = None -> Forall (fun s => Sync s = true) samples).
Proof.
  intros H. apply buildSampleTable_Ok_inv in H.
  destruct H as (sizes & tt & sc & co & _ & _ & _ & _ & Hrun).
  split.
  - intros s0 Hs0. destruct sizes as [|size rest].
    + simpl in Hrun. injection Hrun as <- _. discriminate.
    + apply sampleLoop_cons_inv in Hrun.
      destruct Hrun as (e & t & c & tl & _ & _ & _ & -> & _).
      injection Hs0 as <-. cbn [Sync]. unfold syncAt.
      destruct (stss stbl) as [[|v es]|]; reflexivity.
  - intros Hnone. rewrite Hnone in Hrun.
    eapply sampleLoop_all_sync. exact Hrun.
Qed.

Lemma buildSampleTable_sync_marks_witness :
  (forall s0, nth_error demoSamples 0 = Some s0 ->
     Sync s0 = match stss demoStbl with
               | None => true
               | Some [] => false
               | Some (v :: _) => v =? 1
               end) /\
  (stss demoStbl = None -> Forall (fun s => Sync s = true) demoSamples).
Proof.
  apply (buildSampleTable_sync_marks demoStbl demoSamples 1).
  vm_compute. reflexivity.
Defined.

(** C5 as stated fails: a sync table is present, the track builds, and
    sample 0 is not marked sync. *)
Lemma first_sample_sync_counterexample :
  exists samples sdi s0,
    buildSampleTable lateSyncStbl = Ok (samples, sdi) /\
    stss lateSyncStbl = Some [2] /\
    nth_error samples 0 = Some s0 /\
    Sync s0 = false.
Proof.
  eexists _, _, _. split; [vm_compute; reflexivity|].
  split; [reflexivity|]. split; reflexivity.
Qed.

(** ** Sample-table reconstruction: cursors that run past their tables *)

Section CursorFacts.
Variable stscEntries : list STSCEntry.
Variable sttsEntries : list STTSEntry.
Variable chunkOffsets : list Z.
Variable syncEntries : option (list Z).

(** A build that returns samples has read every table inside its
    bounds, at every sample. *)
Lemma sampleLoop_trace_in_range cttsEntries sizes :
  forall i c sdi r,
    sampleLoop stscEntries sttsEntries chunkOffsets cttsEntries syncEntries
      i sizes c sdi = Ok r ->
    forall k c',
      nth_error (cursorTrace stscEntries sttsEntries cttsEntries
                   syncEntries i sizes c) k = Some c' ->
      0 <= sampleToChunkIndex c' < len stscEntries /\
      0 <= decodingIdx c' < len sttsEntries /\
      0 <= chunk c' < len chunkOffsets.
Proof.
  induction sizes as [|size rest IH]; intros i c sdi [samples sdi'] H k c' Hk.
  - destruct k; discriminate.
  - apply sampleLoop_cons_inv in H.
    destruct H as (e & t & co & tl & He & Ht & Hco & _ & Hrest).
    cbn [cursorTrace] in Hk. rewrite He, Ht in Hk.
    destruct k as [|k]; cbn [nth_error] in Hk.
    + injection Hk as <-.
      apply index_Ok in He, Ht, Hco. intuition.
    + destruct rest as [|size' rest']; [destruct k; discriminate|].
      eapply IH; eassumption.
Qed.

(** The presentation offset of sample [k] is the one its cursor state
    yields. *)
Lemma sampleLoop_presentationOffset cttsEntries sizes :
  forall i c sdi samples sdi',
    sampleLoop stscEntries sttsEntries chunkOffsets cttsEntries syncEntries
      i sizes c sdi = Ok (samples, sdi') ->
    forall k c' s,
      nth_error (cursorTrace stscEntries sttsEntries cttsEntries
                   syncEntries i sizes c) k = Some c' ->
      nth_error samples k = Some s ->
      PresentationOffset s = presentationOffsetAt cttsEntries c'.
Proof.
  induction sizes as [|size rest IH];
    intros i c sdi samples sdi' H k c' s Hk Hs.
  - destruct k; discriminate.
  - apply sampleLoop_cons_inv in H.
    destruct H as (e & t & co & tl & He & Ht & Hco & -> & Hrest).
    cbn [cursorTrace] in Hk. rewrite He, Ht in Hk.
    destruct k as [|k]; cbn [nth_error] in Hk, Hs.
    + injection Hk as <-. injection Hs as <-. reflexivity.
    + destruct rest as [|size' rest']; [destruct k; discriminate|].
      eapply IH; eassumption.
Qed.

Lemma advance_sameButCtts x y c c' e t size sync :
  sameButCtts c c' ->
  sameButCtts (advance stscEntries x c e t size sync)
              (advance stscEntries y c' e t size sync).
Proof.
  intros (H1 & H2 & H3 & H4 & H5 & H6 & H7 & H8).
  unfold advance, advanceChunk, advanceTime.
  rewrite H1, H2, H3, H4, H5, H6, H7, H8.
  destruct (advanceCtts x c) as [? ?].
  destruct (advanceCtts y c') as [? ?].
  destruct (sampleInChunk c' + 1 >=? SamplesPerChunk e);
    destruct (decodingOff c' + 1 >=? SttsCount t);
    repeat split.
Qed.

(** The composition-offset table never decides whether the track
    builds. *)
Lemma sampleLoop_ctts_irrelevant x y sizes :
  forall i c c' sdi,
    sameButCtts c c' ->
    isOk (sampleLoop stscEntries sttsEntries chunkOffsets x syncEntries
            i sizes c sdi)
    = isOk (sampleLoop stscEntries sttsEntries chunkOffsets y syncEntries
              i sizes c' sdi).
Proof.
  induction sizes as [|size rest IH]; intros i c c' sdi Hsame;
    [reflexivity|].
  pose proof Hsame as (H1 & H2 & H3 & H4 & H5 & H6 & H7 & H8).
  cbn [sampleLoop].
  rewrite <- H4, <- H6, <- H2.
  destruct (index stscEntries (sampleToChunkIndex c)) as [e| |];
    try reflexivity.
  destruct (index sttsEntries (decodingIdx c)) as [t| |]; try reflexivity.
  destruct (index chunkOffsets (chunk c)) as [co| |]; try reflexivity.
  cbn [bind]. destruct rest as [|size' rest']; [reflexivity|].
  assert (syncAt syncEntries c i = syncAt syncEntries c' i) as Hsync
    by (unfold syncAt; now rewrite H8).
  rewrite <- Hsync.
  specialize (IH (i + 1) _ _ (SampleDescriptionId e)
                (advance_sameButCtts x y c c' e t size
                   (syncAt syncEntries c i) Hsame)).
  destruct (sampleLoop _ _ _ x _ _ _ _ _);
    destruct (sampleLoop _ _ _ y _ _ _ _ _);
    try discriminate; reflexivity.
Qed.
End CursorFacts.

(** What is left of the time-to-sample table at a cursor position. *)
Lemma sttsCapacity_skipn entries : forall idx e,
  nth_error entries idx = Some e ->
  sttsCapacity (skipn idx entries)
  = Z.max 1 (SttsCount e) + sttsCapacity (skipn (S idx) entries).
Proof.
  induction entries as [|x l IH]; intros [|idx] e He; try discriminate.
  - injection He as ->. reflexivity.
  - simpl in He. cbn [skipn]. now apply IH.
Qed.

Lemma sttsCapacity_nonneg entries : 0 <= sttsCapacity entries.
Proof. induction entries; simpl; lia. Qed.

Lemma advance_decoding stscEntries cttsEntries c e t size sync :
  let c' := advance stscEntries cttsEntries c e t size sync in
  (decodingIdx c', decodingOff c')
  = if decodingOff c + 1 >=? SttsCount t
    then (decodingIdx c + 1, 0)
    else (decodingIdx c, decodingOff c + 1).
Proof.
  cbv zeta. unfold advance, advanceTime.
  destruct (advanceChunk stscEntries c e size) as [[[? ?] ?] ?].
  destruct (advanceCtts cttsEntries c) as [? ?].
  destruct (decodingOff c + 1 >=? SttsCount t); reflexivity.
Qed.

(** A build that returns samples found all of them covered by what is left
    of the time-to-sample table at its cursor. *)
Lemma sampleLoop_stts_capacity stscEntries sttsEntries chunkOffsets
    cttsEntries syncEntries sizes :
  forall i c sdi r,
    sampleLoop stscEntries sttsEntries chunkOffsets cttsEntries syncEntries
      i sizes c sdi = Ok r ->
    sttsCursorOk sttsEntries c ->
    len sizes
    <= sttsCapacity (skipn (Z.to_nat (decodingIdx c)) sttsEntries)
       - decodingOff c.
Proof.
  induction sizes as [|size rest IH];
    intros i c sdi [samples sdi'] H (Hidx & Hoff & Hpos).
  - unfold len. simpl.
    destruct (nth_error sttsEntries (Z.to_nat (decodingIdx c))) as [e|]
      eqn:He.
    + rewrite (sttsCapacity_skipn _ _ e He).
      pose proof (sttsCapacity_nonneg
                    (skipn (S (Z.to_nat (decodingIdx c))) sttsEntries)).
      lia.
    + pose proof (sttsCapacity_nonneg
                    (skipn (Z.to_nat (decodingIdx c)) sttsEntries)).
      lia.
  - apply sampleLoop_cons_inv in H.
    destruct H as (e & t & co & tl & _ & Ht & _ & _ & Hrest).
    apply index_Ok in Ht. destruct Ht as [_ Ht]. rewrite Ht in Hpos.
    rewrite (sttsCapacity_skipn _ _ t Ht).
    pose proof (sttsCapacity_nonneg
                  (skipn (S (Z.to_nat (decodingIdx c))) sttsEntries)) as Hnn.
    destruct rest as [|size' rest'].
    + unfold len. cbn [List.length]. lia.
    + pose proof (advance_decoding stscEntries cttsEntries c e t size
                    (syncAt syncEntries c i)) as Hadv.
      cbv zeta in Hadv.
      set (c' := advance stscEntries cttsEntries c e t size
                   (syncAt syncEntries c i)) in *.
      assert (len (size :: size' :: rest') = 1 + len (size' :: rest'))
        as -> by (unfold len; cbn [List.length]; lia).
      destruct (decodingOff c + 1 >=? SttsCount t) eqn:E; zbool;
        injection Hadv as Hi Ho.
      * specialize (IH (i + 1) c' _ _ Hrest).
        rewrite Hi, Ho in IH.
        replace (Z.to_nat (decodingIdx c + 1))
          with (S (Z.to_nat (decodingIdx c))) in IH by lia.
        assert (sttsCursorOk sttsEntries c') as Hok.
        { unfold sttsCursorOk. rewrite Hi, Ho.
          replace (Z.to_nat (decodingIdx c + 1))
            with (S (Z.to_nat (decodingIdx c))) by lia.
          split; [lia|]. split; [lia|].
          destruct (nth_error sttsEntries (S (Z.to_nat (decodingIdx c))));
            lia. }
        specialize (IH Hok). lia.
      * specialize (IH (i + 1) c' _ _ Hrest).
        rewrite Hi, Ho in IH.
        assert (sttsCursorOk sttsEntries c') as Hok.
        { unfold sttsCursorOk. rewrite Hi, Ho, Ht.
          split; [lia|]. split; lia. }
        specialize (IH Hok). rewrite (sttsCapacity_skipn _ _ t Ht) in IH.
        lia.
Qed.

(** When stsz declares more samples than the time-to-sample table covers,
    no sample array is produced. *)
Lemma buildSampleTable_short_stts stbl sizes tt :
  stsz stbl = Some sizes ->
  stts stbl = Some tt ->
  sttsCapacity tt < len sizes ->
  forall r, buildSampleTable stbl <> Ok r.
Proof.
  intros Hsz Htt Hshort [samples sdi] Hr.
  apply buildSampleTable_Ok_inv in Hr.
  destruct Hr as (sizes' & tt' & sc & co & Hsz' & Htt' & _ & _ & Hrun).
  rewrite Hsz in Hsz'. rewrite Htt in Htt'.
  injection Hsz' as <-. injection Htt' as <-.
  apply sampleLoop_stts_capacity in Hrun.
  - cbn [cursors0 decodingIdx decodingOff] in Hrun.
    change (Z.to_nat 0) with 0%nat in Hrun. cbn [skipn] in Hrun. lia.
  - unfold sttsCursorOk. cbn [cursors0 decodingIdx decodingOff].
    split; [lia|]. split; [lia|].
    change (Z.to_nat 0) with 0%nat.
    destruct (nth_error tt 0); lia.
Qed.

Lemma sameButCtts_refl c : sameButCtts c c.
Proof. repeat split. Qed.

(** C6 (as amended).  With the four required tables present: when the
    time-to-sample, sample-to-chunk or chunk-offset cursor would read past
    the end of its table before the stsz sample count is reached, the
    build produces no sample array; so it does when stsz declares more
    samples than the time-to-sample entries cover.  The composition-offset
    cursor is different: once it is past the end of ctts the samples get
    presentation offset 0, and what ctts holds never decides whether the
    track builds. *)
Theorem buildSampleTable_cursor_overrun stbl sizes tt sc co :
  stsz stbl = Some sizes ->
  stts stbl = Some tt ->
  stsc stbl = Some sc ->
  chunkOffsetsOf stbl = Some co ->
  let trace := cursorTrace sc tt (ctts stbl) (stss stbl) 0 sizes cursors0 in
  (forall k c,
      nth_error trace k = Some c ->
      decodingIdx c >= len tt \/ sampleToChunkIndex c >= len sc \/
      chunk c >= len co ->
      forall r, buildSampleTable stbl <> Ok r) /\
  (sttsCapacity tt < len sizes ->
   forall r, buildSampleTable stbl <> Ok r) /\
  (forall samples sdi k c s es,
      buildSampleTable stbl = Ok (samples, sdi) ->
      nth_error trace k = Some c ->
      nth_error samples k = Some s ->
      ctts stbl = Some es ->
      cttsIdx c >= len es ->
      PresentationOffset s = 0) /\
  (forall x,
      isOk (buildSampleTable (withCtts stbl x))
      = isOk (buildSampleTable stbl)).
Proof.
  intros Hsz Htt Hsc Hco trace.
  split; [|split; [now apply buildSampleTable_short_stts|]];
    unfold buildSampleTable; rewrite Hsz, Htt, Hsc, Hco; [|split].
  - intros k c Hk Hpast r Hr.
    pose proof (sampleLoop_trace_in_range sc tt co (stss stbl) (ctts stbl)
                  sizes 0 cursors0 0 r Hr k c Hk). lia.
  - intros samples sdi k c s es Hr Hk Hs Hes Hpast.
    rewrite (sampleLoop_presentationOffset sc tt co (stss stbl) (ctts stbl)
               sizes 0 cursors0 0 samples sdi Hr k c s Hk Hs).
    unfold presentationOffsetAt. rewrite Hes.
    destruct (cttsIdx c <? len es) eqn:E; zbool; [lia | reflexivity].
  - intros x. unfold chunkOffsetsOf in *. cbn [withCtts stsz stts stsc co64
      stco ctts stss]. rewrite Hsz, Htt, Hsc, Hco.
    apply sampleLoop_ctts_irrelevant. apply sameButCtts_refl.
Qed.

Lemma buildSampleTable_cursor_overrun_witness :
  isOk (buildSampleTable shortSttsStbl) = false /\
  isOk (buildSampleTable (withCtts shortCttsStbl None))
  = isOk (buildSampleTable shortCttsStbl).
Proof.
  split.
  - assert (forall r, buildSampleTable shortSttsStbl <> Ok r) as Hno.
    { apply (buildSampleTable_cursor_overrun shortSttsStbl [10; 20]
               [{| SttsCount := 1; SttsDuration := 10 |}]
               [{| FirstChunk := 1; SamplesPerChunk := 2;
                   SampleDescriptionId := 1 |}]
               [100] eq_refl eq_refl eq_refl eq_refl).
      vm_compute. reflexivity. }
    destruct (buildSampleTable shortSttsStbl) as [r| |];
      [exfalso; apply (Hno r); reflexivity | reflexivity | reflexivity].
  - apply (buildSampleTable_cursor_overrun shortCttsStbl [10; 20]
             [{| SttsCount := 2; SttsDuration := 10 |}]
             [{| FirstChunk := 1; SamplesPerChunk := 2;
                 SampleDescriptionId := 1 |}]
             [100] eq_refl eq_refl eq_refl eq_refl).
Defined.

(** C6 as stated fails: on the two-sample track the composition-offset
    cursor is past the end of ctts at sample 1, before the stsz sample
    count is reached, and the build returns the sample array, with
    presentation offset 0 for that sample. *)
Lemma cursor_overrun_counterexample :
  exists samples sdi c es s1,
    buildSampleTable shortCttsStbl = Ok (samples, sdi) /\
    ctts shortCttsStbl = Some es /\
    nth_error
      (cursorTrace [{| FirstChunk := 1; SamplesPerChunk := 2;
                       SampleDescriptionId := 1 |}]
                   [{| SttsCount := 2; SttsDuration := 10 |}]
                   (ctts shortCttsStbl) (stss shortCttsStbl) 0 [10; 20]
                   cursors0) 1 = Some c /\
    cttsIdx c >= len es /\
    nth_error samples 1 = Some s1 /\
    PresentationOffset s1 = 0.
Proof.
  eexists _, _, _, _, _. split; [vm_compute; reflexivity|].
  split; [reflexivity|]. split; [vm_compute; reflexivity|].
  split; [vm_compute; discriminate|]. split; reflexivity.
Qed.

(** The time-to-sample cursor past its table: a run-time panic, not a
    returned error. *)
Example buildSampleTable_short_stts_panics :
  buildSampleTable shortSttsStbl = Panic.
Proof. vm_compute. reflexivity. Qed.

(** ** Scanner: short reads *)

Section ScannerFacts.
Context {R : Type} `{io.ReadSeeker R}.

(** A short read of the 8-byte header ends the iteration without an
    error. *)
Lemma Next_short_header (s : bmff.Scanner R) r got e :
  io.ReadFull (bmff.rs s) 8 = (r, got, Some e) ->
  e = EOF \/ e = ErrUnexpectedEOF ->
  snd (bmff.Next s) = false /\
  bmff.Err_ (fst (bmff.Next s)) = bmff.Err_ s.
Proof.
  intros Hread He. unfold bmff.Next. rewrite Hread.
  destruct He as [-> | ->]; split; reflexivity.
Qed.

(** A failed read of the extended size ends the iteration and stores
    the error, whichever it is. *)
Lemma Next_short_extended_size (s : bmff.Scanner R) r got r' got' e :
  io.ReadFull (bmff.rs s) 8 = (r, got, None) ->
  Uint32 (slice (store (bmff.hdr s) 0 got) 0 4) = 1 ->
  io.ReadFull r 8 = (r', got', Some e) ->
  snd (bmff.Next s) = false /\
  bmff.Err_ (fst (bmff.Next s)) = Some e.
Proof.
  intros Hread Hsize Hext. unfold bmff.Next. rewrite Hread.
  cbn [bmff.setHdr bmff.setRs bmff.hdr bmff.rs bmff.pos].
  rewrite Hsize. cbn [Z.eqb Pos.eqb]. rewrite Hext.
  split; reflexivity.
Qed.
End ScannerFacts.

(** C7, evaluated where it fails.  The stream ends after the 8-byte header
    of a box that announces an extended size: [Next] returns false and
    [Err] reports [io.EOF]; when the stream ends three bytes into the
    extended size, [Err] reports [io.ErrUnexpectedEOF].  A short read of
    the first 8 bytes is end-of-stream without an error
    ([Next_short_header]). *)
Theorem Next_truncated_extended_size_sets_err :
  (snd (bmff.Next (bmff.NewScanner truncatedExtended)) = false /\
   bmff.Err_ (fst (bmff.Next (bmff.NewScanner truncatedExtended)))
   = Some EOF) /\
  (snd (bmff.Next (bmff.NewScanner truncatedExtended3)) = false /\
   bmff.Err_ (fst (bmff.Next (bmff.NewScanner truncatedExtended3)))
   = Some ErrUnexpectedEOF).
Proof. vm_compute. repeat split. Qed.

Example Next_empty_stream :
  snd (bmff.Next (bmff.NewScanner {| io.data := []; io.off := 0 |})) = false
  /\ bmff.Err_ (fst (bmff.Next
                      (bmff.NewScanner {| io.data := []; io.off := 0 |})))
     = None.
Proof. vm_compute. split; reflexivity. Qed.

(** ** Writer: version selection *)



Ltac run_writer :=
  lazy - [u8 u16 u32 u64 Z.shiftr Z.shiftl Z.lor Z.land];
  vm_compute; reflexivity.

Lemma WriteMvhd_version timescale duration nextTrackId :
  versionWritten (bmff.WriteMvhd timescale duration nextTrackId)
  = Some (if duration >? uint32Max then 1 else 0).
Proof.
  unfold versionWritten, bmff.WriteMvhd.
  destruct (duration >? uint32Max).
  - lazy - [u8 u16 u32 u64 Z.shiftr Z.shiftl Z.lor Z.land].
    vm_compute. reflexivity.
  - lazy - [u8 u16 u32 u64 Z.shiftr Z.shiftl Z.lor Z.land].
    vm_compute. reflexivity.
Qed.

Lemma WriteTkhd_version flags trackId duration width height :
  versionWritten (bmff.WriteTkhd flags trackId duration width height)
  = Some (if duration >? uint32Max then 1 else 0).
Proof.
  unfold versionWritten, bmff.WriteTkhd, bmff.StartFullBox.
  assert (forall v, u8 (Z.shiftr (Z.lor (u32 (Z.shiftl v 24))
                                    (Z.land flags 16777215)) 24) = u8 v)
    as Hv.
  { intros v. apply Z.bits_inj'. intros n Hn.
    rewrite !low_byte_bit, Z.shiftr_spec, Z.lor_spec, Z.land_spec by lia.
    unfold u32. rewrite Z.testbit_mod_pow2, Z.shiftl_spec by lia.
    replace (n + 24 - 24) with n by lia.
    change 16777215 with (Z.ones 24).
    rewrite Z.testbit_ones_nonneg by lia.
    destruct (Z.testbit v n); zcases. }
  destruct (duration >? uint32Max).
  - lazy - [u8 u16 u32 u64 Z.shiftr Z.shiftl Z.lor Z.land].
    rewrite Hv. reflexivity.
  - lazy - [u8 u16 u32 u64 Z.shiftr Z.shiftl Z.lor Z.land].
    rewrite Hv. reflexivity.
Qed.

Lemma WriteMdhd_version timescale duration language :
  versionWritten (bmff.WriteMdhd timescale duration language)
  = Some (if duration >? uint32Max then 1 else 0).
Proof.
  unfold versionWritten, bmff.WriteMdhd.
  destruct (duration >? uint32Max); run_writer.
Qed.

Lemma WriteMehd_version fragmentDuration :
  versionWritten (bmff.WriteMehd fragmentDuration)
  = Some (if fragmentDuration >? uint32Max then 1 else 0).
Proof.
  unfold versionWritten, bmff.WriteMehd.
  destruct (fragmentDuration >? uint32Max); run_writer.
Qed.

Lemma WriteTfdt_version baseMediaDecodeTime :
  versionWritten (bmff.WriteTfdt baseMediaDecodeTime)
  = Some (if baseMediaDecodeTime >? uint32Max then 1 else 0).
Proof.
  unfold versionWritten, bmff.WriteTfdt.
  destruct (baseMediaDecodeTime >? uint32Max); run_writer.
Qed.

(** C8, evaluated where it fails.  The media time -2^31 - 1 of the edit
    does not fit in 32 bits, yet [WriteElst] writes a version 0 box of 28
    bytes whose 32-bit media_time field holds 0x7fffffff.  The writers for
    mvhd, tkhd, mdhd, mehd and tfdt select version 1 exactly when their
    value exceeds 2^32 - 1 ([WriteMvhd_version] and the like), and
    [WriteElst] does for a segment duration above 2^32 - 1 or a media time
    above 2^31 - 1 ([elstNeedsV1_iff]). *)
Theorem WriteElst_negative_media_time_version0 :
  i32 (bmff.MediaTime negativeEdit) <> bmff.MediaTime negativeEdit /\
  versionWritten (bmff.WriteElst [negativeEdit]) = Some 0 /\
  exists w,
    bmff.WriteElst [negativeEdit] (bmff.NewWriter (repeat 0 256)) = Ok w /\
    len (bmff.Bytes w) = 28 /\
    slice (bmff.Bytes w) 20 24 = [127; 255; 255; 255] /\
    Uint32 (slice (bmff.Bytes w) 20 24) = 2147483647.
Proof.
  split; [vm_compute; discriminate|]. split; [vm_compute; reflexivity|].
  eexists. split; [vm_compute; reflexivity|]. vm_compute. repeat split.
Qed.

Example WriteElst_large_media_time_version1 :
  versionWritten
    (bmff.WriteElst [{| bmff.SegmentDuration := 0;
                        bmff.MediaTime := 2147483648;
                        bmff.MediaRateInt := 1; bmff.MediaRateFrac := 0 |}])
  = Some 1.
Proof. vm_compute. reflexivity. Qed.

(** ** The stream writer runs to its end *)

Lemma generateFragment_Ok track firstSample endTimeScaled :
  0 <= firstSample < len (Samples track) ->
  exists frag, generateFragment track firstSample endTimeScaled = Ok frag.
Proof.
  intros Hrange.
  destruct (index_in_range (Samples track) firstSample Hrange)
    as [first Hfirst].
  unfold generateFragment.
  destruct (firstSample >=? len (Samples track)); [eauto|].
  rewrite Hfirst. cbn [bind].
  destruct (_ =? 0); eauto.
Qed.

Lemma generateFragment_advances track firstSample endTimeScaled frag :
  0 <= firstSample < len (Samples track) ->
  generateFragment track firstSample endTimeScaled = Ok frag ->
  trunEntries frag <> [] ->
  firstSample < nextSample frag <= len (Samples track).
Proof.
  intros Hrange Hgen Hne.
  destruct (generateFragment_selected track firstSample endTimeScaled frag
              Hrange Hgen) as (Hnext & Htrun & _).
  destruct (Z.eq_dec (nextSample frag) firstSample) as [Heq|Hneq]; [|lia].
  rewrite Heq, slice_empty in Htrun. contradiction.
Qed.

Section Safety.
Context {W R : Type} `{io.Writer W}.

Let act := action (W:=W) (R:=R).

Lemma safe_ret {A} (a : A) : safe (ret a : act A).
Proof. intros st. discriminate. Qed.

Lemma safe_andThen {A B} (m : act A) (k : A -> act B) :
  safe m -> (forall a, safe (k a)) -> safe (andThen m k).
Proof.
  intros Hm Hk st. unfold andThen. specialize (Hm st).
  destruct (m st) as [st1 [a| |]]; cbn [snd] in *;
    [apply Hk | discriminate | contradiction].
Qed.

Lemma safe_lift_andThen {A B} (x : result A) (k : A -> act B) :
  x <> Panic -> (forall a, x = Ok a -> safe (k a)) ->
  safe (andThen (lift x) k).
Proof.
  intros Hx Hk st. unfold andThen, lift.
  destruct x as [a| |]; cbn [snd];
    [now apply Hk | discriminate | contradiction].
Qed.

Lemma safe_write p b : safe (write p b : act unit).
Proof.
  intros st. unfold write. destruct (io.Write (sink st) b) as [w [e|]];
    discriminate.
Qed.

Lemma safe_callWriteMoof seqNum trackID base entries version :
  safe (callWriteMoof seqNum trackID base entries version : act unit).
Proof.
  intros st. unfold callWriteMoof, writeMoof.
  destruct (io.Write (sink st) _) as [w [e|]]; discriminate.
Qed.

Variable copy : list byteRange -> act unit.
Hypothesis safe_copy : forall rs, safe (copy rs).

(** As many iterations as there are samples left are enough for the
    fragment loop: an iteration that goes on starts at a later sample. *)
Lemma safe_fragmentLoop track endTimeScaled dtsOffset fuel :
  forall seqNum sample,
    0 <= sample -> len (Samples track) - sample <= Z.of_nat fuel ->
    safe (fragmentLoop copy fuel track endTimeScaled dtsOffset seqNum
            sample).
Proof.
  induction fuel as [|fuel IH]; intros seqNum sample Hpos Hfuel;
    cbn [fragmentLoop]; destruct (sample <? len (Samples track)) eqn:E;
    try apply safe_ret; zbool; [lia|].
  destruct (index_in_range (Samples track) sample ltac:(lia)) as [s Hs].
  rewrite Hs. cbn [bind].
  apply safe_lift_andThen.
  { destruct (endTimeScaled >? 0); discriminate. }
  intros past _. destruct past; [apply safe_ret|].
  destruct (generateFragment_Ok track sample endTimeScaled ltac:(lia))
    as [frag Hfrag].
  rewrite Hfrag. apply safe_lift_andThen; [discriminate|].
  intros frag' [= <-].
  destruct (len (trunEntries frag) =? 0) eqn:En; [apply safe_ret|].
  apply safe_lift_andThen; [discriminate|]. intros s' _.
  apply safe_andThen; [apply safe_callWriteMoof|]. intros _.
  apply safe_andThen; [apply safe_write|]. intros _.
  apply safe_andThen; [apply safe_copy|]. intros _.
  assert (trunEntries frag <> []) as Hne.
  { intros He. rewrite He in En. discriminate. }
  pose proof (generateFragment_advances track sample endTimeScaled frag
                ltac:(lia) Hfrag Hne).
  apply IH; lia.
Qed.

Lemma safe_writeStream track startScaled endTime :
  Samples track <> [] ->
  safe (writeStream copy track startScaled endTime).
Proof.
  intros Hne. unfold writeStream.
  destruct (resolveRange_nonempty track startScaled endTime Hne)
    as (firstSample & s & Hres & Hs & _).
  rewrite Hres. apply safe_lift_andThen; [discriminate|].
  intros range [= <-].
  apply safe_andThen; [apply safe_write|]. intros _.
  apply index_Ok in Hs. apply safe_fragmentLoop; unfold len in *; lia.
Qed.
End Safety.

Section SafetySequential.
Context {W R : Type} `{io.Writer W} `{io.ReadSeeker R}.

Let act := action (W:=W) (R:=R).

Lemma safe_seekStart pos : safe (seekStart pos : act unit).
Proof.
  intros st. unfold seekStart.
  destruct (io.Seek (source st) pos io.SeekStart) as [[r x] [e|]];
    discriminate.
Qed.

(** [remaining] iterations are enough for the copy loop: an iteration that
    goes on has read at least one byte. *)
Lemma safe_copyLoop fuel : forall remaining,
  remaining <= Z.of_nat fuel -> remaining < 2 ^ 63 ->
  safe (copyLoop fuel remaining : act unit).
Proof.
  induction fuel as [|fuel IH]; intros remaining Hfuel Hmax st;
    cbn [copyLoop]; destruct (remaining >? 0) eqn:Epos;
    try apply safe_ret; zbool; [lia|].
  unfold andThen at 1. unfold read.
  pose proof (io.Read_fits (source st) (Z.min copyBufLen remaining)
                ltac:(unfold copyBufLen; lia)) as Hfits.
  pose proof (io.Read_progress (source st) (Z.min copyBufLen remaining)
                ltac:(unfold copyBufLen; lia)) as Hprog.
  destruct (io.Read (source st) (Z.min copyBufLen remaining))
    as [[r got] err]. cbn [fst snd] in Hfits, Hprog.
  apply safe_andThen.
  - destruct (len got >? 0); [apply safe_write | apply safe_ret].
  - intros _. destruct err as [[| |msg]|].
    + destruct (_ =? 0); [apply safe_ret|]. intros st'. discriminate.
    + intros st'. discriminate.
    + intros st'. discriminate.
    + destruct Hprog as [Hgot|Herr]; [|contradiction].
      assert (0 < len got) as Hlen.
      { unfold len. destruct got; [contradiction | simpl; lia]. }
      destruct (len got >? 0) eqn:E; zbool; [|lia].
      rewrite i64_id by lia. apply IH; lia.
Qed.

Lemma safe_copyRanges rs : safe (copyRanges rs : act unit).
Proof.
  induction rs as [|r rs IH]; cbn [copyRanges]; [apply safe_ret|].
  apply safe_andThen; [apply safe_seekStart|]. intros _.
  apply safe_andThen; [|intros _; exact IH].
  pose proof (i64_range (End_ r - Start r)). apply safe_copyLoop; lia.
Qed.

(** On a track with samples [WriteTo] does not panic. *)
Lemma safe_WriteTo track startScaled endTime :
  Samples track <> [] ->
  safe (WriteTo track startScaled endTime : act unit).
Proof.
  intros Hne. apply safe_writeStream; [apply safe_copyRanges | exact Hne].
Qed.
End SafetySequential.

Section SafetyPositional.
Context {W R : Type} `{io.Writer W} `{io.ReaderAt R}.

Let act := action (W:=W) (R:=R).

Lemma safe_copyLoopAt fuel : forall offset remaining,
  remaining <= Z.of_nat fuel -> remaining < 2 ^ 63 ->
  safe (copyLoopAt fuel offset remaining : act unit).
Proof.
  induction fuel as [|fuel IH]; intros offset remaining Hfuel Hmax st;
    cbn [copyLoopAt]; destruct (remaining >? 0) eqn:Epos;
    try apply safe_ret; zbool; [lia|].
  unfold andThen at 1. unfold readAt.
  pose proof (io.ReadAt_fits (source st) (Z.min copyBufLen remaining) offset
                ltac:(unfold copyBufLen; lia)) as Hfits.
  pose proof (io.ReadAt_progress (source st) (Z.min copyBufLen remaining)
                offset ltac:(unfold copyBufLen; lia)) as Hprog.
  destruct (io.ReadAt (source st) (Z.min copyBufLen remaining) offset)
    as [got err]. cbn [fst snd] in Hfits, Hprog.
  apply safe_andThen.
  - destruct (len got >? 0); [apply safe_write | apply safe_ret].
  - intros _. destruct err as [[| |msg]|].
    + destruct (_ =? 0); [apply safe_ret|]. intros st'. discriminate.
    + intros st'. discriminate.
    + intros st'. discriminate.
    + destruct Hprog as [Hgot|Herr]; [|contradiction].
      assert (0 < len got) as Hlen.
      { unfold len. destruct got; [contradiction | simpl; lia]. }
      destruct (len got >? 0) eqn:E; zbool; [|lia].
      rewrite (i64_id (remaining - len got)) by lia. apply IH; lia.
Qed.

Lemma safe_copyRangesAt rs : safe (copyRangesAt rs : act unit).
Proof.
  induction rs as [|r rs IH]; cbn [copyRangesAt]; [apply safe_ret|].
  apply safe_andThen; [|intros _; exact IH].
  pose proof (i64_range (End_ r - Start r)). apply safe_copyLoopAt; lia.
Qed.

(** On a track with samples [WriteToFrom] does not panic. *)
Lemma safe_WriteToFrom track startScaled endTime :
  Samples track <> [] ->
  safe (WriteToFrom track startScaled endTime : act unit).
Proof.
  intros Hne. apply safe_writeStream; [apply safe_copyRangesAt | exact Hne].
Qed.
End SafetyPositional.

(** C10.  [FindSampleAfter] returns an index of [Samples] exactly when the
    track has samples; on a track without samples it returns -1, and
    [resolveRange], which indexes [Samples] at that position, panics, and
    [WriteTo] and [WriteToFrom] with it, before anything is written.  On a
    track with samples [resolveRange] returns and neither panics. *)
Theorem FindSampleAfter_in_range_iff_nonempty (t : Track) (scaledTime : Z) :
  (0 <= FindSampleAfter t scaledTime <= len (Samples t) - 1
   <-> Samples t <> []) /\
  (Samples t = [] ->
   FindSampleAfter t scaledTime = -1 /\
   forall endTime,
     resolveRange t scaledTime endTime = Panic /\
     forall (W R : Type) (HW : io.Writer W) (st : stream W R),
       (forall HR : io.ReadSeeker R,
           WriteTo t scaledTime endTime st = (st, Panic)) /\
       (forall HA : io.ReaderAt R,
           WriteToFrom t scaledTime endTime st = (st, Panic))) /\
  (Samples t <> [] ->
   forall endTime,
     (exists r, resolveRange t scaledTime endTime = Ok r) /\
     forall (W R : Type) (HW : io.Writer W) (st : stream W R),
       (forall HR : io.ReadSeeker R,
           snd (WriteTo t scaledTime endTime st) <> Panic) /\
       (forall HA : io.ReaderAt R,
           snd (WriteToFrom t scaledTime endTime st) <> Panic)).
Proof.
  split; [|split].
  - split.
    + intros Hr He. rewrite (FindSampleAfter_empty t scaledTime He) in Hr.
      lia.
    + intros Hne. apply (FindSampleAfter_nonempty t scaledTime Hne).
  - intros He. split; [now apply FindSampleAfter_empty|].
    intros endTime. split; [now apply resolveRange_empty|].
    intros W R HW st.
    split; intros Hsrc; unfold WriteTo, WriteToFrom, writeStream, andThen,
      lift; now rewrite (resolveRange_empty t scaledTime endTime He).
  - intros Hne endTime. split.
    + destruct (resolveRange_nonempty t scaledTime endTime Hne)
        as (fs & s & Hr & _).
      eauto.
    + intros W R HW st. split; intros Hsrc;
        [now apply safe_WriteTo | now apply safe_WriteToFrom].
Qed.

Lemma FindSampleAfter_in_range_iff_nonempty_witness :
  (exists r, resolveRange demoTrack 5 (Some 30) = Ok r) /\
  FindSampleAfter emptyTrack 5 = -1.
Proof.
  split.
  - apply (FindSampleAfter_in_range_iff_nonempty demoTrack 5).
    discriminate.
  - apply (FindSampleAfter_in_range_iff_nonempty emptyTrack 5).
    reflexivity.
Defined.

(** * Further properties of the code *)

(** ** Sample-table reconstruction: where the samples lie *)

Lemma i64_add_l a b : i64 (i64 a + b) = i64 (a + b).
Proof.
  unfold i64. f_equal.
  replace ((a + 2 ^ 63) mod 2 ^ 64 - 2 ^ 63 + b + 2 ^ 63)
    with ((a + 2 ^ 63) mod 2 ^ 64 + b) by lia.
  rewrite Zplus_mod_idemp_l. f_equal. lia.
Qed.

Lemma advance_chunk_position stscEntries cttsEntries c e t size sync :
  let c' := advance stscEntries cttsEntries c e t size sync in
  (chunk c', offsetInChunk c')
  = if sampleInChunk c + 1 >=? SamplesPerChunk e
    then (chunk c + 1, 0)
    else (chunk c, i64 (offsetInChunk c + size)).
Proof.
  cbv zeta. unfold advance, advanceChunk.
  destruct (advanceTime c t) as [[? ?] ?].
  destruct (advanceCtts cttsEntries c) as [? ?].
  destruct (sampleInChunk c + 1 >=? SamplesPerChunk e); reflexivity.
Qed.

Lemma sampleLoop_offsets stscEntries sttsEntries chunkOffsets cttsEntries
    syncEntries sizes :
  forall i c sdi samples sdi',
    sampleLoop stscEntries sttsEntries chunkOffsets cttsEntries syncEntries
      i sizes c sdi = Ok (samples, sdi') ->
    (forall s, nth_error samples 0 = Some s ->
       exists co, index chunkOffsets (chunk c) = Ok co /\
                  Offset s = i64 (offsetInChunk c + co)) /\
    (forall k s s',
       nth_error samples k = Some s ->
       nth_error samples (S k) = Some s' ->
       Offset s' = i64 (Offset s + Size s) \/
       exists co, In co chunkOffsets /\ Offset s' = i64 co).
Proof.
  induction sizes as [|size rest IH]; intros i c sdi samples sdi' H.
  - simpl in H. injection H as <- _.
    split; [intros s Hs; discriminate|].
    intros [|k] s s' Hs; discriminate.
  - apply sampleLoop_cons_inv in H.
    destruct H as (e & t & co & tl & _ & _ & Hco & -> & Hrest).
    split; [intros s [= <-]; exists co; auto|].
    destruct rest as [|size' rest'].
    { destruct Hrest as [-> _]. intros [|[|k]] s s' Hs Hs'; discriminate. }
    apply IH in Hrest. destruct Hrest as [Hhd Hcons].
    intros [|k] s s' Hs Hs'; cbn [nth_error] in Hs, Hs'; [|eauto].
    injection Hs as <-. cbn [Offset Size].
    destruct (Hhd s' Hs') as (co' & Hco' & ->).
    pose proof (advance_chunk_position stscEntries cttsEntries c e t size
                  (syncAt syncEntries c i)) as Hadv.
    cbv zeta in Hadv.
    destruct (sampleInChunk c + 1 >=? SamplesPerChunk e);
      injection Hadv as Hch Hoic.
    + right. exists co'. rewrite Hoic. split; [|f_equal; lia].
      apply index_Ok in Hco'. destruct Hco' as [_ Hn].
      eapply nth_error_In. exact Hn.
    + left. rewrite Hoic. rewrite Hch, Hco in Hco'. injection Hco' as <-.
      rewrite !i64_add_l. f_equal. lia.
Qed.

(** X1.  The samples of a built track lie chunk by chunk: the first sample
    starts at the first chunk offset, and every next sample starts either
    right behind the previous one or at a chunk offset. *)
Theorem buildSampleTable_chunk_layout stbl samples sdi chunkOffsets :
  buildSampleTable stbl = Ok (samples, sdi) ->
  chunkOffsetsOf stbl = Some chunkOffsets ->
  (forall s, nth_error samples 0 = Some s ->
     exists co, nth_error chunkOffsets 0 = Some co /\ Offset s = i64 co) /\
  (forall k s s',
     nth_error samples k = Some s ->
     nth_error samples (S k) = Some s' ->
     Offset s' = i64 (Offset s + Size s) \/
     exists co, In co chunkOffsets /\ Offset s' = i64 co).
Proof.
  intros H Hco. apply buildSampleTable_Ok_inv in H.
  destruct H as (sizes & tt & sc & co & _ & _ & _ & Hco' & Hrun).
  rewrite Hco in Hco'. injection Hco' as <-.
  apply sampleLoop_offsets in Hrun. destruct Hrun as [Hhd Hcons].
  split; [|exact Hcons].
  intros s Hs. destruct (Hhd s Hs) as (c0 & Hc0 & ->).
  apply index_Ok in Hc0. destruct Hc0 as [_ Hn].
  exists c0. split; [exact Hn | reflexivity].
Qed.

Lemma buildSampleTable_chunk_layout_witness :
  (forall s, nth_error demoSamples 0 = Some s ->
     exists co, nth_error [100; 500] 0 = Some co /\ Offset s = i64 co) /\
  (forall k s s',
     nth_error demoSamples k = Some s ->
     nth_error demoSamples (S k) = Some s' ->
     Offset s' = i64 (Offset s + Size s) \/
     exists co, In co [100; 500] /\ Offset s' = i64 co).
Proof.
  apply (buildSampleTable_chunk_layout demoStbl demoSamples 1 [100; 500]).
  - vm_compute. reflexivity.
  - reflexivity.
Defined.

(** ** Sample-table reconstruction: durations *)

Lemma skipn_nth_cons {A} (l : list A) : forall k x,
  nth_error l k = Some x -> skipn k l = x :: skipn (S k) l.
Proof.
  induction l as [|y l IH]; intros [|k] x Hx; try discriminate.
  - injection Hx as ->. reflexivity.
  - simpl in Hx. cbn [skipn]. rewrite (IH k x Hx). reflexivity.
Qed.

Lemma skipn_repeat_app {A} (d : A) R : forall m k,
  (k <= m)%nat -> skipn k (repeat d m ++ R) = repeat d (m - k) ++ R.
Proof.
  induction m as [|m IH]; intros [|k] Hk; try reflexivity; try lia.
  cbn [repeat app skipn]. rewrite IH by lia. reflexivity.
Qed.

Lemma sampleLoop_durations stscEntries sttsEntries chunkOffsets cttsEntries
    syncEntries sizes :
  forall i c sdi samples sdi',
    sampleLoop stscEntries sttsEntries chunkOffsets cttsEntries syncEntries
      i sizes c sdi = Ok (samples, sdi') ->
    sttsCursorOk sttsEntries c ->
    map Duration samples
    = firstn (List.length sizes)
        (skipn (Z.to_nat (decodingOff c))
           (sttsRuns (skipn (Z.to_nat (decodingIdx c)) sttsEntries))).
Proof.
  induction sizes as [|size rest IH];
    intros i c sdi samples sdi' H (Hidx & Hoff & Hpos).
  - simpl in H. injection H as <- _. reflexivity.
  - apply sampleLoop_cons_inv in H.
    destruct H as (e & t & co & tl & _ & Ht & _ & -> & Hrest).
    apply index_Ok in Ht. destruct Ht as [_ Ht]. rewrite Ht in Hpos.
    rewrite (skipn_nth_cons _ _ _ Ht).
    unfold sttsRuns. cbn [flat_map]. fold (sttsRuns
      (skipn (S (Z.to_nat (decodingIdx c))) sttsEntries)).
    set (R := sttsRuns (skipn (S (Z.to_nat (decodingIdx c))) sttsEntries)).
    set (m := Z.to_nat (Z.max 1 (SttsCount t))).
    assert (Z.to_nat (decodingOff c) < m)%nat as Hlt by (unfold m; lia).
    rewrite skipn_repeat_app by lia.
    destruct (m - Z.to_nat (decodingOff c))%nat as [|m'] eqn:Em; [lia|].
    cbn [repeat app firstn List.length map Duration]. f_equal.
    destruct rest as [|size' rest'].
    { destruct Hrest as [-> _]. reflexivity. }
    pose proof (advance_decoding stscEntries cttsEntries c e t size
                  (syncAt syncEntries c i)) as Hadv.
    cbv zeta in Hadv.
    set (c' := advance stscEntries cttsEntries c e t size
                 (syncAt syncEntries c i)) in *.
    specialize (IH (i + 1) c' _ _ _ Hrest).
    destruct (decodingOff c + 1 >=? SttsCount t) eqn:E; zbool;
      injection Hadv as Hi Ho.
    + assert (m' = 0%nat) as -> by (unfold m in *; lia).
      cbn [repeat app].
      rewrite IH.
      * rewrite Hi, Ho.
        replace (Z.to_nat (decodingIdx c + 1))
          with (S (Z.to_nat (decodingIdx c))) by lia.
        reflexivity.
      * unfold sttsCursorOk. rewrite Hi, Ho.
        split; [lia|]. split; [lia|].
        destruct (nth_error sttsEntries (Z.to_nat (decodingIdx c + 1)));
          lia.
    + rewrite IH.
      * rewrite Hi, Ho. rewrite (skipn_nth_cons _ _ _ Ht).
        unfold sttsRuns at 1. cbn [flat_map].
        fold (sttsRuns (skipn (S (Z.to_nat (decodingIdx c))) sttsEntries)).
        fold R. fold m. rewrite skipn_repeat_app by lia.
        replace (m - Z.to_nat (decodingOff c + 1))%nat with m' by lia.
        reflexivity.
      * unfold sttsCursorOk. rewrite Hi, Ho, Ht. split; [lia|]. split; lia.
Qed.

(** X2.  On a built track the durations of the samples are the durations
    of the time-to-sample entries, each repeated [max 1 count] times, in
    table order. *)
Theorem buildSampleTable_durations stbl samples sdi tt :
  buildSampleTable stbl = Ok (samples, sdi) ->
  stts stbl = Some tt ->
  map Duration samples = firstn (List.length samples) (sttsRuns tt).
Proof.
  intros H Htt. apply buildSampleTable_Ok_inv in H.
  destruct H as (sizes & tt' & sc & co & _ & Htt' & _ & _ & Hrun).
  rewrite Htt in Htt'. injection Htt' as <-.
  pose proof (sampleLoop_chain _ _ _ _ _ _ _ _ _ _ _ Hrun) as (_ & _ & Hsz).
  rewrite <- (length_map Size samples), Hsz.
  apply (sampleLoop_durations _ _ _ _ _ _ _ _ _ _ _ Hrun).
  unfold sttsCursorOk. cbn [cursors0 decodingIdx decodingOff].
  split; [lia|]. split; [lia|].
  change (Z.to_nat 0) with 0%nat. destruct (nth_error tt 0); lia.
Qed.

Lemma buildSampleTable_durations_witness :
  map Duration demoSamples
  = firstn (List.length demoSamples)
      (sttsRuns [{| SttsCount := 2; SttsDuration := 10 |};
                 {| SttsCount := 2; SttsDuration := 20 |}]).
Proof.
  apply (buildSampleTable_durations demoStbl demoSamples 1).
  - vm_compute. reflexivity.
  - reflexivity.
Defined.

(** ** Sample-table reconstruction: composition offsets *)

Lemma advance_ctts_position stscEntries cttsEntries c e t size sync :
  let c' := advance stscEntries cttsEntries c e t size sync in
  (cttsIdx c', cttsOff c') = advanceCtts cttsEntries c.
Proof.
  cbv zeta. unfold advance.
  destruct (advanceChunk stscEntries c e size) as [[[? ?] ?] ?].
  destruct (advanceTime c t) as [[? ?] ?].
  destruct (advanceCtts cttsEntries c) as [? ?]. reflexivity.
Qed.

Lemma firstn_repeat_S {A} (d : A) n z :
  (S n <= z)%nat ->
  exists z', (n <= z')%nat /\ repeat d z = d :: repeat d z'.
Proof. intros H. destruct z as [|z']; [lia|]. exists z'. split; [lia|auto]. Qed.

Lemma sampleLoop_presentation_offsets stscEntries sttsEntries chunkOffsets
    es syncEntries sizes :
  forall i c sdi samples sdi' z,
    sampleLoop stscEntries sttsEntries chunkOffsets (Some es) syncEntries
      i sizes c sdi = Ok (samples, sdi') ->
    cttsCursorOk es c ->
    (List.length sizes <= z)%nat ->
    map PresentationOffset samples
    = firstn (List.length sizes)
        (skipn (Z.to_nat (cttsOff c))
           (cttsRuns (skipn (Z.to_nat (cttsIdx c)) es))
         ++ repeat 0 z).
Proof.
  induction sizes as [|size rest IH];
    intros i c sdi samples sdi' z H (Hidx & Hoff & Hpos) Hz.
  - simpl in H. injection H as <- _. reflexivity.
  - apply sampleLoop_cons_inv in H.
    destruct H as (e & t & co & tl & _ & _ & _ & -> & Hrest).
    cbn [map PresentationOffset List.length].
    pose proof (advance_ctts_position stscEntries (Some es) c e t size
                  (syncAt syncEntries c i)) as Hadv.
    cbv zeta in Hadv.
    set (c' := advance stscEntries (Some es) c e t size
                 (syncAt syncEntries c i)) in *.
    unfold presentationOffsetAt. unfold advanceCtts in Hadv.
    destruct (nth_error es (Z.to_nat (cttsIdx c))) as [x|] eqn:Hx.
    + assert (cttsIdx c < len es) as Hin.
      { assert (Z.to_nat (cttsIdx c) < List.length es)%nat
          by (apply nth_error_Some; congruence).
        unfold len. lia. }
      destruct (cttsIdx c <? len es) eqn:E; zbool; [|lia].
      rewrite (skipn_nth_cons _ _ _ Hx).
      unfold cttsRuns. cbn [flat_map].
      fold (cttsRuns (skipn (S (Z.to_nat (cttsIdx c))) es)).
      set (R := cttsRuns (skipn (S (Z.to_nat (cttsIdx c))) es)).
      set (m := Z.to_nat (Z.max 1 (CttsCount x))).
      assert (Z.to_nat (cttsOff c) < m)%nat as Hlt by (unfold m; lia).
      rewrite skipn_repeat_app by lia.
      destruct (m - Z.to_nat (cttsOff c))%nat as [|m'] eqn:Em; [lia|].
      cbn [repeat app firstn]. f_equal.
      destruct rest as [|size' rest'].
      { destruct Hrest as [-> _]. reflexivity. }
      specialize (IH (i + 1) c' _ _ _ z Hrest).
      destruct (cttsOff c + 1 >=? CttsCount x) eqn:Ec; zbool;
        injection Hadv as Hi Ho.
      * assert (m' = 0%nat) as -> by (unfold m in *; lia).
        cbn [repeat app]. rewrite IH.
        -- rewrite Hi, Ho.
           replace (Z.to_nat (cttsIdx c + 1))
             with (S (Z.to_nat (cttsIdx c))) by lia.
           reflexivity.
        -- unfold cttsCursorOk. rewrite Hi, Ho. split; [lia|].
           split; [lia|].
           destruct (nth_error es (Z.to_nat (cttsIdx c + 1))); [lia|exact I].
        -- cbn [List.length] in Hz |- *. lia.
      * rewrite IH.
        -- rewrite Hi, Ho. rewrite (skipn_nth_cons _ _ _ Hx).
           unfold cttsRuns at 1. cbn [flat_map].
           fold (cttsRuns (skipn (S (Z.to_nat (cttsIdx c))) es)).
           fold R. fold m. rewrite skipn_repeat_app by lia.
           replace (m - Z.to_nat (cttsOff c + 1))%nat with m' by lia.
           reflexivity.
        -- unfold cttsCursorOk. rewrite Hi, Ho, Hx. split; [lia|].
           split; lia.
        -- cbn [List.length] in Hz |- *. lia.
    + assert (len es <= cttsIdx c) as Hout.
      { apply nth_error_None in Hx. unfold len. lia. }
      destruct (cttsIdx c <? len es) eqn:E; zbool; [lia|].
      apply nth_error_None in Hx.
      rewrite (skipn_all2 es) by exact Hx.
      cbn [cttsRuns flat_map]. rewrite skipn_nil. cbn [app].
      destruct (firstn_repeat_S 0 (List.length rest) z Hz) as (z' & Hz' & ->).
      cbn [firstn]. f_equal.
      destruct rest as [|size' rest'].
      { destruct Hrest as [-> _]. reflexivity. }
      injection Hadv as Hi Ho.
      rewrite (IH (i + 1) c' _ _ _ z' Hrest).
      * rewrite Hi.
        rewrite (skipn_all2 es) by exact Hx.
        cbn [cttsRuns flat_map]. rewrite skipn_nil. reflexivity.
      * unfold cttsCursorOk. rewrite Hi, Ho. split; [lia|]. split; [lia|].
        now rewrite (proj2 (nth_error_None es (Z.to_nat (cttsIdx c))) Hx).
      * exact Hz'.
Qed.

Lemma sampleLoop_no_ctts stscEntries sttsEntries chunkOffsets syncEntries
    sizes :
  forall i c sdi samples sdi',
    sampleLoop stscEntries sttsEntries chunkOffsets None syncEntries
      i sizes c sdi = Ok (samples, sdi') ->
    map PresentationOffset samples = repeat 0 (List.length sizes).
Proof.
  induction sizes as [|size rest IH]; intros i c sdi samples sdi' Hrun.
  - simpl in Hrun. injection Hrun as <- _. reflexivity.
  - apply sampleLoop_cons_inv in Hrun.
    destruct Hrun as (e & t & cv & tl & _ & _ & _ & -> & Hrest).
    cbn [map PresentationOffset List.length repeat presentationOffsetAt].
    f_equal. destruct rest as [|size' rest'].
    + destruct Hrest as [-> _]. reflexivity.
    + eapply IH. exact Hrest.
Qed.

(** X3.  On a built track with a composition-offset table the presentation
    offsets of the samples are the offsets of the table entries, each
    repeated [max 1 count] times, in table order, and 0 for the samples
    behind the table; without a table they are all 0. *)
Theorem buildSampleTable_presentation_offsets stbl samples sdi :
  buildSampleTable stbl = Ok (samples, sdi) ->
  map PresentationOffset samples
  = match ctts stbl with
    | Some es =>
        firstn (List.length samples)
          (cttsRuns es ++ repeat 0 (List.length samples))
    | None => repeat 0 (List.length samples)
    end.
Proof.
  intros H. apply buildSampleTable_Ok_inv in H.
  destruct H as (sizes & tt & sc & co & _ & _ & _ & _ & Hrun).
  pose proof (sampleLoop_chain _ _ _ _ _ _ _ _ _ _ _ Hrun) as (_ & _ & Hsz).
  rewrite <- (length_map Size samples), Hsz.
  destruct (ctts stbl) as [es|].
  - apply (sampleLoop_presentation_offsets _ _ _ _ _ _ _ _ _ _ _ _ Hrun);
      [|lia].
    unfold cttsCursorOk. cbn [cursors0 cttsIdx cttsOff].
    split; [lia|]. split; [lia|].
    change (Z.to_nat 0) with 0%nat. destruct (nth_error es 0); [lia|exact I].
  - apply (sampleLoop_no_ctts _ _ _ _ _ _ _ _ _ _ Hrun).
Qed.

Lemma buildSampleTable_presentation_offsets_witness :
  map PresentationOffset demoSamples
  = match ctts demoStbl with
    | Some es =>
        firstn (List.length demoSamples)
          (cttsRuns es ++ repeat 0 (List.length demoSamples))
    | None => repeat 0 (List.length demoSamples)
    end.
Proof.
  apply (buildSampleTable_presentation_offsets demoStbl demoSamples 1).
  vm_compute. reflexivity.
Defined.

(** ** Sample-table reconstruction: sync samples *)

Lemma advance_syncIdx stscEntries cttsEntries c e t size sync :
  syncIdx (advance stscEntries cttsEntries c e t size sync)
  = if sync then syncIdx c + 1 else syncIdx c.
Proof.
  unfold advance.
  destruct (advanceChunk stscEntries c e size) as [[[? ?] ?] ?].
  destruct (advanceTime c t) as [[? ?] ?].
  destruct (advanceCtts cttsEntries c) as [? ?]. reflexivity.
Qed.

Lemma sampleLoop_sync_marks stscEntries sttsEntries chunkOffsets cttsEntries
    es sizes :
  increasing es ->
  forall i c sdi samples sdi',
    sampleLoop stscEntries sttsEntries chunkOffsets cttsEntries (Some es)
      i sizes c sdi = Ok (samples, sdi') ->
    0 <= i -> i + len sizes < 2 ^ 32 ->
    0 <= syncIdx c ->
    (forall j x, Z.of_nat j < syncIdx c -> nth_error es j = Some x ->
                 x < i + 1) ->
    (forall j x, syncIdx c <= Z.of_nat j -> nth_error es j = Some x ->
                 i + 1 <= x) ->
    forall p s, nth_error samples p = Some s ->
      (Sync s = true <-> In (i + Z.of_nat p + 1) es).
Proof.
  intros Hsorted.
  induction sizes as [|size rest IH];
    intros i c sdi samples sdi' H Hi Hmax Hk Hbefore Hafter p s Hs.
  - simpl in H. injection H as <- _. destruct p; discriminate.
  - apply sampleLoop_cons_inv in H.
    destruct H as (e & t & co & tl & _ & _ & _ & -> & Hrest).
    assert (len (size :: rest) = 1 + len rest) as Hlen
      by (unfold len; cbn [List.length]; lia).
    assert (u32 (i + 1) = i + 1) as Hu by (apply u32_id; unfold len in *; lia).
    (* the mark of the sample at [i] *)
    assert (syncAt (Some es) c i = true <-> In (i + 1) es) as Hhere.
    { unfold syncAt. rewrite Hu. split.
      - intros Hsync. zbool.
        destruct (nth_error es (Z.to_nat (syncIdx c))) as [v|] eqn:Hv;
          [|discriminate].
        zbool. subst v. eapply nth_error_In. exact Hv.
      - intros Hin. apply In_nth_error in Hin. destruct Hin as [j Hj].
        destruct (Z_lt_ge_dec (Z.of_nat j) (syncIdx c)) as [Hlt|Hge].
        { pose proof (Hbefore j _ Hlt Hj). lia. }
        assert (Z.to_nat (syncIdx c) < List.length es)%nat as Hin.
        { assert (j < List.length es)%nat
            by (apply nth_error_Some; congruence). lia. }
        destruct (nth_error es (Z.to_nat (syncIdx c))) as [v|] eqn:Hv;
          [|apply nth_error_None in Hv; lia].
        pose proof (Hafter (Z.to_nat (syncIdx c)) v ltac:(lia) Hv) as Hv1.
        assert (v = i + 1) as ->.
        { destruct (Nat.eq_dec j (Z.to_nat (syncIdx c))) as [->|Hne];
            [congruence|].
          pose proof (Hsorted
                        (Z.to_nat (syncIdx c)) j v (i + 1) ltac:(lia) Hv Hj).
          lia. }
        apply andb_true_iff. split; [apply Z.ltb_lt; unfold len; lia|].
        apply Z.eqb_refl. }
    destruct p as [|p]; cbn [nth_error] in Hs.
    { injection Hs as <-. cbn [Sync].
      replace (i + Z.of_nat 0 + 1) with (i + 1) by lia. exact Hhere. }
    destruct rest as [|size' rest'].
    { destruct Hrest as [-> _]. destruct p; discriminate. }
    replace (i + Z.of_nat (S p) + 1) with (i + 1 + Z.of_nat p + 1) by lia.
    pose proof (advance_syncIdx stscEntries cttsEntries c e t size
                  (syncAt (Some es) c i)) as Hadv.
    eapply (IH (i + 1) _ _ _ _ Hrest); try lia; try exact Hs.
    + rewrite Hadv. destruct (syncAt (Some es) c i); lia.
    + intros j x Hj Hx. rewrite Hadv in Hj.
      destruct (syncAt (Some es) c i) eqn:Esync.
      * destruct (Z.eq_dec (Z.of_nat j) (syncIdx c)) as [Heq|Hne].
        -- unfold syncAt in Esync. zbool.
           replace (Z.to_nat (syncIdx c)) with j in * by lia.
           rewrite Hx in *. zbool. lia.
        -- pose proof (Hbefore j x ltac:(lia) Hx). lia.
      * pose proof (Hbefore j x Hj Hx). lia.
    + intros j x Hj Hx. rewrite Hadv in Hj.
      destruct (syncAt (Some es) c i) eqn:Esync.
      * (* the entry at the cursor is [i + 1]; later ones are larger *)
        unfold syncAt in Esync. zbool.
        destruct (nth_error es (Z.to_nat (syncIdx c))) as [v|] eqn:Hv;
          [|discriminate].
        zbool. subst v.
        pose proof (Hsorted
                      (Z.to_nat (syncIdx c)) j _ x ltac:(lia) Hv Hx).
        lia.
      * pose proof (Hafter j x Hj Hx) as Hx1.
        destruct (Z.eq_dec x (i + 1)) as [->|Hne]; [|lia].
        exfalso. assert (In (i + 1) es) as Hin
          by (eapply nth_error_In; exact Hx).
        apply Hhere in Hin. congruence.
Qed.

(** X4.  With a sync table whose entries are strictly increasing sample
    numbers from 1 on, the samples marked sync on a built track are exactly
    those whose 1-based number is in the table. *)
Theorem buildSampleTable_sync_exact stbl samples sdi es :
  buildSampleTable stbl = Ok (samples, sdi) ->
  stss stbl = Some es ->
  increasing es ->
  (forall x, In x es -> 1 <= x) ->
  len samples < 2 ^ 32 ->
  forall p s, nth_error samples p = Some s ->
    (Sync s = true <-> In (Z.of_nat p + 1) es).
Proof.
  intros H Hes Hsorted Hpos Hlen p s Hs.
  apply buildSampleTable_Ok_inv in H.
  destruct H as (sizes & tt & sc & co & _ & _ & _ & _ & Hrun).
  rewrite Hes in Hrun.
  pose proof (sampleLoop_chain _ _ _ _ _ _ _ _ _ _ _ Hrun) as (_ & _ & Hsz).
  assert (len sizes = len samples) as Hl
    by (unfold len; rewrite <- Hsz, length_map; reflexivity).
  replace (Z.of_nat p + 1) with (0 + Z.of_nat p + 1) by lia.
  eapply (sampleLoop_sync_marks _ _ _ _ es sizes Hsorted 0 cursors0 0
            samples sdi Hrun); cbn [cursors0 syncIdx]; try lia;
    try exact Hs.
  intros j x _ Hx. apply (Hpos x). eapply nth_error_In. exact Hx.
Qed.

Lemma buildSampleTable_sync_exact_witness :
  (true = true <-> In (Z.of_nat 2 + 1) (1 :: 3 :: nil)) /\
  (false = true <-> In (Z.of_nat 1 + 1) (1 :: 3 :: nil)).
Proof.
  assert (increasing (1 :: 3 :: nil)) as Hinc.
  { intros a b x y Hab Ha Hb.
    destruct a as [|[|a]]; destruct b as [|[|b]]; try lia;
      cbn in Ha, Hb; try congruence.
    + injection Ha as <-. injection Hb as <-. lia.
    + destruct b; discriminate.
    + destruct b; discriminate.
    + destruct a; discriminate. }
  assert (forall x, In x (1 :: 3 :: nil) -> 1 <= x) as Hpos.
  { intros x [<-|[<-|[]]]; lia. }
  split.
  - apply (buildSampleTable_sync_exact demoStbl demoSamples 1 (1 :: 3 :: nil)
             ltac:(vm_compute; reflexivity) eq_refl Hinc Hpos
             ltac:(vm_compute; reflexivity) 2%nat
             {| Offset := 500; Size := 30; Duration := 20; DTS := 20;
                PresentationOffset := -3; Sync := true |} eq_refl).
  - apply (buildSampleTable_sync_exact demoStbl demoSamples 1 (1 :: 3 :: nil)
             ltac:(vm_compute; reflexivity) eq_refl Hinc Hpos
             ltac:(vm_compute; reflexivity) 1%nat
             {| Offset := 110; Size := 20; Duration := 10; DTS := 10;
                PresentationOffset := -3; Sync := false |} eq_refl).
Defined.

(** ** Fragment selection: byte ranges and payload size *)

Lemma map_seq_shift {A} (f : nat -> A) n m : forall k,
  map f (seq (n + k) m) = map (fun j => f (n + j)%nat) (seq k m).
Proof.
  induction m as [|m IH]; intros k; [reflexivity|].
  cbn [seq map]. f_equal.
  replace (S (n + k)) with (n + S k)%nat by lia. apply IH.
Qed.

Lemma span_app a b c : a <= b <= c -> span a b ++ span b c = span a c.
Proof.
  intros H. unfold span.
  replace (Z.to_nat (c - a)) with (Z.to_nat (b - a) + Z.to_nat (c - b))%nat
    by lia.
  rewrite seq_app, map_app. f_equal.
  rewrite Nat.add_0_l.
  rewrite <- (Nat.add_0_r (Z.to_nat (b - a))).
  rewrite map_seq_shift. apply map_ext. intros k. lia.
Qed.

Lemma len_span a b : a <= b -> len (span a b) = b - a.
Proof.
  intros H. unfold len, span. rewrite length_map, length_seq. lia.
Qed.

Lemma generateFragment_ranges track firstSample endTimeScaled frag :
  0 <= firstSample < len (Samples track) ->
  generateFragment track firstSample endTimeScaled = Ok frag ->
  let selected := slice (Samples track) firstSample (nextSample frag) in
  ranges frag = fold_left addRange selected [] /\
  totalLen frag = fold_left (fun acc s => i64 (acc + Size s)) selected 0.
Proof.
  intros Hrange Hgen.
  destruct (index_in_range (Samples track) firstSample Hrange)
    as [first Hfirst].
  unfold generateFragment in Hgen.
  destruct (firstSample >=? len (Samples track)) eqn:E; zbool; [lia|].
  rewrite Hfirst in Hgen. cbn [bind] in Hgen.
  set (last := fragmentEnd firstSample endTimeScaled (DTS first)
                 (i64 (TimeScale track * minFragmentDuration))
                 (skipn (Z.to_nat firstSample) (Samples track)) firstSample)
    in *.
  destruct (last - firstSample =? 0) eqn:En; zbool; injection Hgen as <-;
    cbn [nextSample ranges totalLen emptyFragment].
  - replace last with firstSample by lia.
    rewrite slice_empty. split; reflexivity.
  - split; reflexivity.
Qed.

Lemma addRange_span rs s :
  Forall (fun r => Start r <= End_ r) rs ->
  0 <= Size s -> i64 (Offset s + Size s) = Offset s + Size s ->
  Forall (fun r => Start r <= End_ r) (addRange rs s) /\
  flat_map rangeSpan (addRange rs s) = flat_map rangeSpan rs ++ sampleSpan s.
Proof.
  intros Hrs Hsize Hfit. unfold addRange. rewrite Hfit.
  destruct (rev rs) as [|last before] eqn:Er.
  - apply (f_equal (@rev byteRange)) in Er. rewrite rev_involutive in Er.
    subst rs. cbn. split; [constructor; [cbn; lia|constructor]|].
    now rewrite app_nil_r.
  - assert (rs = rev before ++ [last]) as Hsplit.
    { apply (f_equal (@rev byteRange)) in Er.
      now rewrite rev_involutive in Er. }
    destruct (End_ last =? Offset s) eqn:Eadj; zbool.
    + rewrite Hsplit in Hrs |- *. apply Forall_app in Hrs.
      destruct Hrs as [Hb Hl]. inversion Hl as [|? ? Hlast _]; subst.
      split.
      * apply Forall_app. split; [exact Hb|].
        constructor; [cbn; lia|constructor].
      * rewrite !flat_map_app. cbn [flat_map]. rewrite !app_nil_r.
        rewrite <- app_assoc. f_equal.
        unfold rangeSpan, sampleSpan. cbn [Start End_].
        rewrite <- Eadj. symmetry. apply span_app. lia.
    + split.
      * apply Forall_app. split; [exact Hrs|].
        constructor; [cbn; lia|constructor].
      * rewrite flat_map_app. cbn [flat_map]. now rewrite app_nil_r.
Qed.

Lemma fold_addRange_span l : forall rs,
  Forall (fun r => Start r <= End_ r) rs ->
  (forall s, In s l ->
     0 <= Size s /\ i64 (Offset s + Size s) = Offset s + Size s) ->
  Forall (fun r => Start r <= End_ r) (fold_left addRange l rs) /\
  flat_map rangeSpan (fold_left addRange l rs)
  = flat_map rangeSpan rs ++ flat_map sampleSpan l.
Proof.
  induction l as [|s l IH]; intros rs Hrs Hl; cbn [fold_left flat_map].
  - now rewrite app_nil_r.
  - destruct (Hl s (or_introl eq_refl)) as [Hsize Hfit].
    destruct (addRange_span rs s Hrs Hsize Hfit) as [Hrs' Hspan].
    destruct (IH (addRange rs s) Hrs' (fun x Hx => Hl x (or_intror Hx)))
      as [Hall Heq].
    split; [exact Hall|].
    rewrite Heq, Hspan. now rewrite app_assoc.
Qed.

Lemma fold_sizes_span l : forall acc,
  0 <= acc ->
  (forall s, In s l -> 0 <= Size s < 2 ^ 32) ->
  acc + len l * 2 ^ 32 < 2 ^ 63 ->
  fold_left (fun acc s => i64 (acc + Size s)) l acc
  = acc + len (flat_map sampleSpan l).
Proof.
  induction l as [|s l IH]; intros acc Hacc Hl Hsum; cbn [fold_left flat_map].
  - unfold len. cbn. lia.
  - destruct (Hl s (or_introl eq_refl)) as [Hs0 Hs1].
    assert (len (s :: l) = 1 + len l) as Hlen
      by (unfold len; cbn [List.length]; lia).
    rewrite Hlen in Hsum. pose proof (len_nonneg l).
    rewrite i64_id by lia.
    rewrite IH; [|lia|intros; apply Hl; now right|nia].
    pose proof (len_span (Offset s) (Offset s + Size s) ltac:(lia)) as Hs.
    unfold len in *. rewrite length_app, Nat2Z.inj_add.
    change (sampleSpan s) with (span (Offset s) (Offset s + Size s)). lia.
Qed.

Lemma In_slice {A} (l : list A) i j x : In x (slice l i j) -> In x l.
Proof.
  unfold slice. intros H.
  rewrite <- (firstn_skipn (Z.to_nat i) l). apply in_or_app. right.
  rewrite <- (firstn_skipn (Z.to_nat (j - i)) (skipn (Z.to_nat i) l)).
  apply in_or_app. now left.
Qed.

(** X5.  The byte ranges of a fragment cover, in order, exactly the file
    positions of the data of the samples it selects, and the payload size it
    reports is the number of those positions.  Sample sizes are 32-bit
    values; the sample data is assumed to end below 2^63 and the track to
    hold at most 2^31 - 1 samples. *)
Theorem generateFragment_ranges_cover track firstSample endTimeScaled frag :
  0 <= firstSample < len (Samples track) ->
  len (Samples track) < 2 ^ 31 ->
  (forall s, In s (Samples track) ->
     0 <= Size s < 2 ^ 32 /\
     - 2 ^ 63 <= Offset s /\ Offset s + Size s < 2 ^ 63) ->
  generateFragment track firstSample endTimeScaled = Ok frag ->
  let selected := slice (Samples track) firstSample (nextSample frag) in
  flat_map rangeSpan (ranges frag) = flat_map sampleSpan selected /\
  totalLen frag = len (flat_map sampleSpan selected).
Proof.
  intros Hrange Hcount Hsamples Hgen selected.
  destruct (generateFragment_ranges track firstSample endTimeScaled frag
              Hrange Hgen) as [Hr Ht].
  fold selected in Hr, Ht.
  assert (forall s, In s selected -> In s (Samples track)) as Hsel
    by (intros s; apply In_slice).
  split.
  - rewrite Hr. apply fold_addRange_span; [constructor|].
    intros s Hs. destruct (Hsamples s (Hsel s Hs)) as (? & ? & ?).
    split; [lia|]. apply i64_id. lia.
  - rewrite Ht, fold_sizes_span; [lia|lia| |].
    + intros s Hs. apply (Hsamples s (Hsel s Hs)).
    + assert (len selected <= len (Samples track)) as Hle.
      { unfold selected, slice, len.
        rewrite length_firstn, length_skipn. lia. }
      pose proof (len_nonneg selected). nia.
Qed.

Lemma generateFragment_ranges_cover_witness :
  flat_map rangeSpan [{| Start := 100; End_ := 130 |}]
  = flat_map sampleSpan (slice demoSamples 0 2) /\
  30 = len (flat_map sampleSpan (slice demoSamples 0 2)).
Proof.
  apply (generateFragment_ranges_cover demoTrack 0 0
           {| trunEntries := map trunEntryOf (slice demoSamples 0 2);
              ranges := [{| Start := 100; End_ := 130 |}];
              totalLen := 30; nextSample := 2; trunVersion := 1 |}).
  - vm_compute. split; [discriminate|reflexivity].
  - vm_compute. reflexivity.
  - intros s Hs. cbn in Hs.
    repeat (destruct Hs as [<-|Hs]; [cbn; lia|]). destruct Hs.
  - vm_compute. reflexivity.
Defined.

(** ** Seek helpers on tracks in presentation order *)

Lemma ptsAt_Some samples k s :
  nth_error samples k = Some s -> ptsAt samples (Z.of_nat k) = Some (pts s).
Proof. intros H. unfold ptsAt. now rewrite Nat2Z.id, H. Qed.

Lemma ptsAt_in_range samples i :
  0 <= i < len samples ->
  exists s, nth_error samples (Z.to_nat i) = Some s /\
            ptsAt samples i = Some (pts s).
Proof.
  intros Hi. unfold ptsAt.
  destruct (nth_error samples (Z.to_nat i)) as [s|] eqn:E.
  - exists s. auto.
  - apply nth_error_None in E. unfold len in Hi. lia.
Qed.

(** X6.  On a track in presentation order, when some sync sample is
    presented at or after the given time, [FindSampleAfter] returns the
    first such sample: it is a sync sample presented at or after the time,
    and no earlier sample is. *)
Theorem FindSampleAfter_first_sync t scaledTime k s :
  ptsSorted (Samples t) ->
  nth_error (Samples t) k = Some s ->
  Sync s = true -> scaledTime <= pts s ->
  let r := FindSampleAfter t scaledTime in
  0 <= r <= Z.of_nat k /\
  exists s', nth_error (Samples t) (Z.to_nat r) = Some s' /\
             Sync s' = true /\ scaledTime <= pts s'.
Proof.
  intros Hsorted Hk Hsync Hpts.
  set (n := len (Samples t)).
  set (f := fun i : Z => match ptsAt (Samples t) i with
                         | Some p => p >=? scaledTime
                         | None => false
                         end).
  pose proof (len_nonneg (Samples t)) as Hn. fold n in Hn.
  assert (Z.of_nat k < n) as Hkn.
  { assert (k < List.length (Samples t))%nat
      by (apply nth_error_Some; congruence). unfold n, len. lia. }
  assert (forall i j, 0 <= i <= j -> j < n -> f i = true -> f j = true)
    as Hmono.
  { intros i j Hij Hj Hi. unfold f in *.
    destruct (ptsAt_in_range (Samples t) i ltac:(fold n; lia))
      as (si & Hsi & Hpi).
    destruct (ptsAt_in_range (Samples t) j ltac:(fold n; lia))
      as (sj & Hsj & Hpj).
    rewrite Hpi in Hi. rewrite Hpj. zbool. apply Z.geb_le.
    pose proof (Hsorted (Z.to_nat i) (Z.to_nat j) si sj ltac:(lia)
                  Hsi Hsj). lia. }
  assert (forall i s0, ptsAt (Samples t) i = Some (pts s0) ->
                       f i = true -> scaledTime <= pts s0) as Hf.
  { intros i s0 Hp Hi. unfold f in Hi. rewrite Hp in Hi. zbool. lia. }
  pose proof (Search_bounds n f Hn) as Hb.
  destruct (Search_spec n f Hn) as [_ Hat].
  pose proof (Search_first n f Hn Hmono) as Hfirst.
  assert (f (Z.of_nat k) = true) as Hfk.
  { unfold f. rewrite (ptsAt_Some _ _ _ Hk). apply Z.geb_le. lia. }
  assert (Search n f <= Z.of_nat k) as Hidx.
  { destruct (Z_le_gt_dec (Search n f) (Z.of_nat k)) as [|Hgt]; [assumption|].
    rewrite (Hfirst (Z.of_nat k) ltac:(lia)) in Hfk. discriminate. }
  destruct (walkOn_spec (Samples t) (Search n f) ltac:(fold n; lia))
    as (Hw & Hskip & Hyes).
  fold n in Hw, Hyes.
  assert (walkOn (Samples t) (Search n f) <= Z.of_nat k) as Hwk.
  { destruct (Z_le_gt_dec (walkOn (Samples t) (Search n f)) (Z.of_nat k))
      as [|Hgt]; [assumption|].
    pose proof (Hskip (Z.of_nat k) s ltac:(lia)) as Hno.
    rewrite Nat2Z.id in Hno. specialize (Hno Hk). congruence. }
  unfold FindSampleAfter. fold n. fold f. cbv zeta.
  destruct (Search n f >=? n) eqn:E1; zbool; [lia|].
  destruct (walkOn (Samples t) (Search n f) >=? n) eqn:E2; zbool; [lia|].
  split; [lia|].
  destruct (Hyes ltac:(lia)) as (s' & Hs' & Hsync').
  exists s'. split; [exact Hs'|]. split; [exact Hsync'|].
  specialize (Hat ltac:(lia)).
  destruct (ptsAt_in_range (Samples t) (Search n f) ltac:(fold n; lia))
    as (s0 & Hs0 & Hp0).
  pose proof (Hf _ _ Hp0 Hat) as Hat0.
  pose proof (Hsorted (Z.to_nat (Search n f))
                (Z.to_nat (walkOn (Samples t) (Search n f))) s0 s'
                ltac:(lia) Hs0 Hs'). lia.
Qed.

Lemma demoSamples_ptsSorted : ptsSorted demoSamples.
Proof.
  intros i j s s' Hij Hi Hj.
  destruct i as [|[|[|[|i]]]]; destruct j as [|[|[|[|j]]]];
    cbn in Hi, Hj; try lia;
    try (destruct i; discriminate); try (destruct j; discriminate);
    injection Hi as <-; injection Hj as <-; vm_compute; discriminate.
Qed.

Lemma FindSampleAfter_first_sync_witness :
  0 <= FindSampleAfter demoTrack 10 <= Z.of_nat 2 /\
  exists s', nth_error (Samples demoTrack)
               (Z.to_nat (FindSampleAfter demoTrack 10)) = Some s' /\
             Sync s' = true /\ 10 <= pts s'.
Proof.
  apply (FindSampleAfter_first_sync demoTrack 10 2
           {| Offset := 500; Size := 30; Duration := 20; DTS := 20;
              PresentationOffset := -3; Sync := true |}
           demoSamples_ptsSorted eq_refl eq_refl).
  vm_compute. discriminate.
Defined.

Lemma walkBackward_skips samples : forall idx j s,
  (walkBackward samples idx < j <= idx)%nat ->
  nth_error samples j = Some s -> Sync s = false.
Proof.
  induction idx as [|idx IH]; intros j s Hj Hs; cbn [walkBackward] in Hj.
  - lia.
  - destruct (nth_error samples (S idx)) as [s0|] eqn:E; [|lia].
    destruct (Sync s0) eqn:Esync; cbn [negb] in Hj; [lia|].
    destruct (Nat.eq_dec j (S idx)) as [->|Hne]; [congruence|].
    apply (IH j s); [lia | exact Hs].
Qed.

(** X7.  On a track in presentation order, when some sync sample is
    presented at or before the given time, [FindSampleBefore] returns the
    last such sample: it is a sync sample presented at or before the time,
    and no later sample is. *)
Theorem FindSampleBefore_last_sync t scaledTime k s :
  ptsSorted (Samples t) ->
  nth_error (Samples t) k = Some s ->
  Sync s = true -> pts s <= scaledTime ->
  let r := FindSampleBefore t scaledTime in
  Z.of_nat k <= r /\
  exists s', nth_error (Samples t) (Z.to_nat r) = Some s' /\
             Sync s' = true /\ pts s' <= scaledTime.
Proof.
  intros Hsorted Hk Hsync Hpts.
  set (n := len (Samples t)).
  set (f := fun i : Z => match ptsAt (Samples t) i with
                         | Some p => p >? scaledTime
                         | None => false
                         end).
  pose proof (len_nonneg (Samples t)) as Hn. fold n in Hn.
  assert (Z.of_nat k < n) as Hkn.
  { assert (k < List.length (Samples t))%nat
      by (apply nth_error_Some; congruence). unfold n, len. lia. }
  assert (forall i j, 0 <= i <= j -> j < n -> f i = true -> f j = true)
    as Hmono.
  { intros i j Hij Hj Hi. unfold f in *.
    destruct (ptsAt_in_range (Samples t) i ltac:(fold n; lia))
      as (si & Hsi & Hpi).
    destruct (ptsAt_in_range (Samples t) j ltac:(fold n; lia))
      as (sj & Hsj & Hpj).
    rewrite Hpi in Hi. rewrite Hpj. zbool. rewrite Z.gtb_ltb.
    apply Z.ltb_lt.
    pose proof (Hsorted (Z.to_nat i) (Z.to_nat j) si sj ltac:(lia)
                  Hsi Hsj). lia. }
  assert (forall i s0, ptsAt (Samples t) i = Some (pts s0) ->
                       f i = false -> pts s0 <= scaledTime) as Hf.
  { intros i s0 Hp Hi. unfold f in Hi. rewrite Hp in Hi. zbool. lia. }
  pose proof (Search_bounds n f Hn) as Hb.
  destruct (Search_spec n f Hn) as [_ Hat].
  pose proof (Search_first n f Hn Hmono) as Hfirst.
  assert (f (Z.of_nat k) = false) as Hfk.
  { unfold f. rewrite (ptsAt_Some _ _ _ Hk). rewrite Z.gtb_ltb. apply Z.ltb_ge. lia. }
  assert (Z.of_nat k < Search n f) as Hidx.
  { destruct (Z_lt_ge_dec (Z.of_nat k) (Search n f)) as [|Hge]; [assumption|].
    rewrite (Hmono (Search n f) (Z.of_nat k) ltac:(lia) Hkn
               (Hat ltac:(lia))) in Hfk. discriminate. }
  unfold FindSampleBefore. fold n. fold f. cbv zeta.
  replace (Z.max (Search n f - 1) 0) with (Search n f - 1) by lia.
  set (idx := Z.to_nat (Search n f - 1)).
  assert (Z.of_nat idx = Search n f - 1) as Hidxv by (unfold idx; lia).
  destruct (walkBackward_spec (Samples t) idx) as [Hle Hr].
  { left. unfold n, len in *. lia. }
  pose proof (walkBackward_skips (Samples t) idx k s) as Hskip.
  assert (k <= walkBackward (Samples t) idx)%nat as Hkr.
  { destruct (le_gt_dec k (walkBackward (Samples t) idx)) as [|Hgt];
      [assumption|].
    specialize (Hskip ltac:(lia) Hk). congruence. }
  split; [lia|]. rewrite Nat2Z.id.
  assert (exists s', nth_error (Samples t) (walkBackward (Samples t) idx)
                     = Some s' /\ Sync s' = true) as (s' & Hs' & Hsync').
  { destruct Hr as [Hr|Hr]; [|exact Hr].
    exists s. replace (walkBackward (Samples t) idx) with k by lia. auto. }
  exists s'. split; [exact Hs'|]. split; [exact Hsync'|].
  apply (Hf (Z.of_nat (walkBackward (Samples t) idx))).
  - now apply ptsAt_Some.
  - apply Hfirst. lia.
Qed.

Lemma FindSampleBefore_last_sync_witness :
  Z.of_nat 0 <= FindSampleBefore demoTrack 10 /\
  exists s', nth_error (Samples demoTrack)
               (Z.to_nat (FindSampleBefore demoTrack 10)) = Some s' /\
             Sync s' = true /\ pts s' <= 10.
Proof.
  apply (FindSampleBefore_last_sync demoTrack 10 0
           {| Offset := 100; Size := 10; Duration := 10; DTS := 0;
              PresentationOffset := 5; Sync := true |}
           demoSamples_ptsSorted eq_refl eq_refl).
  vm_compute. discriminate.
Defined.

(** ** The order of the stream *)

Section Emits.
Context {W R : Type} `{io.Writer W}.

Let act := action (W:=W) (R:=R).

Lemma emits_ret {A} (a : A) (Q : result A -> list (part * list Z) -> Prop) :
  Q (Ok a) [] -> emits (ret a : act A) Q.
Proof.
  intros HQ st st' r [= <- <-]. exists []. now rewrite app_nil_r.
Qed.

Lemma emits_lift {A} (x : result A)
    (Q : result A -> list (part * list Z) -> Prop) :
  Q x [] -> emits (lift x : act A) Q.
Proof.
  intros HQ st st' r [= <- <-]. exists []. now rewrite app_nil_r.
Qed.

Lemma emits_andThen {A B} (m : act A) (k : A -> act B)
    (Q1 : result A -> list (part * list Z) -> Prop)
    (Q : result B -> list (part * list Z) -> Prop) :
  emits m Q1 ->
  (forall a l1, Q1 (Ok a) l1 -> emits (k a) (fun r l2 => Q r (l1 ++ l2))) ->
  (forall e l1, Q1 (Err e) l1 -> Q (Err e) l1) ->
  (forall l1, Q1 Panic l1 -> Q Panic l1) ->
  emits (andThen m k) Q.
Proof.
  intros Hm Hk He Hp st st' r Hrun. unfold andThen in Hrun.
  destruct (m st) as [st1 r1] eqn:Em.
  destruct (Hm st st1 r1 Em) as (l1 & Hl1 & HQ1).
  destruct r1 as [a|e|].
  - destruct (Hk a l1 HQ1 st1 st' r Hrun) as (l2 & Hl2 & HQ).
    exists (l1 ++ l2). split; [|exact HQ].
    now rewrite Hl2, Hl1, app_assoc.
  - injection Hrun as <- <-. exists l1. auto.
  - injection Hrun as <- <-. exists l1. auto.
Qed.

Lemma emits_lift_andThen {A B} (x : result A) (k : A -> act B)
    (Q : result B -> list (part * list Z) -> Prop) :
  (forall a, x = Ok a -> emits (k a) Q) ->
  (forall e, x = Err e -> Q (Err e) []) ->
  (x = Panic -> Q Panic []) ->
  emits (andThen (lift x) k) Q.
Proof.
  intros Hk He Hp st st' r Hrun. unfold andThen, lift in Hrun.
  destruct x as [a|e|].
  - exact (Hk a eq_refl st st' r Hrun).
  - injection Hrun as <- <-. exists []. rewrite app_nil_r. auto.
  - injection Hrun as <- <-. exists []. rewrite app_nil_r. auto.
Qed.

Lemma emits_write p b (Q : result unit -> list (part * list Z) -> Prop) :
  (forall r, r <> Panic -> Q r [(p, b)]) -> emits (write p b : act unit) Q.
Proof.
  intros HQ st st' r Hrun. unfold write in Hrun.
  destruct (io.Write (sink st) b) as [w e].
  injection Hrun as <- <-. cbn [emitted]. exists [(p, b)].
  split; [reflexivity|]. apply HQ. destruct e; discriminate.
Qed.

Lemma emits_callWriteMoof seqNum trackID base entries version
    (Q : result unit -> list (part * list Z) -> Prop) :
  (forall r, r <> Panic ->
     Q r [(Moof, moofBytes seqNum trackID base entries version)]) ->
  emits (callWriteMoof seqNum trackID base entries version : act unit) Q.
Proof.
  intros HQ st st' r Hrun. unfold callWriteMoof, writeMoof in Hrun.
  destruct (io.Write (sink st) _) as [w e].
  injection Hrun as <- <-. cbn [emitted]. eexists.
  split; [reflexivity|]. apply HQ. destruct e; discriminate.
Qed.

Lemma payloadLen_nil : payloadLen [] = 0.
Proof. reflexivity. Qed.

Lemma payloadLen_app l1 l2 :
  payloadLen (l1 ++ l2) = payloadLen l1 + payloadLen l2.
Proof.
  unfold payloadLen, len. rewrite map_app, concat_app, length_app. lia.
Qed.

Lemma payloadLen_one p b : payloadLen [(p, b)] = len b.
Proof.
  unfold payloadLen, len. cbn [map snd List.concat]. now rewrite app_nil_r.
Qed.

(** The copy loop's outcome after it has read [got]: shared by the
    sequential and the positional loop. *)
Lemma emits_copy_step (got : list Z) (err : option error) remaining
    (loop : Z -> act unit) :
  - 2 ^ 63 <= remaining < 2 ^ 63 -> 0 < remaining ->
  len got <= remaining ->
  (forall remaining', - 2 ^ 63 <= remaining' < 2 ^ 63 ->
     emits (loop remaining')
       (fun r l => Forall isPayload l /\
                   (r = Ok tt -> payloadLen l = Z.max 0 remaining'))) ->
  emits (_ <~ (if len got >? 0 then write Payload got else ret tt) ;;
         let remaining' := if len got >? 0 then i64 (remaining - len got)
                           else remaining in
         match err with
         | Some e =>
             match e with
             | EOF => if remaining' =? 0 then ret tt else lift (Err e)
             | _ => lift (Err e)
             end
         | None => loop remaining'
         end : act unit)
    (fun r l => Forall isPayload l /\
                (r = Ok tt -> payloadLen l = Z.max 0 remaining)).
Proof.
  intros Hrange Hpos Hfit Hloop.
  pose proof (len_nonneg got) as Hgot.
  apply (emits_andThen _ _
           (fun r l => r <> Panic /\
                       l = if len got >? 0 then [(Payload, got)] else [])).
  - destruct (len got >? 0).
    + apply emits_write. auto.
    + apply emits_ret. split; [discriminate | reflexivity].
  - intros [] l1 [_ ->]. cbv zeta.
    assert (Forall isPayload
              (if len got >? 0 then [(Payload, got)] else [])) as Hl1.
    { destruct (len got >? 0); repeat constructor. }
    assert (payloadLen (if len got >? 0 then [(Payload, got)] else [])
            = remaining - (if len got >? 0 then i64 (remaining - len got)
                           else remaining)) as Hlen.
    { destruct (len got >? 0) eqn:E; zbool.
      - rewrite payloadLen_one, i64_id by lia. lia.
      - rewrite payloadLen_nil. lia. }
    set (remaining' := if len got >? 0 then i64 (remaining - len got)
                       else remaining) in *.
    assert (0 <= remaining' <= remaining) as Hrem.
    { unfold remaining'. destruct (len got >? 0) eqn:E; zbool;
        [rewrite i64_id by lia|]; lia. }
    destruct err as [[| |msg]|].
    + destruct (remaining' =? 0) eqn:E0; zbool.
      * apply emits_ret. rewrite app_nil_r. split; [exact Hl1|].
        intros _. lia.
      * apply emits_lift. rewrite app_nil_r. split; [exact Hl1|].
        discriminate.
    + apply emits_lift. rewrite app_nil_r. split; [exact Hl1|discriminate].
    + apply emits_lift. rewrite app_nil_r. split; [exact Hl1|discriminate].
    + intros st st' r Hrun.
      destruct (Hloop remaining' ltac:(lia) st st' r Hrun)
        as (l2 & Hl2 & Hp2 & Hn2).
      exists l2. split; [exact Hl2|]. split.
      * apply Forall_app. auto.
      * intros Hr. rewrite payloadLen_app, Hlen, (Hn2 Hr). lia.
  - intros e l1 [_ ->]. split; [|discriminate].
    destruct (len got >? 0); repeat constructor.
  - intros l1 [Hr _]. contradiction.
Qed.

Lemma rangesLen_cons r rs : rangesLen (r :: rs) = rangeLen r + rangesLen rs.
Proof. reflexivity. Qed.

Variable copy : list byteRange -> act unit.
Hypothesis copy_copies : forall rs, emits (copy rs) (copies rs).

Lemma emits_fragmentLoop track endTimeScaled dtsOffset fuel :
  forall seqNum sample,
    emits (fragmentLoop copy fuel track endTimeScaled dtsOffset seqNum sample)
          (fragmentRun track endTimeScaled dtsOffset seqNum sample).
Proof.
  induction fuel as [|fuel IH]; intros seqNum sample;
    cbn [fragmentLoop]; destruct (sample <? len (Samples track));
    try (apply emits_ret; constructor); try (apply emits_lift; constructor).
  apply emits_lift_andThen; try (intros; constructor). intros past _.
  destruct past; [apply emits_ret; constructor|].
  apply emits_lift_andThen; try (intros; constructor). intros frag Hfrag.
  destruct (len (trunEntries frag) =? 0) eqn:En;
    [apply emits_ret; constructor|].
  assert (trunEntries frag <> []) as Hne.
  { intros He. rewrite He in En. discriminate. }
  apply emits_lift_andThen; try (intros; constructor). intros s Hs.
  set (b := moofFor track dtsOffset seqNum s frag).
  apply (emits_andThen _ _ (fun r l => r <> Panic /\ l = [(Moof, b)])).
  { apply emits_callWriteMoof. auto. }
  2:{ intros e l1 [_ ->].
      apply (run_broken _ _ _ _ _ s frag _ []); auto; discriminate. }
  2:{ intros l1 [Hr _]. contradiction. }
  intros [] l1 [_ ->].
  apply (emits_andThen _ _
           (fun r l => r <> Panic /\ l = [(MdatHdr, mdatHeader frag)])).
  { apply emits_write. auto. }
  2:{ intros e l1 [_ ->].
      apply (run_broken _ _ _ _ _ s frag _ []); auto; discriminate. }
  2:{ intros l1 [Hr _]. contradiction. }
  intros [] l1 [_ ->].
  apply (emits_andThen _ _ (copies (ranges frag))).
  { apply copy_copies. }
  2:{ intros e l1 [Hpay _]. cbn [app].
      apply (run_broken _ _ _ _ _ s frag _ l1); auto; discriminate. }
  2:{ intros l1 [Hpay _]. cbn [app].
      apply (run_broken _ _ _ _ _ s frag _ l1); auto; discriminate. }
  intros [] payload [Hpay Hlen].
  intros st st' r Hrun.
  destruct (IH _ _ st st' r Hrun) as (rest & Hrest & Hnext).
  exists rest. split; [exact Hrest|]. cbn [app].
  apply (run_next _ _ _ _ _ s frag); auto.
Qed.

Lemma emits_writeStream track startScaled endTime (st st' : stream W R) r :
  writeStream copy track startScaled endTime st = (st', r) ->
  emitted st = [] ->
  (emitted st' = [] /\ r <> Ok tt) \/
  exists firstSample dtsOffset endTimeScaled l,
    resolveRange track startScaled endTime
      = Ok (firstSample, dtsOffset, endTimeScaled) /\
    emitted st' = (Init, InitSegment track) :: l /\
    fragmentRun track endTimeScaled dtsOffset 1 firstSample r l.
Proof.
  intros Hrun Hst. unfold writeStream in Hrun.
  unfold andThen at 1 in Hrun. unfold lift in Hrun.
  destruct (resolveRange track startScaled endTime)
    as [[[firstSample dtsOffset] endTimeScaled]| |] eqn:Er;
    try (injection Hrun as <- <-; left; split; [exact Hst|discriminate]).
  right. exists firstSample, dtsOffset, endTimeScaled.
  assert (emits (_ <~ write Init (InitSegment track) ;;
                 fragmentLoop copy (List.length (Samples track)) track
                   endTimeScaled dtsOffset 1 firstSample : act unit)
            (fun r l => exists l',
               l = (Init, InitSegment track) :: l' /\
               fragmentRun track endTimeScaled dtsOffset 1 firstSample r l'))
    as Hemits.
  { apply (emits_andThen _ _
             (fun r l => l = [(Init, InitSegment track)])).
    - apply emits_write. auto.
    - intros [] l1 ->. intros s0 s1 r0 Hr0.
      destruct (emits_fragmentLoop track endTimeScaled dtsOffset _ _ _
                  s0 s1 r0 Hr0) as (l & Hl & Hfr).
      exists l. split; [exact Hl|]. exists l. auto.
    - intros e l1 ->. exists []. split; [reflexivity|constructor].
    - intros l1 ->. exists []. split; [reflexivity|constructor]. }
  destruct (Hemits st st' r Hrun) as (l & Hl & l' & -> & Hfr).
  exists l'. rewrite Hl, Hst. auto.
Qed.
End Emits.

Section EmitsSequential.
Context {W R : Type} `{io.Writer W} `{io.ReadSeeker R}.

Let act := action (W:=W) (R:=R).

Lemma emits_seekStart pos
    (Q : result unit -> list (part * list Z) -> Prop) :
  (forall r, r <> Panic -> Q r []) -> emits (seekStart pos : act unit) Q.
Proof.
  intros HQ st st' r Hrun. unfold seekStart in Hrun.
  destruct (io.Seek (source st) pos io.SeekStart) as [[r0 x] e].
  injection Hrun as <- <-. cbn [emitted]. exists [].
  rewrite app_nil_r. split; [reflexivity|]. apply HQ.
  destruct e; discriminate.
Qed.

Lemma emits_read n
    (Q : result (list Z * option error) -> list (part * list Z) -> Prop) :
  0 <= n ->
  (forall got e, len got <= n -> Q (Ok (got, e)) []) ->
  emits (read n : act (list Z * option error)) Q.
Proof.
  intros Hn HQ st st' r Hrun. unfold read in Hrun.
  pose proof (io.Read_fits (source st) n Hn) as Hfit.
  destruct (io.Read (source st) n) as [[r0 got] e].
  injection Hrun as <- <-. cbn [emitted]. exists [].
  rewrite app_nil_r. split; [reflexivity|]. apply HQ. exact Hfit.
Qed.

Lemma emits_copyLoop fuel : forall remaining,
  - 2 ^ 63 <= remaining < 2 ^ 63 ->
  emits (copyLoop fuel remaining : act unit)
    (fun r l => Forall isPayload l /\
                (r = Ok tt -> payloadLen l = Z.max 0 remaining)).
Proof.
  induction fuel as [|fuel IH]; intros remaining Hrange;
    cbn [copyLoop]; destruct (remaining >? 0) eqn:E; zbool;
    try (apply emits_ret; split; [constructor|intros _; cbn; lia]);
    try (apply emits_lift; split; [constructor|discriminate]).
  apply (emits_andThen _ _
           (fun r l => l = [] /\
              exists got e, r = Ok (got, e) /\
                            len got <= Z.min copyBufLen remaining)).
  - apply emits_read; [unfold copyBufLen; lia|]. intros got e Hfit.
    split; [reflexivity|]. eauto.
  - intros [got err] l1 [-> (got' & e' & [= <- <-] & Hfit)]. cbn [app].
    apply (emits_copy_step got err remaining (copyLoop fuel));
      [lia | lia | lia | exact IH].
  - intros e l1 [_ (? & ? & [=] & _)].
  - intros l1 [_ (? & ? & [=] & _)].
Qed.

Lemma emits_copyRanges rs : emits (copyRanges rs : act unit) (copies rs).
Proof.
  induction rs as [|r rs IH]; cbn [copyRanges].
  { apply emits_ret. split; [constructor|reflexivity]. }
  apply (emits_andThen _ _ (fun r l => r <> Panic /\ l = [])).
  - apply emits_seekStart. auto.
  - intros [] l1 [_ ->]. cbn [app].
    apply (emits_andThen _ _
             (fun r0 l => Forall isPayload l /\
                          (r0 = Ok tt -> payloadLen l = rangeLen r))).
    + apply emits_copyLoop. apply i64_range.
    + intros [] l2 [Hp2 Hn2]. intros st st' r0 Hrun.
      destruct (IH st st' r0 Hrun) as (l3 & Hl3 & Hp3 & Hn3).
      exists l3. split; [exact Hl3|]. split.
      * apply Forall_app. auto.
      * intros Hr. rewrite payloadLen_app, rangesLen_cons, (Hn3 Hr).
        now rewrite (Hn2 eq_refl).
    + intros e l2 [Hp2 _]. split; [exact Hp2|discriminate].
    + intros l2 [Hp2 _]. split; [exact Hp2|discriminate].
  - intros e l1 [_ ->]. split; [constructor|discriminate].
  - intros l1 [Hr _]. contradiction.
Qed.
End EmitsSequential.

Section EmitsPositional.
Context {W R : Type} `{io.Writer W} `{io.ReaderAt R}.

Let act := action (W:=W) (R:=R).

Lemma emits_readAt n offset
    (Q : result (list Z * option error) -> list (part * list Z) -> Prop) :
  0 <= n ->
  (forall got e, len got <= n -> Q (Ok (got, e)) []) ->
  emits (readAt n offset : act (list Z * option error)) Q.
Proof.
  intros Hn HQ st st' r Hrun. unfold readAt in Hrun.
  pose proof (io.ReadAt_fits (source st) n offset Hn) as Hfit.
  destruct (io.ReadAt (source st) n offset) as [got e].
  injection Hrun as <- <-. exists [].
  rewrite app_nil_r. split; [reflexivity|]. apply HQ. exact Hfit.
Qed.

Lemma emits_copyLoopAt fuel : forall offset remaining,
  - 2 ^ 63 <= remaining < 2 ^ 63 ->
  emits (copyLoopAt fuel offset remaining : act unit)
    (fun r l => Forall isPayload l /\
                (r = Ok tt -> payloadLen l = Z.max 0 remaining)).
Proof.
  induction fuel as [|fuel IH]; intros offset remaining Hrange;
    cbn [copyLoopAt]; destruct (remaining >? 0) eqn:E; zbool;
    try (apply emits_ret; split; [constructor|intros _; cbn; lia]);
    try (apply emits_lift; split; [constructor|discriminate]).
  apply (emits_andThen _ _
           (fun r l => l = [] /\
              exists got e, r = Ok (got, e) /\
                            len got <= Z.min copyBufLen remaining)).
  - apply emits_readAt; [unfold copyBufLen; lia|]. intros got e Hfit.
    split; [reflexivity|]. eauto.
  - intros [got err] l1 [-> (got' & e' & [= <- <-] & Hfit)]. cbn [app].
    apply (emits_copy_step got err remaining
             (copyLoopAt fuel
                (if len got >? 0 then i64 (offset + len got) else offset)));
      [lia | lia | lia | apply IH].
  - intros e l1 [_ (? & ? & [=] & _)].
  - intros l1 [_ (? & ? & [=] & _)].
Qed.

Lemma emits_copyRangesAt rs :
  emits (copyRangesAt rs : act unit) (copies rs).
Proof.
  induction rs as [|r rs IH]; cbn [copyRangesAt].
  { apply emits_ret. split; [constructor|reflexivity]. }
  apply (emits_andThen _ _
           (fun r0 l => Forall isPayload l /\
                        (r0 = Ok tt -> payloadLen l = rangeLen r))).
  - apply emits_copyLoopAt. apply i64_range.
  - intros [] l2 [Hp2 Hn2]. intros st st' r0 Hrun.
    destruct (IH st st' r0 Hrun) as (l3 & Hl3 & Hp3 & Hn3).
    exists l3. split; [exact Hl3|]. split.
    + apply Forall_app. auto.
    + intros Hr. rewrite payloadLen_app, rangesLen_cons, (Hn3 Hr).
      now rewrite (Hn2 eq_refl).
  - intros e l2 [Hp2 _]. split; [exact Hp2|discriminate].
  - intros l2 [Hp2 _]. split; [exact Hp2|discriminate].
Qed.
End EmitsPositional.

(** The runs of writes of [WriteTo] and of [WriteToFrom]. *)
Lemma stream_runs {W R : Type} `{io.Writer W}
    track startScaled endTime (st st' : stream W R) r :
  (exists HR : io.ReadSeeker R,
      WriteTo track startScaled endTime st = (st', r)) \/
  (exists HA : io.ReaderAt R,
      WriteToFrom track startScaled endTime st = (st', r)) ->
  emitted st = [] ->
  (emitted st' = [] /\ r <> Ok tt) \/
  exists firstSample dtsOffset endTimeScaled l,
    resolveRange track startScaled endTime
      = Ok (firstSample, dtsOffset, endTimeScaled) /\
    emitted st' = (Init, InitSegment track) :: l /\
    fragmentRun track endTimeScaled dtsOffset 1 firstSample r l.
Proof.
  intros [[HR Hrun]|[HA Hrun]] Hst.
  - eapply (emits_writeStream copyRanges); try eassumption.
    intros rs. apply emits_copyRanges.
  - eapply (emits_writeStream copyRangesAt); try eassumption.
    intros rs. apply emits_copyRangesAt.
Qed.

Lemma moofSequenceNumber_moofFor track dtsOffset seqNum s frag :
  moofSequenceNumber (moofFor track dtsOffset seqNum s frag) = u32 seqNum.
Proof.
  unfold moofSequenceNumber, moofFor.
  change (slice (moofBytes seqNum (TrackID track)
                   (u32 (i64 (DTS s - dtsOffset))) (trunEntries frag)
                   (trunVersion frag)) 20 24)
    with (PutUint32 seqNum).
  apply Uint32_PutUint32.
Qed.

Lemma boxSizeField_mdatHeader frag :
  boxSizeField (mdatHeader frag) = u32 (8 + totalLen frag).
Proof.
  unfold boxSizeField, mdatHeader.
  change (slice (PutUint32 (u32 (i64 (8 + totalLen frag)))
                 ++ bytesOfString "mdat") 0 4)
    with (PutUint32 (u32 (i64 (8 + totalLen frag)))).
  now rewrite Uint32_PutUint32, u32_u32, u32_i64.
Qed.

Lemma acceptAll_app strict l1 : forall ph l2,
  acceptAll strict ph (l1 ++ l2)
  = match acceptAll strict ph l1 with
    | Some ph' => acceptAll strict ph' l2
    | None => None
    end.
Proof.
  induction l1 as [|pb l1 IH]; intros ph l2; cbn [app acceptAll];
    [reflexivity|].
  destruct (accept strict ph pb); [apply IH | reflexivity].
Qed.

Lemma acceptAll_payload strict n a l : forall seen,
  Forall isPayload l ->
  acceptAll strict (InMdat n a seen) l
  = Some (InMdat n a (seen + payloadLen l)).
Proof.
  induction l as [|[p b] l IH]; intros seen Hl; cbn [acceptAll].
  - rewrite payloadLen_nil. do 2 f_equal. lia.
  - inversion Hl as [|? ? Hp Hl']; subst. unfold isPayload in Hp.
    cbn [fst] in Hp. subst p. cbn [accept].
    rewrite (IH _ Hl'). do 2 f_equal.
    change ((Payload, b) :: l) with ([(Payload, b)] ++ l).
    rewrite payloadLen_app, payloadLen_one. lia.
Qed.

Lemma accept_moof strict ph n track dtsOffset s frag :
  boundary strict ph n -> u32 n = n ->
  accept strict ph (Moof, moofFor track dtsOffset n s frag)
  = Some (AfterMoof (u32 (n + 1))).
Proof.
  intros Hph Hn. destruct Hph as [->|(a & seen & -> & Hwhole)];
    cbn [accept]; rewrite moofSequenceNumber_moofFor, Hn, Z.eqb_refl;
    [reflexivity|].
  now rewrite Hwhole.
Qed.

(** A run of the fragment loop is accepted by the reader of the stream.
    The strict reader is for runs that succeed on tracks whose mdat headers
    announce the sizes of the byte ranges. *)
Lemma fragmentRun_accepted strict track endTimeScaled dtsOffset
    seqNum sample r l :
  fragmentRun track endTimeScaled dtsOffset seqNum sample r l ->
  (strict = true ->
   r = Ok tt /\
   forall sample s frag,
     index (Samples track) sample = Ok s ->
     generateFragment track sample endTimeScaled = Ok frag ->
     u32 (8 + totalLen frag) = 8 + rangesLen (ranges frag)) ->
  u32 seqNum = seqNum ->
  forall ph, boundary strict ph seqNum ->
  exists ph', acceptAll strict ph l = Some ph' /\
              (r = Ok tt -> atBoundary strict ph' = true).
Proof.
  intros Hrun Hstrict.
  induction Hrun as [seqNum sample r
                    |seqNum sample s frag r payload tail Hs Hgen Hr Hpay Htail
                    |seqNum sample s frag r payload rest Hs Hgen Hne Hpay
                       Hlen Hrest IH];
    intros Hseq ph Hph.
  - exists ph. split; [reflexivity|]. intros _.
    destruct Hph as [->|(a & seen & -> & Hwhole)]; cbn [atBoundary]; auto.
  - cbn [acceptAll]. rewrite (accept_moof strict ph seqNum) by assumption.
    destruct Htail as [->| ->]; cbn [acceptAll accept].
    + eexists. split; [reflexivity|]. intros Hok. contradiction.
    + rewrite acceptAll_payload by assumption.
      eexists. split; [reflexivity|]. intros Hok. contradiction.
  - cbn [acceptAll]. rewrite (accept_moof strict ph seqNum) by assumption.
    cbn [accept]. rewrite acceptAll_app, acceptAll_payload by assumption.
    apply (IH Hstrict); [apply u32_u32|].
    right. do 2 eexists. split; [reflexivity|].
    unfold mdatWhole. destruct strict; [|reflexivity]. cbn [negb orb].
    apply Z.eqb_eq. destruct (Hstrict eq_refl) as [_ Hsize].
    rewrite boxSizeField_mdatHeader, (Hsize sample s frag Hs Hgen), Hlen.
    reflexivity.
Qed.

(** X8.  Whatever [WriteTo] or [WriteToFrom] hands to the sink, however
    it ends, is in stream order: the init segment first, then fragments of
    a moof, an mdat header and payload writes, the moofs numbered 1, 2,
    ... in their mfhd boxes; when it succeeds, the stream ends after the
    init segment or inside the mdat box of a fragment, never between a
    moof and its mdat header. *)
Theorem WriteTo_stream_order {W R : Type} `{io.Writer W}
    track startScaled endTime (st st' : stream W R) r :
  (exists HR : io.ReadSeeker R,
      WriteTo track startScaled endTime st = (st', r)) \/
  (exists HA : io.ReaderAt R,
      WriteToFrom track startScaled endTime st = (st', r)) ->
  emitted st = [] ->
  exists ph, acceptAll false AtStart (emitted st') = Some ph /\
             (r = Ok tt -> atBoundary false ph = true).
Proof.
  intros Hrun Hst.
  destruct (stream_runs track startScaled endTime st st' r Hrun Hst)
    as [[-> Hr]|(firstSample & dtsOffset & endTimeScaled & l & _ & -> & Hl)].
  - exists AtStart. split; [reflexivity|]. intros Hok. contradiction.
  - cbn [acceptAll accept].
    apply (fragmentRun_accepted false _ _ _ _ _ _ _ Hl);
      [discriminate | reflexivity | now left].
Qed.

Lemma WriteTo_stream_order_witness :
  exists ph,
    acceptAll false AtStart
      (emitted (fst (WriteTo demoTrack 0 None demoStream))) = Some ph /\
    (snd (WriteTo demoTrack 0 None demoStream) = Ok tt ->
     atBoundary false ph = true).
Proof.
  apply (WriteTo_stream_order demoTrack 0 None demoStream
           (fst (WriteTo demoTrack 0 None demoStream))
           (snd (WriteTo demoTrack 0 None demoStream))).
  - left. exists memReadSeeker.
    destruct (WriteTo demoTrack 0 None demoStream). reflexivity.
  - reflexivity.
Defined.

(** ** The mdat boxes of the stream *)

Lemma totalSize_cons s l : totalSize (s :: l) = Size s + totalSize l.
Proof. reflexivity. Qed.

Lemma totalSize_app l1 l2 :
  totalSize (l1 ++ l2) = totalSize l1 + totalSize l2.
Proof.
  induction l1 as [|s l1 IH]; [reflexivity|].
  cbn [app]. rewrite !totalSize_cons, IH. lia.
Qed.

Lemma totalSize_nonneg l :
  (forall s, In s l -> 0 <= Size s) -> 0 <= totalSize l.
Proof.
  induction l as [|s l IH]; intros Hl; [reflexivity|].
  rewrite totalSize_cons.
  pose proof (Hl s (or_introl eq_refl)).
  pose proof (IH (fun x Hx => Hl x (or_intror Hx))). lia.
Qed.

Lemma totalSize_firstn l k :
  (forall s, In s l -> 0 <= Size s) ->
  0 <= totalSize (firstn k l) <= totalSize l.
Proof.
  intros Hl. pose proof (firstn_skipn k l) as Hsplit.
  assert (forall s, In s (firstn k l) -> 0 <= Size s) as Ha.
  { intros s Hs. apply Hl. rewrite <- Hsplit. apply in_or_app. auto. }
  assert (forall s, In s (skipn k l) -> 0 <= Size s) as Hb.
  { intros s Hs. apply Hl. rewrite <- Hsplit. apply in_or_app. auto. }
  apply (f_equal totalSize) in Hsplit. rewrite totalSize_app in Hsplit.
  pose proof (totalSize_nonneg _ Ha). pose proof (totalSize_nonneg _ Hb).
  lia.
Qed.

Lemma totalSize_skipn l k :
  (forall s, In s l -> 0 <= Size s) ->
  0 <= totalSize (skipn k l) <= totalSize l.
Proof.
  intros Hl. pose proof (firstn_skipn k l) as Hsplit.
  assert (forall s, In s (firstn k l) -> 0 <= Size s) as Ha.
  { intros s Hs. apply Hl. rewrite <- Hsplit. apply in_or_app. auto. }
  assert (forall s, In s (skipn k l) -> 0 <= Size s) as Hb.
  { intros s Hs. apply Hl. rewrite <- Hsplit. apply in_or_app. auto. }
  apply (f_equal totalSize) in Hsplit. rewrite totalSize_app in Hsplit.
  pose proof (totalSize_nonneg _ Ha). pose proof (totalSize_nonneg _ Hb).
  lia.
Qed.

Lemma totalSize_slice l i j :
  (forall s, In s l -> 0 <= Size s) ->
  0 <= totalSize (slice l i j) <= totalSize l.
Proof.
  intros Hl. unfold slice.
  pose proof (totalSize_skipn l (Z.to_nat i) Hl) as Hskip.
  assert (forall s, In s (skipn (Z.to_nat i) l) -> 0 <= Size s) as Hrest.
  { intros s Hs. apply Hl. rewrite <- (firstn_skipn (Z.to_nat i) l).
    apply in_or_app. auto. }
  pose proof (totalSize_firstn _ (Z.to_nat (j - i)) Hrest). lia.
Qed.

Lemma len_sampleSpans l :
  (forall s, In s l -> 0 <= Size s) ->
  len (flat_map sampleSpan l) = totalSize l.
Proof.
  induction l as [|s l IH]; intros Hl; [reflexivity|].
  cbn [flat_map]. rewrite totalSize_cons.
  pose proof (len_span (Offset s) (Offset s + Size s)
                ltac:(pose proof (Hl s (or_introl eq_refl)); lia)) as Hs.
  specialize (IH (fun x Hx => Hl x (or_intror Hx))).
  unfold len in *. rewrite length_app.
  change (sampleSpan s) with (span (Offset s) (Offset s + Size s)). lia.
Qed.

Lemma fold_sizes_total l : forall acc,
  0 <= acc ->
  (forall s, In s l -> 0 <= Size s) ->
  acc + totalSize l < 2 ^ 63 ->
  fold_left (fun acc s => i64 (acc + Size s)) l acc = acc + totalSize l.
Proof.
  induction l as [|s l IH]; intros acc Hacc Hl Hsum;
    [cbn; lia|].
  cbn [fold_left]. rewrite totalSize_cons in *.
  pose proof (Hl s (or_introl eq_refl)).
  pose proof (totalSize_nonneg l (fun x Hx => Hl x (or_intror Hx))).
  rewrite i64_id by lia.
  rewrite IH; [lia | lia | intros; apply Hl; now right | lia].
Qed.

Lemma rangesLen_spans rs :
  Forall (fun r => Start r <= End_ r) rs ->
  len (flat_map rangeSpan rs) < 2 ^ 63 ->
  rangesLen rs = len (flat_map rangeSpan rs).
Proof.
  induction rs as [|r rs IH]; intros Hrs Hlen; [reflexivity|].
  inversion Hrs as [|? ? Hr Hrs']; subst.
  rewrite rangesLen_cons. cbn [flat_map] in *.
  pose proof (len_span (Start r) (End_ r) Hr) as Hspan.
  pose proof (len_nonneg (flat_map rangeSpan rs)) as Hrest.
  unfold len in *. rewrite length_app in *.
  change (rangeSpan r) with (span (Start r) (End_ r)) in *.
  rewrite IH by (assumption || lia).
  unfold rangeLen. rewrite i64_id by lia. lia.
Qed.

(** On a track whose sample data does not wrap around and counts fewer
    than 2^32 - 8 bytes, the mdat header of every fragment announces the
    bytes of its byte ranges and itself. *)
Lemma fragment_mdat_size track sample endTimeScaled s frag :
  (forall s, In s (Samples track) ->
     0 <= Size s /\ - 2 ^ 63 <= Offset s /\ Offset s + Size s < 2 ^ 63) ->
  8 + totalSize (Samples track) < 2 ^ 32 ->
  index (Samples track) sample = Ok s ->
  generateFragment track sample endTimeScaled = Ok frag ->
  u32 (8 + totalLen frag) = 8 + rangesLen (ranges frag).
Proof.
  intros Hsamples Htotal Hs Hgen.
  pose proof (index_Ok _ _ _ Hs) as [Hrange _].
  destruct (generateFragment_ranges track sample endTimeScaled frag
              Hrange Hgen) as [Hr Ht].
  set (selected := slice (Samples track) sample (nextSample frag)) in *.
  assert (forall x, In x selected -> In x (Samples track)) as Hsel
    by (intros x; apply In_slice).
  assert (forall x, In x selected -> 0 <= Size x) as Hsizes.
  { intros x Hx. apply (Hsamples x (Hsel x Hx)). }
  pose proof (totalSize_slice (Samples track) sample (nextSample frag)
                (fun x Hx => proj1 (Hsamples x Hx))) as Hbound.
  fold selected in Hbound.
  destruct (fold_addRange_span selected [] ltac:(constructor)) as [Hall Heq].
  { intros x Hx. destruct (Hsamples x (Hsel x Hx)) as (? & ? & ?).
    split; [lia|]. apply i64_id. lia. }
  rewrite <- Hr in Hall, Heq. cbn [flat_map app] in Heq.
  rewrite Ht, fold_sizes_total by (assumption || lia).
  rewrite rangesLen_spans, Heq, len_sampleSpans by
    (try assumption; rewrite ?Heq, ?len_sampleSpans by assumption; lia).
  apply u32_id. lia.
Qed.

(** X9.  On a track whose sample data does not wrap around and counts
    fewer than 2^32 - 8 bytes, a stream that [WriteTo] or [WriteToFrom]
    writes with success holds whole mdat boxes: behind every mdat header
    come exactly as many payload bytes as the size field of the header
    announces beyond the 8 bytes of the header. *)
Theorem WriteTo_mdat_boxes_whole {W R : Type} `{io.Writer W}
    track startScaled endTime (st st' : stream W R) :
  (exists HR : io.ReadSeeker R,
      WriteTo track startScaled endTime st = (st', Ok tt)) \/
  (exists HA : io.ReaderAt R,
      WriteToFrom track startScaled endTime st = (st', Ok tt)) ->
  emitted st = [] ->
  (forall s, In s (Samples track) ->
     0 <= Size s /\ - 2 ^ 63 <= Offset s /\ Offset s + Size s < 2 ^ 63) ->
  8 + totalSize (Samples track) < 2 ^ 32 ->
  exists ph, acceptAll true AtStart (emitted st') = Some ph /\
             atBoundary true ph = true.
Proof.
  intros Hrun Hst Hsamples Htotal.
  destruct (stream_runs track startScaled endTime st st' (Ok tt) Hrun Hst)
    as [[_ Hr]|(firstSample & dtsOffset & endTimeScaled & l & _ & -> & Hl)];
    [contradiction|].
  cbn [acceptAll accept].
  destruct (fragmentRun_accepted true _ _ _ _ _ _ _ Hl) with
    (ph := AfterInit 1) as (ph & Hph & Hend);
    [ | reflexivity | now left | eauto].
  intros _. split; [reflexivity|]. intros sample s frag Hs Hgen.
  exact (fragment_mdat_size track sample endTimeScaled s frag
           Hsamples Htotal Hs Hgen).
Qed.

Lemma WriteTo_mdat_boxes_whole_witness :
  exists ph,
    acceptAll true AtStart
      (emitted (fst (WriteTo demoTrack 0 None demoStream))) = Some ph /\
    atBoundary true ph = true.
Proof.
  apply (WriteTo_mdat_boxes_whole demoTrack 0 None demoStream
           (fst (WriteTo demoTrack 0 None demoStream))).
  - left. exists memReadSeeker. vm_compute. reflexivity.
  - reflexivity.
  - intros s Hs. cbn in Hs.
    repeat (destruct Hs as [<-|Hs]; [cbn; lia|]). destruct Hs.
  - vm_compute. reflexivity.
Defined.

(** * The box codec *)

(** ** Buffers *)

Lemma len_app {A} (l1 l2 : list A) : len (l1 ++ l2) = len l1 + len l2.
Proof. unfold len. rewrite length_app. lia. Qed.

Lemma len_cons {A} (a : A) (l : list A) : len (a :: l) = 1 + len l.
Proof. unfold len. cbn [List.length]. lia. Qed.

Lemma len_repeat {A} (a : A) n : len (repeat a n) = Z.of_nat n.
Proof. unfold len. now rewrite repeat_length. Qed.

Lemma len_store {A} (b : list A) off p :
  0 <= off -> off + len p <= len b -> len (store b off p) = len b.
Proof.
  intros H0 H1. unfold store, len in *.
  rewrite !length_app, length_firstn, length_skipn. lia.
Qed.

Lemma store_nil {A} (b : list A) off : store b off [] = b.
Proof.
  unfold store. cbn [List.length app]. rewrite Nat.add_0_r.
  apply firstn_skipn.
Qed.

(** Two stores side by side are one store. *)
Lemma store_store_app {A} (b : list A) off x y :
  0 <= off -> off + len x + len y <= len b ->
  store (store b off x) (off + len x) y = store b off (x ++ y).
Proof.
  intros H0 H1. unfold store, len in *.
  assert (List.length (firstn (Z.to_nat off) b) = Z.to_nat off) as Hf
    by (rewrite length_firstn; lia).
  replace (Z.to_nat (off + Z.of_nat (List.length x)))
    with (Z.to_nat off + List.length x)%nat by lia.
  rewrite (app_assoc (firstn (Z.to_nat off) b) x).
  rewrite firstn_app.
  rewrite firstn_all2 by (rewrite length_app; lia).
  rewrite length_app, Hf.
  replace (Z.to_nat off + List.length x - (Z.to_nat off + List.length x))%nat
    with 0%nat by lia.
  cbn [firstn]. rewrite app_nil_r.
  rewrite skipn_app.
  rewrite (skipn_all2 (firstn (Z.to_nat off) b ++ x))
    by (rewrite length_app; lia).
  rewrite length_app, Hf.
  replace (Z.to_nat off + List.length x + List.length y
           - (Z.to_nat off + List.length x))%nat
    with (List.length y) by lia.
  rewrite skipn_skipn, length_app.
  rewrite <- !app_assoc. cbn [app]. do 4 f_equal. lia.
Qed.

(** A store over the front of an earlier store. *)
Lemma store_overwrite {A} (b : list A) off x x' y :
  0 <= off -> off + len x + len y <= len b -> len x' = len x ->
  store (store b off (x ++ y)) off x' = store b off (x' ++ y).
Proof.
  intros H0 H1 Hx. unfold store, len in *.
  assert (List.length (firstn (Z.to_nat off) b) = Z.to_nat off) as Hf
    by (rewrite length_firstn; lia).
  rewrite firstn_app, Hf, Nat.sub_diag. cbn [firstn]. rewrite app_nil_r.
  rewrite firstn_all2 by lia.
  rewrite skipn_app, Hf.
  rewrite (skipn_all2 (firstn (Z.to_nat off) b)) by lia.
  replace (Z.to_nat off + List.length x' - Z.to_nat off)%nat
    with (List.length x') by lia.
  cbn [app]. rewrite <- app_assoc.
  rewrite skipn_app.
  rewrite (skipn_all2 x) by lia.
  replace (List.length x' - List.length x)%nat with 0%nat by lia.
  cbn [app skipn]. rewrite !length_app. rewrite <- !app_assoc.
  do 4 f_equal. lia.
Qed.

Lemma slice_store_front {A} (b : list A) off p :
  0 <= off -> off + len p <= len b ->
  slice (store b off p) 0 (off + len p) = firstn (Z.to_nat off) b ++ p.
Proof.
  intros H0 H1. unfold slice, store, len in *. cbn [skipn Z.to_nat].
  replace (Z.to_nat (off + Z.of_nat (List.length p) - 0))
    with (Z.to_nat off + List.length p)%nat by lia.
  rewrite app_assoc, firstn_app.
  rewrite firstn_all2 by (rewrite length_app, length_firstn; lia).
  rewrite length_app, length_firstn.
  replace (Z.to_nat off + List.length p
           - (Init.Nat.min (Z.to_nat off) (List.length b) + List.length p))%nat
    with 0%nat by lia.
  cbn [firstn]. now rewrite app_nil_r.
Qed.

(** ** The writer: what a method appends *)

Lemma seq_cons m ms w : bmff.seq (m :: ms) w = bind (m w) (bmff.seq ms).
Proof.
  unfold bmff.seq. cbn [fold_left bind].
  destruct (m w) as [w1|e|]; cbn [bind]; [reflexivity| |].
  - induction ms as [|m' ms IH]; [reflexivity | exact IH].
  - induction ms as [|m' ms IH]; [reflexivity | exact IH].
Qed.

Lemma seq_nil w : bmff.seq [] w = Ok w.
Proof. reflexivity. Qed.

Lemma seq_one m w : bmff.seq [m] w = m w.
Proof. reflexivity. Qed.

Lemma seq_app l1 l2 w :
  bmff.seq (l1 ++ l2) w = bind (bmff.seq l1 w) (bmff.seq l2).
Proof.
  revert w. induction l1 as [|m l1 IH]; intros w; cbn [app].
  - reflexivity.
  - rewrite !seq_cons. destruct (m w) as [w1|e|]; cbn [bind];
      [apply IH | reflexivity | reflexivity].
Qed.

Lemma appends_weaken k k' m c :
  appends k m c -> k <= k' -> appends k' m c.
Proof.
  intros Hm Hk w (H0 & H1 & H2 & H3 & H4). apply Hm.
  unfold ready. repeat split; try assumption; lia.
Qed.

Lemma appends_put p : appends 0 (bmff.put p) p.
Proof.
  intros w (H0 & H1 & H2 & H3 & H4). unfold bmff.put, bmff.storeAt.
  replace ((0 <=? bmff.wpos w)
           && (bmff.wpos w + len p <=? len (bmff.buf w))) with true
    by (symmetry; apply andb_true_iff; split; apply Z.leb_le; lia).
  cbn [bind]. eexists. split; [reflexivity|]. cbn.
  repeat split; auto.
Qed.

Lemma appends_putUint8 v : appends 0 (bmff.putUint8 v) [v].
Proof. apply appends_put. Qed.

Lemma appends_putUint16 v : appends 0 (bmff.putUint16 v) (PutUint16 v).
Proof. apply appends_put. Qed.

Lemma appends_putUint32 v : appends 0 (bmff.putUint32 v) (PutUint32 v).
Proof. apply appends_put. Qed.

Lemma appends_putUint64 v : appends 0 (bmff.putUint64 v) (PutUint64 v).
Proof. apply appends_put. Qed.

Lemma appends_putInt32 v :
  appends 0 (bmff.putInt32 v) (PutUint32 (u32 v)).
Proof. apply appends_put. Qed.

Lemma appends_putZeros n :
  0 <= n -> appends 0 (bmff.putZeros n) (repeat 0 (Z.to_nat n)).
Proof.
  intros Hn w Hw. unfold bmff.putZeros.
  destruct (n <? 0) eqn:E; zbool; [lia|]. now apply appends_put.
Qed.

Lemma appends_putBytes p : appends 0 (bmff.putBytes p) p.
Proof.
  intros w (H0 & H1 & H2 & H3 & H4). unfold bmff.putBytes.
  pose proof (len_nonneg p) as Hp.
  replace ((0 <=? bmff.wpos w) && (bmff.wpos w <=? len (bmff.buf w)))
    with true
    by (symmetry; apply andb_true_iff; split; apply Z.leb_le; lia).
  rewrite firstn_all2 by (unfold len in *; lia).
  eexists. split; [reflexivity|]. cbn. repeat split; auto.
Qed.

Lemma appends_seq_nil : appends 0 (bmff.seq []) [].
Proof.
  intros w Hw. exists w. rewrite seq_nil, store_nil.
  change (len (@nil Z)) with 0. repeat split; auto; try lia.
  apply Hw.
Qed.

Lemma appends_seq_cons k m ms c1 c2 :
  appends k m c1 -> appends k (bmff.seq ms) c2 ->
  appends k (bmff.seq (m :: ms)) (c1 ++ c2).
Proof.
  intros Hm Hms w (H0 & H1 & H2 & H3 & H4).
  rewrite len_app in H1.
  pose proof (len_nonneg c1). pose proof (len_nonneg c2).
  destruct (Hm w) as (w1 & Hw1 & Hb1 & Hp1 & Hd1 & Hs1 & Hf1).
  { unfold ready. repeat split; try assumption; lia. }
  destruct (Hms w1) as (w2 & Hw2 & Hb2 & Hp2 & Hd2 & Hs2 & Hf2).
  { unfold ready. rewrite Hb1, Hp1, Hd1, len_store by lia.
    repeat split; try assumption; lia. }
  exists w2. rewrite seq_cons, Hw1. cbn [bind].
  split; [exact Hw2|].
  rewrite Hb2, Hb1, Hp1, store_store_app by lia.
  rewrite Hp2, Hp1, Hd2, Hd1, len_app.
  repeat split; try assumption; try lia.
  rewrite Hd1 in Hf2. congruence.
Qed.

Lemma appends_seq_app k l1 l2 c1 c2 :
  appends k (bmff.seq l1) c1 -> appends k (bmff.seq l2) c2 ->
  appends k (bmff.seq (l1 ++ l2)) (c1 ++ c2).
Proof.
  intros H1 H2 w (H0 & Hr & Hd & Hk & Hs).
  rewrite len_app in Hr.
  pose proof (len_nonneg c1). pose proof (len_nonneg c2).
  destruct (H1 w) as (w1 & Hw1 & Hb1 & Hp1 & Hd1 & Hs1 & Hf1).
  { unfold ready. repeat split; try assumption; lia. }
  destruct (H2 w1) as (w2 & Hw2 & Hb2 & Hp2 & Hd2 & Hs2 & Hf2).
  { unfold ready. rewrite Hb1, Hp1, Hd1, len_store by lia.
    repeat split; try assumption; lia. }
  exists w2. rewrite seq_app, Hw1. cbn [bind].
  split; [exact Hw2|].
  rewrite Hb2, Hb1, Hp1, store_store_app by lia.
  rewrite Hp2, Hp1, Hd2, Hd1, len_app.
  repeat split; try assumption; try lia.
  rewrite Hd1 in Hf2. congruence.
Qed.

Lemma appends_seq_one k m c : appends k m c -> appends k (bmff.seq [m]) c.
Proof.
  intros Hm w Hw. destruct (Hm w Hw) as (w1 & Hw1 & Hrest).
  exists w1. rewrite seq_one. auto.
Qed.

Lemma appends_seq_map {A} k (f : A -> bmff.method) (enc : A -> list Z) es :
  (forall e, appends k (f e) (enc e)) ->
  0 <= k ->
  appends k (bmff.seq (map f es)) (flat_map enc es).
Proof.
  intros Hf Hk. induction es as [|e es IH]; cbn [map flat_map].
  - apply (appends_weaken 0); [apply appends_seq_nil | exact Hk].
  - apply appends_seq_cons; [apply Hf | exact IH].
Qed.

Lemma firstn_store_before {A} (l : list A) n a :
  (n < List.length l)%nat ->
  firstn n (store l (Z.of_nat n) [a]) = firstn n l.
Proof.
  intros Hn. unfold store. rewrite Nat2Z.id.
  rewrite firstn_app, firstn_firstn, Nat.min_id, length_firstn.
  rewrite Nat.min_l, Nat.sub_diag by lia. cbn [firstn].
  now rewrite app_nil_r.
Qed.

Lemma nth_error_store_at {A} (l : list A) n a :
  (n < List.length l)%nat ->
  nth_error (store l (Z.of_nat n) [a]) n = Some a.
Proof.
  intros Hn. unfold store. rewrite Nat2Z.id.
  rewrite nth_error_app2 by (rewrite length_firstn; lia).
  rewrite length_firstn, Nat.min_l, Nat.sub_diag by lia. reflexivity.
Qed.

Lemma firstn_store_frame {A} (l : list A) d a :
  0 <= d < len l ->
  firstn (Z.to_nat d) (store l d [a]) = firstn (Z.to_nat d) l /\
  nth_error (store l d [a]) (Z.to_nat d) = Some a.
Proof.
  intros Hd. unfold len in Hd.
  rewrite <- (Z2Nat.id d) at 2 4 by lia.
  split; [apply firstn_store_before | apply nth_error_store_at]; lia.
Qed.

Lemma firstn_S_inv {A} (l1 l2 : list A) n :
  firstn (S n) l1 = firstn (S n) l2 ->
  firstn n l1 = firstn n l2 /\ nth_error l1 n = nth_error l2 n.
Proof.
  revert l1 l2. induction n as [|n IH]; intros l1 l2 H.
  - destruct l1, l2; cbn in *; try discriminate; split; congruence.
  - destruct l1 as [|a l1], l2 as [|b l2]; try discriminate.
    + split; reflexivity.
    + cbn [firstn] in H. injection H as -> H.
      destruct (IH _ _ H) as [Hf Hn]. cbn [firstn nth_error].
      split; congruence.
Qed.

(** A box: [StartBox], the content, [EndBox].  The size field holds the
    size of the box as a 32-bit word. *)
Lemma appends_box k t body c :
  len t = 4 -> 0 <= k ->
  appends k (bmff.seq body) c ->
  appends (k + 1) (bmff.seq (bmff.StartBox t :: body ++ [bmff.EndBox]))
    (boxBytes t c).
Proof.
  intros Ht Hk Hbody w (H0 & H1 & H2 & H3 & H4).
  unfold boxBytes in *. rewrite !len_app, len_PutUint32, Ht in H1.
  pose proof (len_nonneg c) as Hc.
  change bmff.maxDepth with 16 in *.
  (* StartBox *)
  set (w0 := {| bmff.buf := bmff.buf w; bmff.wpos := bmff.wpos w;
                bmff.stack := store (bmff.stack w) (bmff.depth w)
                                [bmff.wpos w];
                bmff.depth := bmff.depth w + 1 |}).
  assert (Z.to_nat (bmff.depth w) < List.length (bmff.stack w))%nat as Hd
    by (unfold len in H4; lia).
  assert (len (bmff.stack w0) = 16) as Hs0.
  { unfold w0. cbn [bmff.stack]. rewrite len_store; [exact H4|lia|].
    rewrite len_cons. change (len (@nil Z)) with 0. lia. }
  destruct (appends_seq_cons 0 (bmff.putUint32 0)
              [bmff.putBytes t] (PutUint32 0) t
              (appends_putUint32 0)
              (appends_seq_one 0 _ _ (appends_putBytes t)) w0)
    as (w1 & Hw1 & Hb1 & Hp1 & Hd1 & Hs1 & Hf1).
  { unfold ready. rewrite len_app, len_PutUint32, Ht.
    change bmff.maxDepth with 16. unfold w0 at 1 2 3 4 5.
    cbn [bmff.buf bmff.wpos bmff.depth].
    repeat split; try assumption; try lia. }
  cbn [bmff.buf bmff.wpos bmff.depth w0] in Hb1, Hp1, Hd1, Hf1.
  rewrite len_app, len_PutUint32, Ht in Hp1.
  (* the content *)
  destruct (Hbody w1) as (w2 & Hw2 & Hb2 & Hp2 & Hd2 & Hs2 & Hf2).
  { unfold ready. rewrite Hb1, Hp1, Hd1, len_store
      by (rewrite ?len_app, ?len_PutUint32, ?Ht; lia).
    change bmff.maxDepth with 16.
    repeat split; try assumption; lia. }
  rewrite Hd1 in Hf2, Hd2.
  (* the frame of the box *)
  replace (Z.to_nat (bmff.depth w + 1)) with (S (Z.to_nat (bmff.depth w)))
    in Hf1, Hf2 by lia.
  destruct (firstn_S_inv _ _ _ Hf1) as [Hpre1 Hnth1].
  destruct (firstn_S_inv _ _ _ Hf2) as [Hpre2 Hnth2].
  assert (nth_error (bmff.stack w2) (Z.to_nat (bmff.depth w))
          = Some (bmff.wpos w)) as Hframe.
  { rewrite Hnth2, Hnth1. unfold w0. cbn [bmff.stack].
    apply firstn_store_frame. lia. }
  assert (firstn (Z.to_nat (bmff.depth w)) (bmff.stack w2)
          = firstn (Z.to_nat (bmff.depth w)) (bmff.stack w)) as Hpre.
  { rewrite Hpre2, Hpre1. unfold w0. cbn [bmff.stack].
    apply firstn_store_frame. lia. }
  (* EndBox *)
  assert (len (bmff.buf w2) = len (bmff.buf w)) as Hlen2.
  { rewrite Hb2, Hb1, !len_store
      by (rewrite ?len_store, ?len_app, ?len_PutUint32, ?Ht;
          rewrite ?len_app, ?len_PutUint32, ?Ht; lia).
    reflexivity. }
  eexists. split.
  { rewrite seq_cons. unfold bmff.StartBox.
    replace ((0 <=? bmff.depth w) && (bmff.depth w <? bmff.maxDepth))
      with true
      by (symmetry; apply andb_true_iff; split;
          [apply Z.leb_le | apply Z.ltb_lt]; change bmff.maxDepth with 16;
          lia).
    fold w0. rewrite Hw1. cbn [bind].
    rewrite seq_app, Hw2. cbn [bind]. rewrite seq_one.
    unfold bmff.EndBox. rewrite Hd2.
    replace (bmff.depth w + 1 - 1) with (bmff.depth w) by lia.
    unfold index.
    destruct (bmff.depth w <? 0) eqn:E; zbool; [lia|].
    rewrite Hframe. cbn [bind]. unfold bmff.storeAt.
    rewrite len_PutUint32, Hlen2.
    replace ((0 <=? bmff.wpos w)
             && (bmff.wpos w + 4 <=? len (bmff.buf w))) with true
      by (symmetry; apply andb_true_iff; split; apply Z.leb_le; lia).
    cbn [bind]. reflexivity. }
  cbn [bmff.buf bmff.wpos bmff.depth bmff.stack].
  rewrite !len_app, len_PutUint32, Ht.
  split.
  { rewrite Hb2, Hb1, Hp2, !Hp1.
    replace (bmff.wpos w + (4 + 4))
      with (bmff.wpos w + len (PutUint32 0 ++ t))
      by (rewrite len_app, len_PutUint32, Ht; lia).
    rewrite store_store_app
      by (rewrite ?len_app, ?len_PutUint32, ?Ht; lia).
    rewrite <- app_assoc.
    rewrite store_overwrite
      by (rewrite ?len_app, ?len_PutUint32, ?Ht; lia || reflexivity).
    do 3 f_equal. rewrite len_app, len_PutUint32, Ht. f_equal. lia. }
  split; [lia|]. split; [reflexivity|]. split; [exact Hs2|exact Hpre].
Qed.

Lemma seq_seq l1 l2 w :
  bmff.seq (bmff.seq l1 :: l2) w = bmff.seq (l1 ++ l2) w.
Proof. now rewrite seq_cons, seq_app. Qed.

Lemma appends_ext k m m' c :
  (forall w, m w = m' w) -> appends k m c -> appends k m' c.
Proof.
  intros Heq Hm w Hw. destruct (Hm w Hw) as (w' & Hw' & Hrest).
  exists w'. rewrite <- Heq. auto.
Qed.

(** A full box: [StartFullBox], the content, [EndBox]. *)
Lemma appends_fullbox k t version flags body c :
  len t = 4 -> 0 <= k ->
  appends k (bmff.seq body) c ->
  appends (k + 1)
    (bmff.seq (bmff.StartFullBox t version flags :: body ++ [bmff.EndBox]))
    (fullBoxBytes t version flags c).
Proof.
  intros Ht Hk Hbody. unfold fullBoxBytes.
  apply (appends_ext _
           (bmff.seq (bmff.StartBox t
                      :: (bmff.putUint32 (versionFlags version flags) :: body)
                      ++ [bmff.EndBox]))).
  { intros w. unfold bmff.StartFullBox. now rewrite seq_seq. }
  apply appends_box; [exact Ht | exact Hk |].
  apply appends_seq_cons; [|exact Hbody].
  apply (appends_weaken 0); [apply appends_putUint32 | exact Hk].
Qed.

(** What a method appends is what a fresh writer holds after it. *)
Lemma appends_Bytes k m c b :
  appends k m c -> k <= bmff.maxDepth -> len c <= len b ->
  exists w, m (bmff.NewWriter b) = Ok w /\ bmff.Bytes w = c.
Proof.
  intros Hm Hk Hc.
  destruct (Hm (bmff.NewWriter b)) as (w & Hw & Hb & Hp & _).
  { unfold ready, bmff.NewWriter. cbn [bmff.wpos bmff.buf bmff.depth
                                       bmff.stack].
    rewrite len_repeat. change bmff.maxDepth with 16 in *.
    repeat split; lia. }
  exists w. split; [exact Hw|]. unfold bmff.Bytes.
  rewrite Hb, Hp. cbn [bmff.NewWriter bmff.wpos bmff.buf].
  rewrite slice_store_front by lia. reflexivity.
Qed.

Lemma u8_bit v n :
  0 <= n -> Z.testbit (u8 v) n = (n <? 8) && Z.testbit v n.
Proof. intros Hn. unfold u8. now rewrite Z.testbit_mod_pow2 by lia. Qed.

Lemma versionFlags_bit version flags n :
  0 <= n ->
  Z.testbit (versionFlags version flags) n
  = if n <? 24 then Z.testbit flags n
    else (n <? 32) && Z.testbit version (n - 24).
Proof.
  intros Hn. unfold versionFlags, u32.
  change 16777215 with (Z.ones 24).
  rewrite Z.lor_spec, Z.land_ones, !Z.testbit_mod_pow2 by lia.
  destruct (Z.ltb_spec n 24); destruct (Z.ltb_spec n 32); try lia;
    cbn [andb orb].
  - rewrite Z.shiftl_spec_low by lia. reflexivity.
  - rewrite Z.shiftl_spec by lia. now rewrite orb_false_r.
Qed.

Ltac byte_eq :=
  apply Z.bits_inj'; intros ?n ?Hn;
  rewrite !u8_bit, ?Z.shiftr_spec, ?versionFlags_bit by lia;
  repeat match goal with
         | |- context [?a <? ?b] => destruct (Z.ltb_spec a b); try lia
         end;
  cbn [andb]; try reflexivity; f_equal; lia.

Lemma PutUint32_versionFlags version flags :
  PutUint32 (versionFlags version flags)
  = [u8 version; u8 (Z.shiftr flags 16); u8 (Z.shiftr flags 8); u8 flags].
Proof.
  unfold PutUint32.
  f_equal; [byte_eq|]. f_equal; [byte_eq|]. f_equal; [byte_eq|].
  f_equal. byte_eq.
Qed.

(** X10.  A box written as [StartBox], content, [EndBox] is the 32-bit
    size of the whole box, the four bytes of its type and the content;
    written with [StartFullBox] the content is preceded by the version
    byte and the low 24 bits of the flags.  This holds wherever the buffer
    has room and fewer than 16 boxes are open, also inside other boxes. *)
Theorem Writer_box_framing k t version flags body c :
  len t = 4 -> 0 <= k ->
  appends k (bmff.seq body) c ->
  appends (k + 1) (bmff.seq (bmff.StartBox t :: body ++ [bmff.EndBox]))
    (PutUint32 (u32 (8 + len c)) ++ t ++ c) /\
  appends (k + 1)
    (bmff.seq (bmff.StartFullBox t version flags :: body ++ [bmff.EndBox]))
    (PutUint32 (u32 (12 + len c)) ++ t
     ++ [u8 version; u8 (Z.shiftr flags 16); u8 (Z.shiftr flags 8); u8 flags]
     ++ c).
Proof.
  intros Ht Hk Hbody. split.
  - now apply appends_box.
  - pose proof (appends_fullbox k t version flags body c Ht Hk Hbody) as Hf.
    unfold fullBoxBytes, boxBytes in Hf.
    rewrite len_app, len_PutUint32 in Hf.
    replace (8 + (4 + len c)) with (12 + len c) in Hf by lia.
    rewrite PutUint32_versionFlags in Hf. exact Hf.
Qed.

Lemma Writer_box_framing_witness :
  appends (0 + 1)
    (bmff.seq (bmff.StartBox bmff.TypeMfhd
               :: [bmff.putUint32 7] ++ [bmff.EndBox]))
    (PutUint32 (u32 (8 + len (PutUint32 7))) ++ bmff.TypeMfhd
     ++ PutUint32 7) /\
  appends (0 + 1)
    (bmff.seq (bmff.StartFullBox bmff.TypeMfhd 0 0
               :: [bmff.putUint32 7] ++ [bmff.EndBox]))
    (PutUint32 (u32 (12 + len (PutUint32 7))) ++ bmff.TypeMfhd
     ++ [u8 0; u8 (Z.shiftr 0 16); u8 (Z.shiftr 0 8); u8 0]
     ++ PutUint32 7).
Proof.
  apply (Writer_box_framing 0 bmff.TypeMfhd 0 0 [bmff.putUint32 7]
           (PutUint32 7)).
  - reflexivity.
  - lia.
  - apply appends_seq_one, appends_putUint32.
Defined.

(** ** Reading from a buffer *)

Lemma from_app pre x lo :
  lo = len pre -> bmff.from (pre ++ x) lo = Ok x.
Proof.
  intros ->. unfold bmff.from. pose proof (len_nonneg pre).
  rewrite len_app. pose proof (len_nonneg x).
  replace ((0 <=? len pre) && (len pre <=? len pre + len x)) with true
    by (symmetry; apply andb_true_iff; split; apply Z.leb_le; lia).
  unfold len. rewrite Nat2Z.id, skipn_app, skipn_all, Nat.sub_diag.
  reflexivity.
Qed.

Lemma sub_app pre x post lo hi :
  lo = len pre -> hi = lo + len x ->
  bmff.sub (pre ++ x ++ post) lo hi = Ok x.
Proof.
  intros -> ->. unfold bmff.sub. pose proof (len_nonneg pre).
  rewrite !len_app. pose proof (len_nonneg x). pose proof (len_nonneg post).
  replace ((0 <=? len pre) && (len pre <=? len pre + len x)
           && (len pre + len x <=? len pre + (len x + len post)))
    with true
    by (symmetry; repeat (apply andb_true_iff; split); apply Z.leb_le; lia).
  unfold slice, len.
  replace (Z.to_nat (Z.of_nat (List.length pre) + Z.of_nat (List.length x)
                     - Z.of_nat (List.length pre)))
    with (List.length x) by lia.
  rewrite Nat2Z.id, skipn_app, skipn_all, Nat.sub_diag. cbn [skipn app].
  rewrite firstn_app, firstn_all, Nat.sub_diag. cbn [firstn].
  now rewrite app_nil_r.
Qed.

Lemma Uint32_PutUint32_app v rest :
  Uint32 (PutUint32 v ++ rest) = u32 v.
Proof. rewrite <- Uint32_PutUint32. reflexivity. Qed.

Lemma beUint32_PutUint32_app v rest :
  bmff.beUint32 (PutUint32 v ++ rest) = Ok (u32 v).
Proof.
  unfold bmff.beUint32. rewrite len_app, len_PutUint32.
  pose proof (len_nonneg rest).
  destruct (4 + len rest <? 4) eqn:E; zbool; [lia|].
  now rewrite Uint32_PutUint32_app.
Qed.

(** Decides the comparisons in the goal from the hypotheses. *)
Ltac zdecide :=
  repeat match goal with
         | |- context [?a <=? ?b] =>
             first [ rewrite (proj2 (Z.leb_le a b)) by lia
                   | rewrite (proj2 (Z.leb_gt a b)) by lia ]
         | |- context [?a <? ?b] =>
             first [ rewrite (proj2 (Z.ltb_lt a b)) by lia
                   | rewrite (proj2 (Z.ltb_ge a b)) by lia ]
         end;
  cbn [andb orb negb].

Lemma Uint16_PutUint16 v : bmff.Uint16 (PutUint16 v) = u16 v.
Proof.
  unfold bmff.Uint16, PutUint16, byteAt. cbn [nth].
  apply Z.bits_inj'. intros n Hn.
  rewrite !Z.lor_spec, !shifted_byte_bit, low_byte_bit by lia.
  unfold u16. rewrite Z.testbit_mod_pow2 by lia.
  destruct (Z.testbit v n); rewrite ?andb_true_r, ?andb_false_r;
    [|reflexivity].
  assert (n < 8 \/ 8 <= n < 16 \/ 16 <= n) as [H|[H|H]] by lia;
    zdecide; reflexivity.
Qed.

Lemma Uint64_PutUint64 v : Uint64 (PutUint64 v) = u64 v.
Proof.
  unfold Uint64, PutUint64, byteAt. cbn [nth].
  apply Z.bits_inj'. intros n Hn.
  rewrite !Z.lor_spec, !shifted_byte_bit, low_byte_bit by lia.
  unfold u64. rewrite Z.testbit_mod_pow2 by lia.
  destruct (Z.testbit v n); rewrite ?andb_true_r, ?andb_false_r;
    [|reflexivity].
  assert (n < 8 \/ 8 <= n < 16 \/ 16 <= n < 24 \/ 24 <= n < 32 \/
          32 <= n < 40 \/ 40 <= n < 48 \/ 48 <= n < 56 \/
          56 <= n < 64 \/ 64 <= n) as Hcases by lia.
  repeat (destruct Hcases as [H|Hcases]; [zdecide; reflexivity|]).
  zdecide; reflexivity.
Qed.

Lemma len_PutUint16 v : len (PutUint16 v) = 2.
Proof. reflexivity. Qed.

Lemma len_PutUint64 v : len (PutUint64 v) = 8.
Proof. reflexivity. Qed.

Lemma beUint16_PutUint16_app v rest :
  bmff.beUint16 (PutUint16 v ++ rest) = Ok (u16 v).
Proof.
  unfold bmff.beUint16. rewrite len_app, len_PutUint16.
  pose proof (len_nonneg rest).
  destruct (2 + len rest <? 2) eqn:E; zbool; [lia|].
  rewrite <- Uint16_PutUint16. reflexivity.
Qed.

Lemma beUint64_PutUint64_app v rest :
  bmff.beUint64 (PutUint64 v ++ rest) = Ok (u64 v).
Proof.
  unfold bmff.beUint64. rewrite len_app, len_PutUint64.
  pose proof (len_nonneg rest).
  destruct (8 + len rest <? 8) eqn:E; zbool; [lia|].
  rewrite <- Uint64_PutUint64. reflexivity.
Qed.

(** ** The reader on a well-formed box *)

Lemma Next_reads_header (r : bmff.reader.Reader) pre t body post :
  bmff.reader.buf r = pre ++ boxBytes t body ++ post ->
  Z.max (bmff.reader.pos r) (bmff.reader.boxEnd r) = len pre ->
  len pre + 8 + len body <= bmff.reader.end_ r ->
  bmff.reader.end_ r <= len (bmff.reader.buf r) ->
  len (bmff.reader.buf r) < 2 ^ 63 ->
  len t = 4 -> 8 + len body < 2 ^ 32 ->
  bmff.reader.Next r =
    let r1 := bmff.reader.withBox
                (bmff.reader.withBoxType
                   (bmff.reader.withBoxStart
                      (bmff.reader.withPos r (len pre)) (len pre)) t)
                (8 + len body) (len pre + 8 + len body) in
    let ptr := len pre + 8 in
    if bmff.IsFullBox t then
      if i64 (bmff.reader.boxEnd r1 - ptr) <? 4 then Ok (r1, false)
      else
        vf <- bmff.uint32From (bmff.reader.buf r1) ptr ;;
        Ok (bmff.reader.withData r1 (u8 (Z.shiftr vf 24))
              (Z.land vf 16777215) (i64 (ptr + 4)), true)
    else Ok (bmff.reader.withData r1 0 0 ptr, true).
Proof.
  intros Hbuf Hpos Hend Hcap Hlen Ht Hsize.
  pose proof (len_nonneg pre) as Hpre. pose proof (len_nonneg body) as Hbody.
  pose proof (len_nonneg post) as Hpost.
  destruct r as [b p e bt bs bst be ds v f st d].
  cbn [bmff.reader.buf bmff.reader.pos bmff.reader.boxEnd bmff.reader.end_]
    in *.
  assert (len b = len pre + (8 + len body) + len post) as Hb.
  { rewrite Hbuf. unfold boxBytes.
    rewrite !len_app, len_PutUint32, Ht. lia. }
  assert (bmff.uint32From b (len pre) = Ok (8 + len body)) as Hsz.
  { unfold bmff.uint32From. rewrite Hbuf, from_app by reflexivity.
    cbn [bind]. unfold boxBytes. rewrite <- !app_assoc.
    rewrite beUint32_PutUint32_app.
    now rewrite !(u32_id (8 + len body)) by lia. }
  assert (bmff.sub b (len pre + 4) (len pre + 8) = Ok t) as Hty.
  { rewrite Hbuf. unfold boxBytes.
    replace (pre ++ (PutUint32 (u32 (8 + len body)) ++ t ++ body) ++ post)
      with ((pre ++ PutUint32 (u32 (8 + len body))) ++ t ++ (body ++ post))
      by (now rewrite <- !app_assoc).
    apply sub_app; rewrite ?len_app, ?len_PutUint32; lia. }
  clear Hbuf.
  set (r0 := {| bmff.reader.buf := b; bmff.reader.pos := p;
                bmff.reader.end_ := e; bmff.reader.boxType := bt;
                bmff.reader.boxSize := bs; bmff.reader.boxStart := bst;
                bmff.reader.boxEnd := be; bmff.reader.dataStart := ds;
                bmff.reader.version := v; bmff.reader.flags := f;
                bmff.reader.stack := st; bmff.reader.depth := d |}).
  unfold bmff.reader.Next. cbv zeta.
  (* Skip past current box *)
  assert ((if bmff.reader.boxEnd r0 >? bmff.reader.pos r0
           then bmff.reader.withPos r0 (bmff.reader.boxEnd r0) else r0)
          = bmff.reader.withPos r0 (len pre)) as ->.
  { unfold r0. cbn [bmff.reader.boxEnd bmff.reader.pos].
    destruct (be >? p) eqn:E; zbool; unfold bmff.reader.withPos;
      cbn; f_equal; lia. }
  unfold bmff.reader.withBox, bmff.reader.withBoxType,
    bmff.reader.withBoxStart, bmff.reader.withPos, r0.
  cbn [bmff.reader.buf bmff.reader.pos bmff.reader.boxEnd bmff.reader.end_
       bmff.reader.boxType bmff.reader.boxSize bmff.reader.boxStart
       bmff.reader.dataStart bmff.reader.version bmff.reader.flags
       bmff.reader.stack bmff.reader.depth].
  rewrite (i64_id (e - len pre)) by lia.
  destruct (e - len pre <? 8) eqn:E8; zbool; [lia|].
  rewrite Hsz. cbn [bind].
  rewrite (i64_id (len pre + 4)), (i64_id (len pre + 8)) by lia.
  rewrite Hty. cbn [bind].
  destruct (8 + len body =? 1) eqn:E1; zbool; [lia|]. cbn [bind].
  destruct (8 + len body =? 0) eqn:E0; zbool; [lia|].
  cbn [bmff.reader.buf bmff.reader.pos bmff.reader.boxEnd bmff.reader.end_
       bmff.reader.boxType bmff.reader.boxSize bmff.reader.boxStart
       bmff.reader.dataStart bmff.reader.version bmff.reader.flags
       bmff.reader.stack bmff.reader.depth].
  rewrite (i64_id (8 + len body)) by lia.
  rewrite (i64_id (len pre + (8 + len body))) by lia.
  destruct (len pre + (8 + len body) >? e) eqn:Ee; zbool; [lia|].
  replace (len pre + 8 + len body) with (len pre + (8 + len body)) by lia.
  reflexivity.
Qed.

Lemma versionFlags_range version flags :
  0 <= versionFlags version flags < 2 ^ 32.
Proof.
  assert (0 <= versionFlags version flags) as H0.
  { unfold versionFlags. apply Z.lor_nonneg. split.
    - apply u32_range.
    - apply Z.land_nonneg. right. lia. }
  split; [exact H0|].
  destruct (Z.eq_dec (versionFlags version flags) 0) as [->|Hne]; [lia|].
  apply Z.log2_lt_pow2; [lia|].
  destruct (Z_lt_ge_dec (Z.log2 (versionFlags version flags)) 32)
    as [|Hge]; [assumption|].
  pose proof (Z.bit_log2 (versionFlags version flags) ltac:(lia)) as Hbit.
  rewrite versionFlags_bit in Hbit by (apply Z.log2_nonneg).
  destruct (Z.ltb_spec (Z.log2 (versionFlags version flags)) 24); [lia|].
  destruct (Z.ltb_spec (Z.log2 (versionFlags version flags)) 32); [lia|].
  discriminate.
Qed.

Lemma versionFlags_version version flags :
  u8 (Z.shiftr (versionFlags version flags) 24) = u8 version.
Proof. byte_eq. Qed.

Lemma versionFlags_flags version flags :
  Z.land (versionFlags version flags) 16777215 = Z.land flags 16777215.
Proof.
  apply Z.bits_inj'. intros n Hn.
  rewrite !Z.land_spec, versionFlags_bit by lia.
  change 16777215 with (Z.ones 24).
  destruct (Z.ltb_spec n 24).
  - reflexivity.
  - rewrite Z.ones_spec_high by lia. now rewrite !andb_false_r.
Qed.

Ltac reader_simpl :=
  cbn [bmff.reader.buf bmff.reader.pos bmff.reader.boxEnd bmff.reader.end_
       bmff.reader.boxType bmff.reader.boxSize bmff.reader.boxStart
       bmff.reader.dataStart bmff.reader.version bmff.reader.flags
       bmff.reader.stack bmff.reader.depth
       bmff.reader.withData bmff.reader.withBox bmff.reader.withBoxType
       bmff.reader.withBoxStart bmff.reader.withPos].

(** The reader on a box without version and flags. *)
Lemma Next_reads_box (r : bmff.reader.Reader) pre t content post :
  bmff.reader.buf r = pre ++ boxBytes t content ++ post ->
  Z.max (bmff.reader.pos r) (bmff.reader.boxEnd r) = len pre ->
  len pre + 8 + len content <= bmff.reader.end_ r ->
  bmff.reader.end_ r <= len (bmff.reader.buf r) ->
  len (bmff.reader.buf r) < 2 ^ 63 ->
  len t = 4 -> 8 + len content < 2 ^ 32 ->
  bmff.IsFullBox t = false ->
  exists r', bmff.reader.Next r = Ok (r', true) /\
             readsBox r r' (len pre) 8 t 0 0 content.
Proof.
  intros Hbuf Hpos Hend Hcap Hlen Ht Hsize Hfull.
  rewrite (Next_reads_header r pre t content post) by assumption.
  cbv zeta. rewrite Hfull. eexists. split; [reflexivity|].
  unfold readsBox, bmff.reader.Offset, bmff.reader.DataOffset,
    bmff.reader.Type_, bmff.reader.Size, bmff.reader.Version,
    bmff.reader.Flags, bmff.reader.Data.
  reader_simpl. repeat split; try reflexivity; try lia.
  rewrite Hbuf. unfold boxBytes.
  replace (pre ++ (PutUint32 (u32 (8 + len content)) ++ t ++ content)
           ++ post)
    with ((pre ++ PutUint32 (u32 (8 + len content)) ++ t) ++ content ++ post)
    by (now rewrite <- !app_assoc).
  apply sub_app; rewrite ?len_app, ?len_PutUint32, ?Ht; lia.
Qed.

(** The reader on a full box. *)
Lemma Next_reads_fullbox (r : bmff.reader.Reader) pre t version flags
    content post :
  bmff.reader.buf r = pre ++ fullBoxBytes t version flags content ++ post ->
  Z.max (bmff.reader.pos r) (bmff.reader.boxEnd r) = len pre ->
  len pre + 12 + len content <= bmff.reader.end_ r ->
  bmff.reader.end_ r <= len (bmff.reader.buf r) ->
  len (bmff.reader.buf r) < 2 ^ 63 ->
  len t = 4 -> 12 + len content < 2 ^ 32 ->
  bmff.IsFullBox t = true ->
  exists r', bmff.reader.Next r = Ok (r', true) /\
             readsBox r r' (len pre) 12 t (u8 version)
               (Z.land flags 16777215) content.
Proof.
  intros Hbuf Hpos Hend Hcap Hlen Ht Hsize Hfull.
  pose proof (len_nonneg pre) as Hpre.
  pose proof (len_nonneg content) as Hcontent.
  pose proof (len_nonneg post) as Hpost.
  unfold fullBoxBytes in Hbuf.
  assert (len (bmff.reader.buf r)
          = len pre + (12 + len content) + len post) as Hb.
  { rewrite Hbuf. unfold boxBytes.
    rewrite !len_app, !len_PutUint32, Ht. lia. }
  rewrite (Next_reads_header r pre t
             (PutUint32 (versionFlags version flags) ++ content) post)
    by (rewrite ?len_app, ?len_PutUint32; assumption || lia).
  cbv zeta. rewrite Hfull.
  rewrite len_app, len_PutUint32.
  unfold bmff.reader.withBox at 1.
  cbn [bmff.reader.boxEnd].
  rewrite i64_id by lia.
  destruct (len pre + 8 + (4 + len content) - (len pre + 8) <? 4) eqn:E;
    zbool; [lia|].
  assert (bmff.uint32From (bmff.reader.buf r) (len pre + 8)
          = Ok (versionFlags version flags)) as Hvf.
  { rewrite Hbuf. unfold boxBytes, bmff.uint32From.
    replace (pre ++ (PutUint32 (u32 (8 + len (PutUint32 (versionFlags
                       version flags) ++ content))) ++ t
                     ++ PutUint32 (versionFlags version flags) ++ content)
             ++ post)
      with ((pre ++ PutUint32 (u32 (8 + len (PutUint32 (versionFlags
                       version flags) ++ content))) ++ t)
            ++ PutUint32 (versionFlags version flags) ++ content ++ post)
      by (now rewrite <- !app_assoc).
    rewrite from_app by (rewrite !len_app, len_PutUint32, Ht; lia).
    cbn [bind]. rewrite beUint32_PutUint32_app.
    f_equal. apply u32_id, versionFlags_range. }
  change (bmff.reader.buf
            (bmff.reader.withBox
               (bmff.reader.withBoxType
                  (bmff.reader.withBoxStart
                     (bmff.reader.withPos r (len pre)) (len pre)) t)
               (8 + (4 + len content)) (len pre + 8 + (4 + len content))))
    with (bmff.reader.buf r).
  rewrite Hvf. cbn [bind].
  rewrite versionFlags_version, versionFlags_flags, i64_id by lia.
  eexists. split; [reflexivity|].
  unfold readsBox, bmff.reader.Offset, bmff.reader.DataOffset,
    bmff.reader.Type_, bmff.reader.Size, bmff.reader.Version,
    bmff.reader.Flags, bmff.reader.Data.
  reader_simpl. repeat split; try reflexivity; try lia.
  rewrite Hbuf. unfold boxBytes.
  replace (pre ++ (PutUint32 (u32 (8 + len (PutUint32 (versionFlags
                     version flags) ++ content))) ++ t
                   ++ PutUint32 (versionFlags version flags) ++ content)
           ++ post)
    with ((pre ++ PutUint32 (u32 (8 + len (PutUint32 (versionFlags
                     version flags) ++ content))) ++ t
           ++ PutUint32 (versionFlags version flags)) ++ content ++ post)
    by (now rewrite <- !app_assoc).
  apply sub_app; rewrite ?len_app, ?len_PutUint32, ?Ht; lia.
Qed.

Lemma len_boxBytes t content :
  len t = 4 -> len (boxBytes t content) = 8 + len content.
Proof.
  intros Ht. unfold boxBytes. rewrite !len_app, len_PutUint32, Ht. lia.
Qed.

Lemma len_fullBoxBytes t version flags content :
  len t = 4 -> len (fullBoxBytes t version flags content) = 12 + len content.
Proof.
  intros Ht. unfold fullBoxBytes.
  rewrite len_boxBytes, len_app, len_PutUint32 by assumption. lia.
Qed.

(** A reader on a buffer that holds one full box. *)
Lemma NewReader_reads_fullbox t version flags content :
  len t = 4 -> 12 + len content < 2 ^ 32 ->
  bmff.IsFullBox t = true ->
  exists r,
    bmff.reader.Next
      (bmff.reader.NewReader (fullBoxBytes t version flags content))
    = Ok (r, true) /\
    readsBox (bmff.reader.NewReader (fullBoxBytes t version flags content))
      r 0 12 t (u8 version) (Z.land flags 16777215) content.
Proof.
  intros Ht Hsize Hfull. pose proof (len_nonneg content).
  apply (Next_reads_fullbox _ [] t version flags content []);
    cbn [bmff.reader.NewReader bmff.reader.buf bmff.reader.pos
         bmff.reader.boxEnd bmff.reader.end_ app];
    rewrite ?app_nil_r, ?len_fullBoxBytes by assumption;
    try reflexivity; try assumption; change (len (@nil Z)) with 0; lia.
Qed.

Lemma NewReader_reads_box t content :
  len t = 4 -> 8 + len content < 2 ^ 32 ->
  bmff.IsFullBox t = false ->
  exists r,
    bmff.reader.Next (bmff.reader.NewReader (boxBytes t content))
    = Ok (r, true) /\
    readsBox (bmff.reader.NewReader (boxBytes t content))
      r 0 8 t 0 0 content.
Proof.
  intros Ht Hsize Hfull. pose proof (len_nonneg content).
  apply (Next_reads_box _ [] t content []);
    cbn [bmff.reader.NewReader bmff.reader.buf bmff.reader.pos
         bmff.reader.boxEnd bmff.reader.end_ app];
    rewrite ?app_nil_r, ?len_boxBytes by assumption;
    try reflexivity; try assumption; change (len (@nil Z)) with 0; lia.
Qed.

(** X11.  What the writer frames, the reader reads back: on the bytes of
    a box written with [StartFullBox], content and [EndBox], for a type
    that [IsFullBox] knows, [Next] succeeds and reports the type, the
    version byte, the low 24 bits of the flags, the size and the content;
    for other types written with [StartBox] it reports type, size and
    content. *)
Theorem Reader_reads_written_box k t version flags body content b :
  len t = 4 -> 0 <= k < bmff.maxDepth ->
  appends k (bmff.seq body) content ->
  12 + len content <= len b -> 12 + len content < 2 ^ 32 ->
  if bmff.IsFullBox t then
    exists w r,
      bmff.seq (bmff.StartFullBox t version flags :: body ++ [bmff.EndBox])
        (bmff.NewWriter b) = Ok w /\
      bmff.reader.Next (bmff.reader.NewReader (bmff.Bytes w)) = Ok (r, true) /\
      bmff.reader.Type_ r = t /\
      bmff.reader.Version r = u8 version /\
      bmff.reader.Flags r = Z.land flags 16777215 /\
      bmff.reader.Size r = 12 + len content /\
      bmff.reader.Data r = Ok content
  else
    exists w r,
      bmff.seq (bmff.StartBox t :: body ++ [bmff.EndBox])
        (bmff.NewWriter b) = Ok w /\
      bmff.reader.Next (bmff.reader.NewReader (bmff.Bytes w)) = Ok (r, true) /\
      bmff.reader.Type_ r = t /\
      bmff.reader.Size r = 8 + len content /\
      bmff.reader.Data r = Ok content.
Proof.
  intros Ht Hk Hbody Hroom Hsize. pose proof (len_nonneg content).
  destruct (bmff.IsFullBox t) eqn:Hfull.
  - destruct (appends_Bytes (k + 1) _ _ b
                (appends_fullbox k t version flags body content Ht
                   ltac:(lia) Hbody))
      as (w & Hw & Hbytes);
      [lia | rewrite len_fullBoxBytes by assumption; lia |].
    destruct (NewReader_reads_fullbox t version flags content Ht Hsize Hfull)
      as (r & Hr & Hbox).
    exists w, r. rewrite Hbytes. split; [exact Hw|]. split; [exact Hr|].
    unfold readsBox in Hbox. tauto.
  - destruct (appends_Bytes (k + 1) _ _ b
                (appends_box k t body content Ht ltac:(lia) Hbody))
      as (w & Hw & Hbytes);
      [lia | rewrite len_boxBytes by assumption; lia |].
    destruct (NewReader_reads_box t content Ht ltac:(lia) Hfull)
      as (r & Hr & Hbox).
    exists w, r. rewrite Hbytes. split; [exact Hw|]. split; [exact Hr|].
    unfold readsBox in Hbox. tauto.
Qed.

Lemma Reader_reads_written_box_witness :
  exists w r,
    bmff.seq (bmff.StartFullBox bmff.TypeMfhd 0 0
              :: [bmff.putUint32 7] ++ [bmff.EndBox])
      (bmff.NewWriter (repeat 0 16)) = Ok w /\
    bmff.reader.Next (bmff.reader.NewReader (bmff.Bytes w)) = Ok (r, true) /\
    bmff.reader.Type_ r = bmff.TypeMfhd /\
    bmff.reader.Version r = u8 0 /\
    bmff.reader.Flags r = Z.land 0 16777215 /\
    bmff.reader.Size r = 12 + len (PutUint32 7) /\
    bmff.reader.Data r = Ok (PutUint32 7).
Proof.
  apply (Reader_reads_written_box 0 bmff.TypeMfhd 0 0 [bmff.putUint32 7]
           (PutUint32 7) (repeat 0 16)).
  - reflexivity.
  - vm_compute. split; [discriminate|reflexivity].
  - apply appends_seq_one, appends_putUint32.
  - vm_compute. discriminate.
  - vm_compute. reflexivity.
Defined.

(** ** Table iterators *)

Lemma uint32From_app pre v rest lo :
  lo = len pre ->
  bmff.uint32From (pre ++ PutUint32 v ++ rest) lo = Ok (u32 v).
Proof.
  intros ->. unfold bmff.uint32From. rewrite from_app by reflexivity.
  cbn [bind]. apply beUint32_PutUint32_app.
Qed.

Lemma uint64From_app pre v rest lo :
  lo = len pre ->
  bmff.uint64From (pre ++ PutUint64 v ++ rest) lo = Ok (u64 v).
Proof.
  intros ->. unfold bmff.uint64From. rewrite from_app by reflexivity.
  cbn [bind]. apply beUint64_PutUint64_app.
Qed.


Lemma uint32In_front v rest :
  bmff.uint32In (PutUint32 v ++ rest) 0 4 = Ok (u32 v).
Proof.
  unfold bmff.uint32In.
  change (PutUint32 v ++ rest) with ([] ++ PutUint32 v ++ rest).
  rewrite (sub_app [] (PutUint32 v) rest 0 4) by reflexivity.
  cbn [bind]. rewrite <- (app_nil_r (PutUint32 v)).
  apply beUint32_PutUint32_app.
Qed.

Lemma len_flat_map {A} (enc : A -> list Z) stride l :
  (forall e, len (enc e) = stride) ->
  len (flat_map enc l) = stride * len l.
Proof.
  intros Henc. induction l as [|e l IH]; [cbn; lia|].
  cbn [flat_map]. rewrite len_app, len_cons, Henc, IH. lia.
Qed.

Lemma len_tableData {A} (enc : A -> list Z) stride l :
  (forall e, len (enc e) = stride) ->
  len (tableData enc l) = 4 + stride * len l.
Proof.
  intros Henc. unfold tableData.
  now rewrite len_app, len_PutUint32, (len_flat_map enc stride).
Qed.

Lemma uint32From_split b pre v tail lo :
  b = pre ++ PutUint32 v ++ tail -> lo = len pre ->
  bmff.uint32From b lo = Ok (u32 v).
Proof. intros -> ->. now apply uint32From_app. Qed.

Lemma uint64From_split b pre v tail lo :
  b = pre ++ PutUint64 v ++ tail -> lo = len pre ->
  bmff.uint64From b lo = Ok (u64 v).
Proof. intros -> ->. now apply uint64From_app. Qed.


(** Closes the side conditions of the [_split] lemmas: the two sides of
    the buffer equation differ in bracketing only, and the offset is the
    length of what comes before. *)
Ltac split_side :=
  solve [ rewrite <- ?app_assoc; cbn [app]; reflexivity
        | rewrite ?len_app, ?len_PutUint32, ?len_PutUint64, ?len_PutUint16;
          lia ].

Lemma SttsIter_Next_entry (it : bmff.SttsIter.t) c d :
  bmff.SttsIter.index it < bmff.SttsIter.count it ->
  4 + bmff.SttsIter.index it * 8 + 8 <= len (bmff.SttsIter.buf it) ->
  bmff.uint32From (bmff.SttsIter.buf it) (4 + bmff.SttsIter.index it * 8)
  = Ok c ->
  bmff.uint32From (bmff.SttsIter.buf it)
    (4 + bmff.SttsIter.index it * 8 + 4) = Ok d ->
  bmff.SttsIter.Next it
  = Ok ({| bmff.SttsIter.buf := bmff.SttsIter.buf it;
           bmff.SttsIter.count := bmff.SttsIter.count it;
           bmff.SttsIter.index := u32 (bmff.SttsIter.index it + 1) |},
        ({| bmff.SttsEntry.Count := c; bmff.SttsEntry.Duration := d |},
         true)).
Proof.
  intros Hi Hfit Hc Hd. unfold bmff.SttsIter.Next.
  destruct (_ >=? _) eqn:E; zbool; [lia|].
  destruct (_ >? _) eqn:E2; zbool; [lia|].
  rewrite Hc, Hd. reflexivity.
Qed.

Lemma SttsIter_Next_done (it : bmff.SttsIter.t) :
  bmff.SttsIter.count it <= bmff.SttsIter.index it ->
  bmff.SttsIter.Next it = Ok (it, (bmff.SttsIter.noEntry, false)).
Proof.
  intros Hi. unfold bmff.SttsIter.Next.
  destruct (_ >=? _) eqn:E; zbool; [reflexivity|lia].
Qed.

Lemma SttsIter_yields_from rest : forall done n,
  len done + len rest = n -> n < 2 ^ 32 ->
  (forall e, In e rest ->
     isUint32 (bmff.SttsEntry.Count e) /\
     isUint32 (bmff.SttsEntry.Duration e)) ->
  yields bmff.SttsIter.Next
    {| bmff.SttsIter.buf :=
         PutUint32 n ++ flat_map encStts done ++ flat_map encStts rest;
       bmff.SttsIter.count := n;
       bmff.SttsIter.index := len done |}
    rest.
Proof.
  induction rest as [|e rest IH]; intros done n Hn Hmax Hrange;
    pose proof (len_nonneg done) as Hdone; cbn [yields].
  - change (len (@nil bmff.SttsEntry.t)) with 0 in Hn.
    rewrite SttsIter_Next_done by (cbn; lia). eauto.
  - rewrite len_cons in Hn. pose proof (len_nonneg rest) as Hrest.
    assert (len (flat_map encStts done) = 8 * len done) as Hld
      by (apply len_flat_map; reflexivity).
    assert (len (flat_map encStts rest) = 8 * len rest) as Hlr
      by (apply len_flat_map; reflexivity).
    destruct (Hrange e (or_introl eq_refl)) as [Hc Hd].
    destruct e as [c d]. cbn [bmff.SttsEntry.Count bmff.SttsEntry.Duration]
      in Hc, Hd.
    cbn [flat_map].
    change (encStts {| bmff.SttsEntry.Count := c;
                       bmff.SttsEntry.Duration := d |})
      with (PutUint32 c ++ PutUint32 d).
    eexists. split.
    + rewrite (SttsIter_Next_entry _ c d);
        cbn [bmff.SttsIter.buf bmff.SttsIter.count bmff.SttsIter.index].
      * reflexivity.
      * lia.
      * rewrite !len_app, !len_PutUint32, Hld, Hlr. lia.
      * rewrite <- (u32_id c) at 2 by exact Hc.
        apply (uint32From_split _ (PutUint32 n ++ flat_map encStts done) c
                 (PutUint32 d ++ flat_map encStts rest)); split_side.
      * rewrite <- (u32_id d) at 2 by exact Hd.
        apply (uint32From_split _
                 (PutUint32 n ++ flat_map encStts done ++ PutUint32 c) d
                 (flat_map encStts rest)); split_side.
    + cbn [bmff.SttsIter.buf bmff.SttsIter.count bmff.SttsIter.index].
      rewrite u32_id by lia.
      specialize (IH (done ++ [{| bmff.SttsEntry.Count := c;
                                  bmff.SttsEntry.Duration := d |}]) n).
      rewrite len_app, len_cons in IH.
      change (len (@nil bmff.SttsEntry.t)) with 0 in IH.
      rewrite flat_map_app in IH. cbn [flat_map] in IH.
      rewrite app_nil_r in IH.
      change (encStts {| bmff.SttsEntry.Count := c;
                         bmff.SttsEntry.Duration := d |})
        with (PutUint32 c ++ PutUint32 d) in IH.
      rewrite <- !app_assoc in IH |- *.
      replace (len done + (1 + 0)) with (len done + 1) in IH by lia.
      apply IH; [lia | lia | intros; apply Hrange; now right].
Qed.

(** A full box that a method appends, written into a fresh writer and read
    back. *)
Lemma written_fullbox_read m t version flags content b :
  appends 1 m (fullBoxBytes t version flags content) ->
  len t = 4 -> bmff.IsFullBox t = true ->
  12 + len content <= len b -> 12 + len content < 2 ^ 32 ->
  exists w r,
    m (bmff.NewWriter b) = Ok w /\
    bmff.reader.Next (bmff.reader.NewReader (bmff.Bytes w)) = Ok (r, true) /\
    bmff.reader.Type_ r = t /\
    bmff.reader.Version r = u8 version /\
    bmff.reader.Flags r = Z.land flags 16777215 /\
    bmff.reader.Data r = Ok content.
Proof.
  intros Hm Ht Hfull Hroom Hsize.
  destruct (appends_Bytes 1 m _ b Hm) as (w & Hw & Hbytes);
    [change bmff.maxDepth with 16; lia
    | rewrite len_fullBoxBytes by assumption; lia |].
  destruct (NewReader_reads_fullbox t version flags content Ht Hsize Hfull)
    as (r & Hr & Hbox).
  exists w, r. rewrite Hbytes. split; [exact Hw|]. split; [exact Hr|].
  unfold readsBox in Hbox. tauto.
Qed.

(** The layout of a table box: version 0, no flags, the entry count and
    the entries. *)
Lemma appends_table {E} t version flags (f : E -> bmff.method)
    (enc : E -> list Z) entries :
  len t = 4 ->
  (forall e, appends 0 (f e) (enc e)) ->
  appends 1
    (bmff.seq ([bmff.StartFullBox t version flags;
                bmff.putUint32 (u32 (len entries))]
               ++ map f entries ++ [bmff.EndBox]))
    (fullBoxBytes t version flags (tableData enc entries)).
Proof.
  intros Ht Hf.
  apply (appends_fullbox 0 t version flags
           (bmff.putUint32 (u32 (len entries)) :: map f entries)
           (tableData enc entries) Ht ltac:(lia)).
  unfold tableData. apply appends_seq_cons; [apply appends_putUint32|].
  apply appends_seq_map; [exact Hf | lia].
Qed.

Lemma appends_WriteStts entries :
  appends 1 (bmff.WriteStts entries)
    (fullBoxBytes bmff.TypeStts 0 0 (tableData encStts entries)).
Proof.
  apply appends_table; [reflexivity|]. intros e.
  apply appends_seq_cons; [apply appends_putUint32|].
  rewrite <- (app_nil_r (PutUint32 (bmff.SttsEntry.Duration e))).
  apply appends_seq_cons; [apply appends_putUint32 | apply appends_seq_nil].
Qed.

Lemma NewSttsIter_tableData entries :
  len entries < 2 ^ 32 ->
  bmff.SttsIter.NewSttsIter (tableData encStts entries)
  = Ok {| bmff.SttsIter.buf := tableData encStts entries;
          bmff.SttsIter.count := len entries;
          bmff.SttsIter.index := 0 |}.
Proof.
  intros Hn. pose proof (len_nonneg entries).
  unfold bmff.SttsIter.NewSttsIter.
  rewrite (len_tableData encStts 8) by reflexivity.
  destruct (4 + 8 * len entries <? 4) eqn:E; zbool; [lia|].
  unfold tableData. rewrite uint32In_front. cbn [bind].
  now rewrite !u32_id by lia.
Qed.

(** X12.  A time-to-sample table written by [WriteStts] is read back
    entry by entry: [Reader.Next] finds the stts box, and [SttsIter] on its
    data counts and yields the entries that were written, then stops. *)
Theorem stts_round_trip entries b :
  16 + 8 * len entries <= len b -> 16 + 8 * len entries < 2 ^ 32 ->
  (forall e, In e entries ->
     isUint32 (bmff.SttsEntry.Count e) /\
     isUint32 (bmff.SttsEntry.Duration e)) ->
  exists w r data it,
    bmff.WriteStts entries (bmff.NewWriter b) = Ok w /\
    bmff.reader.Next (bmff.reader.NewReader (bmff.Bytes w)) = Ok (r, true) /\
    bmff.reader.Type_ r = bmff.TypeStts /\
    bmff.reader.Data r = Ok data /\
    bmff.SttsIter.NewSttsIter data = Ok it /\
    bmff.SttsIter.Count it = len entries /\
    yields bmff.SttsIter.Next it entries.
Proof.
  intros Hroom Hsize Hrange. pose proof (len_nonneg entries).
  destruct (written_fullbox_read _ _ _ _ _ b (appends_WriteStts entries))
    as (w & r & Hw & Hr & Ht & _ & _ & Hdata);
    rewrite ?(len_tableData encStts 8) by reflexivity;
    try reflexivity; try lia.
  exists w, r, (tableData encStts entries). eexists.
  split; [exact Hw|]. split; [exact Hr|]. split; [exact Ht|].
  split; [exact Hdata|].
  split; [apply NewSttsIter_tableData; lia|]. split; [reflexivity|].
  unfold tableData. rewrite u32_id by lia.
  apply (SttsIter_yields_from entries [] (len entries));
    [reflexivity | lia | exact Hrange].
Qed.

Lemma stts_round_trip_witness :
  exists w r data it,
    bmff.WriteStts [{| bmff.SttsEntry.Count := 2;
                       bmff.SttsEntry.Duration := 10 |}]
      (bmff.NewWriter (repeat 0 24)) = Ok w /\
    bmff.reader.Next (bmff.reader.NewReader (bmff.Bytes w)) = Ok (r, true) /\
    bmff.reader.Type_ r = bmff.TypeStts /\
    bmff.reader.Data r = Ok data /\
    bmff.SttsIter.NewSttsIter data = Ok it /\
    bmff.SttsIter.Count it
    = len [{| bmff.SttsEntry.Count := 2; bmff.SttsEntry.Duration := 10 |}] /\
    yields bmff.SttsIter.Next it
      [{| bmff.SttsEntry.Count := 2; bmff.SttsEntry.Duration := 10 |}].
Proof.
  apply (stts_round_trip
           [{| bmff.SttsEntry.Count := 2; bmff.SttsEntry.Duration := 10 |}]
           (repeat 0 24)).
  - vm_compute. discriminate.
  - vm_compute. reflexivity.
  - intros e [<-|[]]. unfold isUint32. cbn. lia.
Defined.

Lemma i32_u32 z : isInt32 z -> i32 (u32 z) = z.
Proof.
  unfold isInt32, i32, u32. intros Hz.
  destruct (Z_lt_ge_dec z 0) as [Hneg|Hpos].
  - replace (z mod 2 ^ 32) with (z + 2 ^ 32)
      by (apply Z.mod_unique with (q := -1); lia).
    replace (z + 2 ^ 32 + 2 ^ 31) with (z + 2 ^ 31 + 1 * 2 ^ 32) by lia.
    rewrite Z.mod_add by lia. rewrite Z.mod_small; lia.
  - rewrite (Z.mod_small z) by lia. rewrite Z.mod_small; lia.
Qed.



Lemma u32_u32_id z : u32 (u32 z) = u32 z.
Proof. apply u32_u32. Qed.

(** *** ctts *)

Lemma CttsIter_Next_entry (it : bmff.CttsIter.t) c o :
  bmff.CttsIter.index it < bmff.CttsIter.count it ->
  4 + bmff.CttsIter.index it * 8 + 8 <= len (bmff.CttsIter.buf it) ->
  bmff.uint32From (bmff.CttsIter.buf it) (4 + bmff.CttsIter.index it * 8)
  = Ok c ->
  bmff.uint32From (bmff.CttsIter.buf it)
    (4 + bmff.CttsIter.index it * 8 + 4) = Ok o ->
  bmff.CttsIter.Next it
  = Ok ({| bmff.CttsIter.buf := bmff.CttsIter.buf it;
           bmff.CttsIter.count := bmff.CttsIter.count it;
           bmff.CttsIter.index := u32 (bmff.CttsIter.index it + 1);
           bmff.CttsIter.version := bmff.CttsIter.version it |},
        ({| bmff.CttsEntry.Count := c; bmff.CttsEntry.Offset := i32 o |},
         true)).
Proof.
  intros Hi Hfit Hc Ho. unfold bmff.CttsIter.Next.
  destruct (_ >=? _) eqn:E; zbool; [lia|].
  destruct (_ >? _) eqn:E2; zbool; [lia|].
  rewrite Hc, Ho. cbn [bind]. destruct (_ =? 0); reflexivity.
Qed.

Lemma CttsIter_Next_done (it : bmff.CttsIter.t) :
  bmff.CttsIter.count it <= bmff.CttsIter.index it ->
  bmff.CttsIter.Next it = Ok (it, (bmff.CttsIter.noEntry, false)).
Proof.
  intros Hi. unfold bmff.CttsIter.Next.
  destruct (_ >=? _) eqn:E; zbool; [reflexivity|lia].
Qed.

Lemma CttsIter_yields_from version rest : forall done n,
  len done + len rest = n -> n < 2 ^ 32 ->
  (forall e, In e rest ->
     isUint32 (bmff.CttsEntry.Count e) /\
     isInt32 (bmff.CttsEntry.Offset e)) ->
  yields bmff.CttsIter.Next
    {| bmff.CttsIter.buf :=
         PutUint32 n ++ flat_map encCtts done ++ flat_map encCtts rest;
       bmff.CttsIter.count := n;
       bmff.CttsIter.index := len done;
       bmff.CttsIter.version := version |}
    rest.
Proof.
  induction rest as [|e rest IH]; intros done n Hn Hmax Hrange;
    pose proof (len_nonneg done) as Hdone; cbn [yields].
  - change (len (@nil bmff.CttsEntry.t)) with 0 in Hn.
    rewrite CttsIter_Next_done by (cbn; lia). eauto.
  - rewrite len_cons in Hn. pose proof (len_nonneg rest) as Hrest.
    assert (len (flat_map encCtts done) = 8 * len done) as Hld
      by (apply len_flat_map; reflexivity).
    assert (len (flat_map encCtts rest) = 8 * len rest) as Hlr
      by (apply len_flat_map; reflexivity).
    destruct (Hrange e (or_introl eq_refl)) as [Hc Ho].
    destruct e as [c o]. cbn [bmff.CttsEntry.Count bmff.CttsEntry.Offset]
      in Hc, Ho.
    cbn [flat_map].
    change (encCtts {| bmff.CttsEntry.Count := c;
                       bmff.CttsEntry.Offset := o |})
      with (PutUint32 c ++ PutUint32 (u32 o)).
    eexists. split.
    + rewrite (CttsIter_Next_entry _ c (u32 o));
        cbn [bmff.CttsIter.buf bmff.CttsIter.count bmff.CttsIter.index].
      * rewrite i32_u32 by exact Ho. reflexivity.
      * lia.
      * rewrite !len_app, !len_PutUint32, Hld, Hlr. lia.
      * rewrite <- (u32_id c) at 2 by exact Hc.
        apply (uint32From_split _ (PutUint32 n ++ flat_map encCtts done) c
                 (PutUint32 (u32 o) ++ flat_map encCtts rest)); split_side.
      * rewrite <- (u32_u32 o) at 2.
        apply (uint32From_split _
                 (PutUint32 n ++ flat_map encCtts done ++ PutUint32 c)
                 (u32 o) (flat_map encCtts rest)); split_side.
    + cbn [bmff.CttsIter.buf bmff.CttsIter.count bmff.CttsIter.index
           bmff.CttsIter.version].
      rewrite (u32_id (len done + 1)) by lia.
      specialize (IH (done ++ [{| bmff.CttsEntry.Count := c;
                                  bmff.CttsEntry.Offset := o |}]) n).
      rewrite len_app, len_cons in IH.
      change (len (@nil bmff.CttsEntry.t)) with 0 in IH.
      rewrite flat_map_app in IH. cbn [flat_map] in IH.
      rewrite app_nil_r in IH.
      change (encCtts {| bmff.CttsEntry.Count := c;
                         bmff.CttsEntry.Offset := o |})
        with (PutUint32 c ++ PutUint32 (u32 o)) in IH.
      rewrite <- !app_assoc in IH |- *.
      replace (len done + (1 + 0)) with (len done + 1) in IH by lia.
      apply IH; [lia | lia | intros; apply Hrange; now right].
Qed.

Lemma appends_WriteCtts entries :
  appends 1 (bmff.WriteCtts entries)
    (fullBoxBytes bmff.TypeCtts 0 0 (tableData encCtts entries)).
Proof.
  apply appends_table; [reflexivity|]. intros e.
  apply appends_seq_cons; [apply appends_putUint32|].
  rewrite <- (app_nil_r (PutUint32 (u32 (bmff.CttsEntry.Offset e)))).
  apply appends_seq_cons; [apply appends_putUint32 | apply appends_seq_nil].
Qed.

Lemma NewCttsIter_tableData entries version :
  len entries < 2 ^ 32 ->
  bmff.CttsIter.NewCttsIter (tableData encCtts entries) version
  = Ok {| bmff.CttsIter.buf := tableData encCtts entries;
          bmff.CttsIter.count := len entries;
          bmff.CttsIter.index := 0;
          bmff.CttsIter.version := version |}.
Proof.
  intros Hn. pose proof (len_nonneg entries).
  unfold bmff.CttsIter.NewCttsIter.
  rewrite (len_tableData encCtts 8) by reflexivity.
  destruct (4 + 8 * len entries <? 4) eqn:E; zbool; [lia|].
  unfold tableData. rewrite uint32In_front. cbn [bind].
  now rewrite !u32_id by lia.
Qed.

(** X13.  A composition-offset table written by [WriteCtts] is read back
    entry by entry, signed offsets included: [Reader.Next] finds the ctts
    box with version 0, and [CttsIter] on its data yields the entries that
    were written, then stops. *)
Theorem ctts_round_trip entries b :
  16 + 8 * len entries <= len b -> 16 + 8 * len entries < 2 ^ 32 ->
  (forall e, In e entries ->
     isUint32 (bmff.CttsEntry.Count e) /\
     isInt32 (bmff.CttsEntry.Offset e)) ->
  exists w r data it,
    bmff.WriteCtts entries (bmff.NewWriter b) = Ok w /\
    bmff.reader.Next (bmff.reader.NewReader (bmff.Bytes w)) = Ok (r, true) /\
    bmff.reader.Type_ r = bmff.TypeCtts /\
    bmff.reader.Data r = Ok data /\
    bmff.CttsIter.NewCttsIter data (bmff.reader.Version r) = Ok it /\
    bmff.CttsIter.Count it = len entries /\
    yields bmff.CttsIter.Next it entries.
Proof.
  intros Hroom Hsize Hrange. pose proof (len_nonneg entries).
  destruct (written_fullbox_read _ _ _ _ _ b (appends_WriteCtts entries))
    as (w & r & Hw & Hr & Ht & Hv & _ & Hdata);
    rewrite ?(len_tableData encCtts 8) by reflexivity;
    try reflexivity; try lia.
  exists w, r, (tableData encCtts entries). eexists.
  split; [exact Hw|]. split; [exact Hr|]. split; [exact Ht|].
  split; [exact Hdata|].
  split; [apply NewCttsIter_tableData; lia|]. split; [reflexivity|].
  unfold tableData. rewrite u32_id by lia.
  apply (CttsIter_yields_from _ entries [] (len entries));
    [reflexivity | lia | exact Hrange].
Qed.

Lemma ctts_round_trip_witness :
  exists w r data it,
    bmff.WriteCtts [{| bmff.CttsEntry.Count := 1;
                       bmff.CttsEntry.Offset := -3 |}]
      (bmff.NewWriter (repeat 0 24)) = Ok w /\
    bmff.reader.Next (bmff.reader.NewReader (bmff.Bytes w)) = Ok (r, true) /\
    bmff.reader.Type_ r = bmff.TypeCtts /\
    bmff.reader.Data r = Ok data /\
    bmff.CttsIter.NewCttsIter data (bmff.reader.Version r) = Ok it /\
    bmff.CttsIter.Count it
    = len [{| bmff.CttsEntry.Count := 1; bmff.CttsEntry.Offset := -3 |}] /\
    yields bmff.CttsIter.Next it
      [{| bmff.CttsEntry.Count := 1; bmff.CttsEntry.Offset := -3 |}].
Proof.
  apply (ctts_round_trip
           [{| bmff.CttsEntry.Count := 1; bmff.CttsEntry.Offset := -3 |}]
           (repeat 0 24)).
  - vm_compute. discriminate.
  - vm_compute. reflexivity.
  - intros e [<-|[]]. unfold isUint32, isInt32. cbn. lia.
Defined.

(** *** stsc *)

Lemma StscIter_Next_entry (it : bmff.StscIter.t) fc spc sdi :
  bmff.StscIter.index it < bmff.StscIter.count it ->
  4 + bmff.StscIter.index it * 12 + 12 <= len (bmff.StscIter.buf it) ->
  bmff.uint32From (bmff.StscIter.buf it) (4 + bmff.StscIter.index it * 12)
  = Ok fc ->
  bmff.uint32From (bmff.StscIter.buf it)
    (4 + bmff.StscIter.index it * 12 + 4) = Ok spc ->
  bmff.uint32From (bmff.StscIter.buf it)
    (4 + bmff.StscIter.index it * 12 + 8) = Ok sdi ->
  bmff.StscIter.Next it
  = Ok ({| bmff.StscIter.buf := bmff.StscIter.buf it;
           bmff.StscIter.count := bmff.StscIter.count it;
           bmff.StscIter.index := u32 (bmff.StscIter.index it + 1) |},
        ({| bmff.StscEntry.FirstChunk := fc;
            bmff.StscEntry.SamplesPerChunk := spc;
            bmff.StscEntry.SampleDescriptionId := sdi |}, true)).
Proof.
  intros Hi Hfit H1 H2 H3. unfold bmff.StscIter.Next.
  destruct (_ >=? _) eqn:E; zbool; [lia|].
  destruct (_ >? _) eqn:E2; zbool; [lia|].
  rewrite H1, H2, H3. reflexivity.
Qed.

Lemma StscIter_Next_done (it : bmff.StscIter.t) :
  bmff.StscIter.count it <= bmff.StscIter.index it ->
  bmff.StscIter.Next it = Ok (it, (bmff.StscIter.noEntry, false)).
Proof.
  intros Hi. unfold bmff.StscIter.Next.
  destruct (_ >=? _) eqn:E; zbool; [reflexivity|lia].
Qed.

Lemma StscIter_yields_from rest : forall done n,
  len done + len rest = n -> n < 2 ^ 32 ->
  (forall e, In e rest ->
     isUint32 (bmff.StscEntry.FirstChunk e) /\
     isUint32 (bmff.StscEntry.SamplesPerChunk e) /\
     isUint32 (bmff.StscEntry.SampleDescriptionId e)) ->
  yields bmff.StscIter.Next
    {| bmff.StscIter.buf :=
         PutUint32 n ++ flat_map encStsc done ++ flat_map encStsc rest;
       bmff.StscIter.count := n;
       bmff.StscIter.index := len done |}
    rest.
Proof.
  induction rest as [|e rest IH]; intros done n Hn Hmax Hrange;
    pose proof (len_nonneg done) as Hdone; cbn [yields].
  - change (len (@nil bmff.StscEntry.t)) with 0 in Hn.
    rewrite StscIter_Next_done by (cbn; lia). eauto.
  - rewrite len_cons in Hn. pose proof (len_nonneg rest) as Hrest.
    assert (len (flat_map encStsc done) = 12 * len done) as Hld
      by (apply len_flat_map; reflexivity).
    assert (len (flat_map encStsc rest) = 12 * len rest) as Hlr
      by (apply len_flat_map; reflexivity).
    destruct (Hrange e (or_introl eq_refl)) as (H1 & H2 & H3).
    destruct e as [fc spc sdi].
    cbn [bmff.StscEntry.FirstChunk bmff.StscEntry.SamplesPerChunk
         bmff.StscEntry.SampleDescriptionId] in H1, H2, H3.
    cbn [flat_map].
    change (encStsc {| bmff.StscEntry.FirstChunk := fc;
                       bmff.StscEntry.SamplesPerChunk := spc;
                       bmff.StscEntry.SampleDescriptionId := sdi |})
      with (PutUint32 fc ++ PutUint32 spc ++ PutUint32 sdi).
    eexists. split.
    + rewrite (StscIter_Next_entry _ fc spc sdi);
        cbn [bmff.StscIter.buf bmff.StscIter.count bmff.StscIter.index].
      * reflexivity.
      * lia.
      * rewrite !len_app, !len_PutUint32, Hld, Hlr. lia.
      * rewrite <- (u32_id fc) at 2 by exact H1.
        apply (uint32From_split _ (PutUint32 n ++ flat_map encStsc done) fc
                 (PutUint32 spc ++ PutUint32 sdi ++ flat_map encStsc rest));
          split_side.
      * rewrite <- (u32_id spc) at 2 by exact H2.
        apply (uint32From_split _
                 (PutUint32 n ++ flat_map encStsc done ++ PutUint32 fc) spc
                 (PutUint32 sdi ++ flat_map encStsc rest)); split_side.
      * rewrite <- (u32_id sdi) at 2 by exact H3.
        apply (uint32From_split _
                 (PutUint32 n ++ flat_map encStsc done ++ PutUint32 fc
                  ++ PutUint32 spc) sdi
                 (flat_map encStsc rest)); split_side.
    + cbn [bmff.StscIter.buf bmff.StscIter.count bmff.StscIter.index].
      rewrite (u32_id (len done + 1)) by lia.
      specialize (IH (done ++ [{| bmff.StscEntry.FirstChunk := fc;
                                  bmff.StscEntry.SamplesPerChunk := spc;
                                  bmff.StscEntry.SampleDescriptionId := sdi
                               |}]) n).
      rewrite len_app, len_cons in IH.
      change (len (@nil bmff.StscEntry.t)) with 0 in IH.
      rewrite flat_map_app in IH. cbn [flat_map] in IH.
      rewrite app_nil_r in IH.
      change (encStsc {| bmff.StscEntry.FirstChunk := fc;
                         bmff.StscEntry.SamplesPerChunk := spc;
                         bmff.StscEntry.SampleDescriptionId := sdi |})
        with (PutUint32 fc ++ PutUint32 spc ++ PutUint32 sdi) in IH.
      rewrite <- !app_assoc in IH |- *.
      replace (len done + (1 + 0)) with (len done + 1) in IH by lia.
      apply IH; [lia | lia | intros; apply Hrange; now right].
Qed.

Lemma appends_WriteStsc entries :
  appends 1 (bmff.WriteStsc entries)
    (fullBoxBytes bmff.TypeStsc 0 0 (tableData encStsc entries)).
Proof.
  apply appends_table; [reflexivity|]. intros e.
  apply appends_seq_cons; [apply appends_putUint32|].
  apply appends_seq_cons; [apply appends_putUint32|].
  rewrite <- (app_nil_r (PutUint32 (bmff.StscEntry.SampleDescriptionId e))).
  apply appends_seq_cons; [apply appends_putUint32 | apply appends_seq_nil].
Qed.

Lemma NewStscIter_tableData entries :
  len entries < 2 ^ 32 ->
  bmff.StscIter.NewStscIter (tableData encStsc entries)
  = Ok {| bmff.StscIter.buf := tableData encStsc entries;
          bmff.StscIter.count := len entries;
          bmff.StscIter.index := 0 |}.
Proof.
  intros Hn. pose proof (len_nonneg entries).
  unfold bmff.StscIter.NewStscIter.
  rewrite (len_tableData encStsc 12) by reflexivity.
  destruct (4 + 12 * len entries <? 4) eqn:E; zbool; [lia|].
  unfold tableData. rewrite uint32In_front. cbn [bind].
  now rewrite !u32_id by lia.
Qed.

(** X14.  A sample-to-chunk table written by [WriteStsc] is read back
    entry by entry: [Reader.Next] finds the stsc box, and [StscIter] on its
    data yields the entries that were written, then stops. *)
Theorem stsc_round_trip entries b :
  16 + 12 * len entries <= len b -> 16 + 12 * len entries < 2 ^ 32 ->
  (forall e, In e entries ->
     isUint32 (bmff.StscEntry.FirstChunk e) /\
     isUint32 (bmff.StscEntry.SamplesPerChunk e) /\
     isUint32 (bmff.StscEntry.SampleDescriptionId e)) ->
  exists w r data it,
    bmff.WriteStsc entries (bmff.NewWriter b) = Ok w /\
    bmff.reader.Next (bmff.reader.NewReader (bmff.Bytes w)) = Ok (r, true) /\
    bmff.reader.Type_ r = bmff.TypeStsc /\
    bmff.reader.Data r = Ok data /\
    bmff.StscIter.NewStscIter data = Ok it /\
    bmff.StscIter.Count it = len entries /\
    yields bmff.StscIter.Next it entries.
Proof.
  intros Hroom Hsize Hrange. pose proof (len_nonneg entries).
  destruct (written_fullbox_read _ _ _ _ _ b (appends_WriteStsc entries))
    as (w & r & Hw & Hr & Ht & _ & _ & Hdata);
    rewrite ?(len_tableData encStsc 12) by reflexivity;
    try reflexivity; try lia.
  exists w, r, (tableData encStsc entries). eexists.
  split; [exact Hw|]. split; [exact Hr|]. split; [exact Ht|].
  split; [exact Hdata|].
  split; [apply NewStscIter_tableData; lia|]. split; [reflexivity|].
  unfold tableData. rewrite u32_id by lia.
  apply (StscIter_yields_from entries [] (len entries));
    [reflexivity | lia | exact Hrange].
Qed.

Lemma stsc_round_trip_witness :
  exists w r data it,
    bmff.WriteStsc [{| bmff.StscEntry.FirstChunk := 1;
                       bmff.StscEntry.SamplesPerChunk := 2;
                       bmff.StscEntry.SampleDescriptionId := 1 |}]
      (bmff.NewWriter (repeat 0 28)) = Ok w /\
    bmff.reader.Next (bmff.reader.NewReader (bmff.Bytes w)) = Ok (r, true) /\
    bmff.reader.Type_ r = bmff.TypeStsc /\
    bmff.reader.Data r = Ok data /\
    bmff.StscIter.NewStscIter data = Ok it /\
    bmff.StscIter.Count it
    = len [{| bmff.StscEntry.FirstChunk := 1;
              bmff.StscEntry.SamplesPerChunk := 2;
              bmff.StscEntry.SampleDescriptionId := 1 |}] /\
    yields bmff.StscIter.Next it
      [{| bmff.StscEntry.FirstChunk := 1;
          bmff.StscEntry.SamplesPerChunk := 2;
          bmff.StscEntry.SampleDescriptionId := 1 |}].
Proof.
  apply (stsc_round_trip
           [{| bmff.StscEntry.FirstChunk := 1;
               bmff.StscEntry.SamplesPerChunk := 2;
               bmff.StscEntry.SampleDescriptionId := 1 |}]
           (repeat 0 28)).
  - vm_compute. discriminate.
  - vm_compute. reflexivity.
  - intros e [<-|[]]. unfold isUint32. cbn. lia.
Defined.

(** *** stco, stss and co64 *)

Lemma Uint32Iter_Next_entry (it : bmff.Uint32Iter.t) v :
  bmff.Uint32Iter.index it < bmff.Uint32Iter.count it ->
  4 + bmff.Uint32Iter.index it * 4 + 4 <= len (bmff.Uint32Iter.buf it) ->
  bmff.uint32From (bmff.Uint32Iter.buf it) (4 + bmff.Uint32Iter.index it * 4)
  = Ok v ->
  bmff.Uint32Iter.Next it
  = Ok ({| bmff.Uint32Iter.buf := bmff.Uint32Iter.buf it;
           bmff.Uint32Iter.count := bmff.Uint32Iter.count it;
           bmff.Uint32Iter.index := u32 (bmff.Uint32Iter.index it + 1) |},
        (v, true)).
Proof.
  intros Hi Hfit Hv. unfold bmff.Uint32Iter.Next.
  destruct (_ >=? _) eqn:E; zbool; [lia|].
  destruct (_ >? _) eqn:E2; zbool; [lia|].
  rewrite Hv. reflexivity.
Qed.

Lemma Uint32Iter_Next_done (it : bmff.Uint32Iter.t) :
  bmff.Uint32Iter.count it <= bmff.Uint32Iter.index it ->
  bmff.Uint32Iter.Next it = Ok (it, (0, false)).
Proof.
  intros Hi. unfold bmff.Uint32Iter.Next.
  destruct (_ >=? _) eqn:E; zbool; [reflexivity|lia].
Qed.

Lemma Uint32Iter_yields_from rest : forall done n,
  len done + len rest = n -> n < 2 ^ 32 ->
  (forall e, In e rest -> isUint32 e) ->
  yields bmff.Uint32Iter.Next
    {| bmff.Uint32Iter.buf :=
         PutUint32 n ++ flat_map PutUint32 done ++ flat_map PutUint32 rest;
       bmff.Uint32Iter.count := n;
       bmff.Uint32Iter.index := len done |}
    rest.
Proof.
  induction rest as [|e rest IH]; intros done n Hn Hmax Hrange;
    pose proof (len_nonneg done) as Hdone; cbn [yields].
  - change (len (@nil Z)) with 0 in Hn.
    rewrite Uint32Iter_Next_done by (cbn; lia). eauto.
  - rewrite len_cons in Hn. pose proof (len_nonneg rest) as Hrest.
    assert (len (flat_map PutUint32 done) = 4 * len done) as Hld
      by (apply len_flat_map; reflexivity).
    assert (len (flat_map PutUint32 rest) = 4 * len rest) as Hlr
      by (apply len_flat_map; reflexivity).
    pose proof (Hrange e (or_introl eq_refl)) as He.
    cbn [flat_map].
    eexists. split.
    + rewrite (Uint32Iter_Next_entry _ e);
        cbn [bmff.Uint32Iter.buf bmff.Uint32Iter.count
             bmff.Uint32Iter.index].
      * reflexivity.
      * lia.
      * rewrite !len_app, !len_PutUint32, Hld, Hlr. lia.
      * rewrite <- (u32_id e) at 2 by exact He.
        apply (uint32From_split _ (PutUint32 n ++ flat_map PutUint32 done) e
                 (flat_map PutUint32 rest)); split_side.
    + cbn [bmff.Uint32Iter.buf bmff.Uint32Iter.count bmff.Uint32Iter.index].
      rewrite (u32_id (len done + 1)) by lia.
      specialize (IH (done ++ [e]) n).
      rewrite len_app, len_cons in IH.
      change (len (@nil Z)) with 0 in IH.
      rewrite flat_map_app in IH. cbn [flat_map] in IH.
      rewrite app_nil_r in IH.
      rewrite <- ?app_assoc in IH. rewrite <- ?app_assoc.
      replace (len done + (1 + 0)) with (len done + 1) in IH by lia.
      apply IH; [lia | lia | intros; apply Hrange; now right].
Qed.

Lemma NewUint32Iter_tableData entries :
  len entries < 2 ^ 32 ->
  bmff.Uint32Iter.NewUint32Iter (tableData PutUint32 entries)
  = Ok {| bmff.Uint32Iter.buf := tableData PutUint32 entries;
          bmff.Uint32Iter.count := len entries;
          bmff.Uint32Iter.index := 0 |}.
Proof.
  intros Hn. pose proof (len_nonneg entries).
  unfold bmff.Uint32Iter.NewUint32Iter.
  rewrite (len_tableData PutUint32 4) by reflexivity.
  destruct (4 + 4 * len entries <? 4) eqn:E; zbool; [lia|].
  unfold tableData. rewrite uint32In_front. cbn [bind].
  now rewrite !u32_id by lia.
Qed.

Lemma appends_WriteStco entries :
  appends 1 (bmff.WriteStco entries)
    (fullBoxBytes bmff.TypeStco 0 0 (tableData PutUint32 entries)).
Proof.
  apply appends_table; [reflexivity|]. intros e. apply appends_putUint32.
Qed.

Lemma appends_WriteStss entries :
  appends 1 (bmff.WriteStss entries)
    (fullBoxBytes bmff.TypeStss 0 0 (tableData PutUint32 entries)).
Proof.
  apply appends_table; [reflexivity|]. intros e. apply appends_putUint32.
Qed.

(** X15.  Chunk offsets written by [WriteStco] and sync sample numbers
    written by [WriteStss] are read back: [Reader.Next] finds the box, and
    [Uint32Iter] on its data yields the values that were written, then
    stops. *)
Theorem stco_stss_round_trip entries b :
  16 + 4 * len entries <= len b -> 16 + 4 * len entries < 2 ^ 32 ->
  (forall e, In e entries -> isUint32 e) ->
  (exists w r data it,
     bmff.WriteStco entries (bmff.NewWriter b) = Ok w /\
     bmff.reader.Next (bmff.reader.NewReader (bmff.Bytes w))
     = Ok (r, true) /\
     bmff.reader.Type_ r = bmff.TypeStco /\
     bmff.reader.Data r = Ok data /\
     bmff.Uint32Iter.NewUint32Iter data = Ok it /\
     bmff.Uint32Iter.Count it = len entries /\
     yields bmff.Uint32Iter.Next it entries) /\
  (exists w r data it,
     bmff.WriteStss entries (bmff.NewWriter b) = Ok w /\
     bmff.reader.Next (bmff.reader.NewReader (bmff.Bytes w))
     = Ok (r, true) /\
     bmff.reader.Type_ r = bmff.TypeStss /\
     bmff.reader.Data r = Ok data /\
     bmff.Uint32Iter.NewUint32Iter data = Ok it /\
     bmff.Uint32Iter.Count it = len entries /\
     yields bmff.Uint32Iter.Next it entries).
Proof.
  intros Hroom Hsize Hrange. pose proof (len_nonneg entries).
  assert (yields bmff.Uint32Iter.Next
            {| bmff.Uint32Iter.buf := tableData PutUint32 entries;
               bmff.Uint32Iter.count := len entries;
               bmff.Uint32Iter.index := 0 |} entries) as Hyields.
  { unfold tableData. rewrite u32_id by lia.
    apply (Uint32Iter_yields_from entries [] (len entries));
      [reflexivity | lia | exact Hrange]. }
  split.
  - destruct (written_fullbox_read _ _ _ _ _ b (appends_WriteStco entries))
      as (w & r & Hw & Hr & Ht & _ & _ & Hdata);
      rewrite ?(len_tableData PutUint32 4) by reflexivity;
      try reflexivity; try lia.
    exists w, r, (tableData PutUint32 entries). eexists.
    split; [exact Hw|]. split; [exact Hr|]. split; [exact Ht|].
    split; [exact Hdata|].
    split; [apply NewUint32Iter_tableData; lia|].
    split; [reflexivity | exact Hyields].
  - destruct (written_fullbox_read _ _ _ _ _ b (appends_WriteStss entries))
      as (w & r & Hw & Hr & Ht & _ & _ & Hdata);
      rewrite ?(len_tableData PutUint32 4) by reflexivity;
      try reflexivity; try lia.
    exists w, r, (tableData PutUint32 entries). eexists.
    split; [exact Hw|]. split; [exact Hr|]. split; [exact Ht|].
    split; [exact Hdata|].
    split; [apply NewUint32Iter_tableData; lia|].
    split; [reflexivity | exact Hyields].
Qed.

Lemma stco_stss_round_trip_witness :
  (exists w r data it,
     bmff.WriteStco [100; 500] (bmff.NewWriter (repeat 0 24)) = Ok w /\
     bmff.reader.Next (bmff.reader.NewReader (bmff.Bytes w))
     = Ok (r, true) /\
     bmff.reader.Type_ r = bmff.TypeStco /\
     bmff.reader.Data r = Ok data /\
     bmff.Uint32Iter.NewUint32Iter data = Ok it /\
     bmff.Uint32Iter.Count it = len [100; 500] /\
     yields bmff.Uint32Iter.Next it [100; 500]) /\
  (exists w r data it,
     bmff.WriteStss [100; 500] (bmff.NewWriter (repeat 0 24)) = Ok w /\
     bmff.reader.Next (bmff.reader.NewReader (bmff.Bytes w))
     = Ok (r, true) /\
     bmff.reader.Type_ r = bmff.TypeStss /\
     bmff.reader.Data r = Ok data /\
     bmff.Uint32Iter.NewUint32Iter data = Ok it /\
     bmff.Uint32Iter.Count it = len [100; 500] /\
     yields bmff.Uint32Iter.Next it [100; 500]).
Proof.
  apply (stco_stss_round_trip [100; 500] (repeat 0 24)).
  - vm_compute. discriminate.
  - vm_compute. reflexivity.
  - intros e [<-|[<-|[]]]; unfold isUint32; lia.
Defined.

Lemma Co64Iter_Next_entry (it : bmff.Co64Iter.t) v :
  bmff.Co64Iter.index it < bmff.Co64Iter.count it ->
  4 + bmff.Co64Iter.index it * 8 + 8 <= len (bmff.Co64Iter.buf it) ->
  bmff.uint64From (bmff.Co64Iter.buf it) (4 + bmff.Co64Iter.index it * 8)
  = Ok v ->
  bmff.Co64Iter.Next it
  = Ok ({| bmff.Co64Iter.buf := bmff.Co64Iter.buf it;
           bmff.Co64Iter.count := bmff.Co64Iter.count it;
           bmff.Co64Iter.index := u32 (bmff.Co64Iter.index it + 1) |},
        (v, true)).
Proof.
  intros Hi Hfit Hv. unfold bmff.Co64Iter.Next.
  destruct (_ >=? _) eqn:E; zbool; [lia|].
  destruct (_ >? _) eqn:E2; zbool; [lia|].
  rewrite Hv. reflexivity.
Qed.

Lemma Co64Iter_Next_done (it : bmff.Co64Iter.t) :
  bmff.Co64Iter.count it <= bmff.Co64Iter.index it ->
  bmff.Co64Iter.Next it = Ok (it, (0, false)).
Proof.
  intros Hi. unfold bmff.Co64Iter.Next.
  destruct (_ >=? _) eqn:E; zbool; [reflexivity|lia].
Qed.

Lemma u64_id z : isUint64 z -> u64 z = z.
Proof. intros H. unfold u64. apply Z.mod_small. exact H. Qed.

Lemma Co64Iter_yields_from rest : forall done n,
  len done + len rest = n -> n < 2 ^ 32 ->
  (forall e, In e rest -> isUint64 e) ->
  yields bmff.Co64Iter.Next
    {| bmff.Co64Iter.buf :=
         PutUint32 n ++ flat_map PutUint64 done ++ flat_map PutUint64 rest;
       bmff.Co64Iter.count := n;
       bmff.Co64Iter.index := len done |}
    rest.
Proof.
  induction rest as [|e rest IH]; intros done n Hn Hmax Hrange;
    pose proof (len_nonneg done) as Hdone; cbn [yields].
  - change (len (@nil Z)) with 0 in Hn.
    rewrite Co64Iter_Next_done by (cbn; lia). eauto.
  - rewrite len_cons in Hn. pose proof (len_nonneg rest) as Hrest.
    assert (len (flat_map PutUint64 done) = 8 * len done) as Hld
      by (apply len_flat_map; reflexivity).
    assert (len (flat_map PutUint64 rest) = 8 * len rest) as Hlr
      by (apply len_flat_map; reflexivity).
    pose proof (Hrange e (or_introl eq_refl)) as He.
    cbn [flat_map].
    eexists. split.
    + rewrite (Co64Iter_Next_entry _ e);
        cbn [bmff.Co64Iter.buf bmff.Co64Iter.count bmff.Co64Iter.index].
      * reflexivity.
      * lia.
      * rewrite !len_app, len_PutUint32, len_PutUint64, Hld, Hlr. lia.
      * rewrite <- (u64_id e) at 2 by exact He.
        apply (uint64From_split _ (PutUint32 n ++ flat_map PutUint64 done) e
                 (flat_map PutUint64 rest)); split_side.
    + cbn [bmff.Co64Iter.buf bmff.Co64Iter.count bmff.Co64Iter.index].
      rewrite (u32_id (len done + 1)) by lia.
      specialize (IH (done ++ [e]) n).
      rewrite len_app, len_cons in IH.
      change (len (@nil Z)) with 0 in IH.
      rewrite flat_map_app in IH. cbn [flat_map] in IH.
      rewrite app_nil_r in IH.
      rewrite <- ?app_assoc in IH. rewrite <- ?app_assoc.
      replace (len done + (1 + 0)) with (len done + 1) in IH by lia.
      apply IH; [lia | lia | intros; apply Hrange; now right].
Qed.

Lemma NewCo64Iter_tableData entries :
  len entries < 2 ^ 32 ->
  bmff.Co64Iter.NewCo64Iter (tableData PutUint64 entries)
  = Ok {| bmff.Co64Iter.buf := tableData PutUint64 entries;
          bmff.Co64Iter.count := len entries;
          bmff.Co64Iter.index := 0 |}.
Proof.
  intros Hn. pose proof (len_nonneg entries).
  unfold bmff.Co64Iter.NewCo64Iter.
  rewrite (len_tableData PutUint64 8) by reflexivity.
  destruct (4 + 8 * len entries <? 4) eqn:E; zbool; [lia|].
  unfold tableData. rewrite uint32In_front. cbn [bind].
  now rewrite !u32_id by lia.
Qed.

Lemma appends_WriteCo64 entries :
  appends 1 (bmff.WriteCo64 entries)
    (fullBoxBytes bmff.TypeCo64 0 0 (tableData PutUint64 entries)).
Proof.
  apply appends_table; [reflexivity|]. intros e. apply appends_putUint64.
Qed.

(** X16.  64-bit chunk offsets written by [WriteCo64] are read back:
    [Reader.Next] finds the co64 box, and [Co64Iter] on its data yields the
    offsets that were written, then stops. *)
Theorem co64_round_trip entries b :
  16 + 8 * len entries <= len b -> 16 + 8 * len entries < 2 ^ 32 ->
  (forall e, In e entries -> isUint64 e) ->
  exists w r data it,
    bmff.WriteCo64 entries (bmff.NewWriter b) = Ok w /\
    bmff.reader.Next (bmff.reader.NewReader (bmff.Bytes w)) = Ok (r, true) /\
    bmff.reader.Type_ r = bmff.TypeCo64 /\
    bmff.reader.Data r = Ok data /\
    bmff.Co64Iter.NewCo64Iter data = Ok it /\
    bmff.Co64Iter.Count it = len entries /\
    yields bmff.Co64Iter.Next it entries.
Proof.
  intros Hroom Hsize Hrange. pose proof (len_nonneg entries).
  destruct (written_fullbox_read _ _ _ _ _ b (appends_WriteCo64 entries))
    as (w & r & Hw & Hr & Ht & _ & _ & Hdata);
    rewrite ?(len_tableData PutUint64 8) by reflexivity;
    try reflexivity; try lia.
  exists w, r, (tableData PutUint64 entries). eexists.
  split; [exact Hw|]. split; [exact Hr|]. split; [exact Ht|].
  split; [exact Hdata|].
  split; [apply NewCo64Iter_tableData; lia|]. split; [reflexivity|].
  unfold tableData. rewrite u32_id by lia.
  apply (Co64Iter_yields_from entries [] (len entries));
    [reflexivity | lia | exact Hrange].
Qed.

Lemma co64_round_trip_witness :
  exists w r data it,
    bmff.WriteCo64 [4294967296] (bmff.NewWriter (repeat 0 24)) = Ok w /\
    bmff.reader.Next (bmff.reader.NewReader (bmff.Bytes w)) = Ok (r, true) /\
    bmff.reader.Type_ r = bmff.TypeCo64 /\
    bmff.reader.Data r = Ok data /\
    bmff.Co64Iter.NewCo64Iter data = Ok it /\
    bmff.Co64Iter.Count it = len [4294967296] /\
    yields bmff.Co64Iter.Next it [4294967296].
Proof.
  apply (co64_round_trip [4294967296] (repeat 0 24)).
  - vm_compute. discriminate.
  - vm_compute. reflexivity.
  - intros e [<-|[]]; unfold isUint64; lia.
Defined.

(** *** stsz *)

Lemma StszIter_Next_done (it : bmff.StszIter.t) :
  bmff.StszIter.count it <= bmff.StszIter.index it ->
  bmff.StszIter.Next it = Ok (it, (0, false)).
Proof.
  intros Hi. unfold bmff.StszIter.Next.
  destruct (_ >=? _) eqn:E; zbool; [reflexivity|lia].
Qed.

Lemma StszIter_Next_common (it : bmff.StszIter.t) :
  bmff.StszIter.index it < bmff.StszIter.count it ->
  bmff.StszIter.sampleSize it <> 0 ->
  bmff.StszIter.Next it
  = Ok ({| bmff.StszIter.buf := bmff.StszIter.buf it;
           bmff.StszIter.sampleSize := bmff.StszIter.sampleSize it;
           bmff.StszIter.count := bmff.StszIter.count it;
           bmff.StszIter.index := u32 (bmff.StszIter.index it + 1) |},
        (bmff.StszIter.sampleSize it, true)).
Proof.
  intros Hi Hss. unfold bmff.StszIter.Next.
  destruct (_ >=? _) eqn:E; zbool; [lia|].
  destruct (bmff.StszIter.sampleSize it =? 0) eqn:E0; zbool; [lia|].
  reflexivity.
Qed.

Lemma StszIter_Next_entry (it : bmff.StszIter.t) v :
  bmff.StszIter.index it < bmff.StszIter.count it ->
  bmff.StszIter.sampleSize it = 0 ->
  8 + bmff.StszIter.index it * 4 + 4 <= len (bmff.StszIter.buf it) ->
  bmff.uint32From (bmff.StszIter.buf it) (8 + bmff.StszIter.index it * 4)
  = Ok v ->
  bmff.StszIter.Next it
  = Ok ({| bmff.StszIter.buf := bmff.StszIter.buf it;
           bmff.StszIter.sampleSize := bmff.StszIter.sampleSize it;
           bmff.StszIter.count := bmff.StszIter.count it;
           bmff.StszIter.index := u32 (bmff.StszIter.index it + 1) |},
        (v, true)).
Proof.
  intros Hi Hss Hfit Hv. unfold bmff.StszIter.Next.
  destruct (_ >=? _) eqn:E; zbool; [lia|].
  rewrite Hss. cbn [Z.eqb negb].
  destruct (_ >? _) eqn:E2; zbool; [lia|].
  rewrite Hv. reflexivity.
Qed.

Lemma StszIter_yields_common b sampleSize n : forall k i,
  sampleSize <> 0 -> i + Z.of_nat k = n -> 0 <= i -> n < 2 ^ 32 ->
  yields bmff.StszIter.Next
    {| bmff.StszIter.buf := b; bmff.StszIter.sampleSize := sampleSize;
       bmff.StszIter.count := n; bmff.StszIter.index := i |}
    (repeat sampleSize k).
Proof.
  induction k as [|k IH]; intros i Hss Hn Hi Hmax; cbn [repeat yields].
  - rewrite StszIter_Next_done by (cbn; lia). eauto.
  - eexists. split.
    + rewrite StszIter_Next_common by (cbn; lia || assumption).
      reflexivity.
    + cbn [bmff.StszIter.buf bmff.StszIter.sampleSize bmff.StszIter.count
           bmff.StszIter.index].
      rewrite u32_id by lia. apply IH; lia || assumption.
Qed.

Lemma StszIter_yields_from rest : forall done n,
  len done + len rest = n -> n < 2 ^ 32 ->
  (forall e, In e rest -> isUint32 e) ->
  yields bmff.StszIter.Next
    {| bmff.StszIter.buf :=
         PutUint32 0 ++ PutUint32 n ++ flat_map PutUint32 done
         ++ flat_map PutUint32 rest;
       bmff.StszIter.sampleSize := 0;
       bmff.StszIter.count := n;
       bmff.StszIter.index := len done |}
    rest.
Proof.
  induction rest as [|e rest IH]; intros done n Hn Hmax Hrange;
    pose proof (len_nonneg done) as Hdone; cbn [yields].
  - change (len (@nil Z)) with 0 in Hn.
    rewrite StszIter_Next_done by (cbn; lia). eauto.
  - rewrite len_cons in Hn. pose proof (len_nonneg rest) as Hrest.
    assert (len (flat_map PutUint32 done) = 4 * len done) as Hld
      by (apply len_flat_map; reflexivity).
    assert (len (flat_map PutUint32 rest) = 4 * len rest) as Hlr
      by (apply len_flat_map; reflexivity).
    pose proof (Hrange e (or_introl eq_refl)) as He.
    cbn [flat_map].
    eexists. split.
    + rewrite (StszIter_Next_entry _ e);
        cbn [bmff.StszIter.buf bmff.StszIter.count bmff.StszIter.index
             bmff.StszIter.sampleSize].
      * reflexivity.
      * lia.
      * reflexivity.
      * rewrite !len_app, !len_PutUint32, Hld, Hlr. lia.
      * rewrite <- (u32_id e) at 2 by exact He.
        apply (uint32From_split _
                 (PutUint32 0 ++ PutUint32 n ++ flat_map PutUint32 done) e
                 (flat_map PutUint32 rest)); split_side.
    + cbn [bmff.StszIter.buf bmff.StszIter.count bmff.StszIter.index
           bmff.StszIter.sampleSize].
      rewrite (u32_id (len done + 1)) by lia.
      specialize (IH (done ++ [e]) n).
      rewrite len_app, len_cons in IH.
      change (len (@nil Z)) with 0 in IH.
      rewrite flat_map_app in IH. cbn [flat_map] in IH.
      rewrite app_nil_r in IH.
      rewrite <- ?app_assoc in IH. rewrite <- ?app_assoc.
      replace (len done + (1 + 0)) with (len done + 1) in IH by lia.
      apply IH; [lia | lia | intros; apply Hrange; now right].
Qed.

Lemma len_stszData sampleSize entries :
  len (stszData sampleSize entries)
  = 8 + (if sampleSize =? 0 then 4 * len entries else 0).
Proof.
  unfold stszData. rewrite !len_app, !len_PutUint32.
  destruct (sampleSize =? 0).
  - rewrite (len_flat_map PutUint32 4) by reflexivity. lia.
  - reflexivity.
Qed.

Lemma appends_WriteStsz sampleSize entries :
  appends 1 (bmff.WriteStsz sampleSize entries)
    (fullBoxBytes bmff.TypeStsz 0 0 (stszData sampleSize entries)).
Proof.
  apply (appends_fullbox 0 bmff.TypeStsz 0 0
           (bmff.putUint32 sampleSize
            :: bmff.putUint32 (u32 (len entries))
            :: (if sampleSize =? 0 then map bmff.putUint32 entries else []))
           (stszData sampleSize entries) eq_refl ltac:(lia)).
  unfold stszData.
  apply appends_seq_cons; [apply appends_putUint32|].
  apply appends_seq_cons; [apply appends_putUint32|].
  destruct (sampleSize =? 0).
  - apply appends_seq_map; [apply appends_putUint32 | lia].
  - apply appends_seq_nil.
Qed.

Lemma NewStszIter_stszData sampleSize entries :
  isUint32 sampleSize -> len entries < 2 ^ 32 ->
  bmff.StszIter.NewStszIter (stszData sampleSize entries)
  = Ok {| bmff.StszIter.buf := stszData sampleSize entries;
          bmff.StszIter.sampleSize := sampleSize;
          bmff.StszIter.count := len entries;
          bmff.StszIter.index := 0 |}.
Proof.
  intros Hss Hn. pose proof (len_nonneg entries).
  unfold bmff.StszIter.NewStszIter.
  rewrite len_stszData.
  destruct (8 + (if sampleSize =? 0 then 4 * len entries else 0) <? 8)
    eqn:E; zbool; [destruct (sampleSize =? 0); lia|].
  unfold stszData. rewrite uint32In_front. cbn [bind].
  unfold bmff.uint32In.
  rewrite (sub_app (PutUint32 sampleSize) (PutUint32 (u32 (len entries)))
             _ 4 8) by reflexivity.
  cbn [bind].
  rewrite <- (app_nil_r (PutUint32 (u32 (len entries)))) at 1.
  rewrite beUint32_PutUint32_app. cbn [bind].
  now rewrite !(u32_id (len entries)), (u32_id sampleSize) by (lia || exact Hss).
Qed.

(** X17.  Sample sizes written by [WriteStsz] are read back: [Reader.Next]
    finds the stsz box, and [StszIter] on its data counts the samples and
    yields the sizes that were written; with a common sample size it
    yields that size once per sample. *)
Theorem stsz_round_trip sampleSize entries b :
  isUint32 sampleSize ->
  20 + 4 * len entries <= len b -> 20 + 4 * len entries < 2 ^ 32 ->
  (forall e, In e entries -> isUint32 e) ->
  exists w r data it,
    bmff.WriteStsz sampleSize entries (bmff.NewWriter b) = Ok w /\
    bmff.reader.Next (bmff.reader.NewReader (bmff.Bytes w)) = Ok (r, true) /\
    bmff.reader.Type_ r = bmff.TypeStsz /\
    bmff.reader.Data r = Ok data /\
    bmff.StszIter.NewStszIter data = Ok it /\
    bmff.StszIter.Count it = len entries /\
    yields bmff.StszIter.Next it
      (if sampleSize =? 0 then entries
       else repeat sampleSize (List.length entries)).
Proof.
  intros Hss Hroom Hsize Hrange. pose proof (len_nonneg entries).
  destruct (written_fullbox_read _ _ _ _ _ b
              (appends_WriteStsz sampleSize entries))
    as (w & r & Hw & Hr & Ht & _ & _ & Hdata);
    rewrite ?len_stszData; try reflexivity;
    try (destruct (sampleSize =? 0); lia).
  exists w, r, (stszData sampleSize entries). eexists.
  split; [exact Hw|]. split; [exact Hr|]. split; [exact Ht|].
  split; [exact Hdata|].
  split; [apply NewStszIter_stszData; [exact Hss|lia]|].
  split; [reflexivity|].
  unfold stszData. rewrite u32_id by lia.
  destruct (sampleSize =? 0) eqn:E; zbool.
  - subst sampleSize.
    apply (StszIter_yields_from entries [] (len entries));
      [reflexivity | lia | exact Hrange].
  - apply StszIter_yields_common; unfold len in *; lia || assumption.
Qed.

Lemma stsz_round_trip_witness :
  exists w r data it,
    bmff.WriteStsz 0 [10; 20] (bmff.NewWriter (repeat 0 28)) = Ok w /\
    bmff.reader.Next (bmff.reader.NewReader (bmff.Bytes w)) = Ok (r, true) /\
    bmff.reader.Type_ r = bmff.TypeStsz /\
    bmff.reader.Data r = Ok data /\
    bmff.StszIter.NewStszIter data = Ok it /\
    bmff.StszIter.Count it = len [10; 20] /\
    yields bmff.StszIter.Next it [10; 20].
Proof.
  apply (stsz_round_trip 0 [10; 20] (repeat 0 28)).
  - unfold isUint32. lia.
  - vm_compute. discriminate.
  - vm_compute. reflexivity.
  - intros e [<-|[<-|[]]]; unfold isUint32; lia.
Defined.

(** *** elst *)











(** *** trun *)

Lemma uint32From_peel pre rest lo :
  len pre <= lo ->
  bmff.uint32From (pre ++ rest) lo = bmff.uint32From rest (lo - len pre).
Proof.
  intros Hlo. pose proof (len_nonneg pre). unfold bmff.uint32From, bmff.from.
  rewrite len_app.
  destruct (Z.leb_spec 0 lo); [|lia].
  destruct (Z.leb_spec 0 (lo - len pre)); [|lia].
  cbn [andb].
  destruct (Z.leb_spec lo (len pre + len rest));
    destruct (Z.leb_spec (lo - len pre) (len rest)); try lia;
    [|reflexivity].
  rewrite skipn_app.
  rewrite skipn_all2 by (unfold len in *; lia).
  cbn [app bind]. do 2 f_equal. unfold len. lia.
Qed.

Lemma uint32From_front v tail lo :
  lo = 0 -> bmff.uint32From (PutUint32 v ++ tail) lo = Ok (u32 v).
Proof.
  intros ->. apply (uint32From_app [] v tail). reflexivity.
Qed.

Lemma len_nil {A} : len (@nil A) = 0.
Proof. reflexivity. Qed.

Lemma appends_trunField k (present : bool) v :
  0 <= k ->
  appends k (bmff.seq (if present then [bmff.putUint32 v] else []))
    (trunField present v).
Proof.
  intros Hk. destruct present; cbn [trunField].
  - apply appends_seq_one. apply (appends_weaken 0);
      [apply appends_putUint32 | exact Hk].
  - apply (appends_weaken 0); [apply appends_seq_nil | exact Hk].
Qed.

Lemma appends_trunFieldInt k (present : bool) v :
  0 <= k ->
  appends k (bmff.seq (if present then [bmff.putInt32 v] else []))
    (trunField present (u32 v)).
Proof.
  intros Hk. destruct present; cbn [trunField].
  - apply appends_seq_one. apply (appends_weaken 0);
      [apply appends_putInt32 | exact Hk].
  - apply (appends_weaken 0); [apply appends_seq_nil | exact Hk].
Qed.

Lemma appends_WriteTrun flags dataOffset entries :
  appends 1 (bmff.WriteTrun flags dataOffset entries)
    (fullBoxBytes bmff.TypeTrun 0 flags (trunData flags dataOffset entries)).
Proof.
  unfold bmff.WriteTrun, trunData.
  match goal with |- context [map ?f entries] => set (F := f) end.
  assert (HF : appends 0 (bmff.seq (map F entries))
                 (flat_map (encTrun flags) entries)).
  { apply appends_seq_map; [|lia]. intros e. unfold F, encTrun.
    apply appends_seq_app; [apply appends_trunField; lia|].
    apply appends_seq_app; [apply appends_trunField; lia|].
    apply appends_seq_app; [apply appends_trunField; lia|].
    apply appends_trunFieldInt; lia. }
  destruct (bmff.has flags bmff.TrunDataOffsetPresent);
    cbn [trunField app].
  - apply (appends_fullbox 0 bmff.TypeTrun 0 flags
             (bmff.putUint32 (u32 (len entries))
              :: bmff.putInt32 dataOffset :: map F entries)
             _ eq_refl ltac:(lia)).
    apply appends_seq_cons; [apply appends_putUint32|].
    apply appends_seq_cons; [apply appends_putInt32 | exact HF].
  - apply (appends_fullbox 0 bmff.TypeTrun 0 flags
             (bmff.putUint32 (u32 (len entries)) :: map F entries)
             _ eq_refl ltac:(lia)).
    apply appends_seq_cons; [apply appends_putUint32 | exact HF].
Qed.

Lemma len_encTrun flags e : len (encTrun flags e) = trunStride flags.
Proof.
  unfold encTrun, trunStride.
  destruct (bmff.has flags bmff.TrunSampleDurationPresent),
    (bmff.has flags bmff.TrunSampleSizePresent),
    (bmff.has flags bmff.TrunSampleFlagsPresent),
    (bmff.has flags bmff.TrunSampleCompositionTimeOffsetPresent);
    cbn [trunField app];
    rewrite ?len_app, ?len_PutUint32; reflexivity.
Qed.

Lemma trunStride_range flags : 0 <= trunStride flags <= 16.
Proof.
  unfold trunStride.
  destruct (bmff.has flags bmff.TrunSampleDurationPresent),
    (bmff.has flags bmff.TrunSampleSizePresent),
    (bmff.has flags bmff.TrunSampleFlagsPresent),
    (bmff.has flags bmff.TrunSampleCompositionTimeOffsetPresent); lia.
Qed.

(** Reads the field at the front of what is left of the buffer once the
    segments before the offset are taken off. *)
Ltac read_field :=
  repeat (rewrite uint32From_peel by (rewrite ?len_PutUint32; lia));
  rewrite uint32From_front by (rewrite ?len_PutUint32; lia);
  cbn [bind].

Lemma TrunIter_Next_entry (it : bmff.TrunIter.t) pre e post :
  bmff.TrunIter.buf it
  = pre ++ encTrun (bmff.TrunIter.flags it) e ++ post ->
  len pre
  = bmff.TrunIter.entriesStart it
    + bmff.TrunIter.index it * bmff.TrunIter.stride it ->
  bmff.TrunIter.stride it = trunStride (bmff.TrunIter.flags it) ->
  bmff.TrunIter.index it < bmff.TrunIter.count it ->
  trunEntryOk e ->
  bmff.TrunIter.Next it
  = Ok ({| bmff.TrunIter.buf := bmff.TrunIter.buf it;
           bmff.TrunIter.flags := bmff.TrunIter.flags it;
           bmff.TrunIter.count := bmff.TrunIter.count it;
           bmff.TrunIter.index := u32 (bmff.TrunIter.index it + 1);
           bmff.TrunIter.dataOffset := bmff.TrunIter.dataOffset it;
           bmff.TrunIter.firstSampleFlags := bmff.TrunIter.firstSampleFlags it;
           bmff.TrunIter.stride := bmff.TrunIter.stride it;
           bmff.TrunIter.entriesStart := bmff.TrunIter.entriesStart it |},
        (maskTrun (bmff.TrunIter.flags it) e, true)).
Proof.
  intros Hbuf Hpre Hstride Hi (Hd & Hs & Hf & Hc).
  pose proof (len_nonneg pre) as Hp0. pose proof (len_nonneg post) as Hq0.
  pose proof (len_encTrun (bmff.TrunIter.flags it) e) as Hle.
  unfold bmff.TrunIter.Next.
  destruct (_ >=? _) eqn:E; zbool; [lia|].
  destruct (_ >? _) eqn:E2; zbool;
    [rewrite Hbuf, !len_app in E2; lia|].
  clear E E2 Hle. unfold maskTrun. rewrite Hbuf. unfold encTrun.
  destruct e as [d s f c].
  cbn [bmff.TrunEntry.Duration bmff.TrunEntry.Size bmff.TrunEntry.Flags
       bmff.TrunEntry.CompositionTimeOffset] in *.
  destruct (bmff.has _ bmff.TrunSampleDurationPresent),
    (bmff.has _ bmff.TrunSampleSizePresent),
    (bmff.has _ bmff.TrunSampleFlagsPresent),
    (bmff.has _ bmff.TrunSampleCompositionTimeOffsetPresent);
    cbn [trunField app bind]; rewrite <- ?app_assoc;
    repeat read_field;
    rewrite ?u32_u32, ?(u32_id d), ?(u32_id s), ?(u32_id f), ?(i32_u32 c)
      by assumption;
    reflexivity.
Qed.

Lemma TrunIter_Next_done (it : bmff.TrunIter.t) :
  bmff.TrunIter.count it <= bmff.TrunIter.index it ->
  bmff.TrunIter.Next it = Ok (it, (bmff.TrunIter.noEntry, false)).
Proof.
  intros Hi. unfold bmff.TrunIter.Next.
  destruct (_ >=? _) eqn:E; zbool; [reflexivity|lia].
Qed.

Lemma TrunIter_yields_from flags hdr dOff fsf rest : forall done n,
  len done + len rest = n -> n < 2 ^ 32 ->
  (forall e, In e rest -> trunEntryOk e) ->
  yields bmff.TrunIter.Next
    {| bmff.TrunIter.buf :=
         hdr ++ flat_map (encTrun flags) done
         ++ flat_map (encTrun flags) rest;
       bmff.TrunIter.flags := flags;
       bmff.TrunIter.count := n;
       bmff.TrunIter.index := len done;
       bmff.TrunIter.dataOffset := dOff;
       bmff.TrunIter.firstSampleFlags := fsf;
       bmff.TrunIter.stride := trunStride flags;
       bmff.TrunIter.entriesStart := len hdr |}
    (map (maskTrun flags) rest).
Proof.
  induction rest as [|e rest IH]; intros done n Hn Hmax Hrange;
    pose proof (len_nonneg done) as Hdone; cbn [yields map].
  - change (len (@nil bmff.TrunEntry.t)) with 0 in Hn.
    rewrite TrunIter_Next_done by (cbn; lia). eauto.
  - rewrite len_cons in Hn. pose proof (len_nonneg rest) as Hrest.
    cbn [flat_map]. eexists. split.
    + rewrite (TrunIter_Next_entry _
                 (hdr ++ flat_map (encTrun flags) done) e
                 (flat_map (encTrun flags) rest));
        cbn [bmff.TrunIter.buf bmff.TrunIter.flags bmff.TrunIter.count
             bmff.TrunIter.index bmff.TrunIter.stride
             bmff.TrunIter.entriesStart].
      * reflexivity.
      * now rewrite <- !app_assoc.
      * rewrite len_app,
          (len_flat_map (encTrun flags) (trunStride flags))
          by apply len_encTrun.
        lia.
      * reflexivity.
      * lia.
      * apply Hrange. now left.
    + cbn [bmff.TrunIter.buf bmff.TrunIter.flags bmff.TrunIter.count
           bmff.TrunIter.index bmff.TrunIter.stride
           bmff.TrunIter.entriesStart bmff.TrunIter.dataOffset
           bmff.TrunIter.firstSampleFlags].
      rewrite u32_id by lia.
      specialize (IH (done ++ [e]) n).
      rewrite len_app, len_cons in IH.
      change (len (@nil bmff.TrunEntry.t)) with 0 in IH.
      rewrite flat_map_app in IH. cbn [flat_map] in IH.
      rewrite app_nil_r in IH. rewrite <- ?app_assoc in IH.
      replace (len done + (1 + 0)) with (len done + 1) in IH by lia.
      apply IH; [lia | exact Hmax |].
      intros e' He'. apply Hrange. now right.
Qed.

Lemma len_trunData flags dataOffset entries :
  len (trunData flags dataOffset entries)
  = 4 + (if bmff.has flags bmff.TrunDataOffsetPresent then 4 else 0)
    + trunStride flags * len entries.
Proof.
  unfold trunData.
  rewrite !len_app, len_PutUint32,
    (len_flat_map (encTrun flags) (trunStride flags)) by apply len_encTrun.
  destruct (bmff.has flags bmff.TrunDataOffsetPresent); cbn [trunField];
    rewrite ?len_PutUint32, ?len_nil; lia.
Qed.

Lemma NewTrunIter_trunData flags dataOffset entries :
  bmff.has flags bmff.TrunFirstSampleFlagsPresent = false ->
  isInt32 dataOffset -> len entries < 2 ^ 32 ->
  bmff.TrunIter.NewTrunIter (trunData flags dataOffset entries) flags
  = Ok {| bmff.TrunIter.buf := trunData flags dataOffset entries;
          bmff.TrunIter.flags := flags;
          bmff.TrunIter.count := len entries;
          bmff.TrunIter.index := 0;
          bmff.TrunIter.dataOffset :=
            if bmff.has flags bmff.TrunDataOffsetPresent
            then dataOffset else 0;
          bmff.TrunIter.firstSampleFlags := 0;
          bmff.TrunIter.stride := trunStride flags;
          bmff.TrunIter.entriesStart :=
            if bmff.has flags bmff.TrunDataOffsetPresent then 8 else 4 |}.
Proof.
  intros Hfsf Hoff Hn. pose proof (len_nonneg entries).
  pose proof (trunStride_range flags) as Hs.
  pose proof (len_trunData flags dataOffset entries) as Hlen.
  assert (Hcount : bmff.uint32In (trunData flags dataOffset entries) 0 4
                   = Ok (len entries)).
  { unfold trunData. rewrite uint32In_front, u32_u32.
    now rewrite u32_id by lia. }
  assert (Hread : bmff.has flags bmff.TrunDataOffsetPresent = true ->
                  bmff.uint32From (trunData flags dataOffset entries) 4
                  = Ok (u32 dataOffset)).
  { intros Ed. unfold trunData. rewrite Ed. cbn [trunField].
    read_field. now rewrite u32_u32. }
  unfold bmff.TrunIter.NewTrunIter. rewrite Hfsf, Hcount. cbn [bind].
  destruct (_ <? 4) eqn:E; zbool;
    [destruct (bmff.has flags bmff.TrunDataOffsetPresent); nia|].
  clear E. unfold trunStride.
  destruct (bmff.has flags bmff.TrunDataOffsetPresent) eqn:Ed.
  - destruct (_ >? _) eqn:E; zbool; [nia|].
    rewrite Hread by reflexivity. cbn [bind].
    rewrite i32_u32 by exact Hoff.
    destruct (bmff.has flags bmff.TrunSampleDurationPresent),
      (bmff.has flags bmff.TrunSampleSizePresent),
      (bmff.has flags bmff.TrunSampleFlagsPresent),
      (bmff.has flags bmff.TrunSampleCompositionTimeOffsetPresent);
      reflexivity.
  - cbn [bind].
    destruct (bmff.has flags bmff.TrunSampleDurationPresent),
      (bmff.has flags bmff.TrunSampleSizePresent),
      (bmff.has flags bmff.TrunSampleFlagsPresent),
      (bmff.has flags bmff.TrunSampleCompositionTimeOffsetPresent);
      reflexivity.
Qed.

(** X19.  A track run written by [WriteTrun] is read back sample by
    sample, whatever fields the flags select (the first-sample-flags bit
    apart, which [WriteTrun] does not write): [Reader.Next] finds the trun
    box with the flags that were written, and [TrunIter] on its data gives
    the sample count, the data offset and the samples in order, each field
    as written where the flags select it and 0 where they do not. *)
Theorem trun_round_trip flags dataOffset entries b :
  0 <= flags < 2 ^ 24 ->
  bmff.has flags bmff.TrunFirstSampleFlagsPresent = false ->
  isInt32 dataOffset ->
  (forall e, In e entries -> trunEntryOk e) ->
  20 + 16 * len entries <= len b -> 20 + 16 * len entries < 2 ^ 32 ->
  exists w r data it,
    bmff.WriteTrun flags dataOffset entries (bmff.NewWriter b) = Ok w /\
    bmff.reader.Next (bmff.reader.NewReader (bmff.Bytes w)) = Ok (r, true) /\
    bmff.reader.Type_ r = bmff.TypeTrun /\
    bmff.reader.Flags r = flags /\
    bmff.reader.Data r = Ok data /\
    bmff.TrunIter.NewTrunIter data (bmff.reader.Flags r) = Ok it /\
    bmff.TrunIter.Count it = len entries /\
    bmff.TrunIter.DataOffset it
    = (if bmff.has flags bmff.TrunDataOffsetPresent then dataOffset else 0) /\
    yields bmff.TrunIter.Next it (map (maskTrun flags) entries).
Proof.
  intros Hflags Hfsf Hoff Hrange Hroom Hsize.
  pose proof (len_nonneg entries).
  pose proof (trunStride_range flags) as Hs.
  pose proof (len_trunData flags dataOffset entries) as Hlen.
  assert (Hbound : len (trunData flags dataOffset entries)
                   <= 8 + 16 * len entries)
    by (destruct (bmff.has flags bmff.TrunDataOffsetPresent); nia).
  destruct (written_fullbox_read _ _ _ _ _ b
              (appends_WriteTrun flags dataOffset entries))
    as (w & r & Hw & Hr & Ht & _ & Hfl & Hdata);
    try reflexivity; try lia.
  assert (Hfl' : bmff.reader.Flags r = flags).
  { rewrite Hfl. change 16777215 with (Z.ones 24).
    rewrite Z.land_ones by lia. apply Z.mod_small. lia. }
  exists w, r, (trunData flags dataOffset entries). eexists.
  split; [exact Hw|]. split; [exact Hr|]. split; [exact Ht|].
  split; [exact Hfl'|]. split; [exact Hdata|].
  split; [rewrite Hfl'; apply NewTrunIter_trunData; [exact Hfsf|exact Hoff|lia]
         |].
  split; [reflexivity|]. split; [reflexivity|].
  unfold trunData. rewrite u32_id by lia.
  set (hdr := PutUint32 (len entries)
              ++ trunField (bmff.has flags bmff.TrunDataOffsetPresent)
                   (u32 dataOffset)).
  assert (Hhdr : len hdr
                 = if bmff.has flags bmff.TrunDataOffsetPresent
                   then 8 else 4).
  { unfold hdr. rewrite len_app, len_PutUint32.
    destruct (bmff.has flags bmff.TrunDataOffsetPresent); cbn [trunField];
      rewrite ?len_PutUint32; reflexivity. }
  rewrite <- Hhdr.
  pose proof (TrunIter_yields_from flags hdr
                (if bmff.has flags bmff.TrunDataOffsetPresent
                 then dataOffset else 0) 0 entries [] (len entries)
                eq_refl ltac:(lia) Hrange) as Hy.
  cbn [flat_map app] in Hy. unfold hdr in Hy |- *.
  rewrite <- app_assoc in Hy. exact Hy.
Qed.

Lemma trun_round_trip_witness :
  exists w r data it,
    bmff.WriteTrun 2817 100
      [{| bmff.TrunEntry.Duration := 512; bmff.TrunEntry.Size := 900;
          bmff.TrunEntry.Flags := 7;
          bmff.TrunEntry.CompositionTimeOffset := -3 |}]
      (bmff.NewWriter (repeat 0 36)) = Ok w /\
    bmff.reader.Next (bmff.reader.NewReader (bmff.Bytes w)) = Ok (r, true) /\
    bmff.reader.Type_ r = bmff.TypeTrun /\
    bmff.reader.Flags r = 2817 /\
    bmff.reader.Data r = Ok data /\
    bmff.TrunIter.NewTrunIter data (bmff.reader.Flags r) = Ok it /\
    bmff.TrunIter.Count it = 1 /\
    bmff.TrunIter.DataOffset it = 100 /\
    yields bmff.TrunIter.Next it
      [{| bmff.TrunEntry.Duration := 512; bmff.TrunEntry.Size := 900;
          bmff.TrunEntry.Flags := 0;
          bmff.TrunEntry.CompositionTimeOffset := -3 |}].
Proof.
  apply (trun_round_trip 2817 100
           [{| bmff.TrunEntry.Duration := 512; bmff.TrunEntry.Size := 900;
               bmff.TrunEntry.Flags := 7;
               bmff.TrunEntry.CompositionTimeOffset := -3 |}]
           (repeat 0 36)).
  - lia.
  - reflexivity.
  - unfold isInt32. lia.
  - intros e [<-|[]]. unfold trunEntryOk, isUint32, isInt32. cbn. lia.
  - vm_compute. discriminate.
  - vm_compute. reflexivity.
Defined.

(** *** Header boxes *)

Lemma sub_peel pre rest lo hi :
  len pre <= lo ->
  bmff.sub (pre ++ rest) lo hi = bmff.sub rest (lo - len pre) (hi - len pre).
Proof.
  intros Hlo. pose proof (len_nonneg pre). unfold bmff.sub.
  rewrite len_app.
  destruct (Z.leb_spec 0 lo); [|lia].
  destruct (Z.leb_spec 0 (lo - len pre)); [|lia].
  cbn [andb].
  destruct (Z.leb_spec lo hi);
    destruct (Z.leb_spec (lo - len pre) (hi - len pre)); try lia;
    [|reflexivity].
  cbn [andb].
  destruct (Z.leb_spec hi (len pre + len rest));
    destruct (Z.leb_spec (hi - len pre) (len rest)); try lia;
    [|reflexivity].
  unfold slice. rewrite skipn_app.
  rewrite skipn_all2 by (unfold len in *; lia).
  cbn [app]. do 3 f_equal; unfold len; lia.
Qed.

Lemma sub_front x post lo hi :
  lo = 0 -> hi = len x -> bmff.sub (x ++ post) lo hi = Ok x.
Proof.
  intros -> ->. apply (sub_app [] x post); reflexivity.
Qed.

Lemma uint32In_peel pre rest lo hi :
  len pre <= lo ->
  bmff.uint32In (pre ++ rest) lo hi
  = bmff.uint32In rest (lo - len pre) (hi - len pre).
Proof. intros H. unfold bmff.uint32In. now rewrite sub_peel. Qed.

Lemma uint64In_peel pre rest lo hi :
  len pre <= lo ->
  bmff.uint64In (pre ++ rest) lo hi
  = bmff.uint64In rest (lo - len pre) (hi - len pre).
Proof. intros H. unfold bmff.uint64In. now rewrite sub_peel. Qed.

Lemma uint16In_peel pre rest lo hi :
  len pre <= lo ->
  bmff.uint16In (pre ++ rest) lo hi
  = bmff.uint16In rest (lo - len pre) (hi - len pre).
Proof. intros H. unfold bmff.uint16In. now rewrite sub_peel. Qed.

Lemma uint32In_hit v post lo hi :
  lo = 0 -> hi = 4 ->
  bmff.uint32In (PutUint32 v ++ post) lo hi = Ok (u32 v).
Proof.
  intros Hlo Hhi. unfold bmff.uint32In.
  rewrite sub_front by (rewrite ?len_PutUint32; assumption).
  cbn [bind]. rewrite <- (app_nil_r (PutUint32 v)).
  apply beUint32_PutUint32_app.
Qed.

Lemma uint64In_hit v post lo hi :
  lo = 0 -> hi = 8 ->
  bmff.uint64In (PutUint64 v ++ post) lo hi = Ok (u64 v).
Proof.
  intros Hlo Hhi. unfold bmff.uint64In.
  rewrite sub_front by (rewrite ?len_PutUint64; assumption).
  cbn [bind]. rewrite <- (app_nil_r (PutUint64 v)).
  apply beUint64_PutUint64_app.
Qed.

Lemma uint16In_hit v post lo hi :
  lo = 0 -> hi = 2 ->
  bmff.uint16In (PutUint16 v ++ post) lo hi = Ok (u16 v).
Proof.
  intros Hlo Hhi. unfold bmff.uint16In.
  rewrite sub_front by (rewrite ?len_PutUint16; assumption).
  cbn [bind]. rewrite <- (app_nil_r (PutUint16 v)).
  apply beUint16_PutUint16_app.
Qed.

Lemma cons_snoc {A} (a : A) l body z :
  l = body ++ [z] -> a :: l = (a :: body) ++ [z].
Proof. now intros ->. Qed.

Lemma appends_fullbox_l k t version flags l body c :
  l = body ++ [bmff.EndBox] ->
  len t = 4 -> 0 <= k ->
  appends k (bmff.seq body) c ->
  appends (k + 1) (bmff.seq (bmff.StartFullBox t version flags :: l))
    (fullBoxBytes t version flags c).
Proof. intros ->. apply appends_fullbox. Qed.

Lemma appends_box_l k t l body c :
  l = body ++ [bmff.EndBox] ->
  len t = 4 -> 0 <= k ->
  appends k (bmff.seq body) c ->
  appends (k + 1) (bmff.seq (bmff.StartBox t :: l)) (boxBytes t c).
Proof. intros ->. apply appends_box. Qed.

(** Splits a list of methods into its body and the closing [EndBox]. *)
Ltac snoc_split :=
  first [ exact (eq_refl : [_] = [] ++ [_])
        | eapply cons_snoc; snoc_split ].

(** The bytes of a sequence of field writes, field by field. *)
Ltac appends_fields :=
  repeat match goal with
    | |- appends _ (bmff.seq []) _ => apply appends_seq_nil
    | |- appends _ (bmff.seq (_ :: _)) _ => eapply appends_seq_cons
    | |- appends _ (bmff.putUint32 _) _ => apply appends_putUint32
    | |- appends _ (bmff.putUint64 _) _ => apply appends_putUint64
    | |- appends _ (bmff.putUint16 _) _ => apply appends_putUint16
    | |- appends _ (bmff.putUint8 _) _ => apply appends_putUint8
    | |- appends _ (bmff.putInt32 _) _ => apply appends_putInt32
    | |- appends _ (bmff.putBytes _) _ => apply appends_putBytes
    | |- appends _ (bmff.putZeros _) _ => apply appends_putZeros; lia
    end.

Ltac lens :=
  rewrite ?len_app, ?len_PutUint32, ?len_PutUint64, ?len_PutUint16,
    ?len_repeat, ?len_nil.

(** Reads a field of a content that is given segment by segment. *)
Ltac read_in :=
  first
    [ repeat (rewrite uint32In_peel by (lens; lia));
      rewrite uint32In_hit by (lens; lia)
    | repeat (rewrite uint64In_peel by (lens; lia));
      rewrite uint64In_hit by (lens; lia)
    | repeat (rewrite uint16In_peel by (lens; lia));
      rewrite uint16In_hit by (lens; lia) ].

Lemma u16_id z : 0 <= z < 2 ^ 16 -> u16 z = z.
Proof. intros H. unfold u16. apply Z.mod_small. lia. Qed.

Lemma fullbox_written_read {A} m t version flags c b
    (read : bmff.reader.Reader -> result A) v :
  appends 1 m (fullBoxBytes t version flags c) ->
  len t = 4 -> bmff.IsFullBox t = true ->
  12 + len c <= len b -> 12 + len c < 2 ^ 32 ->
  (forall r, bmff.reader.Version r = u8 version ->
             bmff.reader.Flags r = Z.land flags 16777215 ->
             bmff.reader.Data r = Ok c -> read r = Ok v) ->
  writtenThenRead m b t read v.
Proof.
  intros Hm Ht Hfull Hroom Hsize Hread.
  destruct (written_fullbox_read m t version flags c b Hm Ht Hfull Hroom
              Hsize) as (w & r & Hw & Hr & Hty & Hv & Hf & Hd).
  exists w, r. auto.
Qed.

(** Resolves the read at the head of a chain of reads. *)
Ltac step_read :=
  match goal with
  | |- bind ?rd _ = _ =>
      let H := fresh "Hrd" in
      eassert (H : rd = Ok _);
      [ read_in; reflexivity | rewrite H; clear H; cbn [bind] ]
  | |- ?rd = Ok _ => read_in
  end.

Lemma mvhd_written_read timescale duration nextTrackId b :
  isUint32 timescale -> isUint64 duration -> isUint32 nextTrackId ->
  120 <= len b ->
  writtenThenRead (bmff.WriteMvhd timescale duration nextTrackId) b
    bmff.TypeMvhd bmff.reader.ReadMvhd (timescale, duration, nextTrackId).
Proof.
  intros Hts Hdur Hnt Hb. unfold isUint32, isUint64 in *.
  unfold bmff.WriteMvhd, bmff.identityMatrix.
  destruct (duration >? uint32Max) eqn:E; zbool; cbn [app].
  - eapply fullbox_written_read;
      [ eapply (appends_fullbox_l 0);
        [snoc_split | reflexivity | lia | appends_fields]
      | reflexivity | reflexivity | lens; lia | lens; lia |].
    intros r Hv _ Hd. unfold bmff.reader.ReadMvhd. rewrite Hd, Hv.
    cbn [bind]. change (u8 1 =? 1) with true. cbv iota.
    repeat step_read.
    now rewrite !u32_id, u64_id by assumption.
  - eapply fullbox_written_read;
      [ eapply (appends_fullbox_l 0);
        [snoc_split | reflexivity | lia | appends_fields]
      | reflexivity | reflexivity | lens; lia | lens; lia |].
    intros r Hv _ Hd. unfold bmff.reader.ReadMvhd. rewrite Hd, Hv.
    cbn [bind]. change (u8 0 =? 1) with false. cbv iota.
    repeat step_read.
    rewrite u32_u32.
    now rewrite !u32_id by (unfold uint32Max in *; lia).
Qed.

(** A typed writer that writes one full box of fields: its bytes, and what
    is left to show is what the typed reader gets from them. *)
Ltac header_box :=
  eapply fullbox_written_read;
  [ eapply (appends_fullbox_l 0);
    [snoc_split | reflexivity | lia | appends_fields]
  | reflexivity | reflexivity | lens; lia | lens; lia |].

Lemma tkhd_written_read flags trackId duration width height b :
  isUint32 trackId -> isUint64 duration -> isUint32 width ->
  isUint32 height -> 120 <= len b ->
  writtenThenRead (bmff.WriteTkhd flags trackId duration width height) b
    bmff.TypeTkhd bmff.reader.ReadTkhd (trackId, duration, width, height).
Proof.
  intros Hid Hdur Hw Hh Hb. unfold isUint32, isUint64 in *.
  unfold bmff.WriteTkhd, bmff.identityMatrix.
  destruct (duration >? uint32Max) eqn:E; zbool; cbn [app]; header_box;
    intros r Hv _ Hd; unfold bmff.reader.ReadTkhd; rewrite Hd, Hv;
    cbn [bind].
  - change (u8 1 =? 1) with true. cbv iota. repeat step_read.
    now rewrite !u32_id, u64_id by assumption.
  - change (u8 0 =? 1) with false. cbv iota. repeat step_read.
    rewrite u32_u32.
    now rewrite !u32_id by (unfold uint32Max in *; lia).
Qed.

Lemma mdhd_written_read timescale duration language b :
  isUint32 timescale -> isUint64 duration -> isUint16 language ->
  120 <= len b ->
  writtenThenRead (bmff.WriteMdhd timescale duration language) b
    bmff.TypeMdhd bmff.reader.ReadMdhd (timescale, duration, language).
Proof.
  intros Hts Hdur Hl Hb. unfold isUint32, isUint64, isUint16 in *.
  unfold bmff.WriteMdhd.
  destruct (duration >? uint32Max) eqn:E; zbool; cbn [app]; header_box;
    intros r Hv _ Hd; unfold bmff.reader.ReadMdhd; rewrite Hd, Hv;
    cbn [bind].
  - change (u8 1 =? 1) with true. cbv iota. repeat step_read.
    now rewrite u32_id, u64_id, u16_id by assumption.
  - change (u8 0 =? 1) with false. cbv iota. repeat step_read.
    rewrite u32_u32, u16_id by assumption.
    now rewrite !u32_id by (unfold uint32Max in *; lia).
Qed.

(** X20.  The movie, track and media headers are read back as written:
    on the bytes that [WriteMvhd], [WriteTkhd] and [WriteMdhd] produce,
    [Reader.Next] finds the box and [ReadMvhd], [ReadTkhd] and [ReadMdhd]
    return the fields that were written, in the 32-bit layout when the
    duration fits in 32 bits and in the 64-bit layout when it does not. *)
Theorem movie_headers_round_trip
    timescale duration nextTrackId flags trackId width height language b :
  isUint32 timescale -> isUint64 duration -> isUint32 nextTrackId ->
  isUint32 trackId -> isUint32 width -> isUint32 height ->
  isUint16 language -> 120 <= len b ->
  writtenThenRead (bmff.WriteMvhd timescale duration nextTrackId) b
    bmff.TypeMvhd bmff.reader.ReadMvhd (timescale, duration, nextTrackId) /\
  writtenThenRead (bmff.WriteTkhd flags trackId duration width height) b
    bmff.TypeTkhd bmff.reader.ReadTkhd (trackId, duration, width, height) /\
  writtenThenRead (bmff.WriteMdhd timescale duration language) b
    bmff.TypeMdhd bmff.reader.ReadMdhd (timescale, duration, language).
Proof.
  intros. split; [now apply mvhd_written_read|].
  split; [now apply tkhd_written_read | now apply mdhd_written_read].
Qed.

Lemma movie_headers_round_trip_witness :
  writtenThenRead (bmff.WriteMvhd 90000 (2 ^ 33) 3) (repeat 0 120)
    bmff.TypeMvhd bmff.reader.ReadMvhd (90000, 2 ^ 33, 3) /\
  writtenThenRead (bmff.WriteTkhd 7 2 (2 ^ 33) 1280 720) (repeat 0 120)
    bmff.TypeTkhd bmff.reader.ReadTkhd (2, 2 ^ 33, 1280, 720) /\
  writtenThenRead (bmff.WriteMdhd 90000 (2 ^ 33) 21956) (repeat 0 120)
    bmff.TypeMdhd bmff.reader.ReadMdhd (90000, 2 ^ 33, 21956).
Proof.
  apply (movie_headers_round_trip 90000 (2 ^ 33) 3 7 2 1280 720 21956
           (repeat 0 120));
    unfold isUint32, isUint64, isUint16; try lia.
  vm_compute. discriminate.
Defined.

Lemma mehd_written_read fragmentDuration b :
  isUint64 fragmentDuration -> 24 <= len b ->
  writtenThenRead (bmff.WriteMehd fragmentDuration) b
    bmff.TypeMehd bmff.reader.ReadMehd fragmentDuration.
Proof.
  intros Hdur Hb. unfold isUint64 in *. unfold bmff.WriteMehd.
  destruct (fragmentDuration >? uint32Max) eqn:E; zbool; cbn [app];
    header_box;
    intros r Hv _ Hd; unfold bmff.reader.ReadMehd; rewrite Hd, Hv;
    cbn [bind].
  - change (u8 1 =? 1) with true. cbv iota. step_read.
    now rewrite u64_id by assumption.
  - change (u8 0 =? 1) with false. cbv iota. step_read.
    rewrite u32_u32.
    now rewrite !u32_id by (unfold uint32Max in *; lia).
Qed.

Lemma tfdt_written_read baseMediaDecodeTime b :
  isUint64 baseMediaDecodeTime -> 24 <= len b ->
  writtenThenRead (bmff.WriteTfdt baseMediaDecodeTime) b
    bmff.TypeTfdt bmff.reader.ReadTfdt baseMediaDecodeTime.
Proof.
  intros Hdur Hb. unfold isUint64 in *. unfold bmff.WriteTfdt.
  destruct (baseMediaDecodeTime >? uint32Max) eqn:E; zbool; cbn [app];
    header_box;
    intros r Hv _ Hd; unfold bmff.reader.ReadTfdt; rewrite Hd, Hv;
    cbn [bind].
  - change (u8 1 =? 1) with true. cbv iota. step_read.
    now rewrite u64_id by assumption.
  - change (u8 0 =? 1) with false. cbv iota. step_read.
    rewrite u32_u32.
    now rewrite !u32_id by (unfold uint32Max in *; lia).
Qed.

Lemma trex_written_read trackId descIdx defDuration defSize defFlags b :
  isUint32 trackId -> isUint32 descIdx -> isUint32 defDuration ->
  isUint32 defSize -> isUint32 defFlags -> 32 <= len b ->
  writtenThenRead
    (bmff.WriteTrex trackId descIdx defDuration defSize defFlags) b
    bmff.TypeTrex bmff.reader.ReadTrex
    (trackId, descIdx, defDuration, defSize, defFlags).
Proof.
  intros H1 H2 H3 H4 H5 Hb. unfold isUint32 in *. unfold bmff.WriteTrex.
  header_box.
  intros r Hv _ Hd; unfold bmff.reader.ReadTrex; rewrite Hd; cbn [bind].
  repeat step_read. now rewrite !u32_id by assumption.
Qed.

Lemma mfhd_written_read sequenceNumber b :
  isUint32 sequenceNumber -> 16 <= len b ->
  writtenThenRead (bmff.WriteMfhd sequenceNumber) b
    bmff.TypeMfhd bmff.reader.ReadMfhd sequenceNumber.
Proof.
  intros H1 Hb. unfold isUint32 in *. unfold bmff.WriteMfhd. header_box.
  intros r Hv _ Hd; unfold bmff.reader.ReadMfhd; rewrite Hd; cbn [bind].
  step_read. now rewrite !u32_id by assumption.
Qed.

Lemma tfhd_written_read flags trackId b :
  isUint32 trackId -> 16 <= len b ->
  writtenThenRead (bmff.WriteTfhd flags trackId) b
    bmff.TypeTfhd bmff.reader.ReadTfhd trackId.
Proof.
  intros H1 Hb. unfold isUint32 in *. unfold bmff.WriteTfhd. header_box.
  intros r Hv _ Hd; unfold bmff.reader.ReadTfhd; rewrite Hd; cbn [bind].
  step_read. now rewrite !u32_id by assumption.
Qed.

(** X21.  The headers of fragmented files are read back as written:
    [ReadMehd], [ReadTrex], [ReadMfhd], [ReadTfhd] and [ReadTfdt] return,
    from the box that [WriteMehd], [WriteTrex], [WriteMfhd], [WriteTfhd]
    and [WriteTfdt] produce, the fields that were written; the fragment
    duration and the decode time in 32 or in 64 bits, as they fit. *)
Theorem fragment_headers_round_trip
    fragmentDuration trackId descIdx defDuration defSize defFlags
    sequenceNumber flags baseMediaDecodeTime b :
  isUint64 fragmentDuration -> isUint32 trackId -> isUint32 descIdx ->
  isUint32 defDuration -> isUint32 defSize -> isUint32 defFlags ->
  isUint32 sequenceNumber -> isUint64 baseMediaDecodeTime ->
  32 <= len b ->
  writtenThenRead (bmff.WriteMehd fragmentDuration) b
    bmff.TypeMehd bmff.reader.ReadMehd fragmentDuration /\
  writtenThenRead
    (bmff.WriteTrex trackId descIdx defDuration defSize defFlags) b
    bmff.TypeTrex bmff.reader.ReadTrex
    (trackId, descIdx, defDuration, defSize, defFlags) /\
  writtenThenRead (bmff.WriteMfhd sequenceNumber) b
    bmff.TypeMfhd bmff.reader.ReadMfhd sequenceNumber /\
  writtenThenRead (bmff.WriteTfhd flags trackId) b
    bmff.TypeTfhd bmff.reader.ReadTfhd trackId /\
  writtenThenRead (bmff.WriteTfdt baseMediaDecodeTime) b
    bmff.TypeTfdt bmff.reader.ReadTfdt baseMediaDecodeTime.
Proof.
  intros. split; [apply mehd_written_read; [assumption|lia]|].
  split; [now apply trex_written_read|].
  split; [apply mfhd_written_read; [assumption|lia]|].
  split; [apply tfhd_written_read; [assumption|lia]|].
  apply tfdt_written_read; [assumption|lia].
Qed.

Lemma fragment_headers_round_trip_witness :
  writtenThenRead (bmff.WriteMehd (2 ^ 40)) (repeat 0 32)
    bmff.TypeMehd bmff.reader.ReadMehd (2 ^ 40) /\
  writtenThenRead (bmff.WriteTrex 1 1 1024 0 65536) (repeat 0 32)
    bmff.TypeTrex bmff.reader.ReadTrex (1, 1, 1024, 0, 65536) /\
  writtenThenRead (bmff.WriteMfhd 5) (repeat 0 32)
    bmff.TypeMfhd bmff.reader.ReadMfhd 5 /\
  writtenThenRead (bmff.WriteTfhd 131072 1) (repeat 0 32)
    bmff.TypeTfhd bmff.reader.ReadTfhd 1 /\
  writtenThenRead (bmff.WriteTfdt 90000) (repeat 0 32)
    bmff.TypeTfdt bmff.reader.ReadTfdt 90000.
Proof.
  apply (fragment_headers_round_trip (2 ^ 40) 1 1 1024 0 65536 5 131072
           90000 (repeat 0 32));
    unfold isUint32, isUint64; try lia.
  vm_compute. discriminate.
Defined.
